(** * mas-socket: request/response over a WebSocket transport

    A shallow embedding of [src/server.ts] (class [MasSocketServer]) and of
    the reconnection logic of [src/client-browser.ts] (class
    [MasSocketClinet]), with the properties of the pending-request tracker,
    the dispatch pipeline, the group registry and the retry state machine.

    Conventions of the embedding:
    - a JS [Map<string, V>] is a [gmap string V], a [Set<string>] is a
      [gset string], a [string[]] is a [list string]; the plain object
      [_groups] is a [gmap string (gset string)] of its own keys, and a
      lookup of a name it inherits from [Object.prototype] is written out
      where the source performs one;
    - the fields of the class and the pieces of the runtime the class talks
      to (sockets, timers, promises) live in one record [World] that every
      method threads explicitly;
    - a method that can [throw] returns a [Completion] next to the world it
      leaves behind. *)

From Stdlib Require Import ZArith Ascii String List Lia.
From stdpp Require Import base gmap sets list strings pretty.

Set Warnings "-clear-no-such-hyp".

Local Open Scope string_scope.
Local Open Scope Z_scope.
Local Open Scope list_scope.

(** ** JavaScript values, errors and completions *)

#[warnings="-register-all"]
Inductive JsValue :=
| JUndefined
| JNull
| JBool (b : bool)
| JNum (n : Z)
| JStr (s : string)
| JArr (items : list JsValue)
| JObj (fields : list (string * JsValue)).

Inductive JsError :=
| Error (message : string)
| TypeError (message : string)
| SyntaxError (message : string).

Inductive Completion (A : Type) :=
| Normal (a : A)
| Throw (e : JsError).
Arguments Normal {A} a.
Arguments Throw {A} e.

(** State of a promise: the first call of its [resolve] or [reject] wins. *)
Inductive Outcome :=
| Fulfilled (v : JsValue)
| Rejected (e : JsError).

(** ** [src/type.ts] *)

Record User := mkUser { user_id : string; user_groups : list string }.

Record Message := mkMessage { code : Z; data : JsValue; msg : string }.

(** A [Message] as the object literal [{ code, data, msg }]. *)
Definition message_value (m : Message) : JsValue :=
  JObj [("code", JNum (code m)); ("data", data m); ("msg", JStr (msg m))].

Record FetchConfig := mkFetchConfig {
  maxWait : option Z;
  hasReply : option bool;
  cfg_code : option Z;
  cfg_msg : option string }.

Inductive MessageType := type_event | type_reply | type_other.

(** [InternalMessage]; an absent optional field is [None].  [body] is typed
    [Message] in the source but holds whatever the peer or a handler put
    there, hence a [JsValue]. *)
Record InternalMessage := mkInternalMessage {
  msg_type : MessageType;
  msg_event : option string;
  msg_fetchId : option string;
  msg_body : JsValue;
  msg_header : option (list (string * string)) }.

(** [PendingFetch].  The closures [resolve], [reject] and the handle
    [timeout] of the source are determined by the fetch id under which the
    record is stored (see [pending_resolve], [pending_reject] and the field
    [timers] of [World]); the record keeps [clientId]. *)
Record PendingFetch := mkPendingFetch { pf_clientId : string }.

(** ** Handlers

    A middleware or event handler is user code.  What the server can observe
    of one invocation is the sequence of calls of the [reply] capability,
    with the arguments of each call site, interleaved with effects of its
    own, and whether the returned promise rejects. *)

Inductive HandlerAction :=
| CallReply (args : list JsValue)
| SideEffect (tag : string).

Record HandlerRun := mkRun { run_actions : list HandlerAction; run_throws : bool }.

Record HandlerArgs := mkArgs {
  arg_body : JsValue;
  arg_user : User;
  arg_fetchId : string;
  arg_header : list (string * string);
  arg_event : string }.

Definition EventHandler := HandlerArgs -> HandlerRun.

(** ** The server *)

Module Server.

Inductive ReadyState := CONNECTING | OPEN | CLOSING | CLOSED.

Global Instance ReadyState_eq_dec : EqDecision ReadyState.
Proof. solve_decision. Defined.

Record ClientConnection := mkConn { ws : nat; user : User }.

(** Stages of the dispatch pipeline, for the trace. *)
Inductive Stage := Middleware (i : nat) | Handler (i : nat).

Global Instance Stage_eq_dec : EqDecision Stage.
Proof. solve_decision. Defined.

Inductive TraceEvent :=
| Invoked (st : Stage)
| Effect (st : Stage) (tag : string)
| ConsoleError (text : string).

(** The fields of [MasSocketServer] (first block) and the runtime around it
    (second block): [sockets] is the [readyState] of every socket object,
    [wire] what [ws.send] transmitted, in order, [timers] the armed deadline
    timers by fetch id with their [maxWait], [settled] every call of the
    [resolve] or [reject] of a fetch promise, in order, and [trace] what the
    handlers did.  The cache [_cachedClientsList] is a copy of [clients] read
    by no method and is left out. *)
Record World := mkWorld {
  clients : gmap string ClientConnection;
  eventHandlers : gmap string (list EventHandler);
  middlewares : list EventHandler;
  pendingFetches : gmap string PendingFetch;
  clientPendingFetches : gmap string (gset string);
  fetchConfig : FetchConfig;
  maxMessageSize : Z;
  _groups : gmap string (gset string);

  sockets : gmap nat ReadyState;
  wire : list (nat * InternalMessage);
  timers : gmap string Z;
  settled : list (string * Outcome);
  trace : list TraceEvent }.

Definition set_clients (f : gmap string ClientConnection -> gmap string ClientConnection) (w : World) : World :=
  mkWorld (f (clients w)) (eventHandlers w) (middlewares w) (pendingFetches w)
    (clientPendingFetches w) (fetchConfig w) (maxMessageSize w) (_groups w)
    (sockets w) (wire w) (timers w) (settled w) (trace w).
Definition set_eventHandlers (f : gmap string (list EventHandler) -> gmap string (list EventHandler)) (w : World) : World :=
  mkWorld (clients w) (f (eventHandlers w)) (middlewares w) (pendingFetches w)
    (clientPendingFetches w) (fetchConfig w) (maxMessageSize w) (_groups w)
    (sockets w) (wire w) (timers w) (settled w) (trace w).
Definition set_middlewares (f : list EventHandler -> list EventHandler) (w : World) : World :=
  mkWorld (clients w) (eventHandlers w) (f (middlewares w)) (pendingFetches w)
    (clientPendingFetches w) (fetchConfig w) (maxMessageSize w) (_groups w)
    (sockets w) (wire w) (timers w) (settled w) (trace w).
Definition set_pendingFetches (f : gmap string PendingFetch -> gmap string PendingFetch) (w : World) : World :=
  mkWorld (clients w) (eventHandlers w) (middlewares w) (f (pendingFetches w))
    (clientPendingFetches w) (fetchConfig w) (maxMessageSize w) (_groups w)
    (sockets w) (wire w) (timers w) (settled w) (trace w).
Definition set_clientPendingFetches (f : gmap string (gset string) -> gmap string (gset string)) (w : World) : World :=
  mkWorld (clients w) (eventHandlers w) (middlewares w) (pendingFetches w)
    (f (clientPendingFetches w)) (fetchConfig w) (maxMessageSize w) (_groups w)
    (sockets w) (wire w) (timers w) (settled w) (trace w).
Definition set_groups (f : gmap string (gset string) -> gmap string (gset string)) (w : World) : World :=
  mkWorld (clients w) (eventHandlers w) (middlewares w) (pendingFetches w)
    (clientPendingFetches w) (fetchConfig w) (maxMessageSize w) (f (_groups w))
    (sockets w) (wire w) (timers w) (settled w) (trace w).
Definition set_sockets (f : gmap nat ReadyState -> gmap nat ReadyState) (w : World) : World :=
  mkWorld (clients w) (eventHandlers w) (middlewares w) (pendingFetches w)
    (clientPendingFetches w) (fetchConfig w) (maxMessageSize w) (_groups w)
    (f (sockets w)) (wire w) (timers w) (settled w) (trace w).
Definition set_wire (f : list (nat * InternalMessage) -> list (nat * InternalMessage)) (w : World) : World :=
  mkWorld (clients w) (eventHandlers w) (middlewares w) (pendingFetches w)
    (clientPendingFetches w) (fetchConfig w) (maxMessageSize w) (_groups w)
    (sockets w) (f (wire w)) (timers w) (settled w) (trace w).
Definition set_timers (f : gmap string Z -> gmap string Z) (w : World) : World :=
  mkWorld (clients w) (eventHandlers w) (middlewares w) (pendingFetches w)
    (clientPendingFetches w) (fetchConfig w) (maxMessageSize w) (_groups w)
    (sockets w) (wire w) (f (timers w)) (settled w) (trace w).
Definition set_settled (f : list (string * Outcome) -> list (string * Outcome)) (w : World) : World :=
  mkWorld (clients w) (eventHandlers w) (middlewares w) (pendingFetches w)
    (clientPendingFetches w) (fetchConfig w) (maxMessageSize w) (_groups w)
    (sockets w) (wire w) (timers w) (f (settled w)) (trace w).
Definition set_trace (f : list TraceEvent -> list TraceEvent) (w : World) : World :=
  mkWorld (clients w) (eventHandlers w) (middlewares w) (pendingFetches w)
    (clientPendingFetches w) (fetchConfig w) (maxMessageSize w) (_groups w)
    (sockets w) (wire w) (timers w) (settled w) (f (trace w)).

Definition set_fetchConfig (c : FetchConfig) (w : World) : World :=
  mkWorld (clients w) (eventHandlers w) (middlewares w) (pendingFetches w)
    (clientPendingFetches w) c (maxMessageSize w) (_groups w)
    (sockets w) (wire w) (timers w) (settled w) (trace w).
Definition set_maxMessageSize (n : Z) (w : World) : World :=
  mkWorld (clients w) (eventHandlers w) (middlewares w) (pendingFetches w)
    (clientPendingFetches w) (fetchConfig w) n (_groups w)
    (sockets w) (wire w) (timers w) (settled w) (trace w).

(** The object a fresh [new MasSocketServer()] is, in an empty runtime. *)
Definition init : World :=
  mkWorld ∅ ∅ [] ∅ ∅
    (mkFetchConfig (Some 10000) (Some true) (Some 200) (Some "success"))
    (1024 * 1024) ∅
    ∅ [] ∅ [] [].

(** [sendMessage]: transmit only on an open socket. *)
Definition sendMessage (sock : nat) (message : InternalMessage) (w : World) : World :=
  if decide (sockets w !! sock = Some OPEN)
  then set_wire (fun l => l ++ [(sock, message)]) w
  else w.

(** [clearTimeout(pending.timeout)] for the request stored under [fetchId]. *)
Definition clearTimeout (fetchId : string) (w : World) : World :=
  set_timers (delete fetchId) w.

(** The [resolve] and [reject] of the promise created for [fetchId]. *)
Definition promise_resolve (fetchId : string) (value : JsValue) (w : World) : World :=
  set_settled (fun l => l ++ [(fetchId, Fulfilled value)]) w.
Definition promise_reject (fetchId : string) (reason : JsError) (w : World) : World :=
  set_settled (fun l => l ++ [(fetchId, Rejected reason)]) w.

(** The closures stored in a [PendingFetch]:
    [resolve: (value) => { clearTimeout(timeout); resolve(value) }] and
    [reject: (reason) => { clearTimeout(timeout); reject(reason) }]. *)
Definition pending_resolve (fetchId : string) (value : JsValue) (w : World) : World :=
  promise_resolve fetchId value (clearTimeout fetchId w).
Definition pending_reject (fetchId : string) (reason : JsError) (w : World) : World :=
  promise_reject fetchId reason (clearTimeout fetchId w).

(** [clientPendingSet.delete(fetchId)] followed by the removal of the set
    once it is empty: the cleanup of the reverse index shared by the reply
    branch of [handleMessage] and by the deadline callback of [fetch]. *)
Definition unindex (clientId fetchId : string) (w : World) : World :=
  match clientPendingFetches w !! clientId with
  | Some clientPendingSet =>
      let clientPendingSet' := clientPendingSet ∖ {[fetchId]} in
      if decide (size clientPendingSet' = 0%nat)
      then set_clientPendingFetches (delete clientId) w
      else set_clientPendingFetches (<[clientId := clientPendingSet']>) w
  | None => w
  end.

(** *** [cleanupClient] *)

Definition cleanup_fetch (w : World) (fetchId : string) : World :=
  match pendingFetches w !! fetchId with
  | Some pending =>
      let w1 := clearTimeout fetchId w in
      let w2 := pending_reject fetchId (Error "Client disconnected") w1 in
      set_pendingFetches (delete fetchId) w2
  | None => w
  end.

(** [_groups] is a plain object, [{}]: reading [this._groups[name]] for a
    name that [Object.prototype] defines finds the inherited property, a
    function or [Object.prototype] itself, which is truthy, is no [Set] and
    is not iterable.  These are the names the runtime defines there. *)
Definition Object_prototype : list string :=
  [ "constructor"; "__defineGetter__"; "__defineSetter__"; "hasOwnProperty";
    "__lookupGetter__"; "__lookupSetter__"; "isPrototypeOf"; "propertyIsEnumerable";
    "toString"; "valueOf"; "__proto__"; "toLocaleString" ].

Definition inherited (name : string) : bool := bool_decide (name ∈ Object_prototype).

Definition not_a_function (what : string) : JsError :=
  TypeError (what +:+ " is not a function").

(** One round of the loop over [user.groups], for a name that is not
    inherited. *)
Definition cleanup_group (clientId : string) (w : World) (group : string) : World :=
  match _groups w !! group with
  | Some groupMembers =>
      let groupMembers' := groupMembers ∖ {[clientId]} in
      if decide (size groupMembers' = 0%nat)
      then set_groups (delete group) w
      else set_groups (<[group := groupMembers']>) w
  | None => w
  end.

Fixpoint cleanup_groups (clientId : string) (groups : list string) (w : World)
    : Completion () * World :=
  match groups with
  | [] => (Normal (), w)
  | group :: rest =>
      if inherited group
      then (Throw (not_a_function "groupMembers.delete"), w)
      else cleanup_groups clientId rest (cleanup_group clientId w group)
  end.

Definition cleanupClient (clientId : string) (w : World) : Completion () * World :=
  match clients w !! clientId with
  | None => (Normal (), w)
  | Some connection =>
      let w1 :=
        match clientPendingFetches w !! clientId with
        | Some pendingFetchIds =>
            set_clientPendingFetches (delete clientId)
              (foldl cleanup_fetch w (elements pendingFetchIds))
        | None => w
        end in
      match cleanup_groups clientId (user_groups (user connection)) w1 with
      | (Normal _, w2) => (Normal (), set_clients (delete clientId) w2)
      | (Throw e, w2) => (Throw e, w2)
      end
  end.

(** *** [addGroup] and [removeGroup] *)

(** [Array.prototype.indexOf]: the first index of [x], or [-1]. *)
Fixpoint indexOf (x : string) (l : list string) : Z :=
  match l with
  | [] => -1
  | y :: l' =>
      if decide (y = x) then 0
      else let i := indexOf x l' in if decide (i = -1) then -1 else i + 1
  end.

Definition not_found (id : string) : JsError :=
  Error ("Client " +:+ id +:+ " not found").

Definition addGroup (group id : string) (w : World) : Completion () * World :=
  match clients w !! id with
  | None => (Throw (not_found id), w)
  | Some _ =>
    if inherited group then (Throw (not_a_function "this._groups[group].add"), w)
    else
      let members := default ∅ (_groups w !! group) in
      let w1 := set_groups (<[group := members ∪ {[id]}]>) w in
      match clients w1 !! id with
      | Some connection =>
          let u := user connection in
          if decide (group ∈ user_groups u)
          then (Normal (), w1)
          else
            let u' := mkUser (user_id u) (user_groups u ++ [group]) in
            (Normal (), set_clients (<[id := mkConn (ws connection) u']>) w1)
      | None => (Normal (), w1)
      end
  end.

Definition removeGroup (group id : string) (w : World) : Completion () * World :=
  match clients w !! id with
  | None => (Throw (not_found id), w)
  | Some _ =>
    if inherited group then (Throw (not_a_function "this._groups[group].delete"), w)
    else
      let w1 :=
        match _groups w !! group with
        | Some members =>
            let members' := members ∖ {[id]} in
            if decide (size members' = 0%nat)
            then set_groups (delete group) w
            else set_groups (<[group := members']>) w
        | None => w
        end in
      match clients w1 !! id with
      | Some connection =>
          let u := user connection in
          let userGroupIndex := indexOf group (user_groups u) in
          if decide (userGroupIndex > -1)
          then
            let u' := mkUser (user_id u) (delete (Z.to_nat userGroupIndex) (user_groups u)) in
            (Normal (), set_clients (<[id := mkConn (ws connection) u']>) w1)
          else (Normal (), w1)
      | None => (Normal (), w1)
      end
  end.

(** *** [handleMessage] *)

(** What [JSON.parse(rawMessage) as InternalMessage] followed by the
    destructuring [const { type, event, fetchId = '', body, header = {} } =
    message] can do: [JSON.parse] throws a [SyntaxError], or it returns
    [null], on which the destructuring throws, or it returns a value whose
    fields are read. *)
Inductive ParseResult :=
| parse_SyntaxError
| parse_null
| parse_ok (message : InternalMessage).

(** JS truthiness of a string. *)
Definition truthy (s : string) : bool := negb (String.eqb s "").

Definition too_large (w : World) : InternalMessage :=
  mkInternalMessage type_reply None None
    (message_value (mkMessage 413 JNull
       ("Message too large. Maximum size is " +:+ pretty (maxMessageSize w) +:+ " bytes")))
    None.

Definition invalid_format : InternalMessage :=
  mkInternalMessage type_reply None None
    (message_value (mkMessage 400 JNull "Invalid message format")) None.

(** The closure [reply = (data) => { if (replied) return; replied = true;
    this.sendMessage(ws, { type: 'reply', fetchId, body: data }) }], applied
    to the arguments of a call site: [data] is the first argument
    ([undefined] when there is none), further arguments are dropped.  The
    flag [replied] is the first component of the pair. *)
Definition reply (sock : nat) (fetchId : string) (args : list JsValue)
    (st : bool * World) : bool * World :=
  if st.1 then st
  else
    let data := default JUndefined (head args) in
    (true, sendMessage sock (mkInternalMessage type_reply None (Some fetchId) data None) st.2).

Definition exec_action (sock : nat) (fetchId : string) (stage : Stage)
    (st : bool * World) (a : HandlerAction) : bool * World :=
  match a with
  | CallReply args => reply sock fetchId args st
  | SideEffect tag => (st.1, set_trace (fun t => t ++ [Effect stage tag]) st.2)
  end.

(** [await handler({ reply, body, user, fetchId, header, event })]: the
    world after the call, and whether it threw. *)
Definition invoke (sock : nat) (fetchId : string) (stage : Stage)
    (handler : EventHandler) (args : HandlerArgs) (st : bool * World)
    : (bool * World) * bool :=
  let run := handler args in
  let st0 := (st.1, set_trace (fun t => t ++ [Invoked stage]) st.2) in
  (foldl (exec_action sock fetchId stage) st0 (run_actions run), run_throws run).

(** How one of the two [for] loops of the pipeline ends: it runs out of
    handlers or breaks ([Completed]), or its [catch] block returns from
    [handleMessage] ([Returned]). *)
Inductive LoopExit := Completed | Returned.

Fixpoint run_stages (mk : nat -> Stage) (console errorMsg : string)
    (sock : nat) (fetchId : string) (args : HandlerArgs)
    (i : nat) (handlers : list EventHandler) (st : bool * World)
    : LoopExit * (bool * World) :=
  match handlers with
  | [] => (Completed, st)
  | handler :: rest =>
      if st.1 then (Completed, st)
      else
        let '(st1, threw) := invoke sock fetchId (mk i) handler args st in
        if threw then
          let st2 := (st1.1, set_trace (fun t => t ++ [ConsoleError console]) st1.2) in
          let st3 :=
            if st2.1 then st2
            else reply sock fetchId [message_value (mkMessage 500 JNull errorMsg)] st2 in
          (Returned, st3)
        else run_stages mk console errorMsg sock fetchId args (S i) rest st1
  end.

Definition no_handler (event : string) : JsValue :=
  message_value (mkMessage 404 JNull ("No handler for event: " +:+ event)).

(** The branch [if (type === 'event' && event)]. *)
Definition dispatch (sock : nat) (u : User) (event fetchId : string)
    (body : JsValue) (header : list (string * string)) (w : World) : World :=
  let args := mkArgs body u fetchId header event in
  let '(exit1, st1) :=
    run_stages Middleware "Middleware error:" "Middleware error"
      sock fetchId args 0 (middlewares w) (false, w) in
  match exit1 with
  | Returned => st1.2
  | Completed =>
      if st1.1 then st1.2
      else
        let handlers := default [] (eventHandlers st1.2 !! event) in
        let '(exit2, st2) :=
          run_stages Handler ("Event handler error for " +:+ event +:+ ":") "Handler error"
            sock fetchId args 0 handlers st1 in
        match exit2 with
        | Returned => st2.2
        | Completed =>
            if negb st2.1 && truthy fetchId
            then (reply sock fetchId [no_handler event] st2).2
            else st2.2
        end
  end.

(** The branch [if (type === 'reply' && fetchId)]. *)
Definition resolve_pending (fetchId : string) (body : JsValue) (w : World) : World :=
  match pendingFetches w !! fetchId with
  | Some pending =>
      let w1 := clearTimeout fetchId w in
      let w2 := set_pendingFetches (delete fetchId) w1 in
      let w3 := unindex (pf_clientId pending) fetchId w2 in
      pending_resolve fetchId body w3
  | None => w
  end.

Section HandleMessage.

(** [JSON.parse] is the runtime's; [rawMessage] is the text of the frame as
    its UTF-8 bytes, so that [Buffer.byteLength(rawMessage, 'utf8')] is its
    length. *)
Variable JSON_parse : string -> ParseResult.

Definition handleMessage (sock : nat) (u : User) (rawMessage : string) (w : World)
    : Completion () * World :=
  let messageSize := Z.of_nat (String.length rawMessage) in
  if decide (messageSize > maxMessageSize w)
  then (Normal (), sendMessage sock (too_large w) w)
  else
    match JSON_parse rawMessage with
    | parse_SyntaxError => (Normal (), sendMessage sock invalid_format w)
    | parse_null =>
        (Throw (TypeError "Cannot destructure property 'type' of 'message' as it is null."), w)
    | parse_ok message =>
        let fetchId := default "" (msg_fetchId message) in
        let body := msg_body message in
        let header := default [] (msg_header message) in
        match msg_type message, msg_event message with
        | type_reply, _ =>
            if truthy fetchId
            then (Normal (), resolve_pending fetchId body w)
            else (Normal (), w)
        | type_event, Some event =>
            if truthy event
            then (Normal (), dispatch sock u event fetchId body header w)
            else (Normal (), w)
        | _, _ => (Normal (), w)
        end
    end.

End HandleMessage.

(** *** [fetch] and [fetchByGroup] *)

(** One element of the array [promises]: [Promise.reject(new Error(...))],
    or the [new Promise] whose continuations are stored under [fetchId]. *)
Inductive TargetPromise :=
| RejectedNow (e : JsError)
| Awaiting (fetchId : string).

(** What the [async] function returns, or what it throws. *)
Inductive FetchResult :=
| Throws (e : JsError)
| ReturnUndefined
| ReturnEmpty
| ReturnOne (promise : TargetPromise)
| ReturnAll (promises : list TargetPromise).

Inductive Target := One (id : string) | Many (ids : list string).

Definition target_ids (id : Target) : list string :=
  match id with One i => [i] | Many ids => ids end.

(** [{ ...this.fetchConfig, ...config }] read field by field. *)
Definition merged {A} (field : FetchConfig -> option A) (w : World)
    (config : option FetchConfig) : option A :=
  match config ≫= field with
  | Some v => Some v
  | None => field (fetchConfig w)
  end.

Definition final_maxWait w config : Z := default 10000 (merged maxWait w config).
Definition final_hasReply w config : bool := default true (merged hasReply w config).
Definition final_code w config : Z := default 200 (merged cfg_code w config).
Definition final_msg w config : string := default "success" (merged cfg_msg w config).

Definition event_message (event : string) (fetchId : option string)
    (code : Z) (data : JsValue) (msg : string) : InternalMessage :=
  mkInternalMessage type_event (Some event) fetchId
    (message_value (mkMessage code data msg)) None.

(** The loop of the branch [if (!hasReply)]. *)
Definition notify (event : string) (code : Z) (data : JsValue) (msg : string)
    (w : World) (clientId : string) : World :=
  match clients w !! clientId with
  | Some connection => sendMessage (ws connection) (event_message event None code data msg) w
  | None => w
  end.

(** The executor of [new Promise((resolve, reject) => ...)]: arm the
    deadline, store the record, extend the reverse index. *)
Definition register (clientId fetchId : string) (maxWait : Z) (w : World) : World :=
  let w1 := set_timers (<[fetchId := maxWait]>) w in
  let w2 := set_pendingFetches (<[fetchId := mkPendingFetch clientId]>) w1 in
  set_clientPendingFetches
    (fun m => <[clientId := default ∅ (m !! clientId) ∪ {[fetchId]}]> m) w2.

(** The loop that fills [promises]; [uuid k] is what the [k]-th call of
    [generateFetchId] of this invocation returns. *)
Fixpoint fetch_loop (uuid : nat -> string) (k : nat) (event : string)
    (code : Z) (data : JsValue) (msg : string) (maxWait : Z)
    (ids : list string) (w : World) : list TargetPromise * World :=
  match ids with
  | [] => ([], w)
  | clientId :: rest =>
      match clients w !! clientId with
      | None =>
          let '(promises, w') := fetch_loop uuid k event code data msg maxWait rest w in
          (RejectedNow (not_found clientId) :: promises, w')
      | Some connection =>
          let fetchId := uuid k in
          let w1 := register clientId fetchId maxWait w in
          let w2 := sendMessage (ws connection)
                      (event_message event (Some fetchId) code data msg) w1 in
          let '(promises, w') :=
            fetch_loop uuid (S k) event code data msg maxWait rest w2 in
          (Awaiting fetchId :: promises, w')
      end
  end.

Definition fetch (uuid : nat -> string) (id : Target) (event : string)
    (data : JsValue) (config : option FetchConfig) (w : World) : FetchResult * World :=
  let ids := target_ids id in
  let maxWait := final_maxWait w config in
  let code := final_code w config in
  let msg := final_msg w config in
  if negb (final_hasReply w config)
  then (ReturnUndefined, foldl (notify event code data msg) w ids)
  else
    let '(promises, w') := fetch_loop uuid 0 event code data msg maxWait ids w in
    match promises with
    | [promise] => (ReturnOne promise, w')
    | _ => (ReturnAll promises, w')
    end.

(** The deadline callback passed to [setTimeout] in [fetch]. *)
Definition on_timeout (fetchId : string) (maxWait : Z) (w : World) : World :=
  let w1 :=
    match pendingFetches w !! fetchId with
    | Some pending => unindex (pf_clientId pending) fetchId w
    | None => w
    end in
  let w2 := set_pendingFetches (delete fetchId) w1 in
  promise_reject fetchId (Error ("Request timeout after " +:+ pretty maxWait +:+ "ms")) w2.

(** The runtime firing the deadline timer of [fetchId], if it is armed. *)
Definition fire_timer (fetchId : string) (w : World) : World :=
  match timers w !! fetchId with
  | Some maxWait => on_timeout fetchId maxWait (set_timers (delete fetchId) w)
  | None => w
  end.

(** The members of the named groups, as [fetchByGroup] and [closeByGroups]
    collect them into [clientIds]. *)
Fixpoint collect (groups : list string) (w : World) (clientIds : gset string)
    : Completion (gset string) :=
  match groups with
  | [] => Normal clientIds
  | groupName :: rest =>
      if inherited groupName then Throw (TypeError "members is not iterable")
      else collect rest w (clientIds ∪ default ∅ (_groups w !! groupName))
  end.

Definition fetchByGroup (uuid : nat -> string) (group : Target) (event : string)
    (data : JsValue) (config : option FetchConfig) (w : World) : FetchResult * World :=
  match collect (target_ids group) w ∅ with
  | Throw e => (Throws e, w)
  | Normal clientIds =>
      if decide (size clientIds = 0%nat)
      then (ReturnEmpty, w)
      else fetch uuid (Many (elements clientIds)) event data config w
  end.

(** *** [close], [closeByGroups], [closeAll], [on], [use] *)

(** [ws.close()]: an open or connecting socket starts its closing
    handshake. *)
Definition ws_close (sock : nat) (w : World) : World :=
  match sockets w !! sock with
  | Some OPEN | Some CONNECTING => set_sockets (<[sock := CLOSING]>) w
  | _ => w
  end.

(** The loop of [close] and of [closeAll]: an exception leaves it. *)
Fixpoint close_loop (ids : list string) (w : World) : Completion () * World :=
  match ids with
  | [] => (Normal (), w)
  | id :: rest =>
      match clients w !! id with
      | Some connection =>
          match cleanupClient id (ws_close (ws connection) w) with
          | (Normal _, w') => close_loop rest w'
          | (Throw e, w') => (Throw e, w')
          end
      | None => close_loop rest w
      end
  end.

Definition close (ids : Target) (w : World) : Completion () * World :=
  close_loop (target_ids ids) w.

Definition closeByGroups (groups : list string) (w : World) : Completion () * World :=
  match collect groups w ∅ with
  | Throw e => (Throw e, w)
  | Normal clientIds => close (Many (elements clientIds)) w
  end.

Definition closeAll (w : World) : Completion () * World :=
  close_loop (elements (dom (clients w))) w.

Definition on (event : string) (handler : EventHandler) (w : World) : World :=
  set_eventHandlers
    (fun m => <[event := default [] (m !! event) ++ [handler]]> m) w.

Definition use (handler : EventHandler) (w : World) : World :=
  set_middlewares (fun l => l ++ [handler]) w.

(** The listener of the ['connection'] event installed by [bind]:
    [clientId] is what [randomUUID()] returned and [sock] the new socket. *)
Definition on_connection (clientId : string) (sock : nat) (w : World) : World :=
  let w0 := set_sockets (<[sock := OPEN]>) w in
  let w1 := set_clients (<[clientId := mkConn sock (mkUser clientId [])]>) w0 in
  sendMessage sock
    (mkInternalMessage type_event (Some "_system_id") None
       (message_value (mkMessage 200 (JObj [("id", JStr clientId)]) "Connection established"))
       None) w1.

(** The listeners of the ['close'] and ['error'] events of a socket. *)
Definition on_socket_closed (clientId : string) (sock : nat) (w : World) : World :=
  (cleanupClient clientId (set_sockets (<[sock := CLOSED]>) w)).2.

(** *** The server as a transition system

    One [Input] is one turn of the event loop: a transport event, a timer,
    or a call of the public interface by the application. *)

Inductive Input :=
| Connection (clientId : string) (sock : nat)
| MessageIn (sock : nat) (u : User) (rawMessage : string)
| SocketClosed (clientId : string) (sock : nat)
| TimerFired (fetchId : string)
| CallFetch (uuid : nat -> string) (id : Target) (event : string)
    (data : JsValue) (config : option FetchConfig)
| CallFetchByGroup (uuid : nat -> string) (group : Target) (event : string)
    (data : JsValue) (config : option FetchConfig)
| CallAddGroup (group id : string)
| CallRemoveGroup (group id : string)
| CallClose (ids : Target)
| CallCloseByGroups (groups : list string)
| CallCloseAll
| CallOn (event : string) (handler : EventHandler)
| CallUse (handler : EventHandler)
| AssignFetchConfig (config : FetchConfig)
| AssignMaxMessageSize (n : Z).

(** Identifiers drawn by [randomUUID] are new: the ids of one call of
    [fetch] differ from each other and from every id used before. *)
Definition fresh_uuids (uuid : nat -> string) (w : World) : Prop :=
  (∀ i j : nat, uuid i = uuid j → i = j) ∧
  ∀ k : nat, pendingFetches w !! uuid k = None ∧ uuid k ∉ (settled w).*1.

Definition admissible (i : Input) (w : World) : Prop :=
  match i with
  | Connection clientId sock =>
      clients w !! clientId = None ∧ sockets w !! sock = None
  | CallFetch uuid _ _ _ _ | CallFetchByGroup uuid _ _ _ _ => fresh_uuids uuid w
  | _ => True
  end.

Section Transitions.

Variable JSON_parse : string -> ParseResult.

Definition step (i : Input) (w : World) : World :=
  match i with
  | Connection clientId sock => on_connection clientId sock w
  | MessageIn sock u rawMessage => (handleMessage JSON_parse sock u rawMessage w).2
  | SocketClosed clientId sock => on_socket_closed clientId sock w
  | TimerFired fetchId => fire_timer fetchId w
  | CallFetch uuid id event data config => (fetch uuid id event data config w).2
  | CallFetchByGroup uuid group event data config =>
      (fetchByGroup uuid group event data config w).2
  | CallAddGroup group id => (addGroup group id w).2
  | CallRemoveGroup group id => (removeGroup group id w).2
  | CallClose ids => (close ids w).2
  | CallCloseByGroups groups => (closeByGroups groups w).2
  | CallCloseAll => (closeAll w).2
  | CallOn event handler => on event handler w
  | CallUse handler => use handler w
  | AssignFetchConfig config => set_fetchConfig config w
  | AssignMaxMessageSize n => set_maxMessageSize n w
  end.

Inductive reachable : World -> Prop :=
| reachable_init : reachable init
| reachable_step i w : reachable w -> admissible i w -> reachable (step i w).

End Transitions.

(** *** Observing promises *)

(** The state of the promise of [fetchId]: the first entry of the log. *)
Fixpoint first_outcome (fetchId : string) (log : list (string * Outcome)) : option Outcome :=
  match log with
  | [] => None
  | (f, o) :: log' => if decide (f = fetchId) then Some o else first_outcome fetchId log'
  end.

Definition promise_state (w : World) (p : TargetPromise) : option Outcome :=
  match p with
  | RejectedNow e => Some (Rejected e)
  | Awaiting fetchId => first_outcome fetchId (settled w)
  end.

Definition awaited (ps : list TargetPromise) : list string :=
  omap (fun p => match p with Awaiting f => Some f | RejectedNow _ => None end) ps.

Definition rejected_now (ps : list TargetPromise) : list JsError :=
  omap (fun p => match p with RejectedNow e => Some e | Awaiting _ => None end) ps.

(** The earliest rejection, in time, among the promises of [ids]: the log
    is scanned in order and only the first entry of each id counts. *)
Fixpoint first_rejection (ids seen : list string) (log : list (string * Outcome))
    : option JsError :=
  match log with
  | [] => None
  | (f, o) :: log' =>
      if decide (f ∈ seen) then first_rejection ids seen log'
      else
        match o with
        | Rejected e =>
            if decide (f ∈ ids) then Some e else first_rejection ids (f :: seen) log'
        | Fulfilled _ => first_rejection ids (f :: seen) log'
        end
  end.

Fixpoint all_fulfilled (w : World) (ps : list TargetPromise) : option (list JsValue) :=
  match ps with
  | [] => Some []
  | p :: ps' =>
      match promise_state w p, all_fulfilled w ps' with
      | Some (Fulfilled v), Some vs => Some (v :: vs)
      | _, _ => None
      end
  end.

(** The state of [Promise.all(ps)]: rejected with the reason of the input
    that rejected first (the inputs rejected on creation come first, in
    index order), fulfilled with the array of values once every input is
    fulfilled, pending otherwise. *)
Definition promise_all_state (w : World) (ps : list TargetPromise) : option Outcome :=
  match rejected_now ps with
  | e :: _ => Some (Rejected e)
  | [] =>
      match first_rejection (awaited ps) [] (settled w) with
      | Some e => Some (Rejected e)
      | None => (fun vs => Fulfilled (JArr vs)) <$> all_fulfilled w ps
      end
  end.

(** The promise [p] is fulfilled with [v]. *)
Definition fulfilled_with (w : World) (p : TargetPromise) (v : JsValue) : Prop :=
  promise_state w p = Some (Fulfilled v).

(** The state of the promise that the [async] function [fetch] returned. *)
Definition result_state (w : World) (r : FetchResult) : option Outcome :=
  match r with
  | Throws e => Some (Rejected e)
  | ReturnUndefined => Some (Fulfilled JUndefined)
  | ReturnEmpty => Some (Fulfilled (JArr []))
  | ReturnOne p => promise_state w p
  | ReturnAll ps => promise_all_state w ps
  end.

(** *** Vocabulary of the statements *)

(** Everything but what was transmitted and what the handlers did. *)
Definition frame (w : World) :=
  (clients w, eventHandlers w, middlewares w, pendingFetches w,
   clientPendingFetches w, fetchConfig w, maxMessageSize w, _groups w,
   sockets w, timers w, settled w).

Definition is_reply_call (a : HandlerAction) : bool :=
  match a with CallReply _ => true | SideEffect _ => false end.

Definition calls_reply (run : HandlerRun) : bool :=
  existsb is_reply_call (run_actions run).

(** A handler invocation that neither replies nor throws. *)
Definition quiet (args : HandlerArgs) (handler : EventHandler) : Prop :=
  calls_reply (handler args) = false ∧ run_throws (handler args) = false.

(** The stage was entered, or one of its effects happened. *)
Definition ran (tr : list TraceEvent) (s : Stage) : Prop :=
  Invoked s ∈ tr ∨ ∃ tag, Effect s tag ∈ tr.

(** The middlewares, then the handlers registered for [event], in the order
    in which the pipeline would call them. *)
Definition pipeline_stages (w : World) (event : string) : list (Stage * EventHandler) :=
  imap (fun i h => (Middleware i, h)) (middlewares w)
  ++ imap (fun i h => (Handler i, h)) (default [] (eventHandlers w !! event)).

Definition args_of (u : User) (message : InternalMessage) (event : string) : HandlerArgs :=
  mkArgs (msg_body message) u (default "" (msg_fetchId message))
    (default [] (msg_header message)) event.

Definition effects_of (stage : Stage) (acts : list HandlerAction) : list TraceEvent :=
  omap (fun a => match a with
                 | SideEffect tag => Some (Effect stage tag)
                 | CallReply _ => None
                 end) acts.

Definition reply_envelope (fetchId : string) (body : JsValue) : InternalMessage :=
  mkInternalMessage type_reply None (Some fetchId) body None.

(** *** Invariants of the reachable worlds *)

(** What the invariants below read. *)
Definition core (w : World) :=
  (clients w, pendingFetches w, clientPendingFetches w, timers w, settled w, _groups w).

(** The pending-request tracker: the map [pendingFetches] and the reverse
    index [clientPendingFetches] describe the same requests, every stored
    request has an armed deadline and a connected owner, and a request is
    settled at most once, after which it is stored no more. *)
Record tracker_inv (w : World) : Prop := {
  inv_indexed : ∀ fetchId pending,
    pendingFetches w !! fetchId = Some pending ->
    ∃ ids, clientPendingFetches w !! pf_clientId pending = Some ids ∧ fetchId ∈ ids;
  inv_index_sound : ∀ clientId ids fetchId,
    clientPendingFetches w !! clientId = Some ids -> fetchId ∈ ids ->
    pendingFetches w !! fetchId = Some (mkPendingFetch clientId);
  inv_timers : ∀ fetchId,
    is_Some (timers w !! fetchId) <-> is_Some (pendingFetches w !! fetchId);
  inv_settled_once : NoDup (settled w).*1;
  inv_settled_gone : ∀ fetchId,
    fetchId ∈ (settled w).*1 -> pendingFetches w !! fetchId = None;
  inv_owner_live : ∀ fetchId pending,
    pendingFetches w !! fetchId = Some pending ->
    is_Some (clients w !! pf_clientId pending) }.

(** The group registry: the members of a group are connected clients that
    list the group, a client is a member of the groups it lists, no group is
    empty or stored under an inherited name, and no client lists a group
    twice. *)
Record groups_inv (w : World) : Prop := {
  inv_member_listed : ∀ group members id,
    _groups w !! group = Some members -> id ∈ members ->
    ∃ connection, clients w !! id = Some connection ∧ group ∈ user_groups (user connection);
  inv_listed_member : ∀ id connection group,
    clients w !! id = Some connection -> group ∈ user_groups (user connection) ->
    ∃ members, _groups w !! group = Some members ∧ id ∈ members;
  inv_nonempty : ∀ group members, _groups w !! group = Some members -> members ≠ ∅;
  inv_own : ∀ group members, _groups w !! group = Some members -> inherited group = false;
  inv_nodup : ∀ id connection,
    clients w !! id = Some connection -> NoDup (user_groups (user connection)) }.

Definition consistent (w : World) : Prop := tracker_inv w ∧ groups_inv w.

(** Freshness of the ids [uuid k], [uuid (k + 1)], ... *)
Definition fresh_from (uuid : nat -> string) (k : nat) (w : World) : Prop :=
  ∀ j, (k ≤ j)%nat ->
    pendingFetches w !! uuid j = None ∧ uuid j ∉ (settled w).*1.

(** No trace of the request is left in the tracker, and its deadline is
    disarmed. *)
Definition gone (fetchId : string) (w : World) : Prop :=
  pendingFetches w !! fetchId = None ∧
  timers w !! fetchId = None ∧
  ∀ clientId ids, clientPendingFetches w !! clientId = Some ids -> fetchId ∉ ids.

(** The calls of the [resolve] or [reject] of the promise of [fetchId]. *)
Definition settlements (fetchId : string) (w : World) : list (string * Outcome) :=
  filter (fun e => e.1 = fetchId) (settled w).

Definition timed_out (maxWait : Z) : JsError :=
  Error ("Request timeout after " +:+ pretty maxWait +:+ "ms").

(** The members of a group, [∅] for a group that does not exist. *)
Definition membersOf (group : string) (w : World) : gset string :=
  default ∅ (_groups w !! group).

(** What is left of a member set once [id] left it: nothing if it is empty. *)
Definition without (id : string) (members : gset string) : option (gset string) :=
  if decide (size (members ∖ {[id]}) = 0%nat) then None else Some (members ∖ {[id]}).

Definition disconnected : JsError := Error "Client disconnected".

(** The two indices of the group registry agree on every connected client. *)
Definition indices_agree (w : World) : Prop :=
  ∀ id connection group,
    clients w !! id = Some connection ->
    id ∈ membersOf group w <-> group ∈ user_groups (user connection).

(** *** Sample handlers, frames and worlds *)

(** The authentication middleware of the README:
    [if (token && token !== 'valid-token') { reply(null, 401, 'Unauthorized'); return; }]. *)
Definition auth_middleware : EventHandler := fun args =>
  match list_find (fun kv => kv.1 = "authorization") (arg_header args) with
  | Some (_, (_, token)) =>
      if truthy token && negb (String.eqb token "valid-token")
      then mkRun [CallReply [JNull; JNum 401; JStr "Unauthorized"]] false
      else mkRun [] false
  | None => mkRun [] false
  end.

Definition log_middleware : EventHandler := fun _ =>
  mkRun [SideEffect "log"] false.

(** A handler that counts its calls and echoes the body. *)
Definition echo_handler : EventHandler := fun args =>
  mkRun [SideEffect "count"; CallReply [arg_body args]] false.

(** A handler that throws before it replies. *)
Definition failing_handler : EventHandler := fun _ =>
  mkRun [SideEffect "started"] true.

Definition quote : string := String "034"%char "".
Definition quoted (s : string) : string := quote +:+ s +:+ quote.
Definition json_field (k v : string) : string := quoted k +:+ ":" +:+ v.

(** [{"type":"event","event":"echo","fetchId":"f1","body":null,"header":{"authorization":"stolen"}}] *)
Definition frame_echo_stolen : string :=
  "{" +:+ json_field "type" (quoted "event") +:+ "," +:+ json_field "event" (quoted "echo")
  +:+ "," +:+ json_field "fetchId" (quoted "f1") +:+ "," +:+ json_field "body" "null"
  +:+ "," +:+ json_field "header" ("{" +:+ json_field "authorization" (quoted "stolen") +:+ "}")
  +:+ "}".

(** [{"type":"event","event":"boom","body":null}] *)
Definition frame_boom : string :=
  "{" +:+ json_field "type" (quoted "event") +:+ "," +:+ json_field "event" (quoted "boom")
  +:+ "," +:+ json_field "body" "null" +:+ "}".

(** [{"type":"event","event":"nobody","fetchId":"f2","body":null}] *)
Definition frame_nobody : string :=
  "{" +:+ json_field "type" (quoted "event") +:+ "," +:+ json_field "event" (quoted "nobody")
  +:+ "," +:+ json_field "fetchId" (quoted "f2") +:+ "," +:+ json_field "body" "null" +:+ "}".

(** [{"type":"reply","fetchId":"u0","body":true}] *)
Definition frame_reply_u0 : string :=
  "{" +:+ json_field "type" (quoted "reply") +:+ "," +:+ json_field "fetchId" (quoted "u0")
  +:+ "," +:+ json_field "body" "true" +:+ "}".

Definition message_echo_stolen : InternalMessage :=
  mkInternalMessage type_event (Some "echo") (Some "f1") JNull
    (Some [("authorization", "stolen")]).
Definition message_boom : InternalMessage :=
  mkInternalMessage type_event (Some "boom") None JNull None.
Definition message_nobody : InternalMessage :=
  mkInternalMessage type_event (Some "nobody") (Some "f2") JNull None.
Definition message_reply_u0 : InternalMessage :=
  mkInternalMessage type_reply None (Some "u0") (JBool true) None.

(** [JSON.parse] on the sample frames; any other text counts as malformed
    here, except the literal [null]. *)
Definition sample_parse (raw : string) : ParseResult :=
  if String.eqb raw frame_echo_stolen then parse_ok message_echo_stolen
  else if String.eqb raw frame_boom then parse_ok message_boom
  else if String.eqb raw frame_nobody then parse_ok message_nobody
  else if String.eqb raw frame_reply_u0 then parse_ok message_reply_u0
  else if String.eqb raw "null" then parse_null
  else parse_SyntaxError.

Definition sample_uuid (k : nat) : string := "u" +:+ pretty k.

(** One client ["a"] on socket [0]; two middlewares; handlers for ["echo"]
    and ["boom"]. *)
Definition sample_world : World :=
  on "boom" failing_handler
    (on "echo" echo_handler
       (use auth_middleware
          (use log_middleware (on_connection "a" 0 init)))).

Definition sample_user : User := mkUser "a" [].

(** Client ["a"] with two outstanding requests, ["u0"] and ["u1"]. *)
Definition sample_inputs : list Input :=
  [ Connection "a" 0;
    CallFetch sample_uuid (Many ["a"; "a"]) "ping" JNull None ].

Definition sample_pending : World :=
  foldl (fun w i => step sample_parse i w) init sample_inputs.

(** Clients ["a"] and ["b"], the second one in group ["g"]. *)
Definition sample_group_inputs : list Input :=
  [ Connection "a" 0; Connection "b" 1; CallAddGroup "g" "b" ].

Definition sample_group : World :=
  foldl (fun w i => step sample_parse i w) init sample_group_inputs.

(** ** Footprint of the pipeline *)

(** What a piece of the pipeline may do to the world: the frame is kept,
    the trace grows by [tr], the wire grows by [sent], which holds at most
    one reply, none if [replied] was set before, and leaves [replied] set
    if it holds one. *)
Record extends (sock : nat) (fetchId : string) (st st' : bool * World)
    (sent : list (nat * InternalMessage)) (tr : list TraceEvent) : Prop := {
  ext_frame : frame st'.2 = frame st.2;
  ext_wire : wire st'.2 = wire st.2 ++ sent;
  ext_trace : trace st'.2 = trace st.2 ++ tr;
  ext_mono : st.1 = true -> st'.1 = true ∧ sent = [];
  ext_sent : sent = [] ∨ (∃ body, sent = [(sock, reply_envelope fetchId body)] ∧ st'.1 = true) }.

(** ** More of the public interface *)

(** The getter [get groups()]: the own entries of [_groups], each [Set] copied to
    an array.  The array of the source lists the members in the order in
    which they joined; the list here holds the same members, each once. *)
Definition get_groups (w : World) : gmap string (list string) := elements <$> _groups w.

(** The frame a fire-and-forget [fetch] transmits to [clientId], if the
    client is connected and its socket open. *)
Definition notification (event : string) (code : Z) (data : JsValue) (msg : string)
    (w : World) (clientId : string) : option (nat * InternalMessage) :=
  connection ← clients w !! clientId;
  if decide (sockets w !! ws connection = Some OPEN)
  then Some (ws connection, event_message event None code data msg)
  else None.

(** No client is indexed with an empty set of requests. *)
Definition index_live (w : World) : Prop :=
  ∀ clientId ids, clientPendingFetches w !! clientId = Some ids -> ids ≠ ∅.

(** What the tracker and the group registry do not read: the complement of
    [core]. *)
Definition surroundings (w : World) :=
  (eventHandlers w, middlewares w, fetchConfig w, maxMessageSize w,
   sockets w, wire w, trace w).

(** Nobody is connected, nothing is pending and no group is left. *)
Definition deserted (w : World) : Prop :=
  clients w = ∅ ∧ pendingFetches w = ∅ ∧ clientPendingFetches w = ∅ ∧
  timers w = ∅ ∧ _groups w = ∅.

(** The arguments of the first call of [reply] in a run, if there is one. *)
Definition first_reply (acts : list HandlerAction) : option (list JsValue) :=
  head (omap (fun a => match a with
                       | CallReply args => Some args
                       | SideEffect _ => None
                       end) acts).

(** The body of the one reply that leaves when a stage throws: the data of
    the stage's own first reply if it replied before it threw, the error
    message of the [catch] block otherwise. *)
Definition answer_of_failed (errorMsg : string) (run : HandlerRun) : JsValue :=
  match first_reply (run_actions run) with
  | Some args => default JUndefined (head args)
  | None => message_value (mkMessage 500 JNull errorMsg)
  end.

(** The [msg] of the reply sent by the [catch] block of each loop. *)
Definition stage_error (s : Stage) : string :=
  match s with
  | Middleware _ => "Middleware error"
  | Handler _ => "Handler error"
  end.


(** The sample server once it has limited messages to 4 bytes and called
    [close('a')]: socket [0] is closing. *)
Definition sample_closing : World :=
  (close (One "a") (set_maxMessageSize 4 sample_world)).2.
End Server.

(** ** The client: connection state and automatic reconnection

    The part of [MasSocketClinet] that owns the connection: [connect],
    [close], [setupWebSocket], [handleReconnect] and the listeners and timer
    callbacks they install.  Its message pipeline repeats the server's and
    its [fetch] only fills [pendingFetches]; neither is needed here. *)

Module Client.

Inductive Status := connecting | connected | disconnected.

Global Instance Status_eq_dec : EqDecision Status.
Proof. solve_decision. Defined.

(** [MasSocketServerClinetConfig]. *)
Record Config := mkConfig {
  maxReconnectCount : Z;
  maxConnectTimeout : Z;
  url : string;
  status : Status }.

(** The two callbacks the class passes to [setTimeout] outside [fetch]. *)
Inductive Callback :=
| ConnectTimeoutCb
| ReconnectCb.

Global Instance Callback_eq_dec : EqDecision Callback.
Proof. solve_decision. Defined.

Inductive LogEntry :=
| ConsoleError (text : string)
| OnDisconnect
| FetchRejected (fetchId : string) (reason : JsError).

(** The fields of the class (first block) and the runtime (second block):
    [timers] holds the armed timers by handle, with their callback and
    delay, [nextHandle] and [nextSocket] number the timers and the sockets
    created so far, [closed] holds the sockets on which [close()] was
    called, and [log] what the class reported.  A stored request keeps the
    handle of its deadline. *)
Record World := mkWorld {
  ws : option nat;
  pendingFetches : gmap string nat;
  reconnectTimer : option nat;
  reconnectCount : Z;
  shouldReconnect : bool;
  connectTimeout : option nat;
  config : Config;

  timers : gmap nat (Callback * Z);
  nextHandle : nat;
  nextSocket : nat;
  closed : gset nat;
  log : list LogEntry }.

Definition set_ws (v : option nat) (w : World) : World :=
  mkWorld v (pendingFetches w) (reconnectTimer w) (reconnectCount w) (shouldReconnect w)
    (connectTimeout w) (config w) (timers w) (nextHandle w) (nextSocket w) (closed w) (log w).
Definition set_pendingFetches (v : gmap string nat) (w : World) : World :=
  mkWorld (ws w) v (reconnectTimer w) (reconnectCount w) (shouldReconnect w)
    (connectTimeout w) (config w) (timers w) (nextHandle w) (nextSocket w) (closed w) (log w).
Definition set_reconnectTimer (v : option nat) (w : World) : World :=
  mkWorld (ws w) (pendingFetches w) v (reconnectCount w) (shouldReconnect w)
    (connectTimeout w) (config w) (timers w) (nextHandle w) (nextSocket w) (closed w) (log w).
Definition set_reconnectCount (v : Z) (w : World) : World :=
  mkWorld (ws w) (pendingFetches w) (reconnectTimer w) v (shouldReconnect w)
    (connectTimeout w) (config w) (timers w) (nextHandle w) (nextSocket w) (closed w) (log w).
Definition set_shouldReconnect (v : bool) (w : World) : World :=
  mkWorld (ws w) (pendingFetches w) (reconnectTimer w) (reconnectCount w) v
    (connectTimeout w) (config w) (timers w) (nextHandle w) (nextSocket w) (closed w) (log w).
Definition set_connectTimeout (v : option nat) (w : World) : World :=
  mkWorld (ws w) (pendingFetches w) (reconnectTimer w) (reconnectCount w) (shouldReconnect w)
    v (config w) (timers w) (nextHandle w) (nextSocket w) (closed w) (log w).
Definition set_config (v : Config) (w : World) : World :=
  mkWorld (ws w) (pendingFetches w) (reconnectTimer w) (reconnectCount w) (shouldReconnect w)
    (connectTimeout w) v (timers w) (nextHandle w) (nextSocket w) (closed w) (log w).
Definition set_timers (v : gmap nat (Callback * Z)) (w : World) : World :=
  mkWorld (ws w) (pendingFetches w) (reconnectTimer w) (reconnectCount w) (shouldReconnect w)
    (connectTimeout w) (config w) v (nextHandle w) (nextSocket w) (closed w) (log w).
Definition set_nextHandle (v : nat) (w : World) : World :=
  mkWorld (ws w) (pendingFetches w) (reconnectTimer w) (reconnectCount w) (shouldReconnect w)
    (connectTimeout w) (config w) (timers w) v (nextSocket w) (closed w) (log w).
Definition set_nextSocket (v : nat) (w : World) : World :=
  mkWorld (ws w) (pendingFetches w) (reconnectTimer w) (reconnectCount w) (shouldReconnect w)
    (connectTimeout w) (config w) (timers w) (nextHandle w) v (closed w) (log w).
Definition set_closed (v : gset nat) (w : World) : World :=
  mkWorld (ws w) (pendingFetches w) (reconnectTimer w) (reconnectCount w) (shouldReconnect w)
    (connectTimeout w) (config w) (timers w) (nextHandle w) (nextSocket w) v (log w).
Definition add_log (e : LogEntry) (w : World) : World :=
  mkWorld (ws w) (pendingFetches w) (reconnectTimer w) (reconnectCount w) (shouldReconnect w)
    (connectTimeout w) (config w) (timers w) (nextHandle w) (nextSocket w) (closed w)
    (log w ++ [e]).

Definition set_status (s : Status) (w : World) : World :=
  set_config (mkConfig (maxReconnectCount (config w)) (maxConnectTimeout (config w))
                (url (config w)) s) w.
Definition set_url (u : string) (w : World) : World :=
  set_config (mkConfig (maxReconnectCount (config w)) (maxConnectTimeout (config w))
                u (status (config w))) w.

(** A fresh [new MasSocketClinet()]; timer handles are positive numbers. *)
Definition init : World :=
  mkWorld None ∅ None 0 false None (mkConfig 5 10000 "" disconnected)
    ∅ 1 0 ∅ [].

(** [setTimeout(cb, delay)] and [clearTimeout(handle)]. *)
Definition setTimeout (cb : Callback) (delay : Z) (w : World) : nat * World :=
  let handle := nextHandle w in
  (handle, set_nextHandle (S handle) (set_timers (<[handle := (cb, delay)]> (timers w)) w)).

Definition clearTimeout (handle : nat) (w : World) : World :=
  set_timers (delete handle (timers w)) w.

(** [if (this.connectTimeout) { clearTimeout(this.connectTimeout);
    this.connectTimeout = null; }] *)
Definition clear_connectTimeout (w : World) : World :=
  match connectTimeout w with
  | Some handle => set_connectTimeout None (clearTimeout handle w)
  | None => w
  end.

(** [this.ws?.close()] *)
Definition ws_close (w : World) : World :=
  match ws w with
  | Some sock => set_closed (closed w ∪ {[sock]}) w
  | None => w
  end.

(** [Math.min(1000 * Math.pow(2, reconnectCount - 1), 30000)] *)
Definition retry_delay (count : Z) : Z := Z.min (1000 * 2 ^ (count - 1)) 30000.

Definition handleReconnect (w : World) : World :=
  if negb (shouldReconnect w) then w
  else if decide (reconnectCount w >= maxReconnectCount (config w)) then
    set_shouldReconnect false
      (add_log (ConsoleError ("Max reconnect count ("
                              +:+ pretty (maxReconnectCount (config w)) +:+ ") reached")) w)
  else
    let w1 := set_reconnectCount (reconnectCount w + 1) w in
    let delay := retry_delay (reconnectCount w1) in
    let '(handle, w2) := setTimeout ReconnectCb delay w1 in
    set_reconnectTimer (Some handle) w2.

Section Runtime.

(** [new WebSocket(url)] is the runtime's: it throws a [SyntaxError] when
    [url] does not parse or its scheme is none the runtime connects to, and
    returns a socket otherwise; [accepts] says which. *)
Variable accepts : string -> bool.

Definition invalid_url (u : string) : JsError :=
  SyntaxError ("Failed to construct 'WebSocket': The URL '" +:+ u +:+ "' is invalid.").

(** The connect timeout is armed before the socket is constructed, and the
    listeners are attached after it: when the constructor throws, the timer
    stays armed and [this.ws] is what it was. *)
Definition setupWebSocket (w : World) : Completion () * World :=
  if String.eqb (url (config w)) "" then (Throw (Error "URL is not set"), w)
  else
    let w1 := clear_connectTimeout w in
    let '(handle, w2) := setTimeout ConnectTimeoutCb (maxConnectTimeout (config w1)) w1 in
    let w3 := set_connectTimeout (Some handle) w2 in
    if accepts (url (config w3))
    then (Normal (), set_nextSocket (S (nextSocket w3)) (set_ws (Some (nextSocket w3)) w3))
    else (Throw (invalid_url (url (config w3))), w3).

(** The listeners installed on every socket. *)
Definition on_open (w : World) : World :=
  set_reconnectCount 0 (set_status connected (clear_connectTimeout w)).

Definition on_close (w : World) : World :=
  handleReconnect (add_log OnDisconnect (set_status disconnected w)).

Definition on_error (w : World) : World :=
  let w1 := add_log (ConsoleError "WebSocket error:") w in
  handleReconnect (add_log OnDisconnect (set_status disconnected (clear_connectTimeout w1))).

(** The bodies of the two timer callbacks. *)
Definition run_callback (cb : Callback) (w : World) : Completion () * World :=
  match cb with
  | ConnectTimeoutCb =>
      if decide (status (config w) = connecting)
      then (Normal (), handleReconnect (ws_close w))
      else (Normal (), w)
  | ReconnectCb =>
      if shouldReconnect w && bool_decide (status (config w) = disconnected)
      then setupWebSocket (set_status connecting w)
      else (Normal (), w)
  end.

(** The runtime firing the timer [handle], if it is armed. *)
Definition fire_timer (handle : nat) (w : World) : Completion () * World :=
  match timers w !! handle with
  | Some (cb, _) => run_callback cb (clearTimeout handle w)
  | None => (Normal (), w)
  end.

Definition cleanup_fetch (w : World) (entry : string * nat) : World :=
  let w1 := clearTimeout entry.2 w in
  let w2 := add_log (FetchRejected entry.1 (Error "Connection closed")) w1 in
  set_pendingFetches (delete entry.1 (pendingFetches w2)) w2.

Definition cleanupPendingFetches (w : World) : World :=
  foldl cleanup_fetch w (map_to_list (pendingFetches w)).

Definition close (w : World) : World :=
  let w1 := set_shouldReconnect false w in
  let w2 :=
    match reconnectTimer w1 with
    | Some handle => set_reconnectTimer None (clearTimeout handle w1)
    | None => w1
    end in
  let w3 := clear_connectTimeout w2 in
  let w4 := match ws w3 with Some _ => set_ws None (ws_close w3) | None => w3 end in
  cleanupPendingFetches (set_status disconnected w4).

Definition connect (u : string) (w : World) : Completion () * World :=
  let w0 :=
    if bool_decide (is_Some (ws w)) && negb (bool_decide (status (config w) = disconnected))
    then close w else w in
  let w1 := set_url u w0 in
  let w2 := set_status connecting w1 in
  let w3 := set_shouldReconnect true w2 in
  let w4 := set_reconnectCount 0 w3 in
  setupWebSocket w4.

End Runtime.

(** [setConfig(config: Partial<ServerClinetConfig>)] *)
Definition setConfig (count timeout : option Z) (w : World) : World :=
  set_config (mkConfig (default (maxReconnectCount (config w)) count)
                (default (maxConnectTimeout (config w)) timeout)
                (url (config w)) (status (config w))) w.

(** *** Failure reports

    A socket reports a failure to the class by a ['close'] or an ['error']
    event; each report runs [handleReconnect] once. *)
Inductive Failure := closes | errors.

Definition report (f : Failure) (w : World) : World :=
  match f with closes => on_close w | errors => on_error w end.

(** A runtime that connects to [ws:] and [wss:] urls. *)
Definition ws_scheme (u : string) : bool :=
  String.prefix "ws://" u || String.prefix "wss://" u.

(** A client configured with [maxReconnectCount = n] right after
    [connect(u)]. *)
Definition started (accepts : string -> bool) (n : nat) (u : string) : World :=
  (connect accepts u (setConfig (Some (Z.of_nat n)) None init)).2.

(** The same client once its first attempt has succeeded. *)
Definition established (accepts : string -> bool) (n : nat) (u : string) : World :=
  on_open (started accepts n u).

(** The states of the retry loop of a client with [maxReconnectCount = n]
    and url [u], which the runtime accepts: an attempt is under way after
    [k] counted reports ([attempting]); the client waits for its [k]-th
    retry ([waiting]). *)
Record attempting (accepts : string -> bool) (n : nat) (u : string) (k : nat)
    (w : World) : Prop := {
  att_count : reconnectCount w = Z.of_nat k;
  att_should : shouldReconnect w = true;
  att_max : maxReconnectCount (config w) = Z.of_nat n;
  att_url : url (config w) = u;
  att_accepted : accepts u = true;
  att_timers : ∀ h cb d, timers w !! h = Some (cb, d) ->
    cb = ConnectTimeoutCb ∧ (h < nextHandle w)%nat;
  att_stale : ∀ h, reconnectTimer w = Some h ->
    timers w !! h = None ∧ (h < nextHandle w)%nat }.

Record waiting (n : nat) (u : string) (k : nat) (w : World) : Prop := {
  wait_count : reconnectCount w = Z.of_nat k;
  wait_should : shouldReconnect w = true;
  wait_max : maxReconnectCount (config w) = Z.of_nat n;
  wait_url : url (config w) = u;
  wait_status : status (config w) = disconnected;
  wait_timer : ∃ hr, reconnectTimer w = Some hr ∧
    timers w !! hr = Some (ReconnectCb, retry_delay (Z.of_nat k)) ∧
    ∀ h cb d, timers w !! h = Some (cb, d) ->
      (h < nextHandle w)%nat ∧ (h = hr ∨ cb = ConnectTimeoutCb) }.

(** *** Between two calls of the interface *)

(** What the runtime can deliver to the client while the application does
    nothing: a failure report of a socket, or the firing of a timer.  An
    exception that leaves a timer callback is the runtime's to report. *)
Inductive Event := Reported (f : Failure) | Fired (handle : nat).

Definition deliver (accepts : string -> bool) (w : World) (e : Event) : World :=
  match e with
  | Reported f => report f w
  | Fired handle => (fire_timer accepts handle w).2
  end.

Fixpoint reports (es : list Event) : nat :=
  match es with
  | [] => 0
  | Reported _ :: rest => S (reports rest)
  | Fired _ :: rest => reports rest
  end.

(** *** Consecutive connection failures

    A connection attempt that fails before it opens is reported twice: the
    socket fires ['error'] and then ['close'], in the same turn of the event
    loop, and the listener of each runs [handleReconnect].  Between two
    failures timers fire; no socket opens. *)
Inductive Step := Fails | Fires (handle : nat).

Definition events_of (s : Step) : list Event :=
  match s with
  | Fails => [Reported errors; Reported closes]
  | Fires handle => [Fired handle]
  end.

Definition run (accepts : string -> bool) (steps : list Step) (w : World) : World :=
  foldl (deliver accepts) w (steps ≫= events_of).

Fixpoint failed (steps : list Step) : nat :=
  match steps with
  | [] => 0
  | Fails :: rest => S (failed rest)
  | Fires _ :: rest => failed rest
  end.

(** The number of failure reports within which the client is sure to have
    given up and to be [disconnected]: what is left of [maxReconnectCount]
    and the report that finds the count used up, or the one report that
    sets the status once [shouldReconnect] is cleared. *)
Definition patience (w : World) : Z :=
  if shouldReconnect w
  then Z.max 0 (maxReconnectCount (config w) - reconnectCount w) + 1
  else if decide (status (config w) = disconnected) then 0 else 1.
End Client.

(** ** The client: sending and receiving

    The part of [MasSocketClinet] that talks: [sendMessage], [handleMessage],
    [fetch] with the deadline of a request, the ['message'] listener, [on]
    and [use].  Of the connection it reads [config.status] and the
    [readyState] of [this.ws]; how those two change is the subject of module
    [Client].  The ready states, the stages of the pipeline, the trace
    events and the results of [JSON.parse] are those of module [Server]. *)

Module ClientIO.

(** What a handler of the client is called with:
    [{ reply, body, fetchId, header }]. *)
Record HandlerArgs := mkArgs {
  arg_body : JsValue;
  arg_fetchId : string;
  arg_header : list (string * string) }.

(** On the client [reply] can throw, and what a handler does next depends
    on it: a handler is the program it runs, which returns, throws, performs
    an effect of its own, or calls [reply] and goes on with what the call
    did. *)
Inductive Prog :=
| Return
| Raise
| CallReply (args : list JsValue) (k : Completion () -> Prog)
| SideEffect (tag : string) (k : Prog).

Definition EventHandler := HandlerArgs -> Prog.

(** The fields of the class that this part uses (first block) and the
    runtime (second block): [ws] is [None] for [null] and the [readyState]
    of the socket otherwise, [pendingFetches] holds the ids of the stored
    requests, whose records are determined by their id, [wire] is what
    [ws.send] transmitted, [timers] the armed deadlines by fetch id with
    their [maxWait], [settled] every call of the [resolve] or [reject] of a
    fetch promise and [trace] what the handlers and the console did. *)
Record World := mkWorld {
  ws : option Server.ReadyState;
  eventHandlers : gmap string (list EventHandler);
  middlewares : list EventHandler;
  pendingFetches : gset string;
  fetchConfig : FetchConfig;
  status : Client.Status;

  wire : list InternalMessage;
  timers : gmap string Z;
  settled : list (string * Outcome);
  trace : list Server.TraceEvent }.

Definition set_eventHandlers (f : gmap string (list EventHandler) -> gmap string (list EventHandler)) (w : World) : World :=
  mkWorld (ws w) (f (eventHandlers w)) (middlewares w) (pendingFetches w) (fetchConfig w)
    (status w) (wire w) (timers w) (settled w) (trace w).
Definition set_middlewares (f : list EventHandler -> list EventHandler) (w : World) : World :=
  mkWorld (ws w) (eventHandlers w) (f (middlewares w)) (pendingFetches w) (fetchConfig w)
    (status w) (wire w) (timers w) (settled w) (trace w).
Definition set_pendingFetches (f : gset string -> gset string) (w : World) : World :=
  mkWorld (ws w) (eventHandlers w) (middlewares w) (f (pendingFetches w)) (fetchConfig w)
    (status w) (wire w) (timers w) (settled w) (trace w).
Definition set_wire (f : list InternalMessage -> list InternalMessage) (w : World) : World :=
  mkWorld (ws w) (eventHandlers w) (middlewares w) (pendingFetches w) (fetchConfig w)
    (status w) (f (wire w)) (timers w) (settled w) (trace w).
Definition set_timers (f : gmap string Z -> gmap string Z) (w : World) : World :=
  mkWorld (ws w) (eventHandlers w) (middlewares w) (pendingFetches w) (fetchConfig w)
    (status w) (wire w) (f (timers w)) (settled w) (trace w).
Definition set_settled (f : list (string * Outcome) -> list (string * Outcome)) (w : World) : World :=
  mkWorld (ws w) (eventHandlers w) (middlewares w) (pendingFetches w) (fetchConfig w)
    (status w) (wire w) (timers w) (f (settled w)) (trace w).
Definition set_trace (f : list Server.TraceEvent -> list Server.TraceEvent) (w : World) : World :=
  mkWorld (ws w) (eventHandlers w) (middlewares w) (pendingFetches w) (fetchConfig w)
    (status w) (wire w) (timers w) (settled w) (f (trace w)).

Definition console_error (text : string) (w : World) : World :=
  set_trace (fun t => t ++ [Server.ConsoleError text]) w.

(** A fresh [new MasSocketClinet()]. *)
Definition init : World :=
  mkWorld None ∅ [] ∅
    (mkFetchConfig (Some 10000) (Some true) (Some 200) (Some "success"))
    Client.disconnected [] ∅ [] [].

Definition not_connected : JsError := Error "WebSocket is not connected".

(** [sendMessage]: transmit on an open socket, throw otherwise. *)
Definition sendMessage (message : InternalMessage) (w : World) : Completion () * World :=
  match ws w with
  | Some Server.OPEN => (Normal (), set_wire (fun l => l ++ [message]) w)
  | _ => (Throw not_connected, w)
  end.

(** *** [handleMessage] *)

(** The closure [reply]: the flag is set before the send is tried. *)
Definition reply (fetchId : string) (args : list JsValue) (st : bool * World)
    : Completion () * (bool * World) :=
  if st.1 then (Normal (), st)
  else
    let data := default JUndefined (head args) in
    let r := sendMessage (mkInternalMessage type_reply None (Some fetchId) data None) st.2 in
    (r.1, (true, r.2)).

(** Running the program of a handler: the state after it, and whether it
    threw. *)
Fixpoint exec (fetchId : string) (stage : Server.Stage) (p : Prog) (st : bool * World)
    : (bool * World) * bool :=
  match p with
  | Return => (st, false)
  | Raise => (st, true)
  | CallReply args k =>
      let r := reply fetchId args st in
      exec fetchId stage (k r.1) r.2
  | SideEffect tag k =>
      exec fetchId stage k (st.1, set_trace (fun t => t ++ [Server.Effect stage tag]) st.2)
  end.

(** [await handler({ reply, body, fetchId, header })] *)
Definition invoke (fetchId : string) (stage : Server.Stage) (handler : EventHandler)
    (args : HandlerArgs) (st : bool * World) : (bool * World) * bool :=
  exec fetchId stage (handler args)
    (st.1, set_trace (fun t => t ++ [Server.Invoked stage]) st.2).

(** How a loop of the pipeline ends: it runs out of handlers or breaks,
    its [catch] block returns, or the [reply] in its [catch] block throws. *)
Inductive LoopExit := Completed | Returned | Thrown (e : JsError).

Fixpoint run_stages (mk : nat -> Server.Stage) (console errorMsg : string)
    (fetchId : string) (args : HandlerArgs)
    (i : nat) (handlers : list EventHandler) (st : bool * World)
    : LoopExit * (bool * World) :=
  match handlers with
  | [] => (Completed, st)
  | handler :: rest =>
      if st.1 then (Completed, st)
      else
        let r := invoke fetchId (mk i) handler args st in
        if r.2 then
          let st2 := (r.1.1, console_error console r.1.2) in
          if st2.1 then (Returned, st2)
          else
            let r3 := reply fetchId [message_value (mkMessage 500 JNull errorMsg)] st2 in
            match r3.1 with
            | Normal _ => (Returned, r3.2)
            | Throw e => (Thrown e, r3.2)
            end
        else run_stages mk console errorMsg fetchId args (S i) rest r.1
  end.

(** The branch [if (type === 'event' && event)]. *)
Definition dispatch (event fetchId : string) (body : JsValue)
    (header : list (string * string)) (w : World) : Completion () * World :=
  let args := mkArgs body fetchId header in
  let r1 := run_stages Server.Middleware "Middleware error:" "Middleware error"
              fetchId args 0 (middlewares w) (false, w) in
  match r1.1 with
  | Returned => (Normal (), r1.2.2)
  | Thrown e => (Throw e, r1.2.2)
  | Completed =>
      if r1.2.1 then (Normal (), r1.2.2)
      else
        let handlers := default [] (eventHandlers r1.2.2 !! event) in
        let r2 := run_stages Server.Handler
                    ("Event handler error for " +:+ event +:+ ":") "Handler error"
                    fetchId args 0 handlers r1.2 in
        match r2.1 with
        | Returned => (Normal (), r2.2.2)
        | Thrown e => (Throw e, r2.2.2)
        | Completed =>
            if negb r2.2.1 && Server.truthy fetchId
            then
              let r3 := reply fetchId [Server.no_handler event] r2.2 in
              (r3.1, r3.2.2)
            else (Normal (), r2.2.2)
        end
  end.

(** The [resolve] and [reject] of the promise created for [fetchId]. *)
Definition promise_resolve (fetchId : string) (value : JsValue) (w : World) : World :=
  set_settled (fun l => l ++ [(fetchId, Fulfilled value)]) w.
Definition promise_reject (fetchId : string) (reason : JsError) (w : World) : World :=
  set_settled (fun l => l ++ [(fetchId, Rejected reason)]) w.

(** The branch [if (type === 'reply' && fetchId)]: [clearTimeout], delete,
    then the stored [resolve], which clears the timeout once more. *)
Definition resolve_pending (fetchId : string) (body : JsValue) (w : World) : World :=
  if decide (fetchId ∈ pendingFetches w)
  then
    let w1 := set_timers (delete fetchId) w in
    let w2 := set_pendingFetches (fun s => s ∖ {[fetchId]}) w1 in
    promise_resolve fetchId body (set_timers (delete fetchId) w2)
  else w.

Section HandleMessage.

Variable JSON_parse : string -> Server.ParseResult.

Definition handleMessage (rawMessage : string) (w : World) : Completion () * World :=
  match JSON_parse rawMessage with
  | Server.parse_SyntaxError => (Normal (), console_error "Failed to parse message:" w)
  | Server.parse_null =>
      (Throw (TypeError "Cannot destructure property 'type' of 'message' as it is null."), w)
  | Server.parse_ok message =>
      let fetchId := default "" (msg_fetchId message) in
      let body := msg_body message in
      let header := default [] (msg_header message) in
      match msg_type message, msg_event message with
      | type_reply, _ =>
          if Server.truthy fetchId
          then (Normal (), resolve_pending fetchId body w)
          else (Normal (), w)
      | type_event, Some event =>
          if Server.truthy event
          then dispatch event fetchId body header w
          else (Normal (), w)
      | _, _ => (Normal (), w)
      end
  end.

(** What a ['message'] event delivers, as the text the listener extracts
    from it: a string, the text of a [Blob], the decoding of an
    [ArrayBuffer], the decoding of the whole buffer under a view, or
    something else. *)
Inductive Payload :=
| Text (data : string)
| BlobOf (data : string)
| Buffer (data : string)
| View (data : string)
| Unsupported.

(** The ['message'] listener installed by [setupWebSocket]. *)
Definition on_message (payload : Payload) (w : World) : World :=
  match payload with
  | Unsupported => console_error "Unsupported message data type" w
  | Text data | BlobOf data | Buffer data | View data =>
      let r := handleMessage data w in
      match r.1 with
      | Normal _ => r.2
      | Throw _ => console_error "Error handling message:" r.2
      end
  end.

End HandleMessage.

(** *** [fetch] *)

(** What the [async] function returns, or what it throws. *)
Inductive FetchResult :=
| Throws (e : JsError)
| ReturnUndefined
| ReturnPromise (fetchId : string).

(** [{ ...this.fetchConfig, ...config }] read field by field. *)
Definition merged {A} (field : FetchConfig -> option A) (w : World)
    (config : option FetchConfig) : option A :=
  match config ≫= field with
  | Some v => Some v
  | None => field (fetchConfig w)
  end.

Definition final_maxWait w config : Z := default 10000 (merged maxWait w config).
Definition final_hasReply w config : bool := default true (merged hasReply w config).
Definition final_code w config : Z := default 200 (merged cfg_code w config).
Definition final_msg w config : string := default "success" (merged cfg_msg w config).

(** [fetch]; [fetchId] is what [generateFetchId] returns in this call. *)
Definition fetch (fetchId : string) (event : string) (data : JsValue)
    (config : option FetchConfig) (w : World) : FetchResult * World :=
  if negb (bool_decide (status w = Client.connected))
  then (Throws not_connected, w)
  else
    let maxWait := final_maxWait w config in
    let code := final_code w config in
    let msg := final_msg w config in
    if negb (final_hasReply w config)
    then
      let r := sendMessage (Server.event_message event None code data msg) w in
      match r.1 with
      | Normal _ => (ReturnUndefined, r.2)
      | Throw e => (Throws e, r.2)
      end
    else
      let w1 := set_timers (<[fetchId := maxWait]>) w in
      let w2 := set_pendingFetches (fun s => s ∪ {[fetchId]}) w1 in
      let r := sendMessage (Server.event_message event (Some fetchId) code data msg) w2 in
      match r.1 with
      | Normal _ => (ReturnPromise fetchId, r.2)
      | Throw e => (Throws e, r.2)
      end.

(** The deadline callback passed to [setTimeout] in [fetch], and the
    runtime firing it. *)
Definition on_timeout (fetchId : string) (maxWait : Z) (w : World) : World :=
  promise_reject fetchId (Error ("Request timeout after " +:+ pretty maxWait +:+ "ms"))
    (set_pendingFetches (fun s => s ∖ {[fetchId]}) w).

Definition fire_timer (fetchId : string) (w : World) : World :=
  match timers w !! fetchId with
  | Some maxWait => on_timeout fetchId maxWait (set_timers (delete fetchId) w)
  | None => w
  end.

(** The state of the promise that [fetch] returned. *)
Definition result_state (w : World) (r : FetchResult) : option Outcome :=
  match r with
  | Throws e => Some (Rejected e)
  | ReturnUndefined => Some (Fulfilled JUndefined)
  | ReturnPromise fetchId => Server.first_outcome fetchId (settled w)
  end.

(** *** [on] and [use] *)

Definition on (event : string) (handler : EventHandler) (w : World) : World :=
  set_eventHandlers
    (fun m => <[event := default [] (m !! event) ++ [handler]]> m) w.

Definition use (handler : EventHandler) (w : World) : World :=
  set_middlewares (fun l => l ++ [handler]) w.

(** *** Vocabulary of the statements *)

(** A program that performs effects of its own and returns, without a call
    of [reply] and without throwing. *)
Fixpoint silent (p : Prog) : bool :=
  match p with
  | Return => true
  | Raise => false
  | CallReply _ _ => false
  | SideEffect _ k => silent k
  end.

(** A program whose first action, after effects of its own, is a call of
    [reply]. *)
Fixpoint replies_first (p : Prog) : bool :=
  match p with
  | Return => false
  | Raise => false
  | CallReply _ _ => true
  | SideEffect _ k => replies_first k
  end.

(** Everything but what was transmitted and what was traced. *)
Definition frame (w : World) :=
  (ws w, eventHandlers w, middlewares w, pendingFetches w, fetchConfig w, status w,
   timers w, settled w).

Definition reply_envelope (fetchId : string) (body : JsValue) : InternalMessage :=
  mkInternalMessage type_reply None (Some fetchId) body None.

(** What a piece of the pipeline may do between two of its states: the
    frame is kept and the wire grows by [sent], which holds at most one
    reply, none if [replied] was set before or the socket is not open, and
    leaves [replied] set if it holds one. *)
Record grows (fetchId : string) (st st' : bool * World) (sent : list InternalMessage)
    : Prop := {
  grow_frame : frame st'.2 = frame st.2;
  grow_wire : wire st'.2 = wire st.2 ++ sent;
  grow_mono : st.1 = true -> st'.1 = true ∧ sent = [];
  grow_sent : sent = [] ∨
              (∃ body, sent = [reply_envelope fetchId body] ∧ st'.1 = true ∧
                       ws st.2 = Some Server.OPEN) }.

(** A handler that replies and does not mind whether the reply left. *)
Definition answering (body : JsValue) : EventHandler := fun _ =>
  CallReply [body] (fun _ => Return).

(** A client with an open connection and one handler for ["ping"]. *)
Definition sample_client : World :=
  on "ping" (answering (JStr "pong"))
    (mkWorld (Some Server.OPEN) ∅ [] ∅
       (mkFetchConfig (Some 10000) (Some true) (Some 200) (Some "success"))
       Client.connected [] ∅ [] []).

(** The same client when its socket has stopped being open while the
    status still says [connected]. *)
Definition sample_client_closing : World :=
  mkWorld (Some Server.CLOSING) (eventHandlers sample_client) (middlewares sample_client)
    (pendingFetches sample_client) (fetchConfig sample_client) (status sample_client)
    (wire sample_client) (timers sample_client) (settled sample_client)
    (trace sample_client).

End ClientIO.
(** * Properties of the server *)

Module ServerProps.
Import Server.

(** ** Group registry: unknown peers *)

(** C10: [removeGroup(g, id)] for an [id] that is not a connected client
    throws [Error('Client <id> not found')] and leaves the whole server,
    group map and group lists included, as it was. *)
Theorem removeGroup_unknown_client (group id : string) (w : World) :
  clients w !! id = None ->
  removeGroup group id w = (Throw (Error ("Client " +:+ id +:+ " not found")), w).
Proof.
  intros Hid. unfold removeGroup. by rewrite Hid.
Qed.

Lemma removeGroup_unknown_client_witness :
  clients sample_group !! "ghost" = None ∧
  removeGroup "g" "ghost" sample_group
  = (Throw (Error "Client ghost not found"), sample_group).
Proof.
  split; [reflexivity|].
  apply (removeGroup_unknown_client "g" "ghost" sample_group). reflexivity.
Defined.

(** ** Sending *)

Lemma frame_sendMessage sock m w : frame (sendMessage sock m w) = frame w.
Proof. unfold sendMessage. by case_decide. Qed.

Lemma trace_sendMessage sock m w : trace (sendMessage sock m w) = trace w.
Proof. unfold sendMessage. by case_decide. Qed.

Lemma wire_sendMessage sock m w :
  wire (sendMessage sock m w)
  = wire w ++ (if decide (sockets w !! sock = Some OPEN) then [(sock, m)] else []).
Proof. unfold sendMessage. case_decide; simpl; [done | by rewrite app_nil_r]. Qed.

Lemma frame_sockets w w' : frame w' = frame w -> sockets w' = sockets w.
Proof. unfold frame. congruence. Qed.

Lemma frame_eventHandlers w w' : frame w' = frame w -> eventHandlers w' = eventHandlers w.
Proof. unfold frame. congruence. Qed.

(** ** The reply capability *)

Lemma reply_replied sock fetchId args w :
  reply sock fetchId args (true, w) = (true, w).
Proof. reflexivity. Qed.

Lemma reply_first sock fetchId args w :
  reply sock fetchId args (false, w)
  = (true, sendMessage sock (reply_envelope fetchId (default JUndefined (head args))) w).
Proof. reflexivity. Qed.

Lemma extends_refl sock fetchId st : extends sock fetchId st st [] [].
Proof. split; rewrite ?app_nil_r; auto. Qed.

Lemma extends_trans sock fetchId st1 st2 st3 s12 t12 s23 t23 :
  extends sock fetchId st1 st2 s12 t12 ->
  extends sock fetchId st2 st3 s23 t23 ->
  extends sock fetchId st1 st3 (s12 ++ s23) (t12 ++ t23).
Proof.
  intros [F1 W1 T1 M1 S1] [F2 W2 T2 M2 S2]. split.
  - congruence.
  - by rewrite W2, W1, app_assoc.
  - by rewrite T2, T1, app_assoc.
  - intros H. destruct (M1 H) as [H2 ->]. destruct (M2 H2) as [H3 ->]. done.
  - destruct S1 as [-> | (b & -> & H2)].
    + simpl. exact S2.
    + destruct (M2 H2) as [H3 ->]. right. exists b. by rewrite app_nil_r.
Qed.

Lemma extends_length sock fetchId st st' sent tr :
  extends sock fetchId st st' sent tr -> (length sent ≤ 1)%nat.
Proof. intros [_ _ _ _ [-> | (b & -> & _)]]; simpl; lia. Qed.

Lemma extends_reply sock fetchId args st :
  ∃ sent, extends sock fetchId st (reply sock fetchId args st) sent [] ∧
          (reply sock fetchId args st).1 = true.
Proof.
  destruct st as [[] w].
  - exists []. split; [apply extends_refl | done].
  - rewrite reply_first. eexists. split; [|done]. split; simpl.
    + apply frame_sendMessage.
    + apply wire_sendMessage.
    + by rewrite trace_sendMessage, app_nil_r.
    + done.
    + case_decide; [right; eauto | by left].
Qed.

Lemma extends_effect sock fetchId st e :
  extends sock fetchId st (st.1, set_trace (fun t => t ++ [e]) st.2) [] [e].
Proof. split; simpl; rewrite ?app_nil_r; auto. Qed.

Lemma extends_actions sock fetchId stage acts st :
  let st' := foldl (exec_action sock fetchId stage) st acts in
  ∃ sent, extends sock fetchId st st' sent (effects_of stage acts) ∧
          st'.1 = st.1 || existsb is_reply_call acts.
Proof.
  revert st. induction acts as [|a acts IH]; intros st; simpl.
  - exists []. split; [apply extends_refl | by rewrite orb_false_r].
  - destruct (IH (exec_action sock fetchId stage st a)) as (s2 & E2 & R2).
    destruct a as [args | tag]; simpl in *.
    + destruct (extends_reply sock fetchId args st) as (s1 & E1 & R1).
      exists (s1 ++ s2). split.
      * apply (extends_trans _ _ _ _ _ _ _ _ _ E1 E2).
      * rewrite R2, R1. by rewrite orb_true_r.
    + exists ([] ++ s2). split.
      * apply (extends_trans _ _ _ _ _ _ [Effect stage tag] _ _
                 (extends_effect sock fetchId st _) E2).
      * by rewrite R2.
Qed.

Lemma extends_invoke sock fetchId stage handler args st :
  let r := invoke sock fetchId stage handler args st in
  ∃ sent, extends sock fetchId st r.1 sent
            (Invoked stage :: effects_of stage (run_actions (handler args))) ∧
          r.1.1 = st.1 || calls_reply (handler args) ∧
          r.2 = run_throws (handler args).
Proof.
  unfold invoke; simpl.
  set (st0 := (st.1, set_trace (fun t => t ++ [Invoked stage]) st.2)).
  destruct (extends_actions sock fetchId stage (run_actions (handler args)) st0)
    as (s & E & R).
  exists ([] ++ s). split; [|split; [exact R | done]].
  apply (extends_trans _ _ _ _ _ _ [Invoked stage] _ _
           (extends_effect sock fetchId st _) E).
Qed.

Lemma ran_stage_trace stage acts s :
  ran (Invoked stage :: effects_of stage acts) s -> s = stage.
Proof.
  intros [H | [tag H]]; apply elem_of_cons in H as [H | H]; try congruence.
  - apply list_elem_of_omap in H as (a & _ & Ha). by destruct a.
  - apply list_elem_of_omap in H as (a & _ & Ha). destruct a; congruence.
Qed.

Lemma ran_app tr1 tr2 s : ran (tr1 ++ tr2) s <-> ran tr1 s ∨ ran tr2 s.
Proof.
  unfold ran. split.
  - intros [H | [tag H]]; apply elem_of_app in H as [H | H]; eauto.
  - intros [[H | [tag H]] | [H | [tag H]]]; [left | right; exists tag ..| left | right; exists tag];
      apply elem_of_app; auto.
Qed.

Lemma ran_console text s : ¬ ran [ConsoleError text] s.
Proof.
  intros [H | [tag H]]; apply list_elem_of_singleton in H; congruence.
Qed.

Lemma ran_nil s : ¬ ran [] s.
Proof. intros [H | [tag H]]; by apply elem_of_nil in H. Qed.

Lemma run_stages_cons mk console errorMsg sock fetchId args i h rest st :
  run_stages mk console errorMsg sock fetchId args i (h :: rest) st
  = if st.1 then (Completed, st)
    else
      let r := invoke sock fetchId (mk i) h args st in
      if r.2 then
        let st2 := (r.1.1, set_trace (fun t => t ++ [ConsoleError console]) r.1.2) in
        (Returned,
         if st2.1 then st2
         else reply sock fetchId [message_value (mkMessage 500 JNull errorMsg)] st2)
      else run_stages mk console errorMsg sock fetchId args (S i) rest r.1.
Proof.
  simpl. destruct (st.1); [done|].
  by destruct (invoke sock fetchId (mk i) h args st) as [st1 []].
Qed.

(** One loop of the pipeline: only a prefix of the handlers runs, and every
    handler before the last one that ran was quiet. *)
Lemma run_stages_spec mk console errorMsg sock fetchId args hs : ∀ i st exit st',
  run_stages mk console errorMsg sock fetchId args i hs st = (exit, st') ->
  ∃ sent tr, extends sock fetchId st st' sent tr ∧
    (∀ s, ran tr s -> st.1 = false ∧
       ∃ k h, hs !! k = Some h ∧ s = mk (i + k)%nat ∧
         ∀ k' h', (k' < k)%nat -> hs !! k' = Some h' -> quiet args h') ∧
    (exit = Completed -> st'.1 = false -> Forall (quiet args) hs) ∧
    (Forall (quiet args) hs -> st.1 = false -> exit = Completed ∧ st'.1 = false).
Proof.
  induction hs as [|h rest IH]; intros i st exit st' Hrun.
  - injection Hrun as <- <-.
    exists [], []. split; [apply extends_refl|]. split; [|split]; auto.
    intros s Hs. by apply ran_nil in Hs.
  - rewrite run_stages_cons in Hrun.
    destruct (st.1) eqn:Hrep.
    { injection Hrun as <- <-.
      exists [], []. split; [apply extends_refl|]. split; [|split].
      - intros s Hs. by apply ran_nil in Hs.
      - congruence.
      - congruence. }
    destruct (extends_invoke sock fetchId (mk i) h args st) as (s1 & E1 & R1 & T1).
    destruct (invoke sock fetchId (mk i) h args st) as [st1 threw] eqn:Hinv.
    cbn [fst snd] in *. rewrite Hrep in R1. cbn [orb] in R1. subst threw.
    destruct (run_throws (h args)) eqn:Hthrow.
    + (* the catch block *)
      cbv zeta in Hrun. cbn [fst snd] in Hrun.
      set (st2 := (st1.1, set_trace (fun t => t ++ [ConsoleError console]) st1.2)) in *.
      assert (E2 : extends sock fetchId st1 st2 [] [ConsoleError console])
        by apply extends_effect.
      assert (∃ s3, extends sock fetchId st2
                (if st1.1 then st2
                 else reply sock fetchId [message_value (mkMessage 500 JNull errorMsg)] st2)
                s3 []) as (s3 & E3).
      { destruct (st1.1) eqn:H2.
        - exists []. apply extends_refl.
        - destruct (extends_reply sock fetchId
                      [message_value (mkMessage 500 JNull errorMsg)] st2) as (s3 & E3 & _).
          by exists s3. }
      injection Hrun as <- <-.
      pose proof (extends_trans _ _ _ _ _ _ _ _ _ E1
                    (extends_trans _ _ _ _ _ _ _ _ _ E2 E3)) as E.
      eexists _, _. split; [exact E|]. split; [|split].
      * intros s Hs. split; [done|].
        rewrite app_nil_r in Hs. apply ran_app in Hs as [Hs | Hs].
        -- apply ran_stage_trace in Hs as ->. exists 0%nat, h.
           split; [done|]. split; [by rewrite Nat.add_0_r|]. intros; lia.
        -- by apply ran_console in Hs.
      * congruence.
      * intros Hq _. apply Forall_cons in Hq as [[_ Hq] _]. congruence.
    + destruct (IH (S i) st1 exit st' Hrun) as (s2 & tr2 & E2 & Hran & Hdone & Hquiet).
      pose proof (extends_trans _ _ _ _ _ _ _ _ _ E1 E2) as E.
      eexists _, _. split; [exact E|]. split; [|split].
      * intros s Hs. split; [done|].
        apply ran_app in Hs as [Hs | Hs].
        -- apply ran_stage_trace in Hs as ->. exists 0%nat, h.
           split; [done|]. split; [by rewrite Nat.add_0_r|]. intros; lia.
        -- destruct (Hran s Hs) as (H1 & k & h0 & Hk & -> & Hbefore).
           exists (S k), h0. split; [done|]. split; [f_equal; lia|].
           intros [|k'] h' Hlt Hk'; simpl in Hk'.
           ++ injection Hk' as <-. split; [congruence | done].
           ++ apply (Hbefore k'); [lia | done].
      * intros Hexit Hrep'. apply Forall_cons.
        assert (st1.1 = false) as H1.
        { destruct (bool_decide (st1.1 = true)) eqn:H1.
          - apply bool_decide_eq_true in H1.
            destruct (ext_mono _ _ _ _ _ _ E2 H1) as [H _]. congruence.
          - apply bool_decide_eq_false in H1. by destruct (st1.1). }
        split; [split; congruence | auto].
      * intros Hq _. apply Forall_cons in Hq as [[Hq1 _] Hq].
        apply Hquiet; [done | congruence].
Qed.

Lemma pipeline_stages_lookup w event i s h :
  pipeline_stages w event !! i = Some (s, h) ->
  (middlewares w !! i = Some h ∧ s = Middleware i) ∨
  (∃ k, i = (length (middlewares w) + k)%nat ∧
        default [] (eventHandlers w !! event) !! k = Some h ∧ s = Handler k).
Proof.
  unfold pipeline_stages. intros H.
  apply lookup_app_Some in H as [H | [Hlen H]].
  - left. rewrite list_lookup_imap in H.
    destruct (middlewares w !! i) as [h'|]; simpl in H; [|done].
    by injection H as <- <-.
  - right. rewrite length_imap in Hlen, H.
    exists (i - length (middlewares w))%nat. rewrite list_lookup_imap in H.
    destruct (default [] (eventHandlers w !! event) !! (i - length (middlewares w))%nat)
      as [h'|]; simpl in H; [|done].
    injection H as <- <-. split; [lia | done].
Qed.

(** The event branch of [handleMessage] as a whole. *)
Lemma dispatch_spec sock u event fetchId body header w :
  let args := mkArgs body u fetchId header event in
  let w' := dispatch sock u event fetchId body header w in
  ∃ b sent tr, extends sock fetchId (false, w) (b, w') sent tr ∧
    (∀ i j si hi sj hj,
       pipeline_stages w event !! i = Some (si, hi) ->
       pipeline_stages w event !! j = Some (sj, hj) ->
       (i < j)%nat -> calls_reply (hi args) = true -> ¬ ran tr sj) ∧
    (Forall (quiet args) (middlewares w) ->
     Forall (quiet args) (default [] (eventHandlers w !! event)) ->
     sent = if truthy fetchId
            then if decide (sockets w !! sock = Some OPEN)
                 then [(sock, reply_envelope fetchId (no_handler event))] else []
            else []).
Proof.
  intros args w'. subst w'. unfold dispatch. fold args.
  destruct (run_stages Middleware "Middleware error:" "Middleware error" sock fetchId
              args 0 (middlewares w) (false, w)) as [exit1 st1] eqn:Hrun1.
  destruct (run_stages_spec _ _ _ _ _ _ _ _ _ _ _ Hrun1)
    as (s1 & t1 & E1 & Hran1 & Hdone1 & Hq1).
  (* a stage that ran in the middleware loop contradicts an earlier reply *)
  assert (Hmw : ∀ i j si hi sj hj,
            pipeline_stages w event !! i = Some (si, hi) ->
            pipeline_stages w event !! j = Some (sj, hj) ->
            (i < j)%nat -> calls_reply (hi args) = true -> ¬ ran t1 sj).
  { intros i j si hi sj hj Hi Hj Hlt Hcall Hs.
    destruct (Hran1 sj Hs) as (_ & k & h & Hk & -> & Hbefore).
    apply pipeline_stages_lookup in Hj as [[Hj Heq] | (k' & _ & _ & Heq)]; [|done].
    injection Heq as <-. apply lookup_lt_Some in Hj.
    apply pipeline_stages_lookup in Hi as [[Hi _] | (k' & -> & _)]; [|lia].
    destruct (Hbefore i hi Hlt Hi). congruence. }
  destruct st1 as [b1 w1].
  assert (Hstop : exit1 = Returned ∨ b1 = true ->
            ∃ sent tr, extends sock fetchId (false, w) (b1, w1) sent tr ∧
              (∀ i j si hi sj hj,
                 pipeline_stages w event !! i = Some (si, hi) ->
                 pipeline_stages w event !! j = Some (sj, hj) ->
                 (i < j)%nat -> calls_reply (hi args) = true -> ¬ ran tr sj) ∧
              (Forall (quiet args) (middlewares w) ->
               Forall (quiet args) (default [] (eventHandlers w !! event)) ->
               sent = if truthy fetchId
                      then if decide (sockets w !! sock = Some OPEN)
                           then [(sock, reply_envelope fetchId (no_handler event))] else []
                      else [])).
  { intros Hcase. exists s1, t1. split; [done|]. split; [done|].
    intros Hq _. destruct (Hq1 Hq eq_refl) as [-> Hb]. simpl in Hb.
    destruct Hcase; congruence. }
  destruct exit1; [|exists b1; apply Hstop; by left].
  cbn [fst snd]. destruct b1; [exists true; apply Hstop; by right|].
  clear Hstop. specialize (Hdone1 eq_refl eq_refl).
  assert (HeH : eventHandlers w1 = eventHandlers w).
  { apply frame_eventHandlers. exact (ext_frame _ _ _ _ _ _ E1). }
  rewrite HeH.
  destruct (run_stages Handler ("Event handler error for " +:+ event +:+ ":")
              "Handler error" sock fetchId args 0
              (default [] (eventHandlers w !! event)) (false, w1))
    as [exit2 [b2 w2]] eqn:Hrun2.
  destruct (run_stages_spec _ _ _ _ _ _ _ _ _ _ _ Hrun2)
    as (s2 & t2 & E2 & Hran2 & Hdone2 & Hq2).
  assert (Hs1 : s1 = []).
  { destruct (ext_sent _ _ _ _ _ _ E1) as [-> | (bd & _ & ?)]; done. }
  subst s1.
  assert (Hh : ∀ i j si hi sj hj,
            pipeline_stages w event !! i = Some (si, hi) ->
            pipeline_stages w event !! j = Some (sj, hj) ->
            (i < j)%nat -> calls_reply (hi args) = true -> ¬ ran (t1 ++ t2) sj).
  { intros i j si hi sj hj Hi Hj Hlt Hcall Hs.
    apply ran_app in Hs as [Hs | Hs];
      [exact (Hmw _ _ _ _ _ _ Hi Hj Hlt Hcall Hs)|].
    destruct (Hran2 sj Hs) as (_ & k & h & Hk & -> & Hbefore).
    apply pipeline_stages_lookup in Hj as [[_ Heq] | (k' & -> & _ & Heq)]; [done|].
    injection Heq as <-.
    apply pipeline_stages_lookup in Hi as [[Hi _] | (k' & -> & Hi & _)].
    - rewrite Forall_lookup in Hdone1. destruct (Hdone1 i hi Hi). congruence.
    - assert (k' < k)%nat as Hlt' by lia.
      destruct (Hbefore k' hi Hlt' Hi). congruence. }
  pose proof (extends_trans _ _ _ _ _ _ _ _ _ E1 E2) as E12.
  cbn [app] in E12.
  destruct exit2; cbn [fst snd].
  - destruct b2; cbn [negb andb].
    + exists true, s2, (t1 ++ t2). split; [done|]. split; [done|].
      intros _ Hq. by destruct (Hq2 Hq eq_refl).
    + destruct (truthy fetchId) eqn:Hf.
      * rewrite reply_first. cbn [snd head default].
        exists true. eexists _, _. split.
        { refine (extends_trans _ _ _ _ _ _ _ _ _ E12 _).
          instantiate (1 := []). instantiate (1 :=
            if decide (sockets w2 !! sock = Some OPEN)
            then [(sock, reply_envelope fetchId (no_handler event))] else []).
          split; cbn [fst snd].
          - apply frame_sendMessage.
          - apply wire_sendMessage.
          - by rewrite trace_sendMessage, app_nil_r.
          - done.
          - case_decide; [right; eauto | by left]. }
        split; [by rewrite app_nil_r|].
        intros _ _.
        assert (s2 = []) as ->.
        { destruct (ext_sent _ _ _ _ _ _ E2) as [-> | (bd & _ & ?)]; done. }
        cbn [app].
        assert (sockets w2 = sockets w) as ->; [|done].
        apply frame_sockets. exact (ext_frame _ _ _ _ _ _ E12).
      * exists false, s2, (t1 ++ t2). split; [done|]. split; [done|].
        intros _ _. destruct (ext_sent _ _ _ _ _ _ E2) as [-> | (bd & _ & ?)]; done.
  - exists b2, s2, (t1 ++ t2). split; [done|]. split; [done|].
    intros _ Hq. by destruct (Hq2 Hq eq_refl).
Qed.

(** ** Dispatch pipeline *)

Lemma handleMessage_event parse sock u raw w message event :
  Z.of_nat (String.length raw) <= maxMessageSize w ->
  parse raw = parse_ok message ->
  msg_type message = type_event ->
  msg_event message = Some event ->
  truthy event = true ->
  handleMessage parse sock u raw w
  = (Normal (),
     dispatch sock u event (default "" (msg_fetchId message)) (msg_body message)
       (default [] (msg_header message)) w).
Proof.
  intros Hsize Hparse Htype Hevent Htruthy. unfold handleMessage.
  case_decide; [lia|]. by rewrite Hparse, Htype, Hevent, Htruthy.
Qed.

(** C4: an inbound event envelope is answered by at most one reply
    envelope, addressed to its sender; a middleware or handler that comes
    after one that called [reply] is not run and none of its effects
    happens; and a call of [reply] after the first one changes nothing. *)
Theorem at_most_one_reply parse sock u raw w message event :
  Z.of_nat (String.length raw) <= maxMessageSize w ->
  parse raw = parse_ok message ->
  msg_type message = type_event ->
  msg_event message = Some event ->
  truthy event = true ->
  let args := args_of u message event in
  let fetchId := default "" (msg_fetchId message) in
  let w' := (handleMessage parse sock u raw w).2 in
  ∃ sent tr,
    wire w' = wire w ++ sent ∧ trace w' = trace w ++ tr ∧
    (length sent ≤ 1)%nat ∧
    (∀ m, m ∈ sent -> ∃ body, m = (sock, reply_envelope fetchId body)) ∧
    (∀ i j si hi sj hj,
       pipeline_stages w event !! i = Some (si, hi) ->
       pipeline_stages w event !! j = Some (sj, hj) ->
       (i < j)%nat -> calls_reply (hi args) = true -> ¬ ran tr sj) ∧
    (∀ args1 args2 st,
       reply sock fetchId args2 (reply sock fetchId args1 st)
       = reply sock fetchId args1 st).
Proof.
  intros Hsize Hparse Htype Hevent Htruthy args fetchId w'. subst w'.
  rewrite (handleMessage_event _ _ _ _ _ _ _ Hsize Hparse Htype Hevent Htruthy).
  cbn [snd].
  destruct (dispatch_spec sock u event fetchId (msg_body message)
              (default [] (msg_header message)) w) as (b & sent & tr & E & Hstages & _).
  exists sent, tr. split; [exact (ext_wire _ _ _ _ _ _ E)|].
  split; [exact (ext_trace _ _ _ _ _ _ E)|].
  split; [exact (extends_length _ _ _ _ _ _ E)|].
  split; [|split; [exact Hstages|]].
  - intros m Hm. destruct (ext_sent _ _ _ _ _ _ E) as [-> | (body & -> & _)].
    + by apply elem_of_nil in Hm.
    + apply list_elem_of_singleton in Hm as ->. by exists body.
  - intros args1 args2 [[] w0]; reflexivity.
Qed.

Lemma at_most_one_reply_witness :
  Z.of_nat (String.length frame_echo_stolen) <= maxMessageSize sample_world ∧
  sample_parse frame_echo_stolen = parse_ok message_echo_stolen ∧
  msg_type message_echo_stolen = type_event ∧
  msg_event message_echo_stolen = Some "echo" ∧
  truthy "echo" = true ∧
  ∃ sent tr,
    wire (handleMessage sample_parse 0 sample_user frame_echo_stolen sample_world).2
    = wire sample_world ++ sent ∧
    trace (handleMessage sample_parse 0 sample_user frame_echo_stolen sample_world).2
    = trace sample_world ++ tr ∧
    (length sent ≤ 1)%nat ∧
    (∀ m, m ∈ sent -> ∃ body, m = (0%nat, reply_envelope "f1" body)) ∧
    (∀ i j si hi sj hj,
       pipeline_stages sample_world "echo" !! i = Some (si, hi) ->
       pipeline_stages sample_world "echo" !! j = Some (sj, hj) ->
       (i < j)%nat ->
       calls_reply (hi (args_of sample_user message_echo_stolen "echo")) = true ->
       ¬ ran tr sj) ∧
    (∀ args1 args2 st,
       reply 0 "f1" args2 (reply 0 "f1" args1 st) = reply 0 "f1" args1 st).
Proof.
  split; [vm_compute; discriminate|]. do 4 (split; [reflexivity|]).
  apply (at_most_one_reply sample_parse 0 sample_user frame_echo_stolen sample_world
           message_echo_stolen "echo").
  - vm_compute. discriminate.
  - reflexivity.
  - reflexivity.
  - reflexivity.
  - reflexivity.
Defined.

(** C5, original reading refuted: a handler that throws without replying
    makes the server answer with code 500, also when the envelope carried
    no fetch id; the claim promised no reply at all there. *)
Lemma unmatched_event_throwing_handler :
  let args := args_of sample_user message_boom "boom" in
  let w' := (handleMessage sample_parse 0 sample_user frame_boom sample_world).2 in
  sample_parse frame_boom = parse_ok message_boom ∧
  msg_fetchId message_boom = None ∧
  Forall (quiet args) (middlewares sample_world) ∧
  Forall (fun h => calls_reply (h args) = false)
    (default [] (eventHandlers sample_world !! "boom")) ∧
  wire w' = wire sample_world
            ++ [(0%nat, reply_envelope "" (message_value (mkMessage 500 JNull "Handler error")))] ∧
  wire w' ≠ wire sample_world.
Proof.
  split; [reflexivity|]. split; [reflexivity|].
  split; [repeat constructor|]. split; [repeat constructor|].
  split; [reflexivity|]. vm_compute. discriminate.
Qed.

(** C5, amended: when every middleware and every handler registered for the
    event returns without replying and without throwing, [handleMessage]
    returns normally and an envelope with a non-empty fetch id is answered
    by exactly one reply, with code 404 and a message naming the event, if
    the socket of the sender is still open; an envelope without a fetch id
    is answered by nothing, and so is every envelope that arrives on a
    socket that is no longer open. *)
Theorem unmatched_event_404 parse sock u raw w message event :
  Z.of_nat (String.length raw) <= maxMessageSize w ->
  parse raw = parse_ok message ->
  msg_type message = type_event ->
  msg_event message = Some event ->
  truthy event = true ->
  let args := args_of u message event in
  let fetchId := default "" (msg_fetchId message) in
  Forall (quiet args) (middlewares w) ->
  Forall (quiet args) (default [] (eventHandlers w !! event)) ->
  let r := handleMessage parse sock u raw w in
  r.1 = Normal () ∧
  frame r.2 = frame w ∧
  wire r.2
  = wire w ++
    (if truthy fetchId
     then if decide (sockets w !! sock = Some OPEN)
          then [(sock, reply_envelope fetchId
                         (message_value
                            (mkMessage 404 JNull ("No handler for event: " +:+ event))))]
          else []
     else []).
Proof.
  intros Hsize Hparse Htype Hevent Htruthy args fetchId Hmw Hh r. subst r.
  rewrite (handleMessage_event _ _ _ _ _ _ _ Hsize Hparse Htype Hevent Htruthy).
  subst args fetchId. cbn [fst snd].
  destruct (dispatch_spec sock u event (default "" (msg_fetchId message)) (msg_body message)
              (default [] (msg_header message)) w) as (b & sent & tr & E & _ & Hquiet).
  pose proof (ext_wire _ _ _ _ _ _ E) as Hwire. cbn [snd] in Hwire.
  pose proof (ext_frame _ _ _ _ _ _ E) as Hframe. cbn [snd] in Hframe.
  split; [done|]. split; [exact Hframe|].
  rewrite Hwire. f_equal. exact (Hquiet Hmw Hh).
Qed.

Lemma unmatched_event_404_witness :
  let r := handleMessage sample_parse 0 sample_user frame_nobody sample_world in
  Z.of_nat (String.length frame_nobody) <= maxMessageSize sample_world ∧
  sample_parse frame_nobody = parse_ok message_nobody ∧
  msg_type message_nobody = type_event ∧
  msg_event message_nobody = Some "nobody" ∧
  truthy "nobody" = true ∧
  Forall (quiet (args_of sample_user message_nobody "nobody")) (middlewares sample_world) ∧
  Forall (quiet (args_of sample_user message_nobody "nobody"))
    (default [] (eventHandlers sample_world !! "nobody")) ∧
  r.1 = Normal () ∧
  wire r.2
  = wire sample_world
    ++ [(0%nat, reply_envelope "f2"
                  (message_value (mkMessage 404 JNull "No handler for event: nobody")))].
Proof.
  intros r.
  assert (Hsize : Z.of_nat (String.length frame_nobody) <= maxMessageSize sample_world)
    by (vm_compute; discriminate).
  assert (Hmw : Forall (quiet (args_of sample_user message_nobody "nobody"))
                  (middlewares sample_world)) by repeat constructor.
  assert (Hh : Forall (quiet (args_of sample_user message_nobody "nobody"))
                 (default [] (eventHandlers sample_world !! "nobody"))) by constructor.
  split; [exact Hsize|]. do 4 (split; [reflexivity|]).
  split; [exact Hmw|]. split; [exact Hh|].
  destruct (unmatched_event_404 sample_parse 0 sample_user frame_nobody sample_world
              message_nobody "nobody" Hsize eq_refl eq_refl eq_refl eq_refl Hmw Hh)
    as (H1 & _ & H2).
  split; [exact H1|]. unfold r. rewrite H2. reflexivity.
Defined.

(** C9: the [reply] the handlers receive takes [data] only.  Called as the
    README does, [reply(null, 401, 'Unauthorized')], it sends an envelope
    whose body is [null]: no [Message] is built, and [code] and [msg] come
    neither from the call nor from [fetchConfig]. *)
Theorem reply_drops_code_and_msg :
  let w' := (handleMessage sample_parse 0 sample_user frame_echo_stolen sample_world).2 in
  wire w' = wire sample_world ++ [(0%nat, reply_envelope "f1" JNull)] ∧
  (∀ config sock fetchId data extra w,
     reply sock fetchId (data :: extra) (false, set_fetchConfig config w)
     = (true, sendMessage sock (reply_envelope fetchId data) (set_fetchConfig config w))).
Proof.
  split; reflexivity.
Qed.

(** ** Payload limit *)

Lemma sample_world_reachable : reachable sample_parse sample_world.
Proof.
  apply (reachable_step sample_parse (CallOn "boom" failing_handler)); [|done].
  apply (reachable_step sample_parse (CallOn "echo" echo_handler)); [|done].
  apply (reachable_step sample_parse (CallUse auth_middleware)); [|done].
  apply (reachable_step sample_parse (CallUse log_middleware)); [|done].
  apply (reachable_step sample_parse (Connection "a" 0)); [constructor | done].
Qed.

(** C6, original reading refuted: an oversized message does not always
    yield a reply of code 413.  The server limits messages to 4 bytes and
    calls [close('a')]; the socket of the client is closing, but its
    ['message'] listener is still attached, and the 5 bytes that arrive on
    it are dropped without any reply. *)
Lemma oversized_on_closing_socket :
  let r := handleMessage sample_parse 0 sample_user "hello" sample_closing in
  reachable sample_parse sample_closing ∧
  Z.of_nat (String.length "hello") > maxMessageSize sample_closing ∧
  sockets sample_closing !! 0%nat = Some CLOSING ∧
  r = (Normal (), sample_closing) ∧
  wire r.2 = wire sample_closing.
Proof.
  split.
  { apply (reachable_step sample_parse (CallClose (One "a"))); [|done].
    apply (reachable_step sample_parse (AssignMaxMessageSize 4)); [|done].
    exact sample_world_reachable. }
  split; [reflexivity|]. split; [reflexivity|]. split; reflexivity.
Qed.

(** C6, amended: a raw message longer than [maxMessageSize] is never
    parsed: [handleMessage] returns normally with the same result whatever
    [JSON.parse] would make of the text, no middleware or handler runs and
    no pending request is touched.  If the socket of the sender is still
    open, one reply of code 413 is sent at once; on a socket that is no
    longer open nothing is sent. *)
Theorem oversized_message_413 parse sock u raw w :
  Z.of_nat (String.length raw) > maxMessageSize w ->
  let r := handleMessage parse sock u raw w in
  r.1 = Normal () ∧
  wire r.2
  = wire w ++
    (if decide (sockets w !! sock = Some OPEN)
     then [(sock, mkInternalMessage type_reply None None
                    (message_value
                       (mkMessage 413 JNull
                          ("Message too large. Maximum size is "
                           +:+ pretty (maxMessageSize w) +:+ " bytes")))
                    None)]
     else []) ∧
  trace r.2 = trace w ∧
  pendingFetches r.2 = pendingFetches w ∧
  settled r.2 = settled w ∧
  frame r.2 = frame w ∧
  (∀ parse', handleMessage parse' sock u raw w = r).
Proof.
  intros Hsize r.
  assert (Hr : ∀ parse', handleMessage parse' sock u raw w
                         = (Normal (), sendMessage sock (too_large w) w)).
  { intros parse'. unfold handleMessage. cbv zeta.
    rewrite decide_True by exact Hsize. reflexivity. }
  subst r. rewrite Hr. cbn [fst snd].
  rewrite wire_sendMessage, trace_sendMessage, frame_sendMessage.
  split; [done|]. split; [done|]. split; [done|].
  split; [|split; [|split; [done | exact Hr]]].
  - unfold sendMessage. by case_decide.
  - unfold sendMessage. by case_decide.
Qed.

Lemma oversized_message_413_witness :
  let w := set_maxMessageSize 4 sample_world in
  let r := handleMessage sample_parse 0 sample_user "hello" w in
  Z.of_nat (String.length "hello") > maxMessageSize w ∧
  r.1 = Normal () ∧
  wire r.2
  = wire w ++ [(0%nat, too_large w)] ∧
  trace r.2 = trace w ∧
  frame r.2 = frame w ∧
  (∀ parse', handleMessage parse' 0 sample_user "hello" w = r).
Proof.
  intros w r.
  assert (Hsize : Z.of_nat (String.length "hello") > maxMessageSize w) by reflexivity.
  split; [exact Hsize|].
  destruct (oversized_message_413 sample_parse 0 sample_user "hello" w Hsize)
    as (H1 & H2 & H3 & _ & _ & H6 & H7).
  split; [exact H1|]. split; [unfold r; rewrite H2; reflexivity|].
  split; [exact H3|]. split; [exact H6 | exact H7].
Defined.

(** ** Invariants *)

Lemma core_of_frame w w' : frame w' = frame w -> core w' = core w.
Proof. unfold frame, core. congruence. Qed.

Lemma tracker_inv_core w w' : core w' = core w -> tracker_inv w -> tracker_inv w'.
Proof.
  unfold core. intros [= Hc Hp Hi Ht Hs Hg] [I1 I2 I3 I4 I5 I6].
  split; rewrite ?Hc, ?Hp, ?Hi, ?Ht, ?Hs; auto.
Qed.

Lemma groups_inv_core w w' : core w' = core w -> groups_inv w -> groups_inv w'.
Proof.
  unfold core. intros [= Hc Hp Hi Ht Hs Hg] [G1 G2 G3 G5 G4].
  split; rewrite ?Hc, ?Hg; auto.
Qed.

Lemma tracker_inv_init : tracker_inv init.
Proof.
  split; simpl.
  - intros ?? H. by rewrite lookup_empty in H.
  - intros ??? H. by rewrite lookup_empty in H.
  - intros ?. rewrite !lookup_empty. done.
  - constructor.
  - intros ? H. by apply elem_of_nil in H.
  - intros ?? H. by rewrite lookup_empty in H.
Qed.

Lemma groups_inv_init : groups_inv init.
Proof.
  split; simpl.
  - intros ??? H. by rewrite lookup_empty in H.
  - intros ??? H. by rewrite lookup_empty in H.
  - intros ?? H. by rewrite lookup_empty in H.
  - intros ?? H. by rewrite lookup_empty in H.
  - intros ?? H. by rewrite lookup_empty in H.
Qed.

(** In a consistent registry no client lists an inherited name. *)
Lemma listed_own w id connection group :
  groups_inv w -> clients w !! id = Some connection ->
  group ∈ user_groups (user connection) -> inherited group = false.
Proof.
  intros G Hconn Hin.
  destruct (inv_listed_member w G id connection group Hconn Hin) as (members & Hm & _).
  exact (inv_own w G group members Hm).
Qed.

Lemma size_zero_empty (X : gset string) : size X = 0%nat <-> X = ∅.
Proof. rewrite size_empty_iff. apply leibniz_equiv_iff. Qed.

Lemma frame_dispatch sock u event fetchId body header w :
  frame (dispatch sock u event fetchId body header w) = frame w.
Proof.
  destruct (dispatch_spec sock u event fetchId body header w) as (b & s & t & E & _).
  exact (ext_frame _ _ _ _ _ _ E).
Qed.

Lemma core_ws_close sock w : core (ws_close sock w) = core w.
Proof. unfold ws_close. by destruct (sockets w !! sock) as [[]|]. Qed.

Lemma core_notify event code data msg ids : ∀ w,
  core (foldl (notify event code data msg) w ids) = core w.
Proof.
  induction ids as [|id ids IH]; intros w; simpl; [done|].
  rewrite IH. unfold notify. destruct (clients w !! id); [|done].
  apply core_of_frame, frame_sendMessage.
Qed.

(** *** The tracker: settling one request *)

Lemma unindex_lookup clientId fetchId w c :
  clientPendingFetches (unindex clientId fetchId w) !! c
  = if decide (c = clientId)
    then clientPendingFetches w !! clientId ≫= without fetchId
    else clientPendingFetches w !! c.
Proof.
  unfold unindex, without.
  destruct (clientPendingFetches w !! clientId) as [ids|] eqn:Hids; simpl.
  - destruct (decide (size (ids ∖ {[fetchId]}) = 0%nat)); simpl.
    + rewrite lookup_delete. case_decide; case_decide; congruence.
    + rewrite lookup_insert. case_decide; case_decide; congruence.
  - case_decide; congruence.
Qed.

Lemma unindex_others clientId fetchId w :
  let w' := unindex clientId fetchId w in
  clients w' = clients w ∧ pendingFetches w' = pendingFetches w ∧
  timers w' = timers w ∧ settled w' = settled w ∧ _groups w' = _groups w.
Proof.
  unfold unindex. destruct (clientPendingFetches w !! clientId); [|done].
  by case_decide.
Qed.

Lemma without_Some fetchId ids ids' f :
  without fetchId ids = Some ids' -> f ∈ ids' <-> f ∈ ids ∧ f ≠ fetchId.
Proof.
  unfold without. case_decide; [done|]. intros [= <-]. set_solver.
Qed.

Lemma without_elem fetchId ids f :
  f ∈ ids -> f ≠ fetchId -> ∃ ids', without fetchId ids = Some ids' ∧ f ∈ ids'.
Proof.
  intros Hf Hne. unfold without. case_decide as Hsize.
  - apply size_zero_empty in Hsize. set_solver.
  - eexists. split; [done|]. set_solver.
Qed.

(** Removing the stored request [fetchId] from both indices, disarming its
    deadline and settling its promise keeps the tracker consistent. *)
Lemma tracker_inv_settle w w' fetchId pending o :
  tracker_inv w ->
  pendingFetches w !! fetchId = Some pending ->
  clients w' = clients w ->
  pendingFetches w' = delete fetchId (pendingFetches w) ->
  (∀ c, clientPendingFetches w' !! c
        = if decide (c = pf_clientId pending)
          then clientPendingFetches w !! pf_clientId pending ≫= without fetchId
          else clientPendingFetches w !! c) ->
  timers w' = delete fetchId (timers w) ->
  settled w' = settled w ++ [(fetchId, o)] ->
  tracker_inv w'.
Proof.
  intros [I1 I2 I3 I4 I5 I6] Hfid Hc Hp Hi Ht Hs.
  split; rewrite ?Hc, ?Hp, ?Ht, ?Hs.
  - intros f q Hf. rewrite lookup_delete in Hf. case_decide; [done|].
    destruct (I1 f q Hf) as (ids & Hids & Hin). rewrite Hi. case_decide as Hown.
    + rewrite <- Hown, Hids. simpl. apply without_elem; [done | congruence].
    + eauto.
  - intros c ids f Hids Hin. rewrite Hi in Hids. rewrite lookup_delete.
    case_decide as Hown.
    + destruct (clientPendingFetches w !! pf_clientId pending) as [ids0|] eqn:H0;
        simpl in Hids; [|done].
      apply (without_Some _ _ _ f) in Hids. apply Hids in Hin as [Hin Hne].
      rewrite decide_False by congruence. subst c. eauto.
    + pose proof (I2 c ids f Hids Hin) as Hf.
      case_decide; [|done]. subst f. rewrite Hfid in Hf.
      injection Hf as ->. done.
  - intros f. rewrite !lookup_delete. case_decide; [|apply I3].
    split; intros []; done.
  - rewrite fmap_app. simpl. apply NoDup_app. split; [done|]. split.
    + intros f Hf Hf'. apply list_elem_of_singleton in Hf' as ->.
      apply I5 in Hf. congruence.
    + apply NoDup_singleton.
  - intros f Hf. rewrite fmap_app in Hf. simpl in Hf.
    rewrite lookup_delete. case_decide; [done|].
    apply elem_of_app in Hf as [Hf | Hf]; [by apply I5|].
    apply list_elem_of_singleton in Hf. congruence.
  - intros f q Hf. rewrite lookup_delete in Hf. case_decide; [done|]. eauto.
Qed.

Lemma tracker_inv_resolve_pending fetchId body w :
  tracker_inv w -> tracker_inv (resolve_pending fetchId body w).
Proof.
  intros I. unfold resolve_pending.
  destruct (pendingFetches w !! fetchId) as [pending|] eqn:Hfid; [|done].
  set (w2 := set_pendingFetches (delete fetchId) (clearTimeout fetchId w)).
  destruct (unindex_others (pf_clientId pending) fetchId w2) as (Hc & Hp & Ht & Hs & _).
  apply (tracker_inv_settle w _ fetchId pending (Fulfilled body) I Hfid); simpl.
  - by rewrite Hc.
  - by rewrite Hp.
  - intros c. by rewrite unindex_lookup.
  - rewrite Ht. simpl. apply delete_delete_eq.
  - by rewrite Hs.
Qed.

Lemma tracker_inv_fire_timer fetchId w :
  tracker_inv w -> tracker_inv (fire_timer fetchId w).
Proof.
  intros I. unfold fire_timer.
  destruct (timers w !! fetchId) as [maxWait|] eqn:Htimer; [|done].
  destruct (proj1 (inv_timers w I fetchId)) as [pending Hfid]; [eauto|].
  unfold on_timeout. simpl. rewrite Hfid.
  set (w0 := set_timers (delete fetchId) w).
  destruct (unindex_others (pf_clientId pending) fetchId w0) as (Hc & Hp & Ht & Hs & _).
  eapply (tracker_inv_settle w _ fetchId pending _ I Hfid); simpl.
  - by rewrite Hc.
  - by rewrite Hp.
  - intros c. by rewrite unindex_lookup.
  - by rewrite Ht.
  - by rewrite Hs.
Qed.

(** *** The tracker: registering a request *)

Lemma tracker_inv_register clientId fetchId maxWait w :
  tracker_inv w ->
  pendingFetches w !! fetchId = None ->
  fetchId ∉ (settled w).*1 ->
  is_Some (clients w !! clientId) ->
  tracker_inv (register clientId fetchId maxWait w).
Proof.
  intros [I1 I2 I3 I4 I5 I6] Hfresh Hnew Hlive. split; simpl.
  - intros f q Hf. rewrite lookup_insert in Hf. rewrite lookup_insert.
    case_decide as Hf'.
    + injection Hf as <-. simpl. rewrite decide_True by done.
      eexists. split; [done|]. apply elem_of_union. right. by apply elem_of_singleton.
    + destruct (I1 f q Hf) as (ids & Hids & Hin). case_decide as Hown.
      * rewrite Hown, Hids. simpl. eexists. split; [done|]. apply elem_of_union. by left.
      * eauto.
  - intros c ids f Hids Hin. rewrite lookup_insert in Hids. rewrite lookup_insert.
    case_decide as Hown.
    + injection Hids as <-. subst c. apply elem_of_union in Hin as [Hin | Hin].
      * destruct (clientPendingFetches w !! clientId) as [ids0|] eqn:H0; simpl in Hin;
          [|by apply not_elem_of_empty in Hin].
        pose proof (I2 _ _ _ H0 Hin) as Hf. case_decide; congruence.
      * apply elem_of_singleton in Hin as ->. by rewrite decide_True.
    + pose proof (I2 _ _ _ Hids Hin) as Hf. case_decide; congruence.
  - intros f. rewrite !lookup_insert. case_decide; [|apply I3].
    split; eauto.
  - done.
  - intros f Hf. rewrite lookup_insert. case_decide; [congruence | auto].
  - intros f q Hf. rewrite lookup_insert in Hf. case_decide.
    + by injection Hf as <-.
    + eauto.
Qed.

(** *** [cleanupClient] in closed form *)

Lemma foldl_cleanup_fetch l : ∀ w,
  NoDup l ->
  (∀ f, f ∈ l -> is_Some (pendingFetches w !! f)) ->
  let w' := foldl cleanup_fetch w l in
  clients w' = clients w ∧
  clientPendingFetches w' = clientPendingFetches w ∧
  _groups w' = _groups w ∧
  (∀ f, pendingFetches w' !! f = if decide (f ∈ l) then None else pendingFetches w !! f) ∧
  (∀ f, timers w' !! f = if decide (f ∈ l) then None else timers w !! f) ∧
  settled w' = settled w ++ ((fun f => (f, Rejected disconnected)) <$> l).
Proof.
  induction l as [|a l IH]; intros w Hnd Hall; simpl.
  - split_and!; try done. by rewrite app_nil_r.
  - apply NoDup_cons in Hnd as [Ha Hnd].
    destruct (Hall a) as [pending Hpa]; [apply elem_of_cons; by left|].
    assert (Hstep : cleanup_fetch w a
                    = set_pendingFetches (delete a)
                        (pending_reject a disconnected (clearTimeout a w))).
    { unfold cleanup_fetch. by rewrite Hpa. }
    rewrite Hstep.
    set (w1 := set_pendingFetches (delete a)
                 (pending_reject a disconnected (clearTimeout a w))).
    destruct (IH w1 Hnd) as (Hc & Hi & Hg & Hp & Ht & Hs).
    { intros f Hf. subst w1. simpl. rewrite lookup_delete_ne by set_solver.
      apply Hall. apply elem_of_cons. by right. }
    rewrite Hc, Hi, Hg, Hs. subst w1. simpl. split_and!; try done.
    + intros f. rewrite Hp. simpl. rewrite lookup_delete.
      repeat case_decide; set_solver.
    + intros f. rewrite Ht. simpl. rewrite delete_delete_eq, lookup_delete.
      repeat case_decide; set_solver.
    + by rewrite <- app_assoc.
Qed.

Lemma cleanup_group_lookup clientId w a g :
  _groups (cleanup_group clientId w a) !! g
  = if decide (g = a) then _groups w !! a ≫= without clientId else _groups w !! g.
Proof.
  unfold cleanup_group, without.
  destruct (_groups w !! a) as [members|] eqn:Hm; simpl.
  - destruct (decide (size (members ∖ {[clientId]}) = 0%nat)); simpl.
    + rewrite lookup_delete. case_decide; case_decide; congruence.
    + rewrite lookup_insert. case_decide; case_decide; congruence.
  - case_decide; congruence.
Qed.

Lemma cleanup_group_others clientId w a :
  let w' := cleanup_group clientId w a in
  clients w' = clients w ∧ pendingFetches w' = pendingFetches w ∧
  clientPendingFetches w' = clientPendingFetches w ∧
  timers w' = timers w ∧ settled w' = settled w.
Proof.
  unfold cleanup_group. destruct (_groups w !! a); [|done]. by case_decide.
Qed.

Lemma without_idem id (o : option (gset string)) :
  (o ≫= without id) ≫= without id = o ≫= without id.
Proof.
  destruct o as [members|]; simpl; [|done].
  unfold without.
  destruct (decide (size (members ∖ {[id]}) = 0%nat)) as [Hsize|Hsize]; simpl; [done|].
  assert (members ∖ {[id]} ∖ {[id]} = members ∖ {[id]}) as -> by set_solver.
  by rewrite decide_False.
Qed.

Lemma foldl_cleanup_group clientId l : ∀ w,
  let w' := foldl (cleanup_group clientId) w l in
  clients w' = clients w ∧ pendingFetches w' = pendingFetches w ∧
  clientPendingFetches w' = clientPendingFetches w ∧
  timers w' = timers w ∧ settled w' = settled w ∧
  (∀ g, _groups w' !! g
        = if decide (g ∈ l) then _groups w !! g ≫= without clientId else _groups w !! g).
Proof.
  induction l as [|a l IH]; intros w; simpl.
  - split_and!; done.
  - destruct (IH (cleanup_group clientId w a)) as (Hc & Hp & Hi & Ht & Hs & Hg).
    destruct (cleanup_group_others clientId w a) as (Hc' & Hp' & Hi' & Ht' & Hs').
    rewrite Hc, Hp, Hi, Ht, Hs. split_and!; try done.
    intros g. rewrite Hg, !cleanup_group_lookup.
    destruct (decide (g = a)) as [->|Hne].
    + rewrite (decide_True (P := a ∈ a :: l)) by (apply elem_of_cons; by left).
      case_decide; [apply without_idem | done].
    + destruct (decide (g ∈ l)) as [Hin|Hnin].
      * rewrite decide_True; [done | apply elem_of_cons; by right].
      * rewrite decide_False; [done|].
        intros H. apply elem_of_cons in H as [? | ?]; done.
Qed.

Lemma cleanup_groups_own clientId groups : ∀ w,
  (∀ g, g ∈ groups -> inherited g = false) ->
  cleanup_groups clientId groups w = (Normal (), foldl (cleanup_group clientId) w groups).
Proof.
  induction groups as [|g groups IH]; intros w Hown; simpl; [done|].
  rewrite (Hown g) by (apply elem_of_cons; by left).
  apply IH. intros g' Hg'. apply Hown, elem_of_cons. by right.
Qed.

(** Whatever the names, the loop over the groups touches [_groups] only. *)
Lemma cleanup_groups_others clientId groups : ∀ w,
  let w' := (cleanup_groups clientId groups w).2 in
  clients w' = clients w ∧ pendingFetches w' = pendingFetches w ∧
  clientPendingFetches w' = clientPendingFetches w ∧
  timers w' = timers w ∧ settled w' = settled w.
Proof.
  induction groups as [|g groups IH]; intros w; simpl; [done|].
  destruct (inherited g); [done|].
  destruct (IH (cleanup_group clientId w g)) as (Hc & Hp & Hi & Ht & Hs).
  destruct (cleanup_group_others clientId w g) as (Hc' & Hp' & Hi' & Ht' & Hs').
  simpl in *. by rewrite Hc, Hp, Hi, Ht, Hs.
Qed.

(** The whole of [cleanupClient] for a connected client, in a consistent
    server: its requests leave both indices and are rejected, it leaves
    the groups it lists, and it leaves [clients]. *)
Lemma cleanupClient_spec clientId connection w :
  consistent w ->
  clients w !! clientId = Some connection ->
  let ids := default ∅ (clientPendingFetches w !! clientId) in
  let w' := (cleanupClient clientId w).2 in
  (cleanupClient clientId w).1 = Normal () ∧
  clients w' = delete clientId (clients w) ∧
  clientPendingFetches w' = delete clientId (clientPendingFetches w) ∧
  (∀ f, pendingFetches w' !! f = if decide (f ∈ ids) then None else pendingFetches w !! f) ∧
  (∀ f, timers w' !! f = if decide (f ∈ ids) then None else timers w !! f) ∧
  settled w' = settled w ++ ((fun f => (f, Rejected disconnected)) <$> elements ids) ∧
  (∀ g, _groups w' !! g
        = if decide (g ∈ user_groups (user connection))
          then _groups w !! g ≫= without clientId else _groups w !! g).
Proof.
  intros [I G] Hconn ids w'. subst w'. unfold cleanupClient. rewrite Hconn.
  rewrite cleanup_groups_own by (intros g Hg; by apply (listed_own w clientId connection)).
  cbn [fst snd]. split; [done|].
  set (w1 := match clientPendingFetches w !! clientId with
             | Some pendingFetchIds =>
                 set_clientPendingFetches (delete clientId)
                   (foldl cleanup_fetch w (elements pendingFetchIds))
             | None => w
             end).
  assert (H1 : clients w1 = clients w ∧
               clientPendingFetches w1 = delete clientId (clientPendingFetches w) ∧
               _groups w1 = _groups w ∧
               (∀ f, pendingFetches w1 !! f
                     = if decide (f ∈ ids) then None else pendingFetches w !! f) ∧
               (∀ f, timers w1 !! f = if decide (f ∈ ids) then None else timers w !! f) ∧
               settled w1 = settled w ++ ((fun f => (f, Rejected disconnected)) <$> elements ids)).
  { subst w1 ids.
    destruct (clientPendingFetches w !! clientId) as [pendingFetchIds|] eqn:Hids; simpl.
    - destruct (foldl_cleanup_fetch (elements pendingFetchIds) w)
        as (Hc & Hi & Hg & Hp & Ht & Hs).
      + apply NoDup_elements.
      + intros f Hf. apply elem_of_elements in Hf.
        rewrite (inv_index_sound w I _ _ _ Hids Hf). eauto.
      + rewrite Hc, Hi, Hg, Hs. split_and!; try done.
        * intros f. rewrite Hp. repeat case_decide; set_solver.
        * intros f. rewrite Ht. repeat case_decide; set_solver.
    - split_and!; try done.
      + symmetry. by apply delete_id.
      + rewrite elements_empty. simpl. by rewrite app_nil_r. }
  clearbody w1. destruct H1 as (Hc1 & Hi1 & Hg1 & Hp1 & Ht1 & Hs1).
  destruct (foldl_cleanup_group clientId (user_groups (user connection)) w1)
    as (Hc & Hp & Hi & Ht & Hs & Hg).
  simpl. rewrite Hc, Hp, Hi, Ht, Hs, Hc1, Hi1, Hs1. split_and!; try done.
  intros g. by rewrite Hg, Hg1.
Qed.

Lemma groups_inv_fields w w' :
  clients w' = clients w -> _groups w' = _groups w -> groups_inv w -> groups_inv w'.
Proof.
  intros Hc Hg [G1 G2 G3 G5 G4]. split; rewrite ?Hc, ?Hg; auto.
Qed.

Lemma fst_disconnected (l : list string) :
  ((fun f => (f, Rejected disconnected)) <$> l).*1 = l.
Proof. induction l as [|a l IH]; [done|]. rewrite !fmap_cons. simpl. by f_equal. Qed.

Lemma tracker_inv_cleanupClient clientId w :
  consistent w -> tracker_inv (cleanupClient clientId w).2.
Proof.
  intros C. pose proof C as [I _].
  destruct (clients w !! clientId) as [connection|] eqn:Hconn;
    [|unfold cleanupClient; by rewrite Hconn].
  destruct (cleanupClient_spec clientId connection w C Hconn)
    as (_ & Hc & Hi & Hp & Ht & Hs & _).
  set (ids := default ∅ (clientPendingFetches w !! clientId)) in *.
  assert (Hids : ∀ f, f ∈ ids -> pendingFetches w !! f = Some (mkPendingFetch clientId)).
  { intros f Hf. subst ids.
    destruct (clientPendingFetches w !! clientId) as [ids0|] eqn:H0; simpl in Hf.
    - exact (inv_index_sound w I _ _ _ H0 Hf).
    - by apply not_elem_of_empty in Hf. }
  assert (Hother : ∀ f q, f ∉ ids -> pendingFetches w !! f = Some q ->
                          pf_clientId q ≠ clientId).
  { intros f q Hf Hq Heq. destruct (inv_indexed w I f q Hq) as (ids0 & H0 & Hin).
    rewrite Heq in H0. subst ids. rewrite H0 in Hf. done. }
  destruct I as [I1 I2 I3 I4 I5 I6]. split.
  - intros f q Hf. rewrite Hp in Hf. case_decide as Hin; [done|].
    rewrite Hi, lookup_delete_ne by (symmetry; eauto). eauto.
  - intros c ids0 f H0 Hin. rewrite Hi in H0. rewrite lookup_delete in H0.
    case_decide as Hne; [done|]. pose proof (I2 _ _ _ H0 Hin) as Hf.
    rewrite Hp. case_decide as Hin'; [|done].
    apply Hids in Hin'. congruence.
  - intros f. rewrite Hp, Ht. case_decide; [|apply I3]. split; intros []; done.
  - rewrite Hs, fmap_app, fst_disconnected.
    apply NoDup_app. split; [done|]. split.
    + intros f Hf Hf'. apply I5 in Hf.
      apply elem_of_elements, Hids in Hf'. congruence.
    + apply NoDup_elements.
  - intros f Hf. rewrite Hs, fmap_app, fst_disconnected in Hf.
    rewrite Hp. case_decide as Hin; [done|].
    apply elem_of_app in Hf as [Hf | Hf]; [by apply I5|].
    by apply elem_of_elements in Hf.
  - intros f q Hf. rewrite Hp in Hf. case_decide as Hin; [done|].
    rewrite Hc, lookup_delete_ne by (symmetry; eauto). eauto.
Qed.

Lemma groups_inv_cleanupClient clientId w :
  consistent w -> groups_inv (cleanupClient clientId w).2.
Proof.
  intros C. pose proof C as [I G].
  destruct (clients w !! clientId) as [connection|] eqn:Hconn;
    [|unfold cleanupClient; by rewrite Hconn].
  destruct (cleanupClient_spec clientId connection w C Hconn)
    as (_ & Hc & _ & _ & _ & _ & Hg).
  destruct G as [G1 G2 G3 G5 G4]. split.
  - intros g members p Hm Hp. rewrite Hg in Hm. rewrite Hc.
    case_decide as Hlisted.
    + destruct (_groups w !! g) as [members0|] eqn:H0; simpl in Hm; [|done].
      apply (without_Some _ _ _ p) in Hm. apply Hm in Hp as [Hp Hne].
      rewrite lookup_delete_ne by done. eauto.
    + destruct (G1 g members p Hm Hp) as (cp & Hcp & Hin).
      rewrite lookup_delete_ne; [eauto|]. intros <-. congruence.
  - intros p cp g Hcp Hin. rewrite Hc in Hcp. rewrite lookup_delete in Hcp.
    case_decide as Hne; [done|].
    destruct (G2 p cp g Hcp Hin) as (members & Hm & Hp). rewrite Hg, Hm.
    case_decide; [|eauto]. simpl. apply without_elem; [done | congruence].
  - intros g members Hm. rewrite Hg in Hm. case_decide; [|eauto].
    destruct (_groups w !! g) as [members0|]; simpl in Hm; [|done].
    unfold without in Hm. case_decide as Hsize; [done|]. injection Hm as <-.
    intros Hempty. apply Hsize. by apply size_zero_empty.
  - intros g members Hm. rewrite Hg in Hm. case_decide; [|eauto].
    destruct (_groups w !! g) as [members0|] eqn:H0; simpl in Hm; [eauto | done].
  - intros p cp Hcp. rewrite Hc in Hcp. rewrite lookup_delete in Hcp.
    case_decide; [done|]. eauto.
Qed.

(** *** Connections *)

Lemma on_connection_fields clientId sock w :
  let w' := on_connection clientId sock w in
  clients w' = <[clientId := mkConn sock (mkUser clientId [])]> (clients w) ∧
  pendingFetches w' = pendingFetches w ∧
  clientPendingFetches w' = clientPendingFetches w ∧
  timers w' = timers w ∧ settled w' = settled w ∧ _groups w' = _groups w.
Proof.
  unfold on_connection, sendMessage. by case_decide.
Qed.

Lemma tracker_inv_clients w w' :
  (∀ id, is_Some (clients w !! id) -> is_Some (clients w' !! id)) ->
  pendingFetches w' = pendingFetches w ->
  clientPendingFetches w' = clientPendingFetches w ->
  timers w' = timers w -> settled w' = settled w ->
  tracker_inv w -> tracker_inv w'.
Proof.
  intros Hc Hp Hi Ht Hs [I1 I2 I3 I4 I5 I6].
  split; rewrite ?Hp, ?Hi, ?Ht, ?Hs; eauto.
Qed.

Lemma tracker_inv_on_connection clientId sock w :
  tracker_inv w -> tracker_inv (on_connection clientId sock w).
Proof.
  destruct (on_connection_fields clientId sock w) as (Hc & Hp & Hi & Ht & Hs & _).
  apply tracker_inv_clients; try done.
  intros id His. rewrite Hc, lookup_insert. by case_decide.
Qed.

Lemma groups_inv_on_connection clientId sock w :
  clients w !! clientId = None ->
  groups_inv w -> groups_inv (on_connection clientId sock w).
Proof.
  intros Hfresh [G1 G2 G3 G5 G4].
  destruct (on_connection_fields clientId sock w) as (Hc & _ & _ & _ & _ & Hg).
  split; rewrite ?Hc, ?Hg.
  - intros g members p Hm Hp. destruct (G1 g members p Hm Hp) as (cp & Hcp & Hin).
    rewrite lookup_insert_ne; [eauto|]. intros <-. congruence.
  - intros p cp g Hcp Hin. rewrite lookup_insert in Hcp. case_decide.
    + injection Hcp as <-. simpl in Hin. by apply elem_of_nil in Hin.
    + eauto.
  - done.
  - done.
  - intros p cp Hcp. rewrite lookup_insert in Hcp. case_decide.
    + injection Hcp as <-. simpl. constructor.
    + eauto.
Qed.

(** *** [indexOf] and [splice] *)

Lemma indexOf_range x l : indexOf x l = -1 ∨ 0 <= indexOf x l < Z.of_nat (length l).
Proof.
  induction l as [|y l IH]; simpl; [by left|].
  case_decide; [right; lia|]. case_decide; [by left|]. right. lia.
Qed.

Lemma indexOf_not_found x l : indexOf x l = -1 <-> x ∉ l.
Proof.
  induction l as [|y l IH]; simpl.
  - split; [intros _; apply not_elem_of_nil | done].
  - rewrite not_elem_of_cons. case_decide as Hy.
    + split; [done | intros [? _]; congruence].
    + case_decide as Hi.
      * split; [intros _; split; [congruence | by apply IH] | done].
      * split; [pose proof (indexOf_range x l); lia|].
        intros [_ Hnin]. by apply IH in Hnin.
Qed.

(** Removing the first occurrence from a list without duplicates removes
    the element. *)
Lemma indexOf_delete x l y :
  NoDup l -> x ∈ l ->
  y ∈ delete (Z.to_nat (indexOf x l)) l <-> y ∈ l ∧ y ≠ x.
Proof.
  induction l as [|z l IH]; intros Hnd Hx; [by apply elem_of_nil in Hx|].
  apply NoDup_cons in Hnd as [Hz Hnd]. simpl. case_decide as Hzx.
  - subst z. simpl. rewrite elem_of_cons. split.
    + intros Hy. split; [by right | congruence].
    + intros [[-> | Hy] Hne]; done.
  - apply elem_of_cons in Hx as [-> | Hx]; [done|].
    case_decide as Hi; [by apply indexOf_not_found in Hi|].
    pose proof (indexOf_range x l) as [? | Hr]; [done|].
    replace (Z.to_nat (indexOf x l + 1)) with (S (Z.to_nat (indexOf x l))) by lia.
    simpl. rewrite !elem_of_cons, (IH Hnd Hx). split.
    + intros [-> | [Hy Hne]]; (split; [auto | congruence]).
    + intros [[-> | Hy] Hne]; auto.
Qed.

Lemma indexOf_snoc x l :
  x ∉ l -> indexOf x (l ++ [x]) = Z.of_nat (length l).
Proof.
  induction l as [|y l IH]; intros Hx; simpl.
  - by rewrite decide_True.
  - apply not_elem_of_cons in Hx as [Hne Hx]. rewrite decide_False by congruence.
    rewrite (IH Hx). case_decide; lia.
Qed.

Lemma delete_snoc (l : list string) x : delete (length l) (l ++ [x]) = l.
Proof. rewrite delete_middle. apply app_nil_r. Qed.

(** *** [addGroup] and [removeGroup] *)

Lemma addGroup_inherited group id w :
  inherited group = true -> (addGroup group id w).2 = w.
Proof. intros H. unfold addGroup. rewrite H. by destruct (clients w !! id). Qed.

Lemma removeGroup_inherited group id w :
  inherited group = true -> (removeGroup group id w).2 = w.
Proof. intros H. unfold removeGroup. rewrite H. by destruct (clients w !! id). Qed.

Lemma addGroup_fields group id connection w :
  clients w !! id = Some connection ->
  inherited group = false ->
  let w' := (addGroup group id w).2 in
  (addGroup group id w).1 = Normal () ∧
  _groups w' = <[group := membersOf group w ∪ {[id]}]> (_groups w) ∧
  clients w' = <[id := mkConn (ws connection)
                         (mkUser (user_id (user connection))
                            (if decide (group ∈ user_groups (user connection))
                             then user_groups (user connection)
                             else user_groups (user connection) ++ [group]))]>
                 (clients w) ∧
  pendingFetches w' = pendingFetches w ∧
  clientPendingFetches w' = clientPendingFetches w ∧
  timers w' = timers w ∧ settled w' = settled w.
Proof.
  intros Hconn Hown. unfold addGroup, membersOf. rewrite Hconn, Hown. simpl. rewrite Hconn.
  case_decide; simpl; split_and!; try done.
  symmetry. apply insert_id. rewrite Hconn. by destruct connection as [? []].
Qed.

Lemma removeGroup_fields group id connection w :
  clients w !! id = Some connection ->
  inherited group = false ->
  let w' := (removeGroup group id w).2 in
  (removeGroup group id w).1 = Normal () ∧
  (∀ g, _groups w' !! g
        = if decide (g = group) then _groups w !! group ≫= without id else _groups w !! g) ∧
  clients w' = <[id := mkConn (ws connection)
                         (mkUser (user_id (user connection))
                            (if decide (indexOf group (user_groups (user connection)) > -1)
                             then delete (Z.to_nat (indexOf group (user_groups (user connection))))
                                    (user_groups (user connection))
                             else user_groups (user connection)))]>
                 (clients w) ∧
  pendingFetches w' = pendingFetches w ∧
  clientPendingFetches w' = clientPendingFetches w ∧
  timers w' = timers w ∧ settled w' = settled w.
Proof.
  intros Hconn Hown. unfold removeGroup. rewrite Hconn, Hown.
  set (w1 := match _groups w !! group with
             | Some members =>
                 if decide (size (members ∖ {[id]}) = 0%nat)
                 then set_groups (delete group) w
                 else set_groups (<[group:=members ∖ {[id]}]>) w
             | None => w
             end).
  assert (H1 : clients w1 = clients w ∧ pendingFetches w1 = pendingFetches w ∧
               clientPendingFetches w1 = clientPendingFetches w ∧
               timers w1 = timers w ∧ settled w1 = settled w ∧
               ∀ g, _groups w1 !! g
                    = if decide (g = group) then _groups w !! group ≫= without id
                      else _groups w !! g).
  { subst w1. unfold without. destruct (_groups w !! group) as [members|] eqn:Hm; simpl.
    - destruct (decide (size (members ∖ {[id]}) = 0%nat)); simpl; split_and!; try done.
      + intros g. rewrite lookup_delete. case_decide; case_decide; congruence.
      + intros g. rewrite lookup_insert. case_decide; case_decide; congruence.
    - split_and!; try done. intros g. case_decide; congruence. }
  clearbody w1. destruct H1 as (Hc & Hp & Hi & Ht & Hs & Hg).
  rewrite Hc, Hconn. case_decide; simpl; rewrite ?Hc, ?Hp, ?Hi, ?Ht, ?Hs; split_and!; try done.
  symmetry. apply insert_id. rewrite Hconn. by destruct connection as [? []].
Qed.

Lemma tracker_inv_addGroup group id w :
  tracker_inv w -> tracker_inv (addGroup group id w).2.
Proof.
  destruct (clients w !! id) as [connection|] eqn:Hconn;
    [|unfold addGroup; by rewrite Hconn].
  destruct (inherited group) eqn:Hown; [by rewrite addGroup_inherited|].
  destruct (addGroup_fields group id connection w Hconn Hown)
    as (_ & _ & Hc & Hp & Hi & Ht & Hs).
  apply tracker_inv_clients; try done.
  intros p Hp'. rewrite Hc, lookup_insert. destruct (decide (id = p)); [eauto | done].
Qed.

Lemma tracker_inv_removeGroup group id w :
  tracker_inv w -> tracker_inv (removeGroup group id w).2.
Proof.
  destruct (clients w !! id) as [connection|] eqn:Hconn;
    [|unfold removeGroup; by rewrite Hconn].
  destruct (inherited group) eqn:Hown; [by rewrite removeGroup_inherited|].
  destruct (removeGroup_fields group id connection w Hconn Hown)
    as (_ & _ & Hc & Hp & Hi & Ht & Hs).
  apply tracker_inv_clients; try done.
  intros p Hp'. rewrite Hc, lookup_insert. destruct (decide (id = p)); [eauto | done].
Qed.

Lemma membersOf_Some group members w :
  _groups w !! group = Some members -> membersOf group w = members.
Proof. unfold membersOf. by intros ->. Qed.

Lemma groups_inv_addGroup group id w :
  groups_inv w -> groups_inv (addGroup group id w).2.
Proof.
  intros G. destruct (clients w !! id) as [connection|] eqn:Hconn;
    [|unfold addGroup; by rewrite Hconn].
  destruct (inherited group) eqn:Hown; [by rewrite addGroup_inherited|].
  destruct (addGroup_fields group id connection w Hconn Hown) as (_ & Hg & Hc & _).
  set (listed := if decide (group ∈ user_groups (user connection))
                 then user_groups (user connection)
                 else user_groups (user connection) ++ [group]) in *.
  assert (Hkeep : ∀ g, g ∈ user_groups (user connection) -> g ∈ listed).
  { intros g Hin. subst listed. case_decide; [done|]. apply elem_of_app. by left. }
  assert (Hnew : group ∈ listed).
  { subst listed. case_decide; [done|]. apply elem_of_app. right.
    by apply list_elem_of_singleton. }
  assert (Hback : ∀ g, g ∈ listed -> g = group ∨ g ∈ user_groups (user connection)).
  { intros g Hin. subst listed. case_decide; [by right|].
    apply elem_of_app in Hin as [Hin | Hin]; [by right|].
    left. by apply list_elem_of_singleton in Hin. }
  destruct G as [G1 G2 G3 G5 G4]. split; rewrite ?Hg, ?Hc.
  - intros g members p Hm Hp. rewrite lookup_insert in Hm. rewrite lookup_insert.
    case_decide as Hgg.
    + injection Hm as <-. subst g. case_decide as Hpp; [simpl; eauto|].
      apply elem_of_union in Hp as [Hp | Hp];
        [|apply elem_of_singleton in Hp; congruence].
      unfold membersOf in Hp.
      destruct (_groups w !! group) as [members|] eqn:Hm; simpl in Hp;
        [|by apply not_elem_of_empty in Hp].
      eauto.
    + destruct (G1 g members p Hm Hp) as (cp & Hcp & Hin).
      case_decide as Hpp; [|eauto]. subst p. rewrite Hconn in Hcp.
      injection Hcp as <-. simpl. eauto.
  - intros p cp g Hcp Hin. rewrite lookup_insert in Hcp. rewrite lookup_insert.
    case_decide as Hpp.
    + injection Hcp as <-. subst p. simpl in Hin. case_decide as Hgg.
      * eexists. split; [done|]. apply elem_of_union. right. by apply elem_of_singleton.
      * apply Hback in Hin as [? | Hin]; [congruence|]. eauto.
    + destruct (G2 p cp g Hcp Hin) as (members & Hm & Hp). case_decide as Hgg.
      * subst g. eexists. split; [done|]. apply elem_of_union. left.
        by rewrite (membersOf_Some _ _ _ Hm).
      * eauto.
  - intros g members Hm. rewrite lookup_insert in Hm. case_decide; [|eauto].
    injection Hm as <-. set_solver.
  - intros g members Hm. rewrite lookup_insert in Hm. case_decide; [|eauto].
    by subst g.
  - intros p cp Hcp. rewrite lookup_insert in Hcp. case_decide; [|eauto].
    injection Hcp as <-. simpl. subst listed. subst p. case_decide as Hin; [eauto|].
    apply NoDup_app. split; [eauto|]. split; [|apply NoDup_singleton].
    intros g Hg' Hg''. apply list_elem_of_singleton in Hg''. congruence.
Qed.

Lemma groups_inv_removeGroup group id w :
  groups_inv w -> groups_inv (removeGroup group id w).2.
Proof.
  intros G. destruct (clients w !! id) as [connection|] eqn:Hconn;
    [|unfold removeGroup; by rewrite Hconn].
  destruct (inherited group) eqn:Hown; [by rewrite removeGroup_inherited|].
  destruct (removeGroup_fields group id connection w Hconn Hown) as (_ & Hg & Hc & _).
  pose proof (inv_nodup w G id connection Hconn) as Hnd.
  set (listed := if decide (indexOf group (user_groups (user connection)) > -1)
                 then delete (Z.to_nat (indexOf group (user_groups (user connection))))
                        (user_groups (user connection))
                 else user_groups (user connection)) in *.
  assert (Hlisted : ∀ g, g ∈ listed <-> g ∈ user_groups (user connection) ∧ g ≠ group).
  { intros g. subst listed. case_decide as Hi.
    - apply indexOf_delete; [done|].
      destruct (decide (group ∈ user_groups (user connection))) as [|Hnin]; [done|].
      apply indexOf_not_found in Hnin. lia.
    - assert (group ∉ user_groups (user connection)) as Hnin.
      { apply indexOf_not_found.
        pose proof (indexOf_range group (user_groups (user connection))). lia. }
      split; [|by intros []]. intros Hin. split; [done|]. congruence. }
  destruct G as [G1 G2 G3 G5 G4]. split; rewrite ?Hc.
  - intros g members p Hm Hp. rewrite Hg in Hm. rewrite lookup_insert.
    case_decide as Hgg.
    + subst g. destruct (_groups w !! group) as [members0|] eqn:H0; simpl in Hm; [|done].
      apply (without_Some _ _ _ p) in Hm. apply Hm in Hp as [Hp Hne].
      rewrite decide_False by done. eauto.
    + destruct (G1 g members p Hm Hp) as (cp & Hcp & Hin).
      case_decide as Hpp; [|eauto]. subst p. rewrite Hconn in Hcp.
      injection Hcp as <-. eexists. split; [done|]. simpl. by apply Hlisted.
  - intros p cp g Hcp Hin. rewrite lookup_insert in Hcp. rewrite Hg.
    case_decide as Hpp.
    + injection Hcp as <-. subst p. simpl in Hin. apply Hlisted in Hin as [Hin Hne].
      rewrite decide_False by done. eauto.
    + destruct (G2 p cp g Hcp Hin) as (members & Hm & Hp). case_decide as Hgg.
      * subst g. rewrite Hm. simpl. apply without_elem; [done | congruence].
      * eauto.
  - intros g members Hm. rewrite Hg in Hm. case_decide; [|eauto].
    destruct (_groups w !! group) as [members0|]; simpl in Hm; [|done].
    unfold without in Hm. case_decide as Hsize; [done|]. injection Hm as <-.
    intros Hempty. apply Hsize. by apply size_zero_empty.
  - intros g members Hm. rewrite Hg in Hm. case_decide; [by subst g | eauto].
  - intros p cp Hcp. rewrite lookup_insert in Hcp. case_decide; [|eauto].
    injection Hcp as <-. simpl. subst listed. case_decide; [|done].
    eapply sublist_NoDup; [exact Hnd | apply sublist_delete].
Qed.

(** *** Both invariants along the transitions *)

Lemma consistent_core w w' : core w' = core w -> consistent w -> consistent w'.
Proof.
  intros H [I G]. split; [by apply (tracker_inv_core w) | by apply (groups_inv_core w)].
Qed.

Lemma resolve_pending_groups fetchId body w :
  clients (resolve_pending fetchId body w) = clients w ∧
  _groups (resolve_pending fetchId body w) = _groups w.
Proof.
  unfold resolve_pending. destruct (pendingFetches w !! fetchId) as [pending|]; [|done].
  set (w2 := set_pendingFetches (delete fetchId) (clearTimeout fetchId w)).
  destruct (unindex_others (pf_clientId pending) fetchId w2) as (Hc & _ & _ & _ & Hg).
  simpl. by rewrite Hc, Hg.
Qed.

Lemma fire_timer_groups fetchId w :
  clients (fire_timer fetchId w) = clients w ∧
  _groups (fire_timer fetchId w) = _groups w.
Proof.
  unfold fire_timer. destruct (timers w !! fetchId) as [maxWait|]; [|done].
  unfold on_timeout. set (w0 := set_timers (delete fetchId) w).
  destruct (pendingFetches w0 !! fetchId) as [pending|]; [|done].
  destruct (unindex_others (pf_clientId pending) fetchId w0) as (Hc & _ & _ & _ & Hg).
  simpl. by rewrite Hc, Hg.
Qed.

Lemma consistent_handleMessage parse sock u raw w :
  consistent w -> consistent (handleMessage parse sock u raw w).2.
Proof.
  intros [I G]. unfold handleMessage. cbv zeta. case_decide.
  { apply (consistent_core w); [|done]. apply core_of_frame, frame_sendMessage. }
  destruct (parse raw) as [| |message]; simpl.
  - apply (consistent_core w); [|done]. apply core_of_frame, frame_sendMessage.
  - done.
  - destruct (msg_type message).
    + destruct (msg_event message) as [event|]; [|done].
      destruct (truthy event); [|done]. simpl.
      apply (consistent_core w); [|done]. apply core_of_frame, frame_dispatch.
    + destruct (truthy (default "" (msg_fetchId message))); [|done]. simpl. split.
      * by apply tracker_inv_resolve_pending.
      * destruct (resolve_pending_groups (default "" (msg_fetchId message))
                    (msg_body message) w) as [Hc Hg].
        by apply (groups_inv_fields w).
    + done.
Qed.

Lemma consistent_cleanupClient clientId w :
  consistent w -> consistent (cleanupClient clientId w).2.
Proof.
  intros C. split;
    [by apply tracker_inv_cleanupClient | by apply groups_inv_cleanupClient].
Qed.

Lemma consistent_close_loop ids : ∀ w,
  consistent w -> consistent (close_loop ids w).2.
Proof.
  induction ids as [|id ids IH]; intros w C; simpl; [done|].
  destruct (clients w !! id) as [connection|]; [|by apply IH].
  assert (C' : consistent (cleanupClient id (ws_close (ws connection) w)).2).
  { apply consistent_cleanupClient, (consistent_core w); [apply core_ws_close | done]. }
  destruct (cleanupClient id (ws_close (ws connection) w)) as [[|e] w']; [by apply IH | done].
Qed.

Lemma register_fields clientId fetchId maxWait w :
  let w' := register clientId fetchId maxWait w in
  clients w' = clients w ∧ _groups w' = _groups w ∧ settled w' = settled w ∧
  sockets w' = sockets w ∧
  pendingFetches w' = <[fetchId := mkPendingFetch clientId]> (pendingFetches w).
Proof. done. Qed.

Lemma fetch_loop_inv uuid event code data msg maxWait ids : ∀ k w promises w',
  fetch_loop uuid k event code data msg maxWait ids w = (promises, w') ->
  (∀ i j : nat, uuid i = uuid j -> i = j) ->
  fresh_from uuid k w ->
  tracker_inv w ->
  tracker_inv w' ∧ clients w' = clients w ∧ _groups w' = _groups w ∧
  settled w' = settled w.
Proof.
  induction ids as [|clientId rest IH]; intros k w promises w' Hloop Hinj Hfresh I;
    simpl in Hloop.
  - by injection Hloop as <- <-.
  - destruct (clients w !! clientId) as [connection|] eqn:Hconn.
    + set (w1 := register clientId (uuid k) maxWait w) in *.
      set (w2 := sendMessage (ws connection)
                   (event_message event (Some (uuid k)) code data msg) w1) in *.
      destruct (fetch_loop uuid (S k) event code data msg maxWait rest w2)
        as [ps w3] eqn:Hrest.
      injection Hloop as <- <-.
      destruct (Hfresh k) as [Hk1 Hk2]; [lia|].
      assert (I1 : tracker_inv w1) by (apply tracker_inv_register; eauto).
      assert (Hcore : core w2 = core w1) by apply core_of_frame, frame_sendMessage.
      assert (I2 : tracker_inv w2) by (by apply (tracker_inv_core w1)).
      unfold core in Hcore. injection Hcore as Hc2 Hp2 _ _ Hs2 Hg2.
      destruct (IH (S k) w2 ps w3 Hrest Hinj) as (I3 & Hc3 & Hg3 & Hs3); [|done|].
      * intros j Hj. rewrite Hp2, Hs2. subst w1. simpl.
        destruct (Hfresh j) as [Hj1 Hj2]; [lia|].
        rewrite lookup_insert_ne; [done|]. intros Heq. apply Hinj in Heq. lia.
      * rewrite Hc3, Hg3, Hs3, Hc2, Hg2, Hs2. done.
    + destruct (fetch_loop uuid k event code data msg maxWait rest w)
        as [ps w3] eqn:Hrest.
      injection Hloop as <- <-. by apply (IH k w ps w3).
Qed.

Lemma consistent_fetch uuid id event data config w :
  fresh_uuids uuid w ->
  consistent w -> consistent (fetch uuid id event data config w).2.
Proof.
  intros [Hinj Hfresh] [I G]. unfold fetch. cbv zeta.
  destruct (negb (final_hasReply w config)); simpl.
  - apply (consistent_core w); [apply core_notify | done].
  - destruct (fetch_loop uuid 0 event (final_code w config) data (final_msg w config)
                (final_maxWait w config) (target_ids id) w) as [promises w'] eqn:Hloop.
    destruct (fetch_loop_inv _ _ _ _ _ _ _ _ _ _ _ Hloop Hinj) as (I' & Hc & Hg & _);
      [by intros j _ | done |].
    assert (consistent w') by (split; [done | by apply (groups_inv_fields w)]).
    by destruct promises as [|? []].
Qed.

Section Reachable.

Variable JSON_parse : string -> ParseResult.

Lemma consistent_step i w :
  admissible i w -> consistent w -> consistent (step JSON_parse i w).
Proof.
  intros Hadm C. destruct i; simpl in *.
  - destruct Hadm as [Hfresh _]. destruct C as [I G]. split.
    + by apply tracker_inv_on_connection.
    + by apply groups_inv_on_connection.
  - by apply consistent_handleMessage.
  - apply consistent_cleanupClient. by apply (consistent_core w).
  - destruct C as [I G]. split; [by apply tracker_inv_fire_timer|].
    destruct (fire_timer_groups fetchId w) as [Hc Hg]. by apply (groups_inv_fields w).
  - by apply consistent_fetch.
  - unfold fetchByGroup.
    destruct (collect (target_ids group) w ∅) as [clientIds|e]; [|done].
    case_decide; [done|]. by apply consistent_fetch.
  - destruct C as [I G]. split; [by apply tracker_inv_addGroup | by apply groups_inv_addGroup].
  - destruct C as [I G].
    split; [by apply tracker_inv_removeGroup | by apply groups_inv_removeGroup].
  - by apply consistent_close_loop.
  - unfold closeByGroups. destruct (collect groups w ∅) as [clientIds|e]; [|done].
    by apply consistent_close_loop.
  - by apply consistent_close_loop.
  - by apply (consistent_core w).
  - by apply (consistent_core w).
  - by apply (consistent_core w).
  - by apply (consistent_core w).
Qed.

Lemma reachable_consistent w : reachable JSON_parse w -> consistent w.
Proof.
  induction 1 as [|i w Hreach IH Hadm].
  - split; [apply tracker_inv_init | apply groups_inv_init].
  - by apply consistent_step.
Qed.

End Reachable.

(** ** Sample worlds are reachable *)

Lemma sample_uuid_inj i j : sample_uuid i = sample_uuid j -> i = j.
Proof.
  unfold sample_uuid. intros H. cbn [String.append] in H.
  injection H as H. cbn [String.append] in H. by apply pretty_nat_inj in H.
Qed.

Lemma sample_pending_reachable : reachable sample_parse sample_pending.
Proof.
  apply (reachable_step sample_parse
           (CallFetch sample_uuid (Many ["a"; "a"]) "ping" JNull None)).
  - apply (reachable_step sample_parse (Connection "a" 0)); [constructor | done].
  - split; [exact sample_uuid_inj|]. intros k. split; [done|]. apply not_elem_of_nil.
Qed.

Lemma sample_group_reachable : reachable sample_parse sample_group.
Proof.
  apply (reachable_step sample_parse (CallAddGroup "g" "b")); [|done].
  apply (reachable_step sample_parse (Connection "b" 1)); [|done].
  apply (reachable_step sample_parse (Connection "a" 0)); [constructor | done].
Qed.

(** ** Pending-request tracker *)

Lemma tracker_inv_gone fetchId w :
  tracker_inv w -> pendingFetches w !! fetchId = None -> gone fetchId w.
Proof.
  intros I Hnone. split; [done|]. split.
  - destruct (timers w !! fetchId) eqn:Ht; [|done].
    destruct (proj1 (inv_timers w I fetchId)) as [p Hp]; [eauto | congruence].
  - intros c ids Hids Hin. pose proof (inv_index_sound w I _ _ _ Hids Hin). congruence.
Qed.

(** C2: when a connected client is torn down, [cleanupClient] returns
    normally; each request the client owns is rejected with
    [Error('Client disconnected')] by that very call, not having been
    settled before; and afterwards neither [pendingFetches] nor
    [clientPendingFetches] nor the armed deadlines hold anything of that
    client. *)
Theorem disconnect_rejects_all parse clientId connection w :
  reachable parse w ->
  clients w !! clientId = Some connection ->
  let w' := (cleanupClient clientId w).2 in
  (cleanupClient clientId w).1 = Normal () ∧
  (∀ fetchId pending,
     pendingFetches w !! fetchId = Some pending -> pf_clientId pending = clientId ->
     (fetchId ∉ (settled w).*1) ∧
     (fetchId, Rejected (Error "Client disconnected")) ∈ settled w' ∧
     gone fetchId w') ∧
  (∀ fetchId pending,
     pendingFetches w' !! fetchId = Some pending -> pf_clientId pending ≠ clientId) ∧
  clientPendingFetches w' !! clientId = None.
Proof.
  intros Hreach Hconn w'. pose proof (reachable_consistent parse w Hreach) as C.
  pose proof C as [I _].
  pose proof (tracker_inv_cleanupClient clientId w C) as I'. fold w' in I'.
  destruct (cleanupClient_spec clientId connection w C Hconn)
    as (Hnormal & Hc & Hi & Hp & Ht & Hs & _). fold w' in Hc, Hi, Hp, Ht, Hs.
  split; [done|]. split; [|split].
  - intros fetchId pending Hf Hown.
    destruct (inv_indexed w I fetchId pending Hf) as (ids & Hids & Hin).
    rewrite Hown in Hids.
    split; [|split].
    + intros Hs'. apply (inv_settled_gone w I) in Hs'. congruence.
    + rewrite Hs, Hids. simpl. apply elem_of_app. right.
      apply (list_elem_of_fmap_2 (fun f => (f, Rejected disconnected))).
      by apply elem_of_elements.
    + apply tracker_inv_gone; [done|]. rewrite Hp, Hids. simpl. by rewrite decide_True.
  - intros fetchId pending Hf Hown.
    destruct (inv_indexed w' I' fetchId pending Hf) as (ids & Hids & _).
    rewrite Hown, Hi, lookup_delete_eq in Hids. done.
  - by rewrite Hi, lookup_delete_eq.
Qed.

Lemma disconnect_rejects_all_witness :
  let w' := (cleanupClient "a" sample_pending).2 in
  reachable sample_parse sample_pending ∧
  clients sample_pending !! "a" = Some (mkConn 0 (mkUser "a" [])) ∧
  (cleanupClient "a" sample_pending).1 = Normal () ∧
  (∀ fetchId pending,
     pendingFetches sample_pending !! fetchId = Some pending ->
     pf_clientId pending = "a" ->
     (fetchId ∉ (settled sample_pending).*1) ∧
     (fetchId, Rejected (Error "Client disconnected")) ∈ settled w' ∧
     gone fetchId w') ∧
  (∀ fetchId pending,
     pendingFetches w' !! fetchId = Some pending -> pf_clientId pending ≠ "a") ∧
  clientPendingFetches w' !! "a" = None.
Proof.
  split; [exact sample_pending_reachable|]. split; [reflexivity|].
  apply (disconnect_rejects_all sample_parse "a"
           (mkConn 0 (mkUser "a" [])) sample_pending).
  - exact sample_pending_reachable.
  - reflexivity.
Defined.

Lemma filter_fst_absent (f : string) (l : list (string * Outcome)) :
  f ∉ l.*1 -> filter (fun e => e.1 = f) l = [].
Proof.
  induction l as [|[g o] l IH]; intros Hf; [done|].
  rewrite fmap_cons in Hf. apply not_elem_of_cons in Hf as [Hne Hf].
  rewrite filter_cons_False by (intros ?; simpl in *; congruence). auto.
Qed.

Lemma filter_fst_once (f : string) (l : list (string * Outcome)) :
  NoDup l.*1 -> (length (filter (fun e => e.1 = f) l) ≤ 1)%nat.
Proof.
  induction l as [|[g o] l IH]; intros Hnd; [simpl; lia|].
  rewrite fmap_cons in Hnd. apply NoDup_cons in Hnd as [Hg Hnd].
  destruct (decide (g = f)) as [->|Hne].
  - rewrite filter_cons_True by done. rewrite filter_fst_absent by done. simpl. lia.
  - rewrite filter_cons_False by (intros ?; simpl in *; congruence). auto.
Qed.

Lemma filter_fst_disconnected (f : string) (l : list string) :
  NoDup l -> f ∈ l ->
  filter (fun e => e.1 = f) ((fun x => (x, Rejected disconnected)) <$> l)
  = [(f, Rejected disconnected)].
Proof.
  induction l as [|g l IH]; intros Hnd Hf; [by apply elem_of_nil in Hf|].
  apply NoDup_cons in Hnd as [Hg Hnd]. rewrite fmap_cons.
  destruct (decide (g = f)) as [->|Hne].
  - rewrite filter_cons_True by done. f_equal.
    apply filter_fst_absent. by rewrite fst_disconnected.
  - rewrite filter_cons_False by (intros ?; simpl in *; congruence).
    apply elem_of_cons in Hf as [? | Hf]; [congruence | auto].
Qed.

Lemma resolve_pending_settled fetchId pending body w :
  pendingFetches w !! fetchId = Some pending ->
  settled (resolve_pending fetchId body w) = settled w ++ [(fetchId, Fulfilled body)] ∧
  pendingFetches (resolve_pending fetchId body w) !! fetchId = None.
Proof.
  intros Hf. unfold resolve_pending. rewrite Hf.
  set (w2 := set_pendingFetches (delete fetchId) (clearTimeout fetchId w)).
  destruct (unindex_others (pf_clientId pending) fetchId w2) as (_ & Hp & _ & Hs & _).
  simpl. rewrite Hs, Hp. simpl. split; [done | apply lookup_delete_eq].
Qed.

Lemma fire_timer_settled fetchId pending maxWait w :
  pendingFetches w !! fetchId = Some pending ->
  timers w !! fetchId = Some maxWait ->
  settled (fire_timer fetchId w) = settled w ++ [(fetchId, Rejected (timed_out maxWait))] ∧
  pendingFetches (fire_timer fetchId w) !! fetchId = None.
Proof.
  intros Hf Ht. unfold fire_timer, on_timeout. rewrite Ht. simpl. rewrite Hf.
  set (w0 := set_timers (delete fetchId) w).
  destruct (unindex_others (pf_clientId pending) fetchId w0) as (_ & Hp & _ & Hs & _).
  simpl. rewrite Hs, Hp. simpl. split; [done | apply lookup_delete_eq].
Qed.

(** [cleanupClient] settles only requests listed for the client, whether
    it returns or throws. *)
Lemma foldl_cleanup_fetch_new fetchId l : ∀ w,
  (∀ f, f ∈ l -> f ≠ fetchId) ->
  ∃ new, settled (foldl cleanup_fetch w l) = settled w ++ new ∧
         ∀ e, e ∈ new -> e.1 ≠ fetchId.
Proof.
  induction l as [|a l IH]; intros w Hl; simpl.
  - exists []. split; [by rewrite app_nil_r|]. intros e He. by apply elem_of_nil in He.
  - destruct (IH (cleanup_fetch w a)) as (new & -> & Hnew).
    { intros f Hf. apply Hl, elem_of_cons. by right. }
    unfold cleanup_fetch. destruct (pendingFetches w !! a).
    + simpl. exists ((a, Rejected (Error "Client disconnected")) :: new).
      split; [by rewrite <- app_assoc|]. intros e He.
      apply elem_of_cons in He as [-> | He]; [|auto].
      simpl. apply Hl, elem_of_cons. by left.
    + by exists new.
Qed.

Lemma cleanupClient_settlements fetchId clientId w :
  (∀ ids, clientPendingFetches w !! clientId = Some ids -> fetchId ∉ ids) ->
  settlements fetchId (cleanupClient clientId w).2 = settlements fetchId w.
Proof.
  intros Hidx. unfold settlements, cleanupClient.
  destruct (clients w !! clientId) as [connection|]; [|done].
  set (w1 := match clientPendingFetches w !! clientId with
             | Some pendingFetchIds =>
                 set_clientPendingFetches (delete clientId)
                   (foldl cleanup_fetch w (elements pendingFetchIds))
             | None => w
             end).
  assert (Hs : settled (match cleanup_groups clientId (user_groups (user connection)) w1 with
                        | (Normal _, w2) => (Normal (), set_clients (delete clientId) w2)
                        | (Throw e, w2) => (Throw e, w2)
                        end).2 = settled w1).
  { destruct (cleanup_groups_others clientId (user_groups (user connection)) w1)
      as (_ & _ & _ & _ & Hs).
    by destruct (cleanup_groups clientId (user_groups (user connection)) w1) as [[|e] w2]. }
  rewrite Hs. subst w1.
  destruct (clientPendingFetches w !! clientId) as [ids|] eqn:Hids; [|done].
  simpl.
  destruct (foldl_cleanup_fetch_new fetchId (elements ids) w) as (new & -> & Hnew).
  { intros f Hf ->. apply elem_of_elements in Hf. by apply (Hidx ids). }
  rewrite filter_app.
  assert (filter (fun e : string * Outcome => e.1 = fetchId) new = []) as ->.
  { clear -Hnew. induction new as [|e new IH]; [done|].
    rewrite filter_cons_False.
    - apply IH. intros e' He'. apply Hnew, elem_of_cons. by right.
    - apply Hnew, elem_of_cons. by left. }
  by rewrite app_nil_r.
Qed.

(** C3: a registered request is settled exactly once.  In a reachable
    world no request has been settled twice; a stored request has not been
    settled and its deadline is armed; a matching reply, the deadline and
    the disconnection of its owner each settle it, once, and remove it; and
    once a request is gone from the tracker, none of the three does anything
    to it: a reply envelope with an id that is not stored leaves the world as
    it is and returns normally. *)
Theorem pending_settles_exactly_once parse w :
  reachable parse w ->
  (∀ fetchId, (length (settlements fetchId w) ≤ 1)%nat) ∧
  (∀ fetchId pending,
     pendingFetches w !! fetchId = Some pending ->
     settlements fetchId w = [] ∧
     is_Some (timers w !! fetchId) ∧
     (∀ body,
        let w' := resolve_pending fetchId body w in
        settlements fetchId w' = [(fetchId, Fulfilled body)] ∧ gone fetchId w') ∧
     (∃ maxWait,
        let w' := fire_timer fetchId w in
        settlements fetchId w' = [(fetchId, Rejected (timed_out maxWait))] ∧
        gone fetchId w') ∧
     (let w' := (cleanupClient (pf_clientId pending) w).2 in
      settlements fetchId w' = [(fetchId, Rejected disconnected)] ∧ gone fetchId w')) ∧
  (∀ fetchId w0,
     pendingFetches w0 !! fetchId = None ->
     (∀ sock u raw message,
        Z.of_nat (String.length raw) <= maxMessageSize w0 ->
        parse raw = parse_ok message ->
        msg_type message = type_reply ->
        default "" (msg_fetchId message) = fetchId ->
        handleMessage parse sock u raw w0 = (Normal (), w0)) ∧
     (gone fetchId w0 ->
      fire_timer fetchId w0 = w0 ∧
      ∀ clientId,
        settlements fetchId (cleanupClient clientId w0).2 = settlements fetchId w0)).
Proof.
  intros Hreach. pose proof (reachable_consistent parse w Hreach) as C.
  pose proof C as [I _].
  split; [|split].
  - intros fetchId. apply filter_fst_once, (inv_settled_once w I).
  - intros fetchId pending Hf.
    assert (Hnew : fetchId ∉ (settled w).*1).
    { intros Hs. apply (inv_settled_gone w I) in Hs. congruence. }
    assert (Hnone : settlements fetchId w = []) by by apply filter_fst_absent.
    destruct (proj2 (inv_timers w I fetchId)) as [maxWait Ht]; [eauto|].
    split; [done|]. split; [eauto|]. split; [|split].
    + intros body w'. subst w'.
      destruct (resolve_pending_settled fetchId pending body w Hf) as [Hs Hp].
      split.
      * unfold settlements in *. rewrite Hs, filter_app, Hnone.
        by rewrite filter_cons_True.
      * apply tracker_inv_gone; [by apply tracker_inv_resolve_pending | done].
    + exists maxWait. intros w'. subst w'.
      destruct (fire_timer_settled fetchId pending maxWait w Hf Ht) as [Hs Hp].
      split.
      * unfold settlements in *. rewrite Hs, filter_app, Hnone.
        by rewrite filter_cons_True.
      * apply tracker_inv_gone; [by apply tracker_inv_fire_timer | done].
    + intros w'. subst w'.
      destruct (inv_owner_live w I fetchId pending Hf) as [connection Hconn].
      destruct (inv_indexed w I fetchId pending Hf) as (ids & Hids & Hin).
      destruct (cleanupClient_spec _ connection w C Hconn)
        as (_ & _ & _ & Hp & _ & Hs & _).
      rewrite Hids in Hp, Hs. simpl in Hp, Hs. split.
      * unfold settlements in *. rewrite Hs, filter_app, Hnone. simpl.
        apply filter_fst_disconnected; [apply NoDup_elements | by apply elem_of_elements].
      * apply tracker_inv_gone; [by apply tracker_inv_cleanupClient|].
        rewrite Hp. by rewrite decide_True.
  - intros fetchId w0 Hnone. split.
    + intros sock u raw message Hsize Hparse Htype Hid.
      unfold handleMessage. cbv zeta. rewrite decide_False by lia.
      rewrite Hparse, Htype, Hid. unfold resolve_pending. rewrite Hnone.
      by destruct (truthy fetchId).
    + intros (_ & Ht & Hidx). split.
      * unfold fire_timer. by rewrite Ht.
      * intros clientId. apply cleanupClient_settlements.
        intros ids Hids. by apply (Hidx clientId ids).
Qed.

Lemma pending_settles_exactly_once_witness :
  reachable sample_parse sample_pending ∧
  pendingFetches sample_pending !! "u0" = Some (mkPendingFetch "a") ∧
  settlements "u0" sample_pending = [] ∧
  settlements "u0" (resolve_pending "u0" (JBool true) sample_pending)
  = [("u0", Fulfilled (JBool true))] ∧
  gone "u0" (resolve_pending "u0" (JBool true) sample_pending) ∧
  settlements "u0" (cleanupClient "a" sample_pending).2
  = [("u0", Rejected disconnected)] ∧
  handleMessage sample_parse 0 sample_user frame_reply_u0
    (resolve_pending "u0" (JBool true) sample_pending)
  = (Normal (), resolve_pending "u0" (JBool true) sample_pending).
Proof.
  destruct (pending_settles_exactly_once sample_parse sample_pending
              sample_pending_reachable) as (_ & Hpending & Hgone).
  destruct (Hpending "u0" (mkPendingFetch "a") eq_refl)
    as (Hnone & _ & Hreply & _ & Hclose).
  destruct (Hreply (JBool true)) as [Hsettled Hgone'].
  split; [exact sample_pending_reachable|]. split; [reflexivity|].
  split; [exact Hnone|]. split; [exact Hsettled|]. split; [exact Hgone'|].
  split; [exact (proj1 Hclose)|].
  destruct Hgone' as [Hp _].
  refine (proj1 (Hgone "u0" _ Hp) 0%nat sample_user frame_reply_u0 message_reply_u0
            _ eq_refl eq_refl eq_refl).
  vm_compute. discriminate.
Defined.

(** ** Group registry *)

Lemma addGroup_shape group id w :
  (addGroup group id w).2
  = set_groups (fun _ => _groups (addGroup group id w).2)
      (set_clients (fun _ => clients (addGroup group id w).2) w).
Proof.
  unfold addGroup. destruct (clients w !! id); [|by destruct w].
  destruct (inherited group); [by destruct w|].
  simpl. destruct (clients w !! id); [|by destruct w].
  case_decide; by destruct w.
Qed.

Lemma removeGroup_shape group id w :
  (removeGroup group id w).2
  = set_groups (fun _ => _groups (removeGroup group id w).2)
      (set_clients (fun _ => clients (removeGroup group id w).2) w).
Proof.
  unfold removeGroup. destruct (clients w !! id); [|by destruct w].
  destruct (inherited group); [by destruct w|].
  destruct (_groups w !! group) as [members|].
  - destruct (decide (size (members ∖ {[id]}) = 0%nat)); simpl;
      (destruct (clients w !! id); [|by destruct w]); case_decide; by destruct w.
  - destruct (clients w !! id); [|by destruct w]. case_decide; by destruct w.
Qed.

Lemma world_eq_fields w w' f g :
  w' = set_groups g (set_clients f w) ->
  clients w' = clients w -> _groups w' = _groups w -> w' = w.
Proof.
  intros -> Hc Hg. destruct w. unfold set_groups, set_clients in *. simpl in *.
  by rewrite Hc, Hg.
Qed.

Lemma groups_inv_agree w : groups_inv w -> indices_agree w.
Proof.
  intros [G1 G2 G3 G5 G4] id connection group Hconn. unfold membersOf. split.
  - intros Hin. destruct (_groups w !! group) as [members|] eqn:Hm; simpl in Hin;
      [|by apply not_elem_of_empty in Hin].
    destruct (G1 group members id Hm Hin) as (c & Hc & Hl). congruence.
  - intros Hl. destruct (G2 id connection group Hconn Hl) as (members & -> & Hin).
    done.
Qed.

Lemma membersOf_addGroup group id connection w g :
  clients w !! id = Some connection ->
  inherited group = false ->
  membersOf g (addGroup group id w).2
  = if decide (g = group) then membersOf group w ∪ {[id]} else membersOf g w.
Proof.
  intros Hconn Hown.
  destruct (addGroup_fields group id connection w Hconn Hown) as (_ & Hg & _).
  unfold membersOf at 1. rewrite Hg, lookup_insert.
  destruct (decide (group = g)) as [->|Hne].
  - by rewrite decide_True.
  - by rewrite decide_False by congruence.
Qed.

Lemma connection_eta (c : ClientConnection) :
  mkConn (ws c) (mkUser (user_id (user c)) (user_groups (user c))) = c.
Proof. by destruct c as [? []]. Qed.

Lemma membersOf_removeGroup group id connection w :
  clients w !! id = Some connection ->
  inherited group = false ->
  membersOf group (removeGroup group id w).2 = membersOf group w ∖ {[id]} ∧
  (_groups (removeGroup group id w).2 !! group = None <-> membersOf group w ⊆ {[id]}).
Proof.
  intros Hconn Hown.
  destruct (removeGroup_fields group id connection w Hconn Hown) as (_ & Hg & _).
  unfold membersOf. rewrite Hg, decide_True by done.
  destruct (_groups w !! group) as [members|]; simpl.
  - unfold without. case_decide as Hsize; simpl.
    + apply size_zero_empty in Hsize. split; [by rewrite Hsize|].
      split; [|done]. intros _ x Hx. apply elem_of_singleton.
      destruct (decide (x = id)) as [|Hne]; [done|].
      assert (x ∈ members ∖ {[id]}) as Hin by set_solver.
      rewrite Hsize in Hin. by apply not_elem_of_empty in Hin.
    + split; [done|]. split; [done|]. intros Hsub. exfalso. apply Hsize.
      apply size_zero_empty. set_solver.
  - split; [set_solver|]. split; [|done]. intros _. set_solver.
Qed.

(** Leaving after joining is leaving. *)
Lemma removeGroup_addGroup group id connection w :
  clients w !! id = Some connection ->
  inherited group = false ->
  (removeGroup group id (addGroup group id w).2).2 = (removeGroup group id w).2.
Proof.
  intros Hconn Hown.
  destruct (addGroup_fields group id connection w Hconn Hown) as (_ & Hg1 & Hc1 & _).
  set (joined := (addGroup group id w).2) in *.
  set (connection1 := mkConn (ws connection)
         (mkUser (user_id (user connection))
            (if decide (group ∈ user_groups (user connection))
             then user_groups (user connection)
             else user_groups (user connection) ++ [group]))) in *.
  assert (Hconn1 : clients joined !! id = Some connection1)
    by (by rewrite Hc1, lookup_insert_eq).
  destruct (removeGroup_fields group id connection1 joined Hconn1 Hown)
    as (_ & Hg2 & Hc2 & _).
  destruct (removeGroup_fields group id connection w Hconn Hown) as (_ & HgL & HcL & _).
  rewrite (removeGroup_shape group id joined), (removeGroup_shape group id w).
  assert (HG : _groups (removeGroup group id joined).2 = _groups (removeGroup group id w).2).
  { apply map_eq. intros g. rewrite Hg2, HgL, Hg1.
    destruct (decide (g = group)) as [->|Hgg].
    - rewrite lookup_insert_eq. simpl. unfold membersOf.
      destruct (_groups w !! group) as [members|]; simpl.
      + unfold without.
        assert ((members ∪ {[id]}) ∖ {[id]} = members ∖ {[id]}) as -> by set_solver.
        done.
      + unfold without. rewrite decide_True; [done|]. apply size_zero_empty. set_solver.
    - by rewrite lookup_insert_ne. }
  assert (HC : clients (removeGroup group id joined).2 = clients (removeGroup group id w).2).
  { rewrite Hc2, HcL, Hc1, insert_insert_eq. f_equal. subst connection1. simpl.
    f_equal. f_equal.
    destruct (decide (group ∈ user_groups (user connection))) as [Hin|Hnin]; [done|].
    rewrite (indexOf_snoc _ _ Hnin), decide_True by lia.
    rewrite Nat2Z.id, delete_snoc.
    apply indexOf_not_found in Hnin. rewrite Hnin. by rewrite decide_False. }
  rewrite HG, HC. subst joined. rewrite (addGroup_shape group id w).
  by destruct w.
Qed.

(** C8, original reading refuted: when [g] has another member, joining and
    then leaving does not delete [g]. *)
Lemma join_leave_shared_group :
  let w' := (removeGroup "g" "a" (addGroup "g" "a" sample_group).2).2 in
  reachable sample_parse sample_group ∧
  is_Some (clients sample_group !! "a") ∧
  membersOf "g" sample_group = {["b"]} ∧
  (addGroup "g" "a" sample_group).1 = Normal () ∧
  (removeGroup "g" "a" (addGroup "g" "a" sample_group).2).1 = Normal () ∧
  _groups w' !! "g" = Some {["b"]} ∧
  _groups w' !! "g" ≠ None.
Proof.
  split; [exact sample_group_reachable|]. split; [by eexists|].
  split_and!; try reflexivity. discriminate.
Qed.

(** On a name inherited from [Object.prototype] both methods throw a
    [TypeError] and change nothing. *)
Lemma group_named_like_a_method :
  addGroup "toString" "a" sample_group
  = (Throw (TypeError "this._groups[group].add is not a function"), sample_group) ∧
  removeGroup "toString" "a" sample_group
  = (Throw (TypeError "this._groups[group].delete is not a function"), sample_group).
Proof. split; reflexivity. Qed.

(** C8, amended: for a group name that is not inherited from
    [Object.prototype], on every connected client the two indices of the
    group registry agree, before and after [addGroup] and [removeGroup];
    joining twice is joining once, and the members of a group do not depend
    on the order of two joins; leaving removes the client from the member
    set and the group from its list, keeps the other members, and deletes
    the group exactly when no other member is left; joining and then
    leaving is the same as leaving, and gives back the original world when
    the client was not a member. *)
Theorem group_indices_consistent parse w id connection group :
  reachable parse w ->
  clients w !! id = Some connection ->
  inherited group = false ->
  let joined := (addGroup group id w).2 in
  let left := (removeGroup group id w).2 in
  (addGroup group id w).1 = Normal () ∧ (removeGroup group id w).1 = Normal () ∧
  indices_agree w ∧ indices_agree joined ∧ indices_agree left ∧
  addGroup group id joined = (Normal (), joined) ∧
  (∀ id2 connection2,
     clients w !! id2 = Some connection2 ->
     membersOf group (addGroup group id2 joined).2 = membersOf group w ∪ {[id; id2]} ∧
     membersOf group (addGroup group id (addGroup group id2 w).2).2
     = membersOf group w ∪ {[id; id2]}) ∧
  membersOf group left = membersOf group w ∖ {[id]} ∧
  (∀ connection', clients left !! id = Some connection' ->
                  group ∉ user_groups (user connection')) ∧
  (_groups left !! group = None <-> membersOf group w ⊆ {[id]}) ∧
  (removeGroup group id joined).2 = left ∧
  (group ∉ user_groups (user connection) -> left = w).
Proof.
  intros Hreach Hconn Hown joined left.
  destruct (reachable_consistent parse w Hreach) as [I G].
  assert (Hjoined : reachable parse joined)
    by (apply (reachable_step parse (CallAddGroup group id) w); done).
  assert (Hleft : reachable parse left)
    by (apply (reachable_step parse (CallRemoveGroup group id) w); done).
  pose proof (groups_inv_agree w G) as Agree.
  pose proof (groups_inv_agree joined (proj2 (reachable_consistent _ _ Hjoined))) as AgreeJ.
  pose proof (groups_inv_agree left (proj2 (reachable_consistent _ _ Hleft))) as AgreeL.
  destruct (addGroup_fields group id connection w Hconn Hown) as (Hn1 & Hg1 & Hc1 & _).
  fold joined in Hg1, Hc1.
  set (connection1 := mkConn (ws connection)
         (mkUser (user_id (user connection))
            (if decide (group ∈ user_groups (user connection))
             then user_groups (user connection)
             else user_groups (user connection) ++ [group]))) in *.
  assert (Hconn1 : clients joined !! id = Some connection1)
    by (by rewrite Hc1, lookup_insert_eq).
  assert (Hlisted1 : group ∈ user_groups (user connection1)).
  { apply (AgreeJ id connection1 group Hconn1). subst joined.
    rewrite (membersOf_addGroup group id connection w group Hconn Hown), decide_True by done.
    set_solver. }
  destruct (membersOf_removeGroup group id connection w Hconn Hown) as [HmL HnoneL].
  fold left in HmL, HnoneL.
  destruct (removeGroup_fields group id connection w Hconn Hown) as (HnL & HgL & HcL & _).
  fold left in HgL, HcL.
  split; [done|]. split; [done|].
  split; [done|]. split; [done|]. split; [done|].
  split; [|split; [|split; [|split; [|split; [|split]]]]].
  - (* joining twice *)
    destruct (addGroup_fields group id connection1 joined Hconn1 Hown) as (Hn & Hg2 & Hc2 & _).
    rewrite (surjective_pairing (addGroup group id joined)), Hn. f_equal.
    apply (world_eq_fields joined _ _ _ (addGroup_shape group id joined)).
    + rewrite Hc2, decide_True by done. rewrite connection_eta. by apply insert_id.
    + rewrite Hg2. apply insert_id. rewrite Hg1, lookup_insert_eq. f_equal.
      subst joined.
      rewrite (membersOf_addGroup group id connection w group Hconn Hown),
        decide_True by done.
      set_solver.
  - (* order of two joins *)
    intros id2 connection2 Hconn2.
    assert (∃ c, clients joined !! id2 = Some c) as [c2 Hc2'].
    { rewrite Hc1, lookup_insert. destruct (decide (id = id2)); eauto. }
    destruct (addGroup_fields group id2 connection2 w Hconn2 Hown) as (_ & _ & Hc3 & _).
    assert (∃ c, clients (addGroup group id2 w).2 !! id = Some c) as [c3 Hc3'].
    { rewrite Hc3, lookup_insert. destruct (decide (id2 = id)); eauto. }
    rewrite (membersOf_addGroup group id2 c2 joined group Hc2' Hown), decide_True by done.
    rewrite (membersOf_addGroup group id c3 _ group Hc3' Hown), decide_True by done.
    subst joined.
    rewrite (membersOf_addGroup group id connection w group Hconn Hown), decide_True by done.
    rewrite (membersOf_addGroup group id2 connection2 w group Hconn2 Hown),
      decide_True by done.
    split; set_solver.
  - done.
  - intros connection' Hconn' Hin.
    apply (AgreeL id connection' group Hconn') in Hin. rewrite HmL in Hin. set_solver.
  - done.
  - by apply (removeGroup_addGroup group id connection).
  - intros Hnin.
    apply (world_eq_fields w _ _ _ (removeGroup_shape group id w)); fold left.
    + rewrite HcL. pose proof Hnin as Hidx. apply indexOf_not_found in Hidx.
      rewrite Hidx, decide_False by lia. rewrite connection_eta. by apply insert_id.
    + apply map_eq. intros g. rewrite HgL.
      destruct (decide (g = group)) as [->|Hgg]; [|done].
      destruct (_groups w !! group) as [members|] eqn:Hm; simpl; [|done].
      assert (id ∉ members) as Hid.
      { intros Hin. apply Hnin, (Agree id connection group Hconn).
        by rewrite (membersOf_Some _ _ _ Hm). }
      unfold without.
      assert (members ∖ {[id]} = members) as -> by set_solver.
      rewrite decide_False; [done|]. intros Hsize. apply size_zero_empty in Hsize.
      by apply (inv_nonempty w G group members).
Qed.

Lemma group_indices_consistent_witness :
  let joined := (addGroup "g" "a" sample_group).2 in
  let left := (removeGroup "g" "a" sample_group).2 in
  reachable sample_parse sample_group ∧
  clients sample_group !! "a" = Some (mkConn 0 (mkUser "a" [])) ∧
  inherited "g" = false ∧
  (addGroup "g" "a" sample_group).1 = Normal () ∧
  (removeGroup "g" "a" sample_group).1 = Normal () ∧
  indices_agree sample_group ∧ indices_agree joined ∧ indices_agree left ∧
  addGroup "g" "a" joined = (Normal (), joined) ∧
  (∀ id2 connection2,
     clients sample_group !! id2 = Some connection2 ->
     membersOf "g" (addGroup "g" id2 joined).2 = membersOf "g" sample_group ∪ {["a"; id2]} ∧
     membersOf "g" (addGroup "g" "a" (addGroup "g" id2 sample_group).2).2
     = membersOf "g" sample_group ∪ {["a"; id2]}) ∧
  membersOf "g" left = membersOf "g" sample_group ∖ {["a"]} ∧
  (∀ connection', clients left !! "a" = Some connection' ->
                  "g" ∉ user_groups (user connection')) ∧
  (_groups left !! "g" = None <-> membersOf "g" sample_group ⊆ {["a"]}) ∧
  (removeGroup "g" "a" joined).2 = left ∧
  ("g" ∉ user_groups (user (mkConn 0 (mkUser "a" []))) -> left = sample_group).
Proof.
  split; [exact sample_group_reachable|]. split; [reflexivity|]. split; [reflexivity|].
  apply (group_indices_consistent sample_parse sample_group "a"
           (mkConn 0 (mkUser "a" [])) "g").
  - exact sample_group_reachable.
  - reflexivity.
  - reflexivity.
Defined.

(** ** [fetch] with several targets *)

Lemma first_rejection_sound ids log : ∀ seen e,
  first_rejection ids seen log = Some e ->
  ∃ f, f ∈ ids ∧ (f ∉ seen) ∧ first_outcome f log = Some (Rejected e).
Proof.
  induction log as [|[g o] log IH]; intros seen e H; simpl in H; [done|].
  destruct (decide (g ∈ seen)) as [Hseen|Hseen].
  - destruct (IH seen e H) as (f & Hf & Hns & Ho). exists f. split; [done|].
    split; [done|]. simpl. rewrite decide_False; [done|]. congruence.
  - assert (Hrec : first_rejection ids (g :: seen) log = Some e ->
              ∃ f, f ∈ ids ∧ (f ∉ seen) ∧
                   first_outcome f ((g, o) :: log) = Some (Rejected e)).
    { intros H'. destruct (IH (g :: seen) e H') as (f & Hf & Hns & Ho).
      apply not_elem_of_cons in Hns as [Hne Hns]. exists f. split; [done|].
      split; [done|]. simpl. by rewrite decide_False. }
    destruct o as [v|e0]; [auto|].
    destruct (decide (g ∈ ids)); [|auto].
    injection H as <-. exists g. split; [done|]. split; [done|].
    simpl. by rewrite decide_True.
Qed.

Lemma first_rejection_complete ids log : ∀ seen f e,
  f ∈ ids -> f ∉ seen -> first_outcome f log = Some (Rejected e) ->
  ∃ e', first_rejection ids seen log = Some e'.
Proof.
  induction log as [|[g o] log IH]; intros seen f e Hf Hns Ho; simpl in *; [done|].
  destruct (decide (g ∈ seen)) as [Hseen|Hseen].
  - rewrite decide_False in Ho by congruence. eauto.
  - destruct (decide (g = f)) as [->|Hne].
    + injection Ho as ->. rewrite decide_True by done. eauto.
    + assert (f ∉ g :: seen) by (apply not_elem_of_cons; split; [congruence | done]).
      destruct o as [v|e0]; [eauto|]. destruct (decide (g ∈ ids)); eauto.
Qed.

Lemma all_fulfilled_Forall2 w ps vs :
  all_fulfilled w ps = Some vs <-> Forall2 (fulfilled_with w) ps vs.
Proof.
  revert vs. induction ps as [|p ps IH]; intros vs; simpl.
  - split; [by intros [= <-] | by intros ->%Forall2_nil_inv_l].
  - split.
    + destruct (promise_state w p) as [[v|]|] eqn:Hp; try done.
      destruct (all_fulfilled w ps) as [vs'|]; [|done].
      intros [= <-]. constructor; [done | by apply IH].
    + intros (v & vs' & Hp & Hps & ->)%Forall2_cons_inv_l.
      unfold fulfilled_with in Hp. rewrite Hp.
      apply IH in Hps. by rewrite Hps.
Qed.

Lemma awaited_elem f ps : f ∈ awaited ps <-> Awaiting f ∈ ps.
Proof.
  unfold awaited. rewrite list_elem_of_omap. split.
  - intros ([|] & Hin & Heq); [done|]. by injection Heq as ->.
  - intros Hin. by exists (Awaiting f).
Qed.

Lemma rejected_now_elem e ps : e ∈ rejected_now ps <-> RejectedNow e ∈ ps.
Proof.
  unfold rejected_now. rewrite list_elem_of_omap. split.
  - intros ([|] & Hin & Heq); [|done]. by injection Heq as ->.
  - intros Hin. by exists (RejectedNow e).
Qed.

(** [Promise.all]: one failed input fails the whole, at once; the whole is
    fulfilled exactly when every input is, with the values in input order. *)
Lemma promise_all_spec w ps :
  (∀ p e, p ∈ ps -> promise_state w p = Some (Rejected e) ->
          ∃ e', promise_all_state w ps = Some (Rejected e')) ∧
  (∀ vs, Forall2 (fulfilled_with w) ps vs <->
         promise_all_state w ps = Some (Fulfilled (JArr vs))) ∧
  (∀ e, e ∈ rejected_now ps ->
        ∃ e', e' ∈ rejected_now ps ∧ promise_all_state w ps = Some (Rejected e')).
Proof.
  unfold promise_all_state. split; [|split].
  - intros p e Hp Hstate.
    destruct (rejected_now ps) as [|e0 es] eqn:Hnow; [|eauto].
    destruct p as [e1|f].
    + apply rejected_now_elem in Hp. rewrite Hnow in Hp. by apply elem_of_nil in Hp.
    + simpl in Hstate. apply awaited_elem in Hp.
      destruct (first_rejection_complete (awaited ps) (settled w) [] f e Hp)
        as [e' ->]; [apply not_elem_of_nil | done | eauto].
  - intros vs. split.
    + intros Hall.
      assert (rejected_now ps = []) as ->.
      { apply elem_of_nil_inv. intros e He. apply rejected_now_elem in He.
        apply list_elem_of_lookup in He as [i Hi].
        destruct (Forall2_lookup_l _ _ _ _ _ Hall Hi) as (v & _ & Hv). done. }
      destruct (first_rejection (awaited ps) [] (settled w)) as [e|] eqn:Hrej.
      * apply first_rejection_sound in Hrej as (f & Hf & _ & Ho).
        apply awaited_elem, list_elem_of_lookup in Hf as [i Hi].
        destruct (Forall2_lookup_l _ _ _ _ _ Hall Hi) as (v & _ & Hv).
        unfold fulfilled_with in Hv. simpl in Hv. congruence.
      * apply all_fulfilled_Forall2 in Hall. by rewrite Hall.
    + destruct (rejected_now ps); [|done].
      destruct (first_rejection (awaited ps) [] (settled w)); [done|].
      destruct (all_fulfilled w ps) as [vs'|] eqn:Hall; [|done].
      intros [= <-]. by apply all_fulfilled_Forall2.
  - intros e He. destruct (rejected_now ps) as [|e0 es]; [by apply elem_of_nil in He|].
    exists e0. split; [apply elem_of_cons; by left | done].
Qed.

Lemma fetch_loop_spec uuid event code data msg maxWait ids : ∀ k w promises w',
  fetch_loop uuid k event code data msg maxWait ids w = (promises, w') ->
  (∀ i j : nat, uuid i = uuid j -> i = j) ->
  length promises = length ids ∧
  clients w' = clients w ∧ sockets w' = sockets w ∧
  (∀ m, m ∈ wire w -> m ∈ wire w') ∧
  (∀ f, (∀ j, (k ≤ j)%nat -> f ≠ uuid j) ->
        pendingFetches w' !! f = pendingFetches w !! f) ∧
  (∀ i id, ids !! i = Some id -> clients w !! id = None ->
           promises !! i = Some (RejectedNow (not_found id))) ∧
  (∀ i id connection,
     ids !! i = Some id -> clients w !! id = Some connection ->
     ∃ j, (k ≤ j)%nat ∧ promises !! i = Some (Awaiting (uuid j)) ∧
          pendingFetches w' !! uuid j = Some (mkPendingFetch id) ∧
          (sockets w !! ws connection = Some OPEN ->
           (ws connection, event_message event (Some (uuid j)) code data msg) ∈ wire w')).
Proof.
  induction ids as [|clientId rest IH]; intros k w promises w' Hloop Hinj;
    simpl in Hloop.
  - injection Hloop as <- <-. split_and!; try done.
  - destruct (clients w !! clientId) as [connection|] eqn:Hconn.
    + set (w1 := register clientId (uuid k) maxWait w) in *.
      set (w2 := sendMessage (ws connection)
                   (event_message event (Some (uuid k)) code data msg) w1) in *.
      destruct (fetch_loop uuid (S k) event code data msg maxWait rest w2)
        as [ps w3] eqn:Hrest.
      injection Hloop as <- <-.
      destruct (IH (S k) w2 ps w3 Hrest Hinj) as (Hlen & Hc & Hso & Hw & Hp & Hnf & Hok).
      assert (Hframe : frame w2 = frame w1) by apply frame_sendMessage.
      unfold frame in Hframe. injection Hframe as Hc2 _ _ Hp2 _ _ _ _ Hso2 _ _.
      assert (Hwire2 : wire w2 = wire w ++
                if decide (sockets w !! ws connection = Some OPEN)
                then [(ws connection, event_message event (Some (uuid k)) code data msg)]
                else []) by exact (wire_sendMessage _ _ w1).
      split_and!.
      * simpl. by rewrite Hlen.
      * by rewrite Hc, Hc2.
      * by rewrite Hso, Hso2.
      * intros m Hm. apply Hw. rewrite Hwire2. apply elem_of_app. by left.
      * intros f Hf. rewrite Hp, Hp2 by (intros j Hj; apply Hf; lia).
        subst w1. simpl. rewrite lookup_insert_ne; [done|].
        intros Heq. by apply (Hf k).
      * intros [|i] id Hi Hnone; simpl in Hi.
        -- injection Hi as <-. congruence.
        -- simpl. apply (Hnf i id Hi). by rewrite Hc2.
      * intros [|i] id c Hi Hsome; simpl in Hi.
        -- injection Hi as <-. rewrite Hconn in Hsome. injection Hsome as <-.
           exists k. split; [lia|]. split; [done|]. split.
           ++ rewrite Hp, Hp2.
              ** subst w1. simpl. apply lookup_insert_eq.
              ** intros j Hj Heq. apply Hinj in Heq. lia.
           ++ intros Hopen. apply Hw. rewrite Hwire2, decide_True by done.
              apply elem_of_app. right. by apply list_elem_of_singleton.
        -- destruct (Hok i id c Hi) as (j & Hj & Hpi & Hpj & Hsent); [by rewrite Hc2|].
           exists j. split; [lia|]. split; [done|]. split; [done|].
           intros Hopen. apply Hsent. by rewrite Hso2.
    + destruct (fetch_loop uuid k event code data msg maxWait rest w)
        as [ps w3] eqn:Hrest.
      injection Hloop as <- <-.
      destruct (IH k w ps w3 Hrest Hinj) as (Hlen & Hc & Hso & Hw & Hp & Hnf & Hok).
      split_and!; try done.
      * simpl. by rewrite Hlen.
      * intros [|i] id Hi Hnone; simpl in Hi.
        -- by injection Hi as <-.
        -- simpl. by apply (Hnf i id).
      * intros [|i] id c Hi Hsome; simpl in Hi.
        -- injection Hi as <-. congruence.
        -- simpl. by apply (Hok i id c).
Qed.

(** C1, original reading refuted: with ["a"] connected and ["b"] not,
    [fetch(["a", "b"], ...)] returns a promise that is rejected with
    ['Client b not found'] as soon as it exists, while the request to ["a"]
    is still outstanding. *)
Lemma fetch_many_rejects_as_a_whole :
  let r := fetch sample_uuid (Many ["a"; "b"]) "ping" JNull None sample_world in
  final_hasReply sample_world None = true ∧
  is_Some (clients sample_world !! "a") ∧
  clients sample_world !! "b" = None ∧
  r.1 = ReturnAll [Awaiting "u0"; RejectedNow (Error "Client b not found")] ∧
  result_state r.2 r.1 = Some (Rejected (Error "Client b not found")) ∧
  promise_state r.2 (Awaiting "u0") = None ∧
  pendingFetches r.2 !! "u0" = Some (mkPendingFetch "a").
Proof.
  split; [reflexivity|]. split; [by eexists|]. split_and!; reflexivity.
Qed.

(** C1, amended: with two or more targets and [hasReply], [fetch] returns
    [Promise.all] of one promise per target, in the order of the ids.  An
    id that is not connected gives a promise rejected with
    ['Client <id> not found'] and does not keep the other targets from being
    registered and written to.  The call is fulfilled, with the replies in
    order, exactly when every target is; it is rejected as soon as one
    target is, hence at once when an id is not connected. *)
Theorem fetch_many_is_promise_all uuid ids event data config w :
  (2 ≤ length ids)%nat ->
  final_hasReply w config = true ->
  (∀ i j : nat, uuid i = uuid j -> i = j) ->
  let r := fetch uuid (Many ids) event data config w in
  ∃ promises,
    r.1 = ReturnAll promises ∧ length promises = length ids ∧
    (∀ i id, ids !! i = Some id -> clients w !! id = None ->
       promises !! i = Some (RejectedNow (Error ("Client " +:+ id +:+ " not found")))) ∧
    (∀ i id connection,
       ids !! i = Some id -> clients w !! id = Some connection ->
       ∃ fetchId,
         promises !! i = Some (Awaiting fetchId) ∧
         pendingFetches r.2 !! fetchId = Some (mkPendingFetch id) ∧
         (sockets w !! ws connection = Some OPEN ->
          (ws connection,
           event_message event (Some fetchId) (final_code w config) data (final_msg w config))
          ∈ wire r.2)) ∧
    (∀ w1,
       (∀ vs, Forall2 (fulfilled_with w1) promises vs <->
              result_state w1 r.1 = Some (Fulfilled (JArr vs))) ∧
       (∀ p e, p ∈ promises -> promise_state w1 p = Some (Rejected e) ->
               ∃ e', result_state w1 r.1 = Some (Rejected e'))) ∧
    ((∃ id, id ∈ ids ∧ clients w !! id = None) ->
     ∀ w1, ∃ id, id ∈ ids ∧ clients w !! id = None ∧
                 result_state w1 r.1 = Some (Rejected (not_found id))).
Proof.
  intros Hlen Hreply Hinj r. subst r. unfold fetch. cbv zeta. rewrite Hreply.
  cbn [negb target_ids].
  destruct (fetch_loop uuid 0 event (final_code w config) data (final_msg w config)
              (final_maxWait w config) ids w) as [promises w'] eqn:Hloop.
  destruct (fetch_loop_spec _ _ _ _ _ _ _ _ _ _ _ Hloop Hinj)
    as (Hlen' & _ & _ & _ & _ & Hnf & Hok).
  assert (Hall : (match promises with
                  | [promise] => (ReturnOne promise, w')
                  | _ => (ReturnAll promises, w')
                  end) = (ReturnAll promises, w')).
  { destruct promises as [|p [|q ps]]; simpl in Hlen'; try done; lia. }
  rewrite Hall. cbn [fst snd result_state]. exists promises.
  split; [done|]. split; [done|]. split; [exact Hnf|]. split; [|split].
  - intros i id connection Hi Hconn.
    destruct (Hok i id connection Hi Hconn) as (j & _ & Hp & Hreg & Hsent). eauto.
  - intros w1. destruct (promise_all_spec w1 promises) as (Hrej & Hful & _).
    split; [exact Hful | exact Hrej].
  - intros (id & Hid & Hnone) w1.
    apply list_elem_of_lookup in Hid as [i Hi].
    pose proof (Hnf i id Hi Hnone) as Hp.
    destruct (promise_all_spec w1 promises) as (_ & _ & Hnow).
    destruct (Hnow (not_found id)) as (e' & He' & Hstate).
    { apply rejected_now_elem, list_elem_of_lookup. eauto. }
    apply rejected_now_elem, list_elem_of_lookup in He' as [i' Hi'].
    assert (is_Some (ids !! i')) as [id' Hid'].
    { apply lookup_lt_is_Some. rewrite <- Hlen'. by apply lookup_lt_Some in Hi'. }
    destruct (clients w !! id') as [c|] eqn:Hc.
    + destruct (Hok i' id' c Hid' Hc) as (j & _ & Hp' & _). congruence.
    + pose proof (Hnf i' id' Hid' Hc) as Hp'. rewrite Hi' in Hp'.
      injection Hp' as ->. exists id'. split; [|done].
      apply list_elem_of_lookup. eauto.
Qed.

Lemma fetch_many_is_promise_all_witness :
  let r := fetch sample_uuid (Many ["a"; "b"]) "ping" JNull None sample_world in
  (2 ≤ length ["a"; "b"])%nat ∧
  final_hasReply sample_world None = true ∧
  (∀ i j : nat, sample_uuid i = sample_uuid j -> i = j) ∧
  ∃ promises,
    r.1 = ReturnAll promises ∧ length promises = length ["a"; "b"] ∧
    (∀ i id, ["a"; "b"] !! i = Some id -> clients sample_world !! id = None ->
       promises !! i = Some (RejectedNow (Error ("Client " +:+ id +:+ " not found")))) ∧
    (∀ i id connection,
       ["a"; "b"] !! i = Some id -> clients sample_world !! id = Some connection ->
       ∃ fetchId,
         promises !! i = Some (Awaiting fetchId) ∧
         pendingFetches r.2 !! fetchId = Some (mkPendingFetch id) ∧
         (sockets sample_world !! ws connection = Some OPEN ->
          (ws connection,
           event_message "ping" (Some fetchId) (final_code sample_world None) JNull
             (final_msg sample_world None))
          ∈ wire r.2)) ∧
    (∀ w1,
       (∀ vs, Forall2 (fulfilled_with w1) promises vs <->
              result_state w1 r.1 = Some (Fulfilled (JArr vs))) ∧
       (∀ p e, p ∈ promises -> promise_state w1 p = Some (Rejected e) ->
               ∃ e', result_state w1 r.1 = Some (Rejected e'))) ∧
    ((∃ id, id ∈ ["a"; "b"] ∧ clients sample_world !! id = None) ->
     ∀ w1, ∃ id, id ∈ ["a"; "b"] ∧ clients sample_world !! id = None ∧
                 result_state w1 r.1 = Some (Rejected (not_found id))).
Proof.
  split; [simpl; lia|]. split; [reflexivity|]. split; [exact sample_uuid_inj|].
  apply (fetch_many_is_promise_all sample_uuid ["a"; "b"] "ping" JNull None sample_world).
  - simpl. lia.
  - reflexivity.
  - exact sample_uuid_inj.
Defined.

(** ** Requests that expect no reply *)

Lemma notification_frame event code data msg w w' c :
  frame w' = frame w ->
  notification event code data msg w' c = notification event code data msg w c.
Proof.
  intros Hf. unfold notification. unfold frame in Hf.
  injection Hf as Hc _ _ _ _ _ _ _ Hs _ _. by rewrite Hc, Hs.
Qed.

Lemma notify_spec event code data msg ids : ∀ w,
  let w' := foldl (notify event code data msg) w ids in
  frame w' = frame w ∧ trace w' = trace w ∧
  wire w' = wire w ++ omap (notification event code data msg w) ids.
Proof.
  induction ids as [|clientId rest IH]; intros w; simpl.
  { by rewrite app_nil_r. }
  set (w1 := notify event code data msg w clientId).
  assert (H1 : frame w1 = frame w ∧ trace w1 = trace w ∧
               wire w1 = wire w ++ option_list (notification event code data msg w clientId)).
  { unfold w1, notify, notification.
    destruct (clients w !! clientId) as [connection|]; simpl.
    - rewrite frame_sendMessage, trace_sendMessage, wire_sendMessage.
      split_and!; try done. by case_decide.
    - by rewrite app_nil_r. }
  destruct H1 as (Hf & Ht & Hw). destruct (IH w1) as (Hf' & Ht' & Hw').
  split_and!; [congruence | congruence |].
  rewrite Hw', Hw, <- app_assoc. f_equal.
  rewrite (list_omap_ext _ (notification event code data msg w) rest rest).
  - by destruct (notification event code data msg w clientId).
  - apply Forall2_same_length_lookup_2; [done|].
    intros i x y Hx Hy. assert (x = y) as -> by congruence.
    by rewrite (notification_frame _ _ _ _ w w1).
Qed.

(** X1: a request made with [hasReply: false] is fire-and-forget.  [fetch]
    returns [undefined] without ever rejecting, registers no pending request
    and arms no deadline; it transmits one event frame without [fetchId] to
    every target that is connected with an open socket, in the order of the
    ids, and passes over every other target in silence. *)
Theorem fetch_without_reply uuid id event data config w :
  final_hasReply w config = false ->
  let r := fetch uuid id event data config w in
  r.1 = ReturnUndefined ∧
  (∀ w1, result_state w1 r.1 = Some (Fulfilled JUndefined)) ∧
  frame r.2 = frame w ∧ trace r.2 = trace w ∧
  wire r.2
  = wire w ++ omap (notification event (final_code w config) data (final_msg w config) w)
                (target_ids id).
Proof.
  intros Hno. unfold fetch. cbv zeta. rewrite Hno. simpl.
  destruct (notify_spec event (final_code w config) data (final_msg w config)
              (target_ids id) w) as (Hf & Ht & Hw).
  by split_and!.
Qed.

Lemma fetch_without_reply_witness :
  let config := Some (mkFetchConfig None (Some false) (Some 201) None) in
  let r := fetch sample_uuid (Many ["ghost"; "a"]) "news" (JStr "hi") config sample_world in
  final_hasReply sample_world config = false ∧
  r.1 = ReturnUndefined ∧
  (∀ w1, result_state w1 r.1 = Some (Fulfilled JUndefined)) ∧
  frame r.2 = frame sample_world ∧ trace r.2 = trace sample_world ∧
  wire r.2
  = wire sample_world
    ++ [(0%nat, event_message "news" None 201 (JStr "hi") "success")].
Proof.
  split; [reflexivity|].
  apply (fetch_without_reply sample_uuid (Many ["ghost"; "a"]) "news" (JStr "hi")
           (Some (mkFetchConfig None (Some false) (Some 201) None)) sample_world).
  reflexivity.
Defined.

(** ** Requests to clients that are not there *)

Lemma first_rejection_nil log : ∀ seen, first_rejection [] seen log = None.
Proof.
  induction log as [|[f o] log IH]; intros seen; simpl; [done|].
  case_decide; [apply IH|]. destruct o; [apply IH|].
  apply IH.
Qed.

Lemma fetch_loop_unknown uuid event code data msg maxWait ids : ∀ k w,
  (∀ i, i ∈ ids -> clients w !! i = None) ->
  fetch_loop uuid k event code data msg maxWait ids w
  = ((fun i => RejectedNow (not_found i)) <$> ids, w).
Proof.
  induction ids as [|clientId rest IH]; intros k w Hnone; simpl; [done|].
  rewrite (Hnone clientId) by apply list_elem_of_here.
  rewrite IH; [done|]. intros i Hi. apply Hnone. by apply list_elem_of_further.
Qed.

(** X2: a request with a reply none of whose targets is connected touches
    nothing: no frame is sent, no request is registered, no deadline armed.
    The call is rejected with ['Client <id> not found'] for the first id of
    the list; with an empty list of ids it is fulfilled with the empty
    array. *)
Theorem fetch_unknown_targets uuid id event data config w :
  final_hasReply w config = true ->
  (∀ i, i ∈ target_ids id -> clients w !! i = None) ->
  let r := fetch uuid id event data config w in
  r.2 = w ∧
  ∀ w1, result_state w1 r.1
        = Some (match target_ids id with
                | [] => Fulfilled (JArr [])
                | i :: _ => Rejected (Error ("Client " +:+ i +:+ " not found"))
                end).
Proof.
  intros Hreply Hnone. unfold fetch. cbv zeta. rewrite Hreply. simpl.
  rewrite fetch_loop_unknown by done.
  destruct (target_ids id) as [|i [|j rest]]; simpl; split; try done.
  intros w1. unfold promise_all_state. simpl. by rewrite first_rejection_nil.
Qed.

Lemma fetch_unknown_targets_witness :
  let r := fetch sample_uuid (Many ["x"; "y"]) "ping" JNull None sample_world in
  final_hasReply sample_world None = true ∧
  (∀ i, i ∈ target_ids (Many ["x"; "y"]) -> clients sample_world !! i = None) ∧
  r.2 = sample_world ∧
  ∀ w1, result_state w1 r.1 = Some (Rejected (Error "Client x not found")).
Proof.
  assert (Hnone : ∀ i, i ∈ target_ids (Many ["x"; "y"]) -> clients sample_world !! i = None).
  { intros i Hi. simpl in Hi. apply elem_of_cons in Hi as [-> | Hi]; [reflexivity|].
    apply elem_of_cons in Hi as [-> | Hi]; [reflexivity|]. by apply elem_of_nil in Hi. }
  split; [reflexivity|]. split; [exact Hnone|].
  apply (fetch_unknown_targets sample_uuid (Many ["x"; "y"]) "ping" JNull None sample_world).
  - reflexivity.
  - exact Hnone.
Defined.

(** ** The reverse index holds no empty set *)

Lemma index_live_eq w w' :
  clientPendingFetches w' = clientPendingFetches w -> index_live w -> index_live w'.
Proof. unfold index_live. by intros ->. Qed.

Lemma frame_index w w' :
  frame w' = frame w -> clientPendingFetches w' = clientPendingFetches w.
Proof. unfold frame. congruence. Qed.

Lemma index_live_unindex clientId fetchId w :
  index_live w -> index_live (unindex clientId fetchId w).
Proof.
  intros L c ids. rewrite unindex_lookup. destruct (decide (c = clientId)) as [->|]; [|apply L].
  destruct (clientPendingFetches w !! clientId) as [s|]; simpl; [|done].
  unfold without. case_decide as Hsize; [done|].
  intros [= <-]. by rewrite <- size_zero_empty.
Qed.

Lemma index_live_resolve_pending fetchId body w :
  index_live w -> index_live (resolve_pending fetchId body w).
Proof.
  intros L. unfold resolve_pending.
  destruct (pendingFetches w !! fetchId) as [pending|]; [|done].
  set (w2 := set_pendingFetches (delete fetchId) (clearTimeout fetchId w)).
  apply (index_live_eq (unindex (pf_clientId pending) fetchId w2)); [done|].
  apply index_live_unindex. by apply (index_live_eq w).
Qed.

Lemma index_live_fire_timer fetchId w :
  index_live w -> index_live (fire_timer fetchId w).
Proof.
  intros L. unfold fire_timer. destruct (timers w !! fetchId) as [maxWait|]; [|done].
  unfold on_timeout. set (w0 := set_timers (delete fetchId) w).
  destruct (pendingFetches w0 !! fetchId) as [pending|].
  - apply (index_live_eq (unindex (pf_clientId pending) fetchId w0)); [done|].
    apply index_live_unindex. by apply (index_live_eq w).
  - by apply (index_live_eq w).
Qed.

Lemma index_live_register clientId fetchId maxWait w :
  index_live w -> index_live (register clientId fetchId maxWait w).
Proof.
  intros L c ids. unfold register. simpl.
  destruct (decide (c = clientId)) as [->|Hne].
  - rewrite lookup_insert_eq. intros [= <-]. set_solver.
  - rewrite lookup_insert_ne by done. apply L.
Qed.

Lemma index_live_fetch_loop uuid event code data msg maxWait ids : ∀ k w,
  index_live w -> index_live (fetch_loop uuid k event code data msg maxWait ids w).2.
Proof.
  induction ids as [|clientId rest IH]; intros k w L; simpl; [done|].
  destruct (clients w !! clientId) as [connection|].
  - set (w2 := sendMessage (ws connection)
                 (event_message event (Some (uuid k)) code data msg)
                 (register clientId (uuid k) maxWait w)).
    specialize (IH (S k) w2).
    destruct (fetch_loop uuid (S k) event code data msg maxWait rest w2) as [ps w3].
    apply IH. apply (index_live_eq (register clientId (uuid k) maxWait w)).
    + apply frame_index, frame_sendMessage.
    + by apply index_live_register.
  - specialize (IH k w).
    destruct (fetch_loop uuid k event code data msg maxWait rest w) as [ps w3]. by apply IH.
Qed.

Lemma index_live_fetch uuid id event data config w :
  index_live w -> index_live (fetch uuid id event data config w).2.
Proof.
  intros L. unfold fetch. cbv zeta. destruct (negb (final_hasReply w config)); simpl.
  - apply (index_live_eq w); [|done]. apply frame_index.
    by destruct (notify_spec event (final_code w config) data (final_msg w config)
                   (target_ids id) w) as (Hf & _).
  - pose proof (index_live_fetch_loop uuid event (final_code w config) data
                  (final_msg w config) (final_maxWait w config) (target_ids id) 0 w L) as L'.
    destruct (fetch_loop uuid 0 event (final_code w config) data (final_msg w config)
                (final_maxWait w config) (target_ids id) w) as [promises w'].
    by destruct promises as [|? []].
Qed.

Lemma foldl_cleanup_fetch_index l : ∀ w,
  clientPendingFetches (foldl cleanup_fetch w l) = clientPendingFetches w.
Proof.
  induction l as [|f l IH]; intros w; simpl; [done|]. rewrite IH.
  unfold cleanup_fetch. by destruct (pendingFetches w !! f).
Qed.

Lemma cleanupClient_index clientId w :
  clientPendingFetches (cleanupClient clientId w).2 ⊆ clientPendingFetches w.
Proof.
  unfold cleanupClient. destruct (clients w !! clientId) as [connection|]; [|done].
  set (w1 := match clientPendingFetches w !! clientId with
             | Some pendingFetchIds =>
                 set_clientPendingFetches (delete clientId)
                   (foldl cleanup_fetch w (elements pendingFetchIds))
             | None => w
             end).
  assert (H1 : clientPendingFetches w1 ⊆ clientPendingFetches w).
  { unfold w1. destruct (clientPendingFetches w !! clientId) as [ids|]; [|done].
    simpl. rewrite foldl_cleanup_fetch_index. apply delete_subseteq. }
  destruct (cleanup_groups_others clientId (user_groups (user connection)) w1)
    as (_ & _ & Hi & _).
  destruct (cleanup_groups clientId (user_groups (user connection)) w1) as [[|e] w2];
    simpl in *; by rewrite Hi.
Qed.

Lemma index_live_sub w w' :
  clientPendingFetches w' ⊆ clientPendingFetches w -> index_live w -> index_live w'.
Proof. intros Hsub L c ids Hc. apply (L c ids). by eapply lookup_weaken. Qed.

Lemma index_live_close_loop ids : ∀ w,
  index_live w -> index_live (close_loop ids w).2.
Proof.
  induction ids as [|id ids IH]; intros w L; simpl; [done|].
  destruct (clients w !! id) as [connection|]; [|by apply IH].
  assert (L' : index_live (cleanupClient id (ws_close (ws connection) w)).2).
  { apply (index_live_sub (ws_close (ws connection) w)); [apply cleanupClient_index|].
    apply (index_live_eq w); [|done].
    unfold ws_close. by destruct (sockets w !! ws connection) as [[]|]. }
  destruct (cleanupClient id (ws_close (ws connection) w)) as [[|e] w']; [by apply IH | done].
Qed.

Lemma addGroup_index group id w :
  clientPendingFetches (addGroup group id w).2 = clientPendingFetches w.
Proof.
  unfold addGroup. destruct (clients w !! id) as [connection|] eqn:Hc; [|done].
  destruct (inherited group); [done|]. cbv zeta. simpl. rewrite Hc.
  by case_decide.
Qed.

Lemma removeGroup_index group id w :
  clientPendingFetches (removeGroup group id w).2 = clientPendingFetches w.
Proof.
  unfold removeGroup. destruct (clients w !! id) as [connection|] eqn:Hc; [|done].
  destruct (inherited group); [done|]. cbv zeta.
  set (w1 := match _groups w !! group with
             | Some members =>
                 if decide (size (members ∖ {[id]}) = 0%nat)
                 then set_groups (delete group) w
                 else set_groups (<[group := members ∖ {[id]}]>) w
             | None => w
             end).
  assert (H1 : clientPendingFetches w1 = clientPendingFetches w ∧ clients w1 = clients w).
  { unfold w1. destruct (_groups w !! group); [|done]. by case_decide. }
  destruct H1 as [Hi Hcl]. rewrite Hcl, Hc. by case_decide.
Qed.

Lemma index_live_handleMessage parse sock u raw w :
  index_live w -> index_live (handleMessage parse sock u raw w).2.
Proof.
  intros L. unfold handleMessage. cbv zeta. case_decide.
  { apply (index_live_eq w); [|done]. apply frame_index, frame_sendMessage. }
  destruct (parse raw) as [| |message]; simpl.
  - apply (index_live_eq w); [|done]. apply frame_index, frame_sendMessage.
  - done.
  - destruct (msg_type message).
    + destruct (msg_event message) as [event|]; [|done].
      destruct (truthy event); [|done]. simpl.
      apply (index_live_eq w); [|done]. apply frame_index, frame_dispatch.
    + destruct (truthy (default "" (msg_fetchId message))); [|done]. simpl.
      by apply index_live_resolve_pending.
    + done.
Qed.

Lemma index_live_step parse i w : index_live w -> index_live (step parse i w).
Proof.
  intros L. destruct i; simpl.
  - apply (index_live_eq w); [|done]. by destruct (on_connection_fields clientId sock w)
      as (_ & _ & Hi & _).
  - by apply index_live_handleMessage.
  - unfold on_socket_closed.
    apply (index_live_sub (set_sockets (<[sock := CLOSED]>) w)); [apply cleanupClient_index|].
    by apply (index_live_eq w).
  - by apply index_live_fire_timer.
  - by apply index_live_fetch.
  - unfold fetchByGroup.
    destruct (collect (target_ids group) w ∅) as [clientIds|e]; [|done].
    case_decide; [done|]. by apply index_live_fetch.
  - apply (index_live_eq w); [apply addGroup_index | done].
  - apply (index_live_eq w); [apply removeGroup_index | done].
  - by apply index_live_close_loop.
  - unfold closeByGroups. destruct (collect groups w ∅) as [clientIds|e]; [|done].
    by apply index_live_close_loop.
  - by apply index_live_close_loop.
  - by apply (index_live_eq w).
  - by apply (index_live_eq w).
  - by apply (index_live_eq w).
  - by apply (index_live_eq w).
Qed.

Lemma reachable_index_live parse w : reachable parse w -> index_live w.
Proof.
  induction 1 as [|i w Hreach IH Hadm].
  - intros c ids Hc. unfold init in Hc. simpl in Hc. by rewrite lookup_empty in Hc.
  - by apply index_live_step.
Qed.

(** ** One request, from [fetch] to its settlement *)

Lemma first_outcome_absent f log : f ∉ log.*1 -> first_outcome f log = None.
Proof.
  induction log as [|[g o] log IH]; simpl; [done|]. intros Hnot.
  apply not_elem_of_cons in Hnot as [Hne Hnot]. rewrite decide_False by done. by apply IH.
Qed.

Lemma first_outcome_snoc f o log :
  f ∉ log.*1 -> first_outcome f (log ++ [(f, o)]) = Some o.
Proof.
  induction log as [|[g o'] log IH]; simpl.
  - intros _. by rewrite decide_True.
  - intros Hnot. apply not_elem_of_cons in Hnot as [Hne Hnot].
    rewrite decide_False by done. by apply IH.
Qed.

Lemma truthy_nonempty s : s ≠ "" -> truthy s = true.
Proof.
  intros Hne. unfold truthy. destruct (String.eqb s "") eqn:E; [|done].
  by apply String.eqb_eq in E.
Qed.

Lemma unindex_register clientId fetchId w w2 :
  tracker_inv w -> index_live w ->
  pendingFetches w !! fetchId = None ->
  clientPendingFetches w2
  = <[clientId := default ∅ (clientPendingFetches w !! clientId) ∪ {[fetchId]}]>
      (clientPendingFetches w) ->
  clientPendingFetches (unindex clientId fetchId w2) = clientPendingFetches w.
Proof.
  intros I L Hnone H2. apply map_eq. intros c. rewrite unindex_lookup.
  destruct (decide (c = clientId)) as [->|Hne].
  - rewrite H2, lookup_insert_eq. simpl. unfold without.
    set (S := default ∅ (clientPendingFetches w !! clientId)).
    assert (Hnot : fetchId ∉ S).
    { unfold S. destruct (clientPendingFetches w !! clientId) as [ids|] eqn:Hids; simpl.
      - intros Hin. pose proof (inv_index_sound w I _ _ _ Hids Hin). congruence.
      - set_solver. }
    assert (HS : (S ∪ {[fetchId]}) ∖ {[fetchId]} = S) by set_solver.
    rewrite HS. unfold S in *.
    destruct (clientPendingFetches w !! clientId) as [ids|] eqn:Hids; cbn [default].
    + rewrite decide_False; [done|]. rewrite size_zero_empty. by apply (L clientId).
    + rewrite decide_True; [done|]. by rewrite size_zero_empty.
  - by rewrite H2, lookup_insert_ne.
Qed.

(** X3: one request with a reply, from [fetch] to its settlement.  For a
    connected target [fetch] returns a pending promise, stores the request
    under a fresh id with its deadline armed and transmits one event frame
    carrying that id (if the socket is open).  A reply frame with that id,
    from whichever connection, fulfils the promise with the body of the
    frame; the deadline, if it fires first, rejects it with
    ['Request timeout after <maxWait>ms'].  Either way the tracker and the
    timers are exactly what they were before the call. *)
Theorem fetch_reply_round_trip parse uuid id connection event data config w :
  reachable parse w ->
  fresh_uuids uuid w ->
  uuid 0%nat ≠ "" ->
  clients w !! id = Some connection ->
  final_hasReply w config = true ->
  let fetchId := uuid 0%nat in
  let r := fetch uuid (One id) event data config w in
  r.1 = ReturnOne (Awaiting fetchId) ∧
  result_state r.2 r.1 = None ∧
  wire r.2
  = wire w ++ (if decide (sockets w !! ws connection = Some OPEN)
               then [(ws connection,
                      event_message event (Some fetchId) (final_code w config) data
                        (final_msg w config))]
               else []) ∧
  pendingFetches r.2 = <[fetchId := mkPendingFetch id]> (pendingFetches w) ∧
  timers r.2 = <[fetchId := final_maxWait w config]> (timers w) ∧
  (∀ sock u raw message,
     Z.of_nat (String.length raw) <= maxMessageSize w ->
     parse raw = parse_ok message ->
     msg_type message = type_reply ->
     msg_fetchId message = Some fetchId ->
     let w' := (handleMessage parse sock u raw r.2).2 in
     result_state w' r.1 = Some (Fulfilled (msg_body message)) ∧
     pendingFetches w' = pendingFetches w ∧
     clientPendingFetches w' = clientPendingFetches w ∧
     timers w' = timers w ∧
     wire w' = wire r.2) ∧
  (let w' := fire_timer fetchId r.2 in
   result_state w' r.1
   = Some (Rejected (Error ("Request timeout after "
                            +:+ pretty (final_maxWait w config) +:+ "ms"))) ∧
   pendingFetches w' = pendingFetches w ∧
   clientPendingFetches w' = clientPendingFetches w ∧
   timers w' = timers w ∧
   wire w' = wire r.2).
Proof.
  intros Hreach [Hinj Hfr] Hne Hconn Hreply fetchId.
  pose proof (reachable_consistent parse w Hreach) as [I _].
  pose proof (reachable_index_live parse w Hreach) as L.
  destruct (Hfr 0%nat) as [Hnone Hunsettled]. fold fetchId in Hnone, Hunsettled.
  assert (Htimer : timers w !! fetchId = None).
  { destruct (timers w !! fetchId) eqn:Ht; [|done].
    destruct (proj1 (inv_timers w I fetchId)) as [p Hp]; [eauto | congruence]. }
  unfold fetch. cbv zeta. rewrite Hreply. simpl target_ids. cbn [negb fetch_loop].
  rewrite Hconn. fold fetchId.
  set (w1 := register id fetchId (final_maxWait w config) w).
  set (m := event_message event (Some fetchId) (final_code w config) data (final_msg w config)).
  set (w2 := sendMessage (ws connection) m w1). cbn [fst snd].
  assert (Hframe : frame w2 = frame w1) by apply frame_sendMessage.
  unfold frame in Hframe.
  injection Hframe as Hc2 _ _ Hp2 Hi2 _ Hmax2 _ Hsock2 Ht2 Hs2.
  assert (Hp1 : pendingFetches w2 !! fetchId = Some (mkPendingFetch id)).
  { rewrite Hp2. unfold w1. simpl. by rewrite lookup_insert_eq. }
  split; [done|]. split.
  { simpl. rewrite Hs2. by apply first_outcome_absent. }
  split.
  { unfold w2. by rewrite wire_sendMessage. }
  split; [by rewrite Hp2|]. split; [by rewrite Ht2|]. split.
  - intros sock u raw message Hsize Hparse Htype Hid.
    unfold handleMessage. cbv zeta. rewrite Hmax2.
    rewrite decide_False by (unfold w1; simpl; lia).
    rewrite Hparse, Htype, Hid. simpl default.
    rewrite (truthy_nonempty fetchId Hne). cbn [snd].
    destruct (resolve_pending_settled fetchId _ (msg_body message) w2 Hp1) as [Hset _].
    split_and!.
    + simpl. rewrite Hset, Hs2. by apply first_outcome_snoc.
    + unfold resolve_pending. rewrite Hp1. simpl.
      destruct (unindex_others id fetchId
                  (set_pendingFetches (delete fetchId) (clearTimeout fetchId w2)))
        as (_ & Hp & _). rewrite Hp. simpl. rewrite Hp2. unfold w1. simpl.
      by apply delete_insert_id.
    + unfold resolve_pending. rewrite Hp1. simpl.
      apply unindex_register; [done | done | done |]. simpl. by rewrite Hi2.
    + unfold resolve_pending. rewrite Hp1. simpl.
      destruct (unindex_others id fetchId
                  (set_pendingFetches (delete fetchId) (clearTimeout fetchId w2)))
        as (_ & _ & Ht & _). rewrite Ht. simpl. rewrite Ht2. unfold w1. simpl.
      rewrite delete_delete_eq. by apply delete_insert_id.
    + unfold resolve_pending. rewrite Hp1. simpl.
      unfold unindex. simpl.
      destruct (clientPendingFetches w2 !! id); [|done]. by case_decide.
  - assert (Ht1 : timers w2 !! fetchId = Some (final_maxWait w config)).
    { rewrite Ht2. unfold w1. simpl. by rewrite lookup_insert_eq. }
    destruct (fire_timer_settled fetchId _ _ w2 Hp1 Ht1) as [Hset _].
    split_and!.
    + simpl. rewrite Hset, Hs2. by apply first_outcome_snoc.
    + unfold fire_timer. rewrite Ht1. unfold on_timeout. simpl. rewrite Hp1. simpl.
      destruct (unindex_others id fetchId (set_timers (delete fetchId) w2))
        as (_ & Hp & _). rewrite Hp. simpl. rewrite Hp2. unfold w1. simpl.
      by apply delete_insert_id.
    + unfold fire_timer. rewrite Ht1. unfold on_timeout. simpl. rewrite Hp1. simpl.
      apply unindex_register; [done | done | done |]. simpl. by rewrite Hi2.
    + unfold fire_timer. rewrite Ht1. unfold on_timeout. simpl. rewrite Hp1. simpl.
      destruct (unindex_others id fetchId (set_timers (delete fetchId) w2))
        as (_ & _ & Ht & _). rewrite Ht. simpl. rewrite Ht2. unfold w1. simpl.
      by apply delete_insert_id.
    + unfold fire_timer. rewrite Ht1. unfold on_timeout. simpl. rewrite Hp1. simpl.
      unfold unindex. simpl.
      destruct (clientPendingFetches w2 !! id); [|done]. by case_decide.
Qed.

Lemma sample_uuids_fresh : fresh_uuids sample_uuid sample_world.
Proof.
  split; [exact sample_uuid_inj|]. intros k. split; [done|]. apply not_elem_of_nil.
Qed.

Lemma fetch_reply_round_trip_witness :
  let r := fetch sample_uuid (One "a") "ping" JNull None sample_world in
  reachable sample_parse sample_world ∧
  fresh_uuids sample_uuid sample_world ∧
  sample_uuid 0%nat ≠ "" ∧
  clients sample_world !! "a" = Some (mkConn 0 (mkUser "a" [])) ∧
  final_hasReply sample_world None = true ∧
  r.1 = ReturnOne (Awaiting "u0") ∧
  wire r.2 = wire sample_world
             ++ [(0%nat, event_message "ping" (Some "u0") 200 JNull "success")] ∧
  result_state (handleMessage sample_parse 1 (mkUser "b" []) frame_reply_u0 r.2).2 r.1
  = Some (Fulfilled (JBool true)) ∧
  result_state (fire_timer "u0" r.2) r.1
  = Some (Rejected (Error "Request timeout after 10000ms")).
Proof.
  intros r.
  assert (Hne : sample_uuid 0%nat ≠ "") by done.
  split; [exact sample_world_reachable|]. split; [exact sample_uuids_fresh|].
  split; [exact Hne|]. split; [reflexivity|]. split; [reflexivity|].
  destruct (fetch_reply_round_trip sample_parse sample_uuid "a" (mkConn 0 (mkUser "a" []))
              "ping" JNull None sample_world sample_world_reachable sample_uuids_fresh
              Hne eq_refl eq_refl)
    as (H1 & _ & H3 & _ & _ & Hreply & Htimeout & _).
  split; [exact H1|]. split; [exact H3|]. split.
  - by destruct (Hreply 1%nat (mkUser "b" []) frame_reply_u0 message_reply_u0)
      as (Hr & _).
  - exact Htimeout.
Defined.

(** ** Requests to groups *)

Lemma collect_spec groups w : ∀ acc,
  (∀ g, g ∈ groups -> inherited g = false) ->
  ∃ ids, collect groups w acc = Normal ids ∧
         ∀ id, id ∈ ids <-> id ∈ acc ∨ ∃ g, g ∈ groups ∧ id ∈ membersOf g w.
Proof.
  induction groups as [|g rest IH]; intros acc Hown; simpl.
  - exists acc. split; [done|]. intros id. split; [by left|].
    intros [H | (g & Hg & _)]; [done | by apply elem_of_nil in Hg].
  - rewrite (Hown g) by apply list_elem_of_here.
    destruct (IH (acc ∪ default ∅ (_groups w !! g))) as (ids & Hids & Hmem).
    { intros g' Hg'. apply Hown. by apply list_elem_of_further. }
    exists ids. split; [done|]. intros id. rewrite Hmem, elem_of_union.
    fold (membersOf g w). split.
    + intros [[H | H] | (g' & Hg' & H)]; [by left | right | right].
      * exists g. split; [apply list_elem_of_here | done].
      * exists g'. split; [by apply list_elem_of_further | done].
    + intros [H | (g' & Hg' & H)]; [by left; left|].
      apply elem_of_cons in Hg' as [-> | Hg']; [by left; right|].
      right. by exists g'.
Qed.

Lemma collect_inherited groups w : ∀ acc,
  (∃ g, g ∈ groups ∧ inherited g = true) ->
  collect groups w acc = Throw (TypeError "members is not iterable").
Proof.
  induction groups as [|g rest IH]; intros acc (g' & Hg' & Hinh); simpl.
  - by apply elem_of_nil in Hg'.
  - destruct (inherited g) eqn:E; [done|]. apply IH.
    apply elem_of_cons in Hg' as [-> | Hg']; [congruence | by exists g'].
Qed.

(** X4: the result of [fetchByGroup] changes shape with the number of
    members.  The ids of the named groups are collected without duplicates;
    with no member at all the call is fulfilled with the empty array and
    nothing is sent; with exactly one member it is the call
    [fetch(id, ...)] for that member, whose result is the reply itself and
    not an array; with more it is [fetch] over the list of members.  A
    group name inherited from [Object.prototype] makes the call throw a
    [TypeError] before anything is sent. *)
Theorem fetchByGroup_shape uuid group event data config w :
  ((∃ g, g ∈ target_ids group ∧ inherited g = true) ->
   fetchByGroup uuid group event data config w
   = (Throws (TypeError "members is not iterable"), w)) ∧
  ((∀ g, g ∈ target_ids group -> inherited g = false) ->
   ∃ ids, NoDup ids ∧
     (∀ id, id ∈ ids <-> ∃ g, g ∈ target_ids group ∧ id ∈ membersOf g w) ∧
     fetchByGroup uuid group event data config w
     = match ids with
       | [] => (ReturnEmpty, w)
       | [id] => fetch uuid (One id) event data config w
       | _ => fetch uuid (Many ids) event data config w
       end).
Proof.
  split.
  - intros Hinh. unfold fetchByGroup. by rewrite collect_inherited.
  - intros Hown. unfold fetchByGroup.
    destruct (collect_spec (target_ids group) w ∅ Hown) as (clientIds & -> & Hmem).
    exists (elements clientIds). split; [apply NoDup_elements|]. split.
    { intros id. rewrite elem_of_elements, Hmem. set_solver. }
    case_decide as Hsize.
    + apply size_zero_empty in Hsize. subst clientIds. by rewrite elements_empty.
    + destruct (elements clientIds) as [|id [|id' rest]] eqn:E; [|done|done].
      apply elements_empty_inv in E. apply leibniz_equiv in E.
      by rewrite <- size_zero_empty in E.
Qed.

Lemma fetchByGroup_shape_witness :
  (∀ g, g ∈ target_ids (Many ["g"; "h"]) -> inherited g = false) ∧
  (∃ ids, NoDup ids ∧
     (∀ id, id ∈ ids <-> ∃ g, g ∈ ["g"; "h"] ∧ id ∈ membersOf g sample_group) ∧
     fetchByGroup sample_uuid (Many ["g"; "h"]) "ping" JNull None sample_group
     = match ids with
       | [] => (ReturnEmpty, sample_group)
       | [id] => fetch sample_uuid (One id) "ping" JNull None sample_group
       | _ => fetch sample_uuid (Many ids) "ping" JNull None sample_group
       end) ∧
  fetchByGroup sample_uuid (One "valueOf") "ping" JNull None sample_group
  = (Throws (TypeError "members is not iterable"), sample_group).
Proof.
  assert (Hown : ∀ g, g ∈ target_ids (Many ["g"; "h"]) -> inherited g = false).
  { intros g Hg. simpl in Hg. apply elem_of_cons in Hg as [-> | Hg]; [reflexivity|].
    apply elem_of_cons in Hg as [-> | Hg]; [reflexivity|]. by apply elem_of_nil in Hg. }
  split; [exact Hown|]. split.
  - exact (proj2 (fetchByGroup_shape sample_uuid (Many ["g"; "h"]) "ping" JNull None
                    sample_group) Hown).
  - apply (proj1 (fetchByGroup_shape sample_uuid (One "valueOf") "ping" JNull None
                    sample_group)).
    exists "valueOf". split; [apply list_elem_of_here | reflexivity].
Defined.

(** ** Closing connections *)

Lemma surroundings_cleanup_fetch l : ∀ w,
  surroundings (foldl cleanup_fetch w l) = surroundings w.
Proof.
  induction l as [|f l IH]; intros w; simpl; [done|]. rewrite IH.
  unfold cleanup_fetch. by destruct (pendingFetches w !! f).
Qed.

Lemma surroundings_cleanup_groups clientId groups : ∀ w,
  surroundings (cleanup_groups clientId groups w).2 = surroundings w.
Proof.
  induction groups as [|g rest IH]; intros w; simpl; [done|].
  destruct (inherited g); [done|]. rewrite IH.
  unfold cleanup_group. destruct (_groups w !! g); [|done]. by case_decide.
Qed.

Lemma surroundings_cleanupClient clientId w :
  surroundings (cleanupClient clientId w).2 = surroundings w.
Proof.
  unfold cleanupClient. destruct (clients w !! clientId) as [connection|]; [|done].
  set (w1 := match clientPendingFetches w !! clientId with
             | Some pendingFetchIds =>
                 set_clientPendingFetches (delete clientId)
                   (foldl cleanup_fetch w (elements pendingFetchIds))
             | None => w
             end).
  assert (H1 : surroundings w1 = surroundings w).
  { unfold w1. destruct (clientPendingFetches w !! clientId) as [ids|]; [|done].
    by rewrite <- (surroundings_cleanup_fetch (elements ids) w). }
  pose proof (surroundings_cleanup_groups clientId (user_groups (user connection)) w1) as H2.
  destruct (cleanup_groups clientId (user_groups (user connection)) w1) as [[|e] w2];
    simpl in *; by rewrite <- H1, <- H2.
Qed.

Lemma owned_indexed w f clientId :
  tracker_inv w ->
  f ∈ default ∅ (clientPendingFetches w !! clientId)
  <-> ∃ p, pendingFetches w !! f = Some p ∧ pf_clientId p = clientId.
Proof.
  intros I. split.
  - destruct (clientPendingFetches w !! clientId) as [ids|] eqn:Hids; simpl; [|set_solver].
    intros Hin. exists (mkPendingFetch clientId). split; [|done].
    by apply (inv_index_sound w I clientId ids).
  - intros (p & Hp & <-). destruct (inv_indexed w I f p Hp) as (ids & -> & Hin). done.
Qed.

Lemma cleanupClient_members clientId connection w g :
  consistent w -> clients w !! clientId = Some connection ->
  membersOf g (cleanupClient clientId w).2 = membersOf g w ∖ {[clientId]}.
Proof.
  intros C Hconn. pose proof C as [_ G].
  destruct (cleanupClient_spec clientId connection w C Hconn) as (_ & _ & _ & _ & _ & _ & Hg).
  unfold membersOf. rewrite Hg. case_decide as Hlisted.
  - destruct (_groups w !! g) as [M|]; simpl; [|set_solver].
    unfold without. case_decide as Hsize; simpl; [|done].
    apply size_zero_empty in Hsize. by rewrite Hsize.
  - destruct (_groups w !! g) as [M|] eqn:HM; simpl; [|set_solver].
    assert (clientId ∉ M); [|set_solver].
    intros Hin. destruct (inv_member_listed w G g M clientId HM Hin) as (c' & Hc' & Hl).
    congruence.
Qed.

Lemma settlements_app f w w' new :
  settled w' = settled w ++ new ->
  settlements f w' = settlements f w ++ filter (fun e => e.1 = f) new.
Proof. intros H. unfold settlements. by rewrite H, filter_app. Qed.

Lemma close_one id connection w :
  consistent w -> clients w !! id = Some connection ->
  let r := cleanupClient id (ws_close (ws connection) w) in
  r.1 = Normal () ∧ consistent r.2 ∧
  clients r.2 = delete id (clients w) ∧
  (∀ f, pendingFetches r.2 !! f
        = p ← pendingFetches w !! f; if decide (pf_clientId p = id) then None else Some p) ∧
  (∀ f, timers r.2 !! f
        = match pendingFetches w !! f with
          | Some p => if decide (pf_clientId p = id) then None else timers w !! f
          | None => timers w !! f
          end) ∧
  (∀ f, settlements f r.2
        = settlements f w ++
          match pendingFetches w !! f with
          | Some p => if decide (pf_clientId p = id) then [(f, Rejected disconnected)] else []
          | None => []
          end) ∧
  (∀ g, membersOf g r.2 = membersOf g w ∖ {[id]}) ∧
  surroundings r.2 = surroundings (ws_close (ws connection) w).
Proof.
  intros C Hconn. set (w1 := ws_close (ws connection) w).
  assert (Hcore : core w1 = core w) by apply core_ws_close.
  assert (C1 : consistent w1) by (by apply (consistent_core w)).
  unfold core in Hcore. injection Hcore as Hc1 Hp1 Hi1 Ht1 Hs1 Hg1.
  assert (Hconn1 : clients w1 !! id = Some connection) by (by rewrite Hc1).
  pose proof C1 as [I1 _].
  destruct (cleanupClient_spec id connection w1 C1 Hconn1)
    as (Hn & Hc & _ & Hp & Ht & Hs & _).
  cbv zeta. split; [done|]. split; [by apply consistent_cleanupClient|].
  split; [by rewrite Hc, Hc1|].
  assert (Hown : ∀ f, f ∈ default ∅ (clientPendingFetches w1 !! id)
                      <-> ∃ p, pendingFetches w !! f = Some p ∧ pf_clientId p = id).
  { intros f. rewrite (owned_indexed w1 f id I1). by rewrite Hp1. }
  split; [|split; [|split; [|split]]].
  - intros f. rewrite Hp, Hp1. case_decide as Hin.
    + apply Hown in Hin as (p & -> & Hp'). simpl. by rewrite decide_True.
    + destruct (pendingFetches w !! f) as [p|] eqn:Hf; simpl; [|done].
      rewrite decide_False; [done|]. intros Heq. apply Hin, Hown. by exists p.
  - intros f. rewrite Ht, Ht1. case_decide as Hin.
    + apply Hown in Hin as (p & -> & Hp'). by rewrite decide_True.
    + destruct (pendingFetches w !! f) as [p|] eqn:Hf; [|done].
      rewrite decide_False; [done|]. intros Heq. apply Hin, Hown. by exists p.
  - intros f. rewrite (settlements_app f w1 _ _ Hs). unfold settlements at 1. rewrite Hs1.
    fold (settlements f w). f_equal.
    destruct (decide (f ∈ default ∅ (clientPendingFetches w1 !! id))) as [Hin | Hin].
    + rewrite filter_fst_disconnected; [|apply NoDup_elements | by apply elem_of_elements].
      apply Hown in Hin as (p & -> & Hp'). by rewrite decide_True.
    + rewrite filter_fst_absent.
      2:{ rewrite fst_disconnected. by rewrite elem_of_elements. }
      destruct (pendingFetches w !! f) as [p|] eqn:Hf; [|done].
      rewrite decide_False; [done|]. intros Heq. apply Hin, Hown. by exists p.
  - intros g. rewrite (cleanupClient_members id connection w1 g C1 Hconn1).
    unfold membersOf. by rewrite Hg1.
  - apply surroundings_cleanupClient.
Qed.

Lemma ws_close_open k w s :
  sockets (ws_close k w) !! s = Some OPEN <-> sockets w !! s = Some OPEN ∧ s ≠ k.
Proof.
  unfold ws_close. destruct (decide (s = k)) as [->|Hne].
  - destruct (sockets w !! k) as [[]|] eqn:E; simpl; rewrite ?lookup_insert_eq, ?E;
      split; (try by intros [? ?]); done.
  - destruct (sockets w !! k) as [[]|] eqn:E; simpl; rewrite ?lookup_insert_ne by done;
      split; (try by intros [? ?]); done.
Qed.

Lemma surroundings_ws_close k w :
  wire (ws_close k w) = wire w ∧ trace (ws_close k w) = trace w.
Proof. unfold ws_close. by destruct (sockets w !! k) as [[]|]. Qed.

Lemma close_loop_spec ids : ∀ w,
  consistent w ->
  let r := close_loop ids w in
  r.1 = Normal () ∧ consistent r.2 ∧
  (∀ id, clients r.2 !! id = if decide (id ∈ ids) then None else clients w !! id) ∧
  (∀ f, pendingFetches r.2 !! f
        = p ← pendingFetches w !! f; if decide (pf_clientId p ∈ ids) then None else Some p) ∧
  (∀ f, timers r.2 !! f
        = match pendingFetches w !! f with
          | Some p => if decide (pf_clientId p ∈ ids) then None else timers w !! f
          | None => timers w !! f
          end) ∧
  (∀ f, settlements f r.2
        = settlements f w ++
          match pendingFetches w !! f with
          | Some p => if decide (pf_clientId p ∈ ids) then [(f, Rejected disconnected)] else []
          | None => []
          end) ∧
  (∀ g, membersOf g r.2 = membersOf g w ∖ list_to_set ids) ∧
  (∀ s, sockets r.2 !! s = Some OPEN
        <-> sockets w !! s = Some OPEN ∧
            ∀ id connection, id ∈ ids -> clients w !! id = Some connection ->
                             ws connection ≠ s) ∧
  wire r.2 = wire w ∧ trace r.2 = trace w.
Proof.
  induction ids as [|id rest IH]; intros w C; cbv zeta.
  { simpl. split_and!; try done.
    - intros f. by destruct (pendingFetches w !! f).
    - intros f. by destruct (pendingFetches w !! f).
    - intros f. destruct (pendingFetches w !! f); by rewrite app_nil_r.
    - intros g. set_solver.
    - intros s. split; [|by intros [? _]]. intros H. split; [done|].
      intros id c Hin. by apply elem_of_nil in Hin. }
  pose proof C as [I G]. simpl.
  destruct (clients w !! id) as [connection|] eqn:Hconn.
  - destruct (close_one id connection w C Hconn)
      as (Hn & C2 & Hc2 & Hp2 & Ht2 & Hs2 & Hg2 & Hsur).
    destruct (cleanupClient id (ws_close (ws connection) w)) as [[[]|e] w2] eqn:Hcl;
      simpl in Hn; [|done]. clear Hn. simpl in C2, Hc2, Hp2, Ht2, Hs2, Hg2, Hsur.
    destruct (IH w2 C2) as (Hn & C3 & Hc3 & Hp3 & Ht3 & Hs3 & Hg3 & Hso3 & Hw3 & Htr3).
    unfold surroundings in Hsur. injection Hsur as _ _ _ _ Hsock Hwire Htrace.
    destruct (surroundings_ws_close (ws connection) w) as [Hwc Htc].
    split_and!; try done.
    + intros x. rewrite Hc3, Hc2. destruct (decide (x = id)) as [->|Hne].
      * rewrite lookup_delete_eq. rewrite (decide_True (P := id ∈ id :: rest)) by set_solver.
        by case_decide.
      * rewrite lookup_delete_ne by done.
        destruct (decide (x ∈ rest)).
        -- by rewrite decide_True by set_solver.
        -- by rewrite decide_False by set_solver.
    + intros f. rewrite Hp3, Hp2. destruct (pendingFetches w !! f) as [p|]; simpl; [|done].
      destruct (decide (pf_clientId p = id)) as [Heq|Hne]; simpl.
      * by rewrite decide_True by set_solver.
      * destruct (decide (pf_clientId p ∈ rest)).
        -- by rewrite decide_True by set_solver.
        -- by rewrite decide_False by set_solver.
    + intros f. rewrite Ht3, Hp2, Ht2. destruct (pendingFetches w !! f) as [p|]; simpl; [|done].
      destruct (decide (pf_clientId p = id)) as [Heq|Hne]; simpl.
      * by rewrite decide_True by set_solver.
      * destruct (decide (pf_clientId p ∈ rest)).
        -- by rewrite decide_True by set_solver.
        -- by rewrite decide_False by set_solver.
    + intros f. rewrite Hs3, Hp2, Hs2, <- app_assoc. f_equal.
      destruct (pendingFetches w !! f) as [p|]; simpl; [|done].
      destruct (decide (pf_clientId p = id)) as [Heq|Hne]; simpl.
      * by rewrite decide_True by set_solver.
      * destruct (decide (pf_clientId p ∈ rest)).
        -- by rewrite decide_True by set_solver.
        -- by rewrite decide_False by set_solver.
    + intros g. rewrite Hg3, Hg2. set_solver.
    + intros s. rewrite Hso3, Hsock, ws_close_open. split.
      * intros [[Hopen Hne] Hrest]. split; [done|].
        intros x c Hin Hx. apply elem_of_cons in Hin as [-> | Hin].
        -- assert (c = connection) as -> by congruence. done.
        -- destruct (decide (x = id)) as [->|Hxne].
           ++ assert (c = connection) as -> by congruence. done.
           ++ apply (Hrest x c Hin). rewrite Hc2. by rewrite lookup_delete_ne.
      * intros [Hopen Hall]. split; [split; [done|]|].
        -- intros ->. by apply (Hall id connection); [apply list_elem_of_here | |].
        -- intros x c Hin Hx. rewrite Hc2 in Hx. apply lookup_delete_Some in Hx as [Hne Hx].
           apply (Hall x c); [by apply list_elem_of_further | done].
    + by rewrite Hw3, Hwire.
    + by rewrite Htr3, Htrace.
  - destruct (IH w C) as (Hn & C3 & Hc3 & Hp3 & Ht3 & Hs3 & Hg3 & Hso3 & Hw3 & Htr3).
    assert (Howner : ∀ f p, pendingFetches w !! f = Some p -> pf_clientId p ≠ id).
    { intros f p Hf Heq. destruct (inv_owner_live w I f p Hf) as [c Hc]. congruence. }
    assert (Hdec : ∀ (A : Type) (x y : A) f p, pendingFetches w !! f = Some p ->
              (if decide (pf_clientId p ∈ id :: rest) then x else y)
              = (if decide (pf_clientId p ∈ rest) then x else y)).
    { intros A x y f p Hf. specialize (Howner f p Hf).
      destruct (decide (pf_clientId p ∈ rest)).
      - by rewrite decide_True by set_solver.
      - by rewrite decide_False by set_solver. }
    split_and!; try done.
    + intros x. rewrite Hc3. destruct (decide (x = id)) as [->|Hne].
      * rewrite (decide_True (P := id ∈ id :: rest)) by set_solver. by case_decide.
      * destruct (decide (x ∈ rest)).
        -- by rewrite decide_True by set_solver.
        -- by rewrite decide_False by set_solver.
    + intros f. rewrite Hp3. destruct (pendingFetches w !! f) as [p|] eqn:Hf; simpl; [|done].
      by rewrite (Hdec _ _ _ f p Hf).
    + intros f. rewrite Ht3. destruct (pendingFetches w !! f) as [p|] eqn:Hf; [|done].
      by rewrite (Hdec _ _ _ f p Hf).
    + intros f. rewrite Hs3. destruct (pendingFetches w !! f) as [p|] eqn:Hf; [|done].
      by rewrite (Hdec _ _ _ f p Hf).
    + intros g. rewrite Hg3.
      assert (id ∉ membersOf g w); [|set_solver].
      unfold membersOf. destruct (_groups w !! g) as [M|] eqn:HM; simpl; [|set_solver].
      intros Hin. destruct (inv_member_listed w G g M id HM Hin) as (c & Hc & _). congruence.
    + intros s. rewrite Hso3. split; intros [Hopen Hall]; (split; [done|]).
      * intros x c Hin Hx. apply elem_of_cons in Hin as [-> | Hin]; [congruence|].
        by apply (Hall x c).
      * intros x c Hin Hx. apply (Hall x c); [by apply list_elem_of_further | done].
Qed.

(** X5: [close(ids)] disconnects exactly the named clients that are
    connected and passes over the other names.  It returns normally; the
    named clients are gone from [clients] and from every group, their
    sockets are no longer open, each request they owned is rejected once
    with ['Client disconnected'] and its deadline disarmed; every other
    client, request, deadline, socket and group member is untouched, and
    nothing is transmitted. *)
Theorem close_named_clients parse ids w :
  reachable parse w ->
  let r := close ids w in
  let named := target_ids ids in
  r.1 = Normal () ∧
  (∀ id, clients r.2 !! id = if decide (id ∈ named) then None else clients w !! id) ∧
  (∀ f, pendingFetches r.2 !! f
        = p ← pendingFetches w !! f; if decide (pf_clientId p ∈ named) then None else Some p) ∧
  (∀ f, timers r.2 !! f
        = match pendingFetches w !! f with
          | Some p => if decide (pf_clientId p ∈ named) then None else timers w !! f
          | None => timers w !! f
          end) ∧
  (∀ f, settlements f r.2
        = settlements f w ++
          match pendingFetches w !! f with
          | Some p =>
              if decide (pf_clientId p ∈ named)
              then [(f, Rejected (Error "Client disconnected"))] else []
          | None => []
          end) ∧
  (∀ g, membersOf g r.2 = membersOf g w ∖ list_to_set named) ∧
  (∀ s, sockets r.2 !! s = Some OPEN
        <-> sockets w !! s = Some OPEN ∧
            ∀ id connection, id ∈ named -> clients w !! id = Some connection ->
                             ws connection ≠ s) ∧
  wire r.2 = wire w ∧ trace r.2 = trace w.
Proof.
  intros Hreach. pose proof (reachable_consistent parse w Hreach) as C.
  destruct (close_loop_spec (target_ids ids) w C)
    as (Hn & _ & Hc & Hp & Ht & Hs & Hg & Hso & Hw & Htr).
  cbv zeta. unfold close. by split_and!.
Qed.

Lemma close_named_clients_witness :
  let r := close (Many ["ghost"; "a"]) sample_pending in
  reachable sample_parse sample_pending ∧
  r.1 = Normal () ∧
  clients r.2 !! "a" = None ∧
  pendingFetches r.2 !! "u0" = None ∧
  settlements "u1" r.2 = [("u1", Rejected (Error "Client disconnected"))] ∧
  wire r.2 = wire sample_pending.
Proof.
  intros r. split; [exact sample_pending_reachable|].
  destruct (close_named_clients sample_parse (Many ["ghost"; "a"]) sample_pending
              sample_pending_reachable)
    as (Hn & Hc & Hp & _ & Hs & _ & _ & Hw & _).
  split; [exact Hn|]. split; [exact (Hc "a")|]. split; [exact (Hp "u0")|].
  split; [exact (Hs "u1") | exact Hw].
Defined.

(** X6: [closeAll()] leaves a deserted server.  Whatever the order in which
    the clients are visited, it returns normally; afterwards no client is
    connected, no request is stored or indexed, no deadline is armed and no
    group exists; every request that was pending has been rejected exactly
    once, with ['Client disconnected'], and no socket of a former client is
    open.  The same holds for [close(ids)] when [ids] names every connected
    client. *)
Theorem closeAll_deserts parse w r :
  reachable parse w ->
  r = closeAll w ∨
  (∃ ids, (∀ id, is_Some (clients w !! id) -> id ∈ ids) ∧ r = close (Many ids) w) ->
  r.1 = Normal () ∧
  deserted r.2 ∧
  (∀ f p, pendingFetches w !! f = Some p ->
          settlements f r.2 = [(f, Rejected (Error "Client disconnected"))]) ∧
  (∀ id connection, clients w !! id = Some connection ->
                    sockets r.2 !! ws connection ≠ Some OPEN).
Proof.
  intros Hreach Hr. pose proof (reachable_consistent parse w Hreach) as C.
  pose proof C as [I G]. pose proof (reachable_index_live parse w Hreach) as L.
  assert (Hloop : ∃ ids, (∀ id, is_Some (clients w !! id) -> id ∈ ids) ∧
                         r = close_loop ids w).
  { destruct Hr as [-> | (ids & Hcover & ->)].
    - exists (elements (dom (clients w))). split; [|done].
      intros id Hid. by apply elem_of_elements, elem_of_dom.
    - by exists ids. }
  destruct Hloop as (ids & Hcover & ->).
  destruct (close_loop_spec ids w C) as (Hn & C' & Hc & Hp & Ht & Hs & Hg & Hso & _).
  pose proof (index_live_close_loop ids w L) as L'.
  set (w' := (close_loop ids w).2) in *. destruct C' as [I' G'].
  assert (Hclients : clients w' = ∅).
  { apply map_empty. intros id. rewrite Hc. case_decide as Hin; [done|].
    destruct (clients w !! id) eqn:E; [|done]. destruct Hin. apply Hcover. by rewrite E. }
  assert (Hpending : pendingFetches w' = ∅).
  { apply map_empty. intros f. rewrite Hp.
    destruct (pendingFetches w !! f) as [p|] eqn:E; simpl; [|done].
    rewrite decide_True; [done|]. apply Hcover. by apply (inv_owner_live w I f p). }
  split; [done|]. split; [|split].
  - split_and!; try done.
    + apply map_empty. intros c.
      destruct (clientPendingFetches w' !! c) as [fs|] eqn:E; [|done].
      pose proof (L' c fs E) as Hne. apply set_choose_L in Hne as [f Hf].
      pose proof (inv_index_sound w' I' c fs f E Hf) as Hsome.
      by rewrite Hpending, lookup_empty in Hsome.
    + apply map_empty. intros f. destruct (timers w' !! f) as [d|] eqn:E; [|done].
      destruct (proj1 (inv_timers w' I' f)) as [p Hsome]; [by rewrite E|].
      by rewrite Hpending, lookup_empty in Hsome.
    + apply map_empty. intros g. destruct (_groups w' !! g) as [M|] eqn:E; [|done].
      pose proof (inv_nonempty w' G' g M E) as Hne. apply set_choose_L in Hne as [id Hid].
      destruct (inv_member_listed w' G' g M id E Hid) as (c & Hsome & _).
      by rewrite Hclients, lookup_empty in Hsome.
  - intros f p Hf. rewrite Hs, Hf.
    rewrite decide_True by (apply Hcover; by apply (inv_owner_live w I f p)).
    unfold settlements. rewrite filter_fst_absent; [done|].
    intros Hin. apply (inv_settled_gone w I) in Hin. congruence.
  - intros id connection Hid Hopen. apply Hso in Hopen as [_ Hall].
    apply (Hall id connection); [|done..]. apply Hcover. by rewrite Hid.
Qed.

Lemma closeAll_deserts_witness :
  let r := closeAll sample_pending in
  reachable sample_parse sample_pending ∧
  r.1 = Normal () ∧
  deserted r.2 ∧
  settlements "u0" r.2 = [("u0", Rejected (Error "Client disconnected"))] ∧
  sockets r.2 !! 0%nat ≠ Some OPEN.
Proof.
  intros r. split; [exact sample_pending_reachable|].
  destruct (closeAll_deserts sample_parse sample_pending r sample_pending_reachable
              (or_introl eq_refl))
    as (Hn & Hd & Hs & Hso).
  split; [exact Hn|]. split; [exact Hd|]. split.
  - exact (Hs "u0" (mkPendingFetch "a") eq_refl).
  - exact (Hso "a" (mkConn 0 (mkUser "a" [])) eq_refl).
Defined.

(** ** What the invariants mean for the application *)

(** X7: a client that disconnects leaves every group.  After
    [cleanupClient] the client is a member of no group, a group it was the
    only member of no longer exists, every other group keeps its other
    members, and the other clients are as they were. *)
Theorem disconnect_leaves_groups parse clientId connection w :
  reachable parse w ->
  clients w !! clientId = Some connection ->
  let w' := (cleanupClient clientId w).2 in
  (∀ g, membersOf g w' = membersOf g w ∖ {[clientId]}) ∧
  (∀ g, _groups w' !! g = None <-> membersOf g w ⊆ {[clientId]}) ∧
  (∀ g members, get_groups w' !! g = Some members -> members ≠ [] ∧ clientId ∉ members) ∧
  clients w' = delete clientId (clients w).
Proof.
  intros Hreach Hconn w'. pose proof (reachable_consistent parse w Hreach) as C.
  pose proof (groups_inv_cleanupClient clientId w C) as G'. fold w' in G'.
  assert (Hm : ∀ g, membersOf g w' = membersOf g w ∖ {[clientId]}).
  { intros g. by apply (cleanupClient_members clientId connection). }
  split; [done|]. split; [|split].
  - intros g. specialize (Hm g). unfold membersOf in Hm at 1. split.
    + intros Hnone. rewrite Hnone in Hm.
      change (∅ = membersOf g w ∖ {[clientId]}) in Hm.
      intros x Hx. destruct (decide (x = clientId)) as [->|Hxne]; [set_solver|].
      assert (x ∈ membersOf g w ∖ {[clientId]}) as Hin by set_solver.
      rewrite <- Hm in Hin. set_solver.
    + intros Hsub. destruct (_groups w' !! g) as [M|] eqn:E; [|done].
      pose proof (inv_nonempty w' G' g M E) as Hne.
      change (M = membersOf g w ∖ {[clientId]}) in Hm.
      destruct Hne. rewrite Hm. clear -Hsub. set_solver.
  - intros g members. unfold get_groups. rewrite lookup_fmap.
    destruct (_groups w' !! g) as [M|] eqn:E; [|done]. intros [= <-].
    pose proof (inv_nonempty w' G' g M E) as Hne. specialize (Hm g).
    unfold membersOf in Hm at 1. rewrite E in Hm.
    change (M = membersOf g w ∖ {[clientId]}) in Hm. split.
    + intros Hnil. apply elements_empty_inv in Hnil. apply leibniz_equiv in Hnil. done.
    + rewrite elem_of_elements, Hm. set_solver.
  - by destruct (cleanupClient_spec clientId connection w C Hconn) as (_ & Hc & _).
Qed.

Lemma disconnect_leaves_groups_witness :
  let w' := (cleanupClient "b" sample_group).2 in
  reachable sample_parse sample_group ∧
  clients sample_group !! "b" = Some (mkConn 1 (mkUser "b" ["g"])) ∧
  membersOf "g" sample_group = {["b"]} ∧
  _groups w' !! "g" = None ∧
  clients w' = delete "b" (clients sample_group).
Proof.
  intros w'. split; [exact sample_group_reachable|]. split; [reflexivity|].
  split; [reflexivity|].
  destruct (disconnect_leaves_groups sample_parse "b" (mkConn 1 (mkUser "b" ["g"]))
              sample_group sample_group_reachable eq_refl)
    as (_ & Hnone & _ & Hc).
  split; [|exact Hc]. apply Hnone. reflexivity.
Defined.

(** X8: what the getter [groups] shows, in every state the server can
    reach: a group that is listed has at least one member and an own name;
    its members are exactly the connected clients whose [user.groups]
    holds the group, each listed once; and a group that is not listed is
    in no client's [user.groups]. *)
Theorem groups_getter_agrees parse w g :
  reachable parse w ->
  match get_groups w !! g with
  | Some members =>
      members ≠ [] ∧ NoDup members ∧ inherited g = false ∧
      ∀ id, id ∈ members
            <-> ∃ connection, clients w !! id = Some connection ∧
                              g ∈ user_groups (user connection)
  | None =>
      ∀ id connection, clients w !! id = Some connection ->
                       g ∉ user_groups (user connection)
  end.
Proof.
  intros Hreach. pose proof (reachable_consistent parse w Hreach) as [_ G].
  unfold get_groups. rewrite lookup_fmap.
  destruct (_groups w !! g) as [M|] eqn:E; simpl.
  - split_and!.
    + intros Hnil. apply elements_empty_inv in Hnil. apply leibniz_equiv in Hnil.
      by apply (inv_nonempty w G g M E).
    + apply NoDup_elements.
    + by apply (inv_own w G g M).
    + intros id. rewrite elem_of_elements. split.
      * by apply (inv_member_listed w G g M).
      * intros (c & Hc & Hl). destruct (inv_listed_member w G id c g Hc Hl) as (M' & HM' & Hin).
        congruence.
  - intros id c Hc Hl. destruct (inv_listed_member w G id c g Hc Hl) as (M' & HM' & _).
    congruence.
Qed.

Lemma groups_getter_agrees_witness :
  reachable sample_parse sample_group ∧
  get_groups sample_group !! "g" = Some ["b"] ∧
  ∀ id, id ∈ ["b"]
        <-> ∃ connection, clients sample_group !! id = Some connection ∧
                          "g" ∈ user_groups (user connection).
Proof.
  split; [exact sample_group_reachable|]. split; [reflexivity|].
  pose proof (groups_getter_agrees sample_parse sample_group "g" sample_group_reachable)
    as H.
  change (get_groups sample_group !! "g") with (Some ["b"]) in H.
  by destruct H as (_ & _ & _ & H).
Defined.

(** X9: the tracker never leaks.  In every state the server can reach, an
    armed deadline belongs to a stored request; a stored request has its
    deadline armed, a connected owner, an entry in the reverse index of that
    owner and no settlement yet; and the reverse index holds only non-empty
    sets, of connected clients, of requests stored for that client. *)
Theorem tracker_never_leaks parse w :
  reachable parse w ->
  (∀ f maxWait, timers w !! f = Some maxWait -> is_Some (pendingFetches w !! f)) ∧
  (∀ f p, pendingFetches w !! f = Some p ->
     is_Some (timers w !! f) ∧
     is_Some (clients w !! pf_clientId p) ∧
     f ∈ default ∅ (clientPendingFetches w !! pf_clientId p) ∧
     settlements f w = []) ∧
  (∀ c fs, clientPendingFetches w !! c = Some fs ->
     fs ≠ ∅ ∧ is_Some (clients w !! c) ∧
     ∀ f, f ∈ fs -> pendingFetches w !! f = Some (mkPendingFetch c)).
Proof.
  intros Hreach. pose proof (reachable_consistent parse w Hreach) as [I _].
  pose proof (reachable_index_live parse w Hreach) as L. split; [|split].
  - intros f d Hd. apply (inv_timers w I f). by rewrite Hd.
  - intros f p Hf. split_and!.
    + apply (inv_timers w I f). by rewrite Hf.
    + by apply (inv_owner_live w I f).
    + destruct (inv_indexed w I f p Hf) as (fs & -> & Hin). done.
    + unfold settlements. apply filter_fst_absent. intros Hin.
      apply (inv_settled_gone w I) in Hin. congruence.
  - intros c fs Hc. pose proof (L c fs Hc) as Hne. split; [done|]. split.
    + apply set_choose_L in Hne as [f Hf].
      pose proof (inv_index_sound w I c fs f Hc Hf) as Hp.
      by apply (inv_owner_live w I f) in Hp.
    + intros f Hf. by apply (inv_index_sound w I c fs).
Qed.

Lemma tracker_never_leaks_witness :
  reachable sample_parse sample_pending ∧
  is_Some (timers sample_pending !! "u1") ∧
  settlements "u1" sample_pending = [].
Proof.
  split; [exact sample_pending_reachable|].
  destruct (tracker_never_leaks sample_parse sample_pending sample_pending_reachable)
    as (_ & Hp & _).
  destruct (Hp "u1" (mkPendingFetch "a") eq_refl) as (Ht & _ & _ & Hs). by split.
Defined.

(** ** A stage that throws *)

Lemma first_reply_none acts :
  existsb is_reply_call acts = false -> first_reply acts = None.
Proof.
  unfold first_reply. induction acts as [|[a|tag] acts IH]; simpl; [done | done | exact IH].
Qed.

Lemma first_reply_some acts :
  existsb is_reply_call acts = true -> is_Some (first_reply acts).
Proof.
  unfold first_reply. induction acts as [|[a|tag] acts IH]; simpl; [done | eauto | exact IH].
Qed.

Lemma actions_wire sock fetchId stage acts : ∀ st,
  let st' := foldl (exec_action sock fetchId stage) st acts in
  wire st'.2
  = wire st.2 ++
    (if st.1 then []
     else match first_reply acts with
          | Some a =>
              if decide (sockets st.2 !! sock = Some OPEN)
              then [(sock, reply_envelope fetchId (default JUndefined (head a)))] else []
          | None => []
          end).
Proof.
  induction acts as [|[a|tag] acts IH]; intros [b w]; cbn [foldl exec_action fst snd].
  - destruct b; by rewrite app_nil_r.
  - rewrite IH. destruct b.
    + by rewrite reply_replied.
    + rewrite reply_first. cbn [fst snd]. rewrite wire_sendMessage, app_nil_r. done.
  - rewrite IH. done.
Qed.

Lemma invoke_wire sock fetchId stage handler args w :
  let r := invoke sock fetchId stage handler args (false, w) in
  frame r.1.2 = frame w ∧
  trace r.1.2 = trace w ++ Invoked stage :: effects_of stage (run_actions (handler args)) ∧
  r.1.1 = calls_reply (handler args) ∧
  r.2 = run_throws (handler args) ∧
  wire r.1.2
  = wire w ++
    match first_reply (run_actions (handler args)) with
    | Some a =>
        if decide (sockets w !! sock = Some OPEN)
        then [(sock, reply_envelope fetchId (default JUndefined (head a)))] else []
    | None => []
    end.
Proof.
  destruct (extends_invoke sock fetchId stage handler args (false, w)) as (s & E & R & T).
  cbv zeta. split_and!.
  - exact (ext_frame _ _ _ _ _ _ E).
  - exact (ext_trace _ _ _ _ _ _ E).
  - exact R.
  - exact T.
  - unfold invoke. cbn [fst snd]. by rewrite actions_wire.
Qed.

Lemma run_stages_throw mk console errorMsg sock fetchId args (h : EventHandler) post pre :
  ∀ i w,
  Forall (quiet args) pre -> run_throws (h args) = true ->
  let r := run_stages mk console errorMsg sock fetchId args i (pre ++ h :: post) (false, w) in
  r.1 = Returned ∧
  frame r.2.2 = frame w ∧
  wire r.2.2
  = wire w ++ (if decide (sockets w !! sock = Some OPEN)
               then [(sock, reply_envelope fetchId (answer_of_failed errorMsg (h args)))]
               else []) ∧
  ∃ tr, trace r.2.2 = trace w ++ tr ∧ ConsoleError console ∈ tr ∧
        ∀ s, ran tr s -> ∃ k, (k ≤ length pre)%nat ∧ s = mk (i + k)%nat.
Proof.
  induction pre as [|p pre IH]; intros i w Hquiet Hthrow; cbv zeta.
  - cbn [app]. rewrite run_stages_cons. cbn [fst].
    destruct (invoke_wire sock fetchId (mk i) h args w) as (Hf & Ht & Hb & Hth & Hw).
    destruct (invoke sock fetchId (mk i) h args (false, w)) as [[b1 w1] threw].
    cbn [fst snd] in *. rewrite Hth, Hthrow. cbv zeta. cbn [fst snd].
    unfold answer_of_failed. split; [done|].
    assert (Hsock : sockets w1 = sockets w) by (by apply frame_sockets).
    destruct b1.
    + symmetry in Hb. apply first_reply_some in Hb as [a Ha]. rewrite Ha in Hw |- *.
      cbn [fst snd]. split; [done|]. split; [done|].
      eexists. split; [cbn [trace set_trace]; rewrite Ht, <- app_assoc; reflexivity|].
      split; [apply elem_of_app; right; apply list_elem_of_here|].
      intros s Hs. apply ran_app in Hs as [Hs | Hs]; [|by apply ran_console in Hs].
      apply ran_stage_trace in Hs as ->. exists 0%nat. split; [lia | by rewrite Nat.add_0_r].
    + symmetry in Hb. apply first_reply_none in Hb. rewrite Hb in Hw |- *.
      rewrite reply_first. cbn [fst snd head default].
      rewrite frame_sendMessage, wire_sendMessage, trace_sendMessage.
      cbn [frame wire trace set_trace sockets] in *.
      split; [done|]. split.
      { rewrite Hw, app_nil_r. unfold frame in Hf. by rewrite Hsock. }
      eexists. split; [rewrite Ht, <- app_assoc; reflexivity|].
      split; [apply elem_of_app; right; apply list_elem_of_here|].
      intros s Hs. apply ran_app in Hs as [Hs | Hs]; [|by apply ran_console in Hs].
      apply ran_stage_trace in Hs as ->. exists 0%nat. split; [lia | by rewrite Nat.add_0_r].
  - apply Forall_cons in Hquiet as [[Hq1 Hq2] Hquiet].
    cbn [app]. rewrite run_stages_cons. cbn [fst].
    destruct (invoke_wire sock fetchId (mk i) p args w) as (Hf & Ht & Hb & Hth & Hw).
    destruct (invoke sock fetchId (mk i) p args (false, w)) as [[b1 w1] threw].
    cbn [fst snd] in *. rewrite Hth, Hq2. rewrite Hq1 in Hb. subst b1.
    rewrite (first_reply_none _ Hq1), app_nil_r in Hw.
    destruct (IH (S i) w1 Hquiet Hthrow) as (Hr & Hf' & Hw' & tr & Ht' & Hc & Hran).
    assert (Hsock : sockets w1 = sockets w) by (by apply frame_sockets).
    split; [done|]. split; [congruence|]. split; [by rewrite Hw', Hw, Hsock|].
    eexists. split; [rewrite Ht', Ht, <- app_assoc; reflexivity|].
    split; [apply elem_of_app; by right|].
    intros s Hs. apply ran_app in Hs as [Hs | Hs].
    + apply ran_stage_trace in Hs as ->. exists 0%nat. split; [lia | by rewrite Nat.add_0_r].
    + destruct (Hran s Hs) as (k & Hk & ->). exists (S k). split; [simpl; lia | f_equal; lia].
Qed.

Lemma run_stages_throw_at mk console errorMsg sock fetchId args hs k h i w :
  hs !! k = Some h ->
  Forall (quiet args) (take k hs) -> run_throws (h args) = true ->
  let r := run_stages mk console errorMsg sock fetchId args i hs (false, w) in
  r.1 = Returned ∧
  frame r.2.2 = frame w ∧
  wire r.2.2
  = wire w ++ (if decide (sockets w !! sock = Some OPEN)
               then [(sock, reply_envelope fetchId (answer_of_failed errorMsg (h args)))]
               else []) ∧
  ∃ tr, trace r.2.2 = trace w ++ tr ∧ ConsoleError console ∈ tr ∧
        ∀ s, ran tr s -> ∃ k0, (k0 ≤ k)%nat ∧ s = mk (i + k0)%nat.
Proof.
  intros Hk Hq Hthrow.
  pose proof (run_stages_throw mk console errorMsg sock fetchId args h (drop (S k) hs)
                (take k hs) i w Hq Hthrow) as Hrun.
  cbv zeta in Hrun. rewrite (take_drop_middle hs k h Hk) in Hrun.
  destruct Hrun as (Hr & Hf & Hw & tr & Ht & Hc & Hran).
  cbv zeta. split_and!; try done. exists tr. split_and!; try done.
  intros s Hs. destruct (Hran s Hs) as (k0 & Hk0 & ->). exists k0. split; [|done].
  rewrite length_take in Hk0. lia.
Qed.

Lemma pipeline_middleware w event j hj :
  middlewares w !! j = Some hj ->
  pipeline_stages w event !! j = Some (Middleware j, hj).
Proof.
  intros Hj. unfold pipeline_stages.
  rewrite lookup_app_l by (rewrite length_imap; by apply lookup_lt_Some in Hj).
  by rewrite list_lookup_imap, Hj.
Qed.

Lemma pipeline_handler w event j hj :
  default [] (eventHandlers w !! event) !! j = Some hj ->
  pipeline_stages w event !! (length (middlewares w) + j)%nat = Some (Handler j, hj).
Proof.
  intros Hj. unfold pipeline_stages.
  rewrite lookup_app_r by (rewrite length_imap; lia). rewrite length_imap.
  replace (length (middlewares w) + j - length (middlewares w))%nat with j by lia.
  by rewrite list_lookup_imap, Hj.
Qed.

Lemma dispatch_throw sock u event fetchId body header w k s h :
  let args := mkArgs body u fetchId header event in
  pipeline_stages w event !! k = Some (s, h) ->
  (∀ j sj hj, (j < k)%nat -> pipeline_stages w event !! j = Some (sj, hj) -> quiet args hj) ->
  run_throws (h args) = true ->
  let w' := dispatch sock u event fetchId body header w in
  frame w' = frame w ∧
  wire w'
  = wire w ++ (if decide (sockets w !! sock = Some OPEN)
               then [(sock, reply_envelope fetchId (answer_of_failed (stage_error s) (h args)))]
               else []) ∧
  ∃ tr, trace w' = trace w ++ tr ∧ (∃ text, ConsoleError text ∈ tr) ∧
        ∀ j sj hj, (k < j)%nat -> pipeline_stages w event !! j = Some (sj, hj) -> ¬ ran tr sj.
Proof.
  intros args Hk Hbefore Hthrow. cbv zeta. unfold dispatch. fold args.
  pose proof Hk as Hk'.
  apply pipeline_stages_lookup in Hk' as [[Hm ->] | (k' & -> & Hh & ->)].
  - (* a middleware throws *)
    assert (Hq : Forall (quiet args) (take k (middlewares w))).
    { apply Forall_lookup. intros j hj Hj. apply lookup_take_Some in Hj as [Hj Hlt].
      apply (Hbefore j (Middleware j) hj Hlt). by apply pipeline_middleware. }
    destruct (run_stages_throw_at Middleware "Middleware error:" "Middleware error" sock
                fetchId args (middlewares w) k h 0 w Hm Hq Hthrow)
      as (Hr & Hf & Hw & tr & Ht & Hc & Hran).
    destruct (run_stages Middleware "Middleware error:" "Middleware error" sock fetchId
                args 0 (middlewares w) (false, w)) as [exit1 st1].
    cbn [fst snd] in *. subst exit1. split; [done|]. split; [done|].
    exists tr. split; [done|]. split; [eauto|].
    intros j sj hj Hlt Hj Hs. destruct (Hran sj Hs) as (k0 & Hk0 & ->).
    apply pipeline_stages_lookup in Hj as [[_ Heq] | (k'' & _ & _ & Heq)]; [|done].
    injection Heq as <-. lia.
  - (* a handler throws *)
    assert (Hqm : Forall (quiet args) (middlewares w)).
    { apply Forall_lookup. intros j hj Hj.
      apply (Hbefore j (Middleware j) hj); [|by apply pipeline_middleware].
      apply lookup_lt_Some in Hj. lia. }
    destruct (run_stages Middleware "Middleware error:" "Middleware error" sock fetchId
                args 0 (middlewares w) (false, w)) as [exit1 [b1 w1]] eqn:Hrun1.
    destruct (run_stages_spec _ _ _ _ _ _ _ _ _ _ _ Hrun1)
      as (s1 & t1 & E1 & Hran1 & _ & Hq1).
    destruct (Hq1 Hqm eq_refl) as [-> Hb1]. cbn [fst snd] in Hb1. subst b1. cbn [fst snd].
    assert (Hs1 : s1 = []).
    { destruct (ext_sent _ _ _ _ _ _ E1) as [-> | (bd & _ & ?)]; done. }
    subst s1.
    pose proof (ext_frame _ _ _ _ _ _ E1) as Hf1.
    pose proof (ext_wire _ _ _ _ _ _ E1) as Hw1.
    pose proof (ext_trace _ _ _ _ _ _ E1) as Ht1. cbn [fst snd] in Hf1, Hw1, Ht1.
    rewrite app_nil_r in Hw1.
    rewrite (frame_eventHandlers _ _ Hf1).
    assert (Hq : Forall (quiet args) (take k' (default [] (eventHandlers w !! event)))).
    { apply Forall_lookup. intros j hj Hj. apply lookup_take_Some in Hj as [Hj Hlt].
      apply (Hbefore (length (middlewares w) + j)%nat (Handler j) hj); [lia|].
      by apply pipeline_handler. }
    destruct (run_stages_throw_at Handler ("Event handler error for " +:+ event +:+ ":")
                "Handler error" sock fetchId args (default [] (eventHandlers w !! event))
                k' h 0 w1 Hh Hq Hthrow)
      as (Hr & Hf & Hw & tr & Ht & Hc & Hran).
    destruct (run_stages Handler ("Event handler error for " +:+ event +:+ ":")
                "Handler error" sock fetchId args 0
                (default [] (eventHandlers w !! event)) (false, w1)) as [exit2 st2].
    cbn [fst snd] in *. subst exit2.
    split; [congruence|]. split.
    { rewrite Hw, Hw1. by rewrite (frame_sockets _ _ Hf1). }
    exists (t1 ++ tr). split; [by rewrite Ht, Ht1, app_assoc|].
    split; [exists ("Event handler error for " +:+ event +:+ ":"); apply elem_of_app; by right|].
    intros j sj hj Hlt Hj Hs.
    apply pipeline_stages_lookup in Hj as [[Hj ->] | (k'' & -> & Hj & ->)].
    { apply lookup_lt_Some in Hj. lia. }
    apply ran_app in Hs as [Hs | Hs].
    + by destruct (Hran1 _ Hs) as (_ & k0 & h0 & _ & ? & _).
    + destruct (Hran _ Hs) as (k0 & Hk0 & Heq). injection Heq as ->. lia.
Qed.

(** X10: a middleware or handler that throws ends the pipeline.  When every
    stage before it returned without replying or throwing, the stage that
    throws is the last one to run, the error is written to the console, and
    the sender gets exactly one reply: the one the stage made before it
    threw, if it made one, and otherwise a reply of code 500 with the
    message ['Middleware error'] or ['Handler error'], sent whether or not
    the envelope carried a [fetchId]. *)
Theorem failing_stage_is_answered parse sock u raw w message event k s h :
  Z.of_nat (String.length raw) <= maxMessageSize w ->
  parse raw = parse_ok message ->
  msg_type message = type_event ->
  msg_event message = Some event ->
  truthy event = true ->
  sockets w !! sock = Some OPEN ->
  let args := args_of u message event in
  let fetchId := default "" (msg_fetchId message) in
  pipeline_stages w event !! k = Some (s, h) ->
  (∀ j sj hj, (j < k)%nat -> pipeline_stages w event !! j = Some (sj, hj) ->
              quiet args hj) ->
  run_throws (h args) = true ->
  let r := handleMessage parse sock u raw w in
  r.1 = Normal () ∧
  frame r.2 = frame w ∧
  (calls_reply (h args) = false ->
   wire r.2
   = wire w ++ [(sock, reply_envelope fetchId
                         (message_value (mkMessage 500 JNull (stage_error s))))]) ∧
  (∀ a, first_reply (run_actions (h args)) = Some a ->
        wire r.2 = wire w ++ [(sock, reply_envelope fetchId (default JUndefined (head a)))]) ∧
  ∃ tr, trace r.2 = trace w ++ tr ∧
        (∃ text, ConsoleError text ∈ tr) ∧
        ∀ j sj hj, (k < j)%nat -> pipeline_stages w event !! j = Some (sj, hj) ->
                   ¬ ran tr sj.
Proof.
  intros Hsize Hparse Htype Hevent Htruthy Hopen args fetchId Hk Hbefore Hthrow.
  cbv zeta. rewrite (handleMessage_event parse sock u raw w message event) by done.
  cbn [fst snd].
  destruct (dispatch_throw sock u event fetchId (msg_body message)
              (default [] (msg_header message)) w k s h Hk Hbefore Hthrow)
    as (Hf & Hw & tr & Ht & Hc & Hran).
  rewrite decide_True in Hw by done. unfold answer_of_failed in Hw.
  subst args fetchId. unfold args_of in *.
  split; [done|]. split; [done|]. split; [|split].
  - intros Hno. apply first_reply_none in Hno. by rewrite Hno in Hw.
  - intros a Ha. by rewrite Ha in Hw.
  - by exists tr.
Qed.

Lemma failing_stage_is_answered_witness :
  let args := args_of sample_user message_boom "boom" in
  let r := handleMessage sample_parse 0 sample_user frame_boom sample_world in
  Z.of_nat (String.length frame_boom) <= maxMessageSize sample_world ∧
  sample_parse frame_boom = parse_ok message_boom ∧
  sockets sample_world !! 0%nat = Some OPEN ∧
  pipeline_stages sample_world "boom" !! 2%nat = Some (Handler 0, failing_handler) ∧
  (∀ j sj hj, (j < 2)%nat -> pipeline_stages sample_world "boom" !! j = Some (sj, hj) ->
              quiet args hj) ∧
  run_throws (failing_handler args) = true ∧
  calls_reply (failing_handler args) = false ∧
  r.1 = Normal () ∧
  wire r.2
  = wire sample_world
    ++ [(0%nat, reply_envelope "" (message_value (mkMessage 500 JNull "Handler error")))].
Proof.
  intros args r.
  assert (Hsize : Z.of_nat (String.length frame_boom) <= maxMessageSize sample_world)
    by (vm_compute; discriminate).
  assert (Hq : ∀ j sj hj, (j < 2)%nat ->
            pipeline_stages sample_world "boom" !! j = Some (sj, hj) -> quiet args hj).
  { intros [|[|j]] sj hj Hlt Hj; [| |lia]; injection Hj as <- <-; by split. }
  split; [exact Hsize|]. split; [reflexivity|]. split; [reflexivity|].
  split; [reflexivity|]. split; [exact Hq|]. split; [reflexivity|]. split; [reflexivity|].
  destruct (failing_stage_is_answered sample_parse 0 sample_user frame_boom sample_world
              message_boom "boom" 2 (Handler 0) failing_handler
              Hsize eq_refl eq_refl eq_refl eq_refl eq_refl eq_refl Hq eq_refl)
    as (Hn & _ & H500 & _).
  split; [exact Hn|]. exact (H500 eq_refl).
Defined.

(** ** Frames that are no envelope *)

(** X11: what [handleMessage] does with a frame within the size limit that
    is no envelope it knows.  Text that is not JSON is answered with one
    reply of code 400, ['Invalid message format'], that carries no
    [fetchId]; the JSON text [null] makes the call throw a [TypeError] and
    nothing is sent; and an envelope that is neither a reply with a
    [fetchId] nor an event with a name is dropped: nothing is sent, not even
    to an event that carries a [fetchId], and nothing changes. *)
Theorem frames_that_are_no_envelope parse sock u raw w :
  Z.of_nat (String.length raw) <= maxMessageSize w ->
  let r := handleMessage parse sock u raw w in
  (parse raw = parse_SyntaxError ->
   r.1 = Normal () ∧ frame r.2 = frame w ∧ trace r.2 = trace w ∧
   wire r.2
   = wire w ++
     (if decide (sockets w !! sock = Some OPEN)
      then [(sock, mkInternalMessage type_reply None None
                     (message_value (mkMessage 400 JNull "Invalid message format")) None)]
      else [])) ∧
  (parse raw = parse_null -> (∃ text, r.1 = Throw (TypeError text)) ∧ r.2 = w) ∧
  (∀ message,
     parse raw = parse_ok message ->
     msg_type message = type_other ∨
     (msg_type message = type_reply ∧ truthy (default "" (msg_fetchId message)) = false) ∨
     (msg_type message = type_event ∧ truthy (default "" (msg_event message)) = false) ->
     r = (Normal (), w)).
Proof.
  intros Hsize. cbv zeta. unfold handleMessage. cbv zeta.
  rewrite decide_False by lia. split; [|split].
  - intros ->. cbn [fst snd].
    rewrite frame_sendMessage, trace_sendMessage, wire_sendMessage. done.
  - intros ->. cbn [fst snd]. split; [eauto | done].
  - intros message -> [Hother | [[Hreply Hid] | [Hevent Hname]]].
    + by rewrite Hother.
    + by rewrite Hreply, Hid.
    + rewrite Hevent. destruct (msg_event message) as [event|]; [|done].
      change (truthy event = false) in Hname. by rewrite Hname.
Qed.

Lemma frames_that_are_no_envelope_witness :
  let r := handleMessage sample_parse 0 sample_user "{oops" sample_world in
  Z.of_nat (String.length "{oops") <= maxMessageSize sample_world ∧
  sample_parse "{oops" = parse_SyntaxError ∧
  r.1 = Normal () ∧
  wire r.2
  = wire sample_world
    ++ [(0%nat, mkInternalMessage type_reply None None
                  (message_value (mkMessage 400 JNull "Invalid message format")) None)] ∧
  handleMessage sample_parse 0 sample_user "null" sample_world
  = (Throw (TypeError "Cannot destructure property 'type' of 'message' as it is null."),
     sample_world).
Proof.
  intros r.
  assert (Hsize : Z.of_nat (String.length "{oops") <= maxMessageSize sample_world)
    by (vm_compute; discriminate).
  split; [exact Hsize|]. split; [reflexivity|].
  destruct (frames_that_are_no_envelope sample_parse 0 sample_user "{oops" sample_world Hsize)
    as (Hbad & _ & _).
  destruct (Hbad eq_refl) as (Hn & _ & _ & Hw).
  split; [exact Hn|]. split; [exact Hw | reflexivity].
Defined.

(** ** A connection from beginning to end *)

(** X12: a client that connects and goes away again without having been
    asked anything leaves no trace.  On connection it is registered under
    its id with no groups and is sent one [_system_id] event carrying that
    id; when its socket closes, the clients, the tracker and the groups are
    exactly what they were before it came. *)
Theorem connection_round_trip parse clientId sock w :
  reachable parse w ->
  clients w !! clientId = None ->
  sockets w !! sock = None ->
  let w1 := on_connection clientId sock w in
  let w2 := on_socket_closed clientId sock w1 in
  clients w1 = <[clientId := mkConn sock (mkUser clientId [])]> (clients w) ∧
  wire w1
  = wire w ++ [(sock, mkInternalMessage type_event (Some "_system_id") None
                        (message_value
                           (mkMessage 200 (JObj [("id", JStr clientId)])
                              "Connection established")) None)] ∧
  core w2 = core w ∧
  sockets w2 = <[sock := CLOSED]> (sockets w) ∧
  wire w2 = wire w1 ∧ trace w2 = trace w.
Proof.
  intros Hreach Hfresh Hsock.
  pose proof (reachable_consistent parse w Hreach) as [I G].
  pose proof (reachable_index_live parse w Hreach) as L.
  assert (Hindex : clientPendingFetches w !! clientId = None).
  { destruct (clientPendingFetches w !! clientId) as [fs|] eqn:E; [|done].
    pose proof (L clientId fs E) as Hne. apply set_choose_L in Hne as [f Hf].
    pose proof (inv_index_sound w I clientId fs f E Hf) as Hp.
    apply (inv_owner_live w I f) in Hp as [c Hc]. simpl in Hc. congruence. }
  cbv zeta. unfold on_connection, on_socket_closed, sendMessage. cbn [sockets set_clients set_sockets].
  rewrite decide_True by apply lookup_insert_eq.
  unfold cleanupClient. cbn [clients set_sockets set_wire set_clients].
  rewrite lookup_insert_eq. cbn [clientPendingFetches set_sockets set_wire set_clients].
  rewrite Hindex. cbn [user user_groups cleanup_groups snd].
  unfold core. cbn. rewrite delete_insert_id by done. rewrite insert_insert_eq. done.
Qed.

Lemma connection_round_trip_witness :
  let w1 := on_connection "c" 7 sample_group in
  let w2 := on_socket_closed "c" 7 w1 in
  reachable sample_parse sample_group ∧
  clients sample_group !! "c" = None ∧
  sockets sample_group !! 7%nat = None ∧
  clients w1 !! "c" = Some (mkConn 7 (mkUser "c" [])) ∧
  core w2 = core sample_group.
Proof.
  intros w1 w2. split; [exact sample_group_reachable|]. split; [reflexivity|].
  split; [reflexivity|].
  destruct (connection_round_trip sample_parse "c" 7 sample_group sample_group_reachable
              eq_refl eq_refl)
    as (Hc & _ & Hcore & _).
  split; [|exact Hcore]. fold w1 in Hc. rewrite Hc. apply lookup_insert_eq.
Defined.

(** ** Registering handlers *)

Lemma sendMessage_handlers f sock m w :
  sendMessage sock m (set_eventHandlers f w) = set_eventHandlers f (sendMessage sock m w).
Proof. unfold sendMessage. cbn [sockets set_eventHandlers]. by case_decide. Qed.

Lemma reply_handlers f sock fetchId a b w :
  reply sock fetchId a (b, set_eventHandlers f w)
  = ((reply sock fetchId a (b, w)).1, set_eventHandlers f (reply sock fetchId a (b, w)).2).
Proof.
  destruct b; [by rewrite !reply_replied|].
  rewrite !reply_first. cbn [fst snd]. by rewrite sendMessage_handlers.
Qed.

Lemma actions_handlers f sock fetchId stage acts : ∀ b w,
  foldl (exec_action sock fetchId stage) (b, set_eventHandlers f w) acts
  = ((foldl (exec_action sock fetchId stage) (b, w) acts).1,
     set_eventHandlers f (foldl (exec_action sock fetchId stage) (b, w) acts).2).
Proof.
  induction acts as [|[a|tag] acts IH]; intros b w; cbn [foldl exec_action fst snd]; [done| |].
  - rewrite reply_handlers. destruct (reply sock fetchId a (b, w)) as [b' w']. apply IH.
  - apply (IH b (set_trace (fun t => t ++ [Effect stage tag]) w)).
Qed.

Lemma invoke_handlers f sock fetchId stage handler args b w :
  invoke sock fetchId stage handler args (b, set_eventHandlers f w)
  = (((invoke sock fetchId stage handler args (b, w)).1.1,
      set_eventHandlers f (invoke sock fetchId stage handler args (b, w)).1.2),
     (invoke sock fetchId stage handler args (b, w)).2).
Proof.
  unfold invoke. cbn [fst snd].
  by rewrite <- (actions_handlers f sock fetchId stage (run_actions (handler args)) b
                   (set_trace (fun t => t ++ [Invoked stage]) w)).
Qed.

Lemma run_stages_handlers f mk console errorMsg sock fetchId args hs : ∀ i b w,
  run_stages mk console errorMsg sock fetchId args i hs (b, set_eventHandlers f w)
  = ((run_stages mk console errorMsg sock fetchId args i hs (b, w)).1,
     ((run_stages mk console errorMsg sock fetchId args i hs (b, w)).2.1,
      set_eventHandlers f (run_stages mk console errorMsg sock fetchId args i hs (b, w)).2.2)).
Proof.
  induction hs as [|h rest IH]; intros i b w; [done|].
  rewrite !run_stages_cons. cbn [fst snd]. destruct b; [done|].
  rewrite invoke_handlers.
  destruct (invoke sock fetchId (mk i) h args (false, w)) as [[b1 w1] threw].
  cbn [fst snd]. destruct threw; cbv zeta; cbn [fst snd].
  - destruct b1; cbn [fst snd]; [done|].
    rewrite (reply_handlers f sock fetchId _ false
               (set_trace (fun t => t ++ [ConsoleError console]) w1)). done.
  - apply IH.
Qed.

Lemma dispatch_handlers f sock u event fetchId body header w :
  f (eventHandlers w) !! event = eventHandlers w !! event ->
  dispatch sock u event fetchId body header (set_eventHandlers f w)
  = set_eventHandlers f (dispatch sock u event fetchId body header w).
Proof.
  intros Hsame. unfold dispatch. cbn [middlewares set_eventHandlers].
  set (args := mkArgs body u fetchId header event).
  rewrite run_stages_handlers.
  destruct (run_stages Middleware "Middleware error:" "Middleware error" sock fetchId
              args 0 (middlewares w) (false, w)) as [exit1 [b1 w1]] eqn:Hrun1.
  cbn [fst snd]. destruct exit1; [|done]. destruct b1; [done|].
  destruct (run_stages_spec _ _ _ _ _ _ _ _ _ _ _ Hrun1) as (s1 & t1 & E1 & _).
  pose proof (frame_eventHandlers _ _ (ext_frame _ _ _ _ _ _ E1)) as He. cbn [snd] in He.
  cbn [eventHandlers set_eventHandlers]. rewrite He, Hsame.
  rewrite run_stages_handlers.
  destruct (run_stages Handler ("Event handler error for " +:+ event +:+ ":")
              "Handler error" sock fetchId args 0
              (default [] (eventHandlers w !! event)) (false, w1)) as [exit2 [b2 w2]].
  cbn [fst snd]. destruct exit2; [|done].
  destruct (negb b2 && truthy fetchId); [|done].
  by rewrite reply_handlers.
Qed.

(** X13: handlers are kept per event, in the order of their registration.
    [on(event, handler)] puts the handler behind the handlers the event
    already has, and a frame for any other event is handled exactly as if
    the handler had not been registered; [use(handler)] puts the middleware
    behind the middlewares registered before it and in front of every
    handler, whenever those were registered. *)
Theorem handlers_per_event parse sock u raw event handler w :
  (pipeline_stages (on event handler w) event
   = pipeline_stages w event
     ++ [(Handler (length (default [] (eventHandlers w !! event))), handler)]) ∧
  (∀ other, other ≠ event ->
     pipeline_stages (on event handler w) other = pipeline_stages w other) ∧
  (∀ other,
     pipeline_stages (use handler w) other
     = imap (fun i h => (Middleware i, h)) (middlewares w)
       ++ (Middleware (length (middlewares w)), handler)
          :: imap (fun i h => (Handler i, h)) (default [] (eventHandlers w !! other))) ∧
  (∀ message other,
     Z.of_nat (String.length raw) <= maxMessageSize w ->
     parse raw = parse_ok message ->
     msg_type message = type_event ->
     msg_event message = Some other ->
     other ≠ event ->
     handleMessage parse sock u raw (on event handler w)
     = ((handleMessage parse sock u raw w).1,
        on event handler (handleMessage parse sock u raw w).2)).
Proof.
  split_and!.
  - unfold pipeline_stages, on. cbn [middlewares eventHandlers set_eventHandlers].
    rewrite lookup_insert_eq.
    change (default [] (Some (default [] (eventHandlers w !! event) ++ [handler])))
      with (default [] (eventHandlers w !! event) ++ [handler]).
    rewrite imap_app, app_assoc. cbn [imap]. by rewrite Nat.add_0_r.
  - intros other Hne. unfold pipeline_stages, on.
    cbn [middlewares eventHandlers set_eventHandlers]. by rewrite lookup_insert_ne.
  - intros other. unfold pipeline_stages, use.
    cbn [middlewares eventHandlers set_middlewares].
    rewrite imap_app, <- app_assoc. cbn [imap app]. by rewrite Nat.add_0_r.
  - intros message other Hsize Hparse Htype Hevent Hne.
    destruct (truthy other) eqn:Htruthy.
    2:{ unfold handleMessage. cbv zeta. cbn [maxMessageSize on set_eventHandlers].
        rewrite !decide_False by lia. by rewrite Hparse, Htype, Hevent, Htruthy. }
    rewrite (handleMessage_event parse sock u raw w message other) by done.
    rewrite (handleMessage_event parse sock u raw (on event handler w) message other)
      by done.
    cbn [fst snd]. f_equal.
    apply (dispatch_handlers
             (fun m => <[event := default [] (m !! event) ++ [handler]]> m)).
    by rewrite lookup_insert_ne.
Qed.

Lemma handlers_per_event_witness :
  Z.of_nat (String.length frame_nobody) <= maxMessageSize sample_world ∧
  sample_parse frame_nobody = parse_ok message_nobody ∧
  "nobody" ≠ "echo" ∧
  pipeline_stages (on "echo" failing_handler sample_world) "echo"
  = pipeline_stages sample_world "echo" ++ [(Handler 1, failing_handler)] ∧
  handleMessage sample_parse 0 sample_user frame_nobody
    (on "echo" failing_handler sample_world)
  = ((handleMessage sample_parse 0 sample_user frame_nobody sample_world).1,
     on "echo" failing_handler
       (handleMessage sample_parse 0 sample_user frame_nobody sample_world).2).
Proof.
  assert (Hsize : Z.of_nat (String.length frame_nobody) <= maxMessageSize sample_world)
    by (vm_compute; discriminate).
  assert (Hne : "nobody" ≠ "echo") by done.
  split; [exact Hsize|]. split; [reflexivity|]. split; [exact Hne|].
  destruct (handlers_per_event sample_parse 0 sample_user frame_nobody "echo"
              failing_handler sample_world) as (Hlast & _ & _ & Hother).
  split; [exact Hlast|].
  exact (Hother message_nobody "nobody" Hsize eq_refl eq_refl eq_refl Hne).
Defined.

(** ** Closing groups *)

(** X14: [closeByGroups(groups)] disconnects the members of the named
    groups and nobody else.  It returns normally; afterwards none of the
    named groups exists, every client that was a member of one of them is
    gone, every other client is still connected, and the other groups have
    lost exactly the members that were closed.  A name inherited from
    [Object.prototype] among [groups] makes the call throw a [TypeError]
    before any connection is closed. *)
Theorem closeByGroups_closes_members parse groups w :
  reachable parse w ->
  let r := closeByGroups groups w in
  let member := fun id => ∃ g, g ∈ groups ∧ id ∈ membersOf g w in
  ((∃ g, g ∈ groups ∧ inherited g = true) ->
   r = (Throw (TypeError "members is not iterable"), w)) ∧
  ((∀ g, g ∈ groups -> inherited g = false) ->
   r.1 = Normal () ∧
   (∀ g, g ∈ groups -> _groups r.2 !! g = None) ∧
   (∀ id, member id -> clients r.2 !! id = None) ∧
   (∀ id, ¬ member id -> clients r.2 !! id = clients w !! id) ∧
   (∀ g id, id ∈ membersOf g r.2 <-> id ∈ membersOf g w ∧ ¬ member id)).
Proof.
  intros Hreach. cbv zeta. pose proof (reachable_consistent parse w Hreach) as C.
  unfold closeByGroups. split.
  - intros Hinh. by rewrite collect_inherited.
  - intros Hown. destruct (collect_spec groups w ∅ Hown) as (clientIds & -> & Hmem).
    unfold close. cbn [target_ids].
    destruct (close_loop_spec (elements clientIds) w C)
      as (Hn & [_ G'] & Hc & _ & _ & _ & Hg & _).
    assert (Hin : ∀ id, id ∈ elements clientIds
                        <-> ∃ g, g ∈ groups ∧ id ∈ membersOf g w).
    { intros id. rewrite elem_of_elements, Hmem. set_solver. }
    assert (Hmembers : ∀ g id, id ∈ membersOf g (close_loop (elements clientIds) w).2
                               <-> id ∈ membersOf g w ∧
                                   ¬ ∃ g', g' ∈ groups ∧ id ∈ membersOf g' w).
    { intros g id. rewrite Hg, elem_of_difference, elem_of_list_to_set, Hin. done. }
    split; [done|]. split; [|split; [|split]].
    + intros g Hgin.
      destruct (_groups (close_loop (elements clientIds) w).2 !! g) as [M|] eqn:E; [|done].
      pose proof (inv_nonempty _ G' g M E) as Hne. apply set_choose_L in Hne as [id Hid].
      assert (Hid' : id ∈ membersOf g (close_loop (elements clientIds) w).2).
      { unfold membersOf. by rewrite E. }
      apply Hmembers in Hid' as [Hw Hnot]. destruct Hnot. by exists g.
    + intros id Hm. rewrite Hc. by rewrite decide_True by (by apply Hin).
    + intros id Hm. rewrite Hc. by rewrite decide_False by (by rewrite Hin).
    + exact Hmembers.
Qed.

Lemma closeByGroups_closes_members_witness :
  let r := closeByGroups ["g"] sample_group in
  reachable sample_parse sample_group ∧
  (∀ g, g ∈ ["g"] -> inherited g = false) ∧
  r.1 = Normal () ∧
  _groups r.2 !! "g" = None ∧
  clients r.2 !! "b" = None ∧
  closeByGroups ["g"; "constructor"] sample_group
  = (Throw (TypeError "members is not iterable"), sample_group).
Proof.
  intros r.
  assert (Hown : ∀ g, g ∈ ["g"] -> inherited g = false).
  { intros g Hg. apply list_elem_of_singleton in Hg as ->. reflexivity. }
  split; [exact sample_group_reachable|]. split; [exact Hown|].
  destruct (closeByGroups_closes_members sample_parse ["g"] sample_group
              sample_group_reachable) as (_ & Hok).
  destruct (Hok Hown) as (Hn & Hgone & Hclosed & _).
  split; [exact Hn|]. split; [|split].
  - apply Hgone. apply list_elem_of_here.
  - apply Hclosed. exists "g". split; [apply list_elem_of_here|].
    change ("b" ∈ ({["b"]} : gset string)). by apply elem_of_singleton.
  - apply (proj1 (closeByGroups_closes_members sample_parse ["g"; "constructor"]
                    sample_group sample_group_reachable)).
    exists "constructor". split; [|reflexivity].
    apply list_elem_of_further, list_elem_of_here.
Defined.
End ServerProps.
(** * Properties of the client *)

Module ClientProps.
Import Client.

Lemma clear_connectTimeout_timers w h cb d :
  timers (clear_connectTimeout w) !! h = Some (cb, d) -> timers w !! h = Some (cb, d).
Proof.
  unfold clear_connectTimeout. destruct (connectTimeout w) as [hc|]; [|done].
  simpl. rewrite lookup_delete. by case_decide.
Qed.

Lemma clear_connectTimeout_fields w :
  let w' := clear_connectTimeout w in
  reconnectCount w' = reconnectCount w ∧ shouldReconnect w' = shouldReconnect w ∧
  config w' = config w ∧ reconnectTimer w' = reconnectTimer w ∧
  nextHandle w' = nextHandle w.
Proof. unfold clear_connectTimeout. by destruct (connectTimeout w). Qed.

(** What both failure reports do before they call [handleReconnect]. *)
Lemma report_eq f w :
  ∃ w1, report f w = handleReconnect w1 ∧
    status (config w1) = disconnected ∧
    maxReconnectCount (config w1) = maxReconnectCount (config w) ∧
    url (config w1) = url (config w) ∧
    reconnectCount w1 = reconnectCount w ∧ shouldReconnect w1 = shouldReconnect w ∧
    reconnectTimer w1 = reconnectTimer w ∧ nextHandle w1 = nextHandle w ∧
    (∀ h cb d, timers w1 !! h = Some (cb, d) -> timers w !! h = Some (cb, d)).
Proof.
  destruct f; simpl.
  - eexists. split; [reflexivity|]. by split_and!.
  - unfold on_error. eexists. split; [reflexivity|].
    set (w1 := add_log (ConsoleError "WebSocket error:") w).
    destruct (clear_connectTimeout_fields w1) as (Hc & Hs & Hcfg & Hr & Hn).
    simpl. rewrite Hc, Hs, Hcfg, Hr, Hn. split_and!; try done.
    intros h cb d H. by apply clear_connectTimeout_timers in H.
Qed.

Section RetryLoop.

Variable accepts : string -> bool.
Variable n : nat.
Variable u : string.
Hypothesis url_set : u ≠ "".
Hypothesis url_accepted : accepts u = true.

Lemma report_attempting f k w :
  attempting accepts n u k w -> (k < n)%nat -> waiting n u (S k) (report f w).
Proof.
  intros [Hcount Hshould Hmax Hurl _ Htimers Hstale] Hlt.
  destruct (report_eq f w) as (w1 & -> & Hst & Hmax1 & Hurl1 & Hc1 & Hs1 & Hr1 & Hn1 & Ht1).
  unfold handleReconnect. rewrite Hs1, Hshould. simpl.
  rewrite decide_False by lia. simpl.
  split; simpl; try congruence.
  - rewrite Hc1, Hcount. lia.
  - exists (nextHandle w1). split; [done|]. split.
    + rewrite lookup_insert_eq. do 2 f_equal. rewrite Hc1, Hcount. f_equal. lia.
    + intros h cb d H. rewrite lookup_insert in H. case_decide as Hh.
      * subst h. split; [lia | by left].
      * apply Ht1, Htimers in H as [-> Hlt']. split; [lia | by right].
Qed.

Lemma started_eq :
  started accepts n u
  = mkWorld (Some 0%nat) ∅ None 0 true (Some 1%nat)
      (mkConfig (Z.of_nat n) 10000 u connecting)
      {[1%nat := (ConnectTimeoutCb, 10000)]} 2 1 ∅ [].
Proof.
  unfold started, connect, setupWebSocket. simpl.
  destruct (String.eqb u "") eqn:Hu; [by apply String.eqb_eq in Hu|].
  by rewrite url_accepted.
Qed.

Lemma attempting_started : attempting accepts n u 0 (started accepts n u).
Proof.
  rewrite started_eq. split; simpl; try done.
  intros h cb d H. apply lookup_singleton_Some in H as [<- [= <- <-]]. split; [done | lia].
Qed.

Lemma attempting_established : attempting accepts n u 0 (established accepts n u).
Proof.
  unfold established. rewrite started_eq. split; simpl; done.
Qed.

End RetryLoop.

(** ** Giving up *)

Lemma reports_app es1 es2 : reports (es1 ++ es2) = (reports es1 + reports es2)%nat.
Proof.
  induction es1 as [|[f|h] es1 IH]; simpl; [done | by rewrite IH | done].
Qed.

(** A failed attempt is reported twice. *)
Lemma reports_run steps : reports (steps ≫= events_of) = (2 * failed steps)%nat.
Proof.
  induction steps as [|[|h] steps IH]; [done | |].
  - change (reports (Reported errors :: Reported closes :: steps ≫= events_of)
            = (2 * S (failed steps))%nat).
    simpl reports. rewrite IH. lia.
  - change (reports (Fired h :: steps ≫= events_of) = (2 * failed steps)%nat).
    simpl reports. exact IH.
Qed.

Lemma patience_nonneg w : 0 <= patience w.
Proof. unfold patience. destruct (shouldReconnect w); [lia|]. case_decide; lia. Qed.

Lemma patience_halted w :
  patience w <= 0 -> shouldReconnect w = false ∧ status (config w) = disconnected.
Proof.
  unfold patience. destruct (shouldReconnect w); [lia|]. case_decide; [done | lia].
Qed.

(** [handleReconnect] on a client that has just been set [disconnected]
    uses up one report. *)
Lemma patience_handleReconnect w :
  status (config w) = disconnected ->
  patience (handleReconnect w) <= Z.max 0 (patience w - 1).
Proof.
  intros Hst. unfold handleReconnect, patience.
  destruct (shouldReconnect w) eqn:Hs; simpl.
  - case_decide as Hge; simpl.
    + rewrite decide_True by done. lia.
    + rewrite Hs. lia.
  - rewrite Hs. rewrite decide_True by done. lia.
Qed.

(** Run from a timer, with whatever status, it does not add to it. *)
Lemma patience_handleReconnect_any w : patience (handleReconnect w) <= patience w.
Proof.
  unfold handleReconnect, patience.
  destruct (shouldReconnect w) eqn:Hs; simpl.
  - case_decide as Hge; simpl.
    + case_decide; lia.
    + rewrite Hs. lia.
  - by rewrite Hs.
Qed.

Lemma patience_eq w w' :
  shouldReconnect w' = shouldReconnect w -> reconnectCount w' = reconnectCount w ->
  config w' = config w -> patience w' = patience w.
Proof. unfold patience. by intros -> -> ->. Qed.

Lemma patience_deliver accepts e w :
  patience (deliver accepts w e)
  <= Z.max 0 (patience w - match e with Reported _ => 1 | Fired _ => 0 end).
Proof.
  destruct e as [f|handle]; cbn [deliver].
  - destruct (report_eq f w) as (w1 & -> & Hst & Hmax & _ & Hc & Hs & _).
    etransitivity; [apply patience_handleReconnect; exact Hst|].
    apply Z.max_le_compat_l.
    assert (patience w1 <= patience w); [|lia].
    unfold patience. rewrite Hs, Hc, Hmax, Hst.
    destruct (shouldReconnect w); [lia|]. rewrite decide_True by done. case_decide; lia.
  - pose proof (patience_nonneg w) as Hpos.
    assert (patience (fire_timer accepts handle w).2 <= patience w); [|lia].
    unfold fire_timer. destruct (timers w !! handle) as [[cb d]|]; [|done].
    set (w0 := clearTimeout handle w).
    assert (H0 : patience w0 = patience w) by (by apply patience_eq).
    rewrite <- H0. clearbody w0. clear H0 Hpos.
    destruct cb; cbn [run_callback].
    + case_decide; cbn [snd]; [|done].
      etransitivity; [apply patience_handleReconnect_any|].
      unfold ws_close. destruct (ws w0); [|done].
      by rewrite (patience_eq w0 (set_closed _ w0)).
    + destruct (shouldReconnect w0) eqn:Hs; cbn [andb]; [|done].
      case_bool_decide as Hst; [|done].
      unfold setupWebSocket.
      set (w1 := set_status connecting w0).
      assert (H1 : patience w1 = patience w0).
      { unfold patience, w1. simpl. by rewrite Hs. }
      rewrite <- H1.
      assert (Hs1 : shouldReconnect w1 = true) by done.
      clearbody w1. clear H1.
      destruct (String.eqb (url (config w1)) ""); [done|].
      destruct (clear_connectTimeout_fields w1) as (Hc & Hsh & Hcfg & _ & _).
      simpl. rewrite Hcfg.
      destruct (accepts (url (config w1))); cbn [snd];
        unfold patience; simpl; rewrite Hc, Hsh, Hcfg; done.
Qed.

Lemma patience_run accepts es : ∀ w,
  patience (foldl (deliver accepts) w es) <= Z.max 0 (patience w - Z.of_nat (reports es)).
Proof.
  induction es as [|e es IH]; intros w; cbn [foldl].
  - pose proof (patience_nonneg w). simpl. lia.
  - etransitivity; [apply IH|].
    pose proof (patience_deliver accepts e w) as Hstep.
    destruct e; simpl reports; lia.
Qed.

(** Once the client has given up and is [disconnected], reports and timers
    change nothing but the log and the set of armed timers, which
    shrinks. *)
Lemma deliver_halted accepts e w :
  shouldReconnect w = false -> status (config w) = disconnected ->
  let w' := deliver accepts w e in
  shouldReconnect w' = false ∧ status (config w') = disconnected ∧
  ws w' = ws w ∧ nextSocket w' = nextSocket w ∧ pendingFetches w' = pendingFetches w ∧
  closed w' = closed w ∧ nextHandle w' = nextHandle w ∧
  (∀ h cb d, timers w' !! h = Some (cb, d) -> timers w !! h = Some (cb, d)).
Proof.
  intros Hshould Hstatus. destruct e as [[]|handle]; cbv zeta; cbn [deliver report].
  - unfold on_close, handleReconnect. simpl. rewrite Hshould. simpl. by split_and!.
  - unfold on_error, handleReconnect.
    set (w1 := add_log (ConsoleError "WebSocket error:") w).
    assert (H1 : shouldReconnect (clear_connectTimeout w1) = false ∧
                 ws (clear_connectTimeout w1) = ws w ∧
                 nextSocket (clear_connectTimeout w1) = nextSocket w ∧
                 pendingFetches (clear_connectTimeout w1) = pendingFetches w ∧
                 closed (clear_connectTimeout w1) = closed w ∧
                 nextHandle (clear_connectTimeout w1) = nextHandle w).
    { unfold clear_connectTimeout. by destruct (connectTimeout w1). }
    destruct H1 as (Hs & Hw & Hn & Hp & Hc & Hh). simpl. rewrite Hs. simpl.
    split_and!; try done.
    intros h cb d H. by apply clear_connectTimeout_timers in H.
  - assert (Hdel : ∀ h cb d, timers (clearTimeout handle w) !! h = Some (cb, d) ->
                             timers w !! h = Some (cb, d)).
    { intros h cb d H. simpl in H. by apply lookup_delete_Some in H as [_ H]. }
    unfold fire_timer. destruct (timers w !! handle) as [[[] d]|]; simpl.
    + rewrite Hstatus. rewrite decide_False by done. simpl. by split_and!.
    + rewrite Hshould. simpl. by split_and!.
    + by split_and!.
Qed.

Lemma halted_forever accepts es : ∀ w,
  shouldReconnect w = false -> status (config w) = disconnected ->
  let w' := foldl (deliver accepts) w es in
  shouldReconnect w' = false ∧ status (config w') = disconnected ∧
  ws w' = ws w ∧ nextSocket w' = nextSocket w ∧ pendingFetches w' = pendingFetches w ∧
  closed w' = closed w ∧ nextHandle w' = nextHandle w ∧
  (∀ h cb d, timers w' !! h = Some (cb, d) -> timers w !! h = Some (cb, d)).
Proof.
  induction es as [|e es IH]; intros w Hs Hst; cbv zeta; [done|].
  cbn [foldl].
  destruct (deliver_halted accepts e w Hs Hst) as (Hs1 & Hst1 & E1 & E2 & E3 & E4 & E5 & E6).
  destruct (IH (deliver accepts w e) Hs1 Hst1)
    as (F1 & F2 & F3 & F4 & F5 & F6 & F7 & Ht).
  split_and!; try congruence. intros h cb d Hh. by apply E6, Ht.
Qed.

(** More failure reports than [maxReconnectCount] leaves of retries make
    the client give up, whatever timers fire in between. *)
Lemma gives_up_after_reports accepts es w :
  0 <= reconnectCount w ->
  0 <= maxReconnectCount (config w) < Z.of_nat (reports es) ->
  let w' := foldl (deliver accepts) w es in
  shouldReconnect w' = false ∧ status (config w') = disconnected.
Proof.
  intros Hpos Hmore. cbv zeta. apply patience_halted.
  etransitivity; [apply patience_run|].
  assert (patience w <= Z.max 0 (maxReconnectCount (config w)) + 1); [|lia].
  unfold patience. destruct (shouldReconnect w); [lia|]. case_decide; lia.
Qed.

(** C7: once [maxReconnectCount] connection attempts in a row have failed,
    and at least one, the client has given up.  The run starts in any state
    of the client (its counter is never negative); each failure is reported
    by the ['error'] and the ['close'] event of its socket, and timers fire
    between the failures in whatever order.  After the run the client is
    [disconnected] with [shouldReconnect] cleared, and from then on no
    report and no timer, retry timers armed earlier included, schedules a
    timer, opens a socket or changes the status. *)
Theorem retries_stop_after_max accepts (n : nat) (w : World) (steps : list Step)
    (later : list Event) :
  maxReconnectCount (config w) = Z.of_nat n ->
  0 <= reconnectCount w ->
  (1 ≤ failed steps)%nat ->
  (n ≤ failed steps)%nat ->
  let w' := run accepts steps w in
  let w'' := foldl (deliver accepts) w' later in
  status (config w') = disconnected ∧ shouldReconnect w' = false ∧
  status (config w'') = disconnected ∧ shouldReconnect w'' = false ∧
  nextHandle w'' = nextHandle w' ∧
  (∀ h cb d, timers w'' !! h = Some (cb, d) -> timers w' !! h = Some (cb, d)) ∧
  nextSocket w'' = nextSocket w' ∧ ws w'' = ws w'.
Proof.
  intros Hmax Hpos Hone Hall. cbv zeta. unfold run.
  destruct (gives_up_after_reports accepts (steps ≫= events_of) w Hpos) as [Hs Hst].
  { rewrite Hmax, reports_run. lia. }
  destruct (halted_forever accepts later _ Hs Hst) as (H1 & H2 & H3 & H4 & _ & _ & H7 & H8).
  by split_and!.
Qed.

Lemma retries_stop_after_max_witness :
  let w := started ws_scheme 2 "ws://host" in
  let steps := [Fails; Fires 2; Fails] in
  let w' := run ws_scheme steps w in
  maxReconnectCount (config w) = Z.of_nat 2 ∧
  0 <= reconnectCount w ∧
  (1 ≤ failed steps)%nat ∧
  (2 ≤ failed steps)%nat ∧
  nextSocket w' = 2%nat ∧
  status (config w') = disconnected ∧ shouldReconnect w' = false ∧
  ∀ later,
    status (config (foldl (deliver ws_scheme) w' later)) = disconnected ∧
    nextHandle (foldl (deliver ws_scheme) w' later) = nextHandle w' ∧
    nextSocket (foldl (deliver ws_scheme) w' later) = nextSocket w'.
Proof.
  intros w steps w'.
  assert (Hmax : maxReconnectCount (config w) = Z.of_nat 2) by reflexivity.
  assert (Hpos : 0 <= reconnectCount w) by reflexivity.
  assert (Hone : (1 ≤ failed steps)%nat) by (simpl; lia).
  assert (Hall : (2 ≤ failed steps)%nat) by (simpl; lia).
  split; [exact Hmax|]. split; [exact Hpos|]. split; [exact Hone|]. split; [exact Hall|].
  split; [reflexivity|].
  destruct (retries_stop_after_max ws_scheme 2 w steps [] Hmax Hpos Hone Hall)
    as (H1 & H2 & _).
  split; [exact H1|]. split; [exact H2|].
  intros later.
  destruct (retries_stop_after_max ws_scheme 2 w steps later Hmax Hpos Hone Hall)
    as (_ & _ & H3 & _ & H5 & _ & H7 & _).
  split; [exact H3|]. split; [exact H5 | exact H7].
Defined.

(** ** Closing the client *)

Lemma foldl_cleanup_fetch_fields l : ∀ w,
  let w' := foldl cleanup_fetch w l in
  ws w' = ws w ∧ reconnectTimer w' = reconnectTimer w ∧
  reconnectCount w' = reconnectCount w ∧ shouldReconnect w' = shouldReconnect w ∧
  connectTimeout w' = connectTimeout w ∧ config w' = config w ∧
  nextHandle w' = nextHandle w ∧ nextSocket w' = nextSocket w ∧ closed w' = closed w ∧
  (∀ f, pendingFetches w' !! f = if decide (f ∈ l.*1) then None else pendingFetches w !! f) ∧
  (∀ h, timers w' !! h = if decide (h ∈ l.*2) then None else timers w !! h) ∧
  log w' = log w ++ ((fun e => FetchRejected e.1 (Error "Connection closed")) <$> l).
Proof.
  induction l as [|[f h] l IH]; intros w; cbv zeta.
  { simpl. rewrite app_nil_r. by split_and!. }
  cbn [foldl]. destruct (IH (cleanup_fetch w (f, h)))
    as (H1 & H2 & H3 & H4 & H5 & H6 & H7 & H8 & H9 & Hp & Ht & Hl).
  split_and!; try done.
  - intros f'. rewrite Hp. rewrite fmap_cons. cbn [fst].
    destruct (decide (f' ∈ l.*1)) as [Hin|Hnin].
    + by rewrite decide_True by set_solver.
    + simpl. destruct (decide (f' = f)) as [->|Hne].
      * rewrite lookup_delete_eq. by rewrite decide_True by set_solver.
      * rewrite lookup_delete_ne by done. by rewrite decide_False by set_solver.
  - intros h'. rewrite Ht. rewrite fmap_cons. cbn [snd].
    destruct (decide (h' ∈ l.*2)) as [Hin|Hnin].
    + by rewrite decide_True by set_solver.
    + simpl. destruct (decide (h' = h)) as [->|Hne].
      * rewrite lookup_delete_eq. by rewrite decide_True by set_solver.
      * rewrite lookup_delete_ne by done. by rewrite decide_False by set_solver.
  - rewrite Hl. simpl. by rewrite <- app_assoc.
Qed.

Lemma close_spec (w : World) :
  let w' := close w in
  (shouldReconnect w' = false ∧ status (config w') = disconnected ∧ ws w' = None ∧
   reconnectTimer w' = None ∧ connectTimeout w' = None ∧ pendingFetches w' = ∅) ∧
  (∀ sock, ws w = Some sock -> sock ∈ closed w') ∧
  (∀ h, reconnectTimer w = Some h ∨ connectTimeout w = Some h -> timers w' !! h = None) ∧
  (∀ f h, pendingFetches w !! f = Some h ->
          FetchRejected f (Error "Connection closed") ∈ log w' ∧ timers w' !! h = None) ∧
  (∀ h cb d, timers w' !! h = Some (cb, d) -> timers w !! h = Some (cb, d)) ∧
  nextSocket w' = nextSocket w ∧ nextHandle w' = nextHandle w ∧
  reconnectCount w' = reconnectCount w ∧
  maxReconnectCount (config w') = maxReconnectCount (config w) ∧
  maxConnectTimeout (config w') = maxConnectTimeout (config w) ∧
  url (config w') = url (config w).
Proof.
  cbv zeta.
  set (w2 := match reconnectTimer (set_shouldReconnect false w) with
             | Some handle =>
                 set_reconnectTimer None (clearTimeout handle (set_shouldReconnect false w))
             | None => set_shouldReconnect false w
             end).
  set (w3 := clear_connectTimeout w2).
  set (w4 := match ws w3 with Some _ => set_ws None (ws_close w3) | None => w3 end).
  set (w5 := set_status disconnected w4).
  assert (Hclose : close w = foldl cleanup_fetch w5 (map_to_list (pendingFetches w5)))
    by reflexivity.
  destruct (foldl_cleanup_fetch_fields (map_to_list (pendingFetches w5)) w5)
    as (H1 & H2 & H3 & H4 & H5 & H6 & H7 & H8 & H9 & Hp & Ht & Hl).
  rewrite <- Hclose in H1, H2, H3, H4, H5, H6, H7, H8, H9, Hp, Ht, Hl.
  assert (F2 : shouldReconnect w2 = false ∧ reconnectTimer w2 = None ∧
               ws w2 = ws w ∧ connectTimeout w2 = connectTimeout w ∧
               pendingFetches w2 = pendingFetches w ∧ nextSocket w2 = nextSocket w ∧
               closed w2 = closed w ∧ nextHandle w2 = nextHandle w ∧
               reconnectCount w2 = reconnectCount w ∧ config w2 = config w ∧
               (∀ h, timers w2 !! h = if decide (reconnectTimer w = Some h) then None
                                      else timers w !! h)).
  { unfold w2. simpl. destruct (reconnectTimer w) as [hr|] eqn:E; simpl.
    - split_and!; try done.
      intros h. destruct (decide (Some hr = Some h)) as [[= ->]|Hne].
      + by rewrite lookup_delete_eq.
      + rewrite lookup_delete_ne; [done | congruence].
    - split_and!; try done. }
  destruct F2 as (S2 & R2 & W2 & C2 & P2 & N2 & Cl2 & Nh2 & Rc2 & Cf2 & T2).
  assert (F3 : shouldReconnect w3 = false ∧ reconnectTimer w3 = None ∧
               ws w3 = ws w ∧ connectTimeout w3 = None ∧
               pendingFetches w3 = pendingFetches w ∧ nextSocket w3 = nextSocket w ∧
               closed w3 = closed w ∧ nextHandle w3 = nextHandle w ∧
               reconnectCount w3 = reconnectCount w ∧ config w3 = config w ∧
               (∀ h, timers w3 !! h = if decide (connectTimeout w = Some h) then None
                                      else timers w2 !! h)).
  { unfold w3, clear_connectTimeout. rewrite C2.
    destruct (connectTimeout w) as [hc|] eqn:E; simpl.
    - split_and!; try done.
      intros h. destruct (decide (Some hc = Some h)) as [[= ->]|Hne].
      + by rewrite lookup_delete_eq.
      + rewrite lookup_delete_ne; [done | congruence].
    - split_and!; try done. }
  destruct F3 as (S3 & R3 & W3 & C3 & P3 & N3 & Cl3 & Nh3 & Rc3 & Cf3 & T3).
  assert (F5 : shouldReconnect w5 = false ∧ reconnectTimer w5 = None ∧
               ws w5 = None ∧ connectTimeout w5 = None ∧
               pendingFetches w5 = pendingFetches w ∧ nextSocket w5 = nextSocket w ∧
               status (config w5) = disconnected ∧ timers w5 = timers w3 ∧
               nextHandle w5 = nextHandle w ∧ reconnectCount w5 = reconnectCount w ∧
               maxReconnectCount (config w5) = maxReconnectCount (config w) ∧
               maxConnectTimeout (config w5) = maxConnectTimeout (config w) ∧
               url (config w5) = url (config w) ∧
               (∀ sock, ws w = Some sock -> sock ∈ closed w5)).
  { unfold w5, w4, ws_close. rewrite W3.
    destruct (ws w) as [sock|] eqn:E; simpl; rewrite ?Cf3; split_and!; try done.
    intros sock' [= <-]. set_solver. }
  destruct F5 as (S5 & R5 & W5 & C5 & P5 & N5 & St5 & T5 & Nh5 & Rc5 & M5 & Mt5 & U5 & Cl5).
  assert (Hempty : pendingFetches (close w) = ∅).
  { apply map_empty. intros f. rewrite Hp. case_decide as Hin; [done|].
    destruct (pendingFetches w5 !! f) as [h|] eqn:E; [|done].
    destruct Hin. apply list_elem_of_fmap. exists (f, h). split; [done|].
    by apply elem_of_map_to_list. }
  split; [|split; [|split; [|split; [|split]]]].
  - split_and!; try done; congruence.
  - intros sock Hs. rewrite H9. by apply Cl5.
  - intros h Hh. rewrite Ht. case_decide; [done|]. rewrite T5, T3.
    destruct Hh as [Hh | Hh].
    + case_decide; [done|]. rewrite T2. by rewrite decide_True.
    + by rewrite decide_True.
  - intros f h Hf. rewrite <- P5 in Hf. apply elem_of_map_to_list in Hf. split.
    + rewrite Hl. apply elem_of_app. right.
      by apply (list_elem_of_fmap_2 (fun e => FetchRejected e.1 (Error "Connection closed"))
                  _ (f, h)).
    + rewrite Ht. rewrite decide_True; [done|].
      by apply (list_elem_of_fmap_2 snd _ (f, h)).
  - intros h cb d. rewrite Ht. case_decide; [done|]. rewrite T5, T3.
    case_decide; [done|]. rewrite T2. by case_decide.
  - split_and!; congruence.
Qed.

(** X15: [close()] ends the connection for good.  Whatever the state of the
    client, afterwards it is [disconnected] with [shouldReconnect] cleared,
    holds no socket and no handle of a retry or connect timer, the socket it
    had is closed, and every pending request has been rejected with
    ['Connection closed'], its deadline cleared and its entry removed.  From
    then on no failure report of a socket and no timer, in whatever order
    they arrive, opens a socket or changes any of this. *)
Theorem close_is_final accepts (w : World) (es : list Event) :
  let w' := close w in
  let w'' := foldl (deliver accepts) w' es in
  (shouldReconnect w' = false ∧ status (config w') = disconnected ∧ ws w' = None ∧
   reconnectTimer w' = None ∧ connectTimeout w' = None ∧ pendingFetches w' = ∅) ∧
  (∀ sock, ws w = Some sock -> sock ∈ closed w') ∧
  (∀ h, reconnectTimer w = Some h ∨ connectTimeout w = Some h -> timers w' !! h = None) ∧
  (∀ f h, pendingFetches w !! f = Some h ->
          FetchRejected f (Error "Connection closed") ∈ log w' ∧ timers w' !! h = None) ∧
  (shouldReconnect w'' = false ∧ status (config w'') = disconnected ∧ ws w'' = None ∧
   nextSocket w'' = nextSocket w ∧ pendingFetches w'' = ∅ ∧ closed w'' = closed w').
Proof.
  cbv zeta. destruct (close_spec w) as (Hfinal & Hsock & Htimers & Hpending & _ & Hn & _).
  split; [done|]. split; [done|]. split; [done|]. split; [done|].
  destruct Hfinal as (Hs & Hst & Hws & _ & _ & Hp).
  destruct (halted_forever accepts es (close w) Hs Hst) as (I1 & I2 & I3 & I4 & I5 & I6 & _).
  split_and!; try done; congruence.
Qed.

(** ** One failure, two reports *)

(** A timer that is no connect timeout does nothing while an attempt is
    under way. *)
Lemma fire_timer_connecting accepts h w :
  status (config w) = connecting ->
  (∀ d, timers w !! h ≠ Some (ConnectTimeoutCb, d)) ->
  let w' := (fire_timer accepts h w).2 in
  status (config w') = connecting ∧ ws w' = ws w ∧ nextSocket w' = nextSocket w ∧
  reconnectCount w' = reconnectCount w.
Proof.
  intros Hst Hnot. cbv zeta. unfold fire_timer.
  destruct (timers w !! h) as [[[] d]|] eqn:E; [by destruct (Hnot d) | | done].
  cbn [run_callback]. rewrite bool_decide_eq_false_2 by (simpl; congruence).
  by rewrite andb_false_r.
Qed.

Lemma fire_reconnect accepts h d w :
  timers w !! h = Some (ReconnectCb, d) ->
  shouldReconnect w = true ->
  status (config w) = disconnected ->
  url (config w) ≠ "" ->
  accepts (url (config w)) = true ->
  let w' := (fire_timer accepts h w).2 in
  status (config w') = connecting ∧ ws w' = Some (nextSocket w) ∧
  nextSocket w' = S (nextSocket w) ∧ reconnectCount w' = reconnectCount w ∧
  shouldReconnect w' = true ∧ closed w' = closed w ∧
  (∀ h' cb d', timers w' !! h' = Some (cb, d') ->
     (h' = nextHandle w ∧ cb = ConnectTimeoutCb) ∨
     (h' ≠ h ∧ timers w !! h' = Some (cb, d'))).
Proof.
  intros Hh Hshould Hst Hurl Hacc. cbv zeta. unfold fire_timer. rewrite Hh. simpl.
  rewrite Hshould, Hst. simpl. unfold setupWebSocket. simpl.
  destruct (String.eqb (url (config w)) "") eqn:Hu; [by apply String.eqb_eq in Hu|].
  set (w0 := set_status connecting (clearTimeout h w)).
  assert (F : reconnectCount (clear_connectTimeout w0) = reconnectCount w ∧
              shouldReconnect (clear_connectTimeout w0) = shouldReconnect w ∧
              config (clear_connectTimeout w0) = config w0 ∧
              nextHandle (clear_connectTimeout w0) = nextHandle w ∧
              nextSocket (clear_connectTimeout w0) = nextSocket w ∧
              closed (clear_connectTimeout w0) = closed w ∧
              (∀ h' cb d', timers (clear_connectTimeout w0) !! h' = Some (cb, d') ->
                           h' ≠ h ∧ timers w !! h' = Some (cb, d'))).
  { unfold clear_connectTimeout. destruct (connectTimeout w0) as [hc|]; simpl.
    - split_and!; try done. intros h' cb d' H.
      apply lookup_delete_Some in H as [_ H]. apply lookup_delete_Some in H as [Hne H].
      split; [congruence | done].
    - split_and!; try done. intros h' cb d' H. apply lookup_delete_Some in H as [Hne H].
      split; [congruence | done]. }
  destruct F as (F1 & F2 & F3 & F4 & F5 & F6 & F7).
  simpl. rewrite F3. simpl. rewrite Hacc.
  simpl. rewrite F1, F2, F3, F4, F5, F6. split_and!; try done.
  intros h' cb d' H. rewrite lookup_insert in H. case_decide as Heq.
  - injection H as <- <-. left. by subst h'.
  - right. by apply F7.
Qed.

(** X16: one failed attempt that is reported twice uses up two retries.
    When a socket reports an error and then its close, as a browser does
    for a connection that fails, [handleReconnect] runs for each report:
    the counter goes up by two and two retry timers are armed, the handle
    of the first one being forgotten.  The timer armed first opens the next
    socket; the second finds the client [connecting] and does nothing. *)
Theorem error_and_close_count_twice accepts (n : nat) (u : string) (k : nat) (w : World) :
  u ≠ "" ->
  attempting accepts n u k w ->
  (k + 2 ≤ n)%nat ->
  let w2 := report closes (report errors w) in
  reconnectCount w2 = Z.of_nat (k + 2) ∧
  status (config w2) = disconnected ∧
  ∃ h1 h2, h1 ≠ h2 ∧
    timers w2 !! h1 = Some (ReconnectCb, retry_delay (Z.of_nat (k + 1))) ∧
    timers w2 !! h2 = Some (ReconnectCb, retry_delay (Z.of_nat (k + 2))) ∧
    reconnectTimer w2 = Some h2 ∧
    let w3 := (fire_timer accepts h1 w2).2 in
    let w4 := (fire_timer accepts h2 w3).2 in
    status (config w3) = connecting ∧
    ws w3 = Some (nextSocket w2) ∧ nextSocket w3 = S (nextSocket w2) ∧
    status (config w4) = connecting ∧
    ws w4 = ws w3 ∧ nextSocket w4 = nextSocket w3 ∧
    reconnectCount w4 = Z.of_nat (k + 2).
Proof.
  intros Hu Hatt Hlt. cbv zeta.
  assert (Hlt1 : (k < n)%nat) by lia.
  pose proof (att_accepted _ _ _ _ _ Hatt) as Hacc.
  destruct (report_attempting accepts n u errors k w Hatt Hlt1)
    as [Hcount Hshould Hmax Hurl Hstatus (hr & Hr & Harmed & Htimers)].
  set (w1 := report errors w) in *. clearbody w1.
  destruct (Htimers hr _ _ Harmed) as [Hhr _].
  set (w2 := report closes w1).
  assert (F : reconnectCount w2 = Z.of_nat (k + 2) ∧
              status (config w2) = disconnected ∧ shouldReconnect w2 = true ∧
              url (config w2) = u ∧ reconnectTimer w2 = Some (nextHandle w1) ∧
              nextHandle w2 = S (nextHandle w1) ∧
              timers w2 = <[nextHandle w1 := (ReconnectCb, retry_delay (Z.of_nat (k + 2)))]>
                            (timers w1)).
  { unfold w2. cbn [report]. unfold on_close, handleReconnect. simpl.
    rewrite Hshould. simpl. rewrite decide_False by lia. simpl.
    rewrite Hcount. replace (Z.of_nat (k + 2)) with (Z.of_nat (S k) + 1) by lia.
    by split_and!. }
  destruct F as (Fc & Fst & Fsh & Furl & Frt & Fnh & Ft). clearbody w2.
  split; [done|]. split; [done|].
  exists hr, (nextHandle w1).
  assert (Hne : hr ≠ nextHandle w1) by lia.
  assert (T1 : timers w2 !! hr = Some (ReconnectCb, retry_delay (Z.of_nat (k + 1)))).
  { rewrite Ft, lookup_insert_ne by done. rewrite Harmed. do 3 f_equal. lia. }
  assert (T2 : timers w2 !! nextHandle w1
               = Some (ReconnectCb, retry_delay (Z.of_nat (k + 2)))).
  { by rewrite Ft, lookup_insert_eq. }
  split; [done|]. split; [done|]. split; [done|]. split; [done|].
  assert (Hurl2 : url (config w2) ≠ "") by (by rewrite Furl).
  assert (Hacc2 : accepts (url (config w2)) = true) by (by rewrite Furl).
  destruct (fire_reconnect accepts hr _ w2 T1 Fsh Fst Hurl2 Hacc2)
    as (G1 & G2 & G3 & G4 & G5 & G6 & G7).
  assert (Hnot : ∀ d, timers (fire_timer accepts hr w2).2 !! nextHandle w1
                      ≠ Some (ConnectTimeoutCb, d)).
  { intros d E. destruct (G7 _ _ _ E) as [[Heq _] | [_ E2]]; [lia|].
    rewrite T2 in E2. done. }
  destruct (fire_timer_connecting accepts (nextHandle w1) _ G1 Hnot) as (K1 & K2 & K3 & K4).
  split; [exact G1|]. split; [exact G2|]. split; [exact G3|].
  split; [exact K1|]. split; [exact K2|]. split; [exact K3|].
  rewrite K4, G4. exact Fc.
Qed.

Lemma error_and_close_count_twice_witness :
  let w2 := report closes (report errors (started ws_scheme 5 "ws://host")) in
  "ws://host" ≠ "" ∧
  attempting ws_scheme 5 "ws://host" 0 (started ws_scheme 5 "ws://host") ∧
  (0 + 2 ≤ 5)%nat ∧
  reconnectCount w2 = 2 ∧
  timers w2 !! 2%nat = Some (ReconnectCb, 1000) ∧
  timers w2 !! 3%nat = Some (ReconnectCb, 2000) ∧
  reconnectTimer w2 = Some 3%nat.
Proof.
  intros w2.
  assert (Hu : "ws://host" ≠ "") by discriminate.
  assert (Hatt : attempting ws_scheme 5 "ws://host" 0 (started ws_scheme 5 "ws://host"))
    by (by apply attempting_started).
  assert (Hle : (0 + 2 ≤ 5)%nat) by lia.
  split; [exact Hu|]. split; [exact Hatt|]. split; [exact Hle|].
  destruct (error_and_close_count_twice ws_scheme 5 "ws://host" 0
              (started ws_scheme 5 "ws://host") Hu Hatt Hle) as (Hc & _).
  split; [exact Hc|]. split; [reflexivity|]. split; reflexivity.
Defined.

(** ** The delay of a retry *)

Lemma retry_delay_value (count : Z) :
  1 <= count ->
  retry_delay count = (if decide (count <= 5) then 1000 * 2 ^ (count - 1) else 30000).
Proof.
  intros Hpos. unfold retry_delay. case_decide as Hle.
  - assert (count = 1 ∨ count = 2 ∨ count = 3 ∨ count = 4 ∨ count = 5) as Hcases by lia.
    destruct Hcases as [-> | [-> | [-> | [-> | ->]]]]; reflexivity.
  - assert (2 ^ 5 <= 2 ^ (count - 1)) as Hpow by (apply Z.pow_le_mono_r; lia).
    change (2 ^ 5) with 32 in Hpow. lia.
Qed.

Lemma retry_delay_mono (count : Z) :
  1 <= count -> retry_delay count <= retry_delay (count + 1).
Proof.
  intros Hpos. unfold retry_delay.
  assert (2 ^ (count - 1) <= 2 ^ (count + 1 - 1)) by (apply Z.pow_le_mono_r; lia).
  lia.
Qed.

(** X17: the delay of a retry doubles and is capped.  When
    [handleReconnect] schedules a retry it counts it and arms exactly one
    new timer, whose delay is 1000 ms for the first retry, twice the
    previous delay up to the fifth (16000 ms) and 30000 ms from the sixth
    on; the delay never shrinks from one retry to the next. *)
Theorem retry_backoff (w : World) :
  shouldReconnect w = true ->
  0 <= reconnectCount w < maxReconnectCount (config w) ->
  let w' := handleReconnect w in
  let count := reconnectCount w + 1 in
  reconnectCount w' = count ∧
  reconnectTimer w' = Some (nextHandle w) ∧
  timers w' = <[nextHandle w := (ReconnectCb, retry_delay count)]> (timers w) ∧
  retry_delay count = (if decide (count <= 5) then 1000 * 2 ^ (count - 1) else 30000) ∧
  1000 <= retry_delay count <= 30000 ∧
  retry_delay count <= retry_delay (count + 1).
Proof.
  intros Hshould [Hpos Hlt]. cbv zeta. unfold handleReconnect.
  rewrite Hshould. simpl. rewrite decide_False by lia. simpl.
  split; [done|]. split; [done|]. split; [done|].
  assert (Hc : 1 <= reconnectCount w + 1) by lia.
  split; [by apply retry_delay_value|]. split; [|by apply retry_delay_mono].
  rewrite (retry_delay_value _ Hc). case_decide as Hle; [|lia].
  assert (2 ^ 0 <= 2 ^ (reconnectCount w + 1 - 1) <= 2 ^ 4) as Hpow
    by (split; apply Z.pow_le_mono_r; lia).
  change (2 ^ 0) with 1 in Hpow. change (2 ^ 4) with 16 in Hpow. lia.
Qed.

Lemma retry_backoff_witness :
  let w := set_reconnectCount 5 (set_shouldReconnect true (setConfig (Some 10) None init)) in
  shouldReconnect w = true ∧
  0 <= reconnectCount w < maxReconnectCount (config w) ∧
  reconnectCount (handleReconnect w) = 6 ∧
  timers (handleReconnect w) !! 1%nat = Some (ReconnectCb, 30000).
Proof.
  intros w. split; [reflexivity|]. split; [split; [discriminate | reflexivity]|].
  destruct (retry_backoff w eq_refl (conj (Zle_bool_imp_le 0 5 eq_refl) eq_refl))
    as (Hc & _ & Ht & _).
  split; [exact Hc|]. rewrite Ht. apply lookup_insert_eq.
Defined.

(** ** [connect] *)

(** X18: [connect('')] throws after it has changed the state.  The call
    throws ['URL is not set'], but only after it has closed the connection
    the client had, if it had one, and has set the status to [connecting]
    and [shouldReconnect]: the client is left claiming to connect, without a
    socket of its own making and without a timer to ever leave that
    state. *)
Theorem connect_without_url accepts (w : World) :
  let r := connect accepts "" w in
  r.1 = Throw (Error "URL is not set") ∧
  status (config r.2) = connecting ∧
  shouldReconnect r.2 = true ∧
  url (config r.2) = "" ∧
  nextSocket r.2 = nextSocket w ∧
  nextHandle r.2 = nextHandle w ∧
  (∀ h cb d, timers r.2 !! h = Some (cb, d) -> timers w !! h = Some (cb, d)) ∧
  (ws r.2 = None ∨ (ws r.2 = ws w ∧ status (config w) = disconnected)).
Proof.
  cbv zeta. unfold connect.
  set (w0 := if bool_decide (is_Some (ws w))
                && negb (bool_decide (status (config w) = disconnected))
             then close w else w).
  assert (F : nextSocket w0 = nextSocket w ∧ nextHandle w0 = nextHandle w ∧
              (∀ h cb d, timers w0 !! h = Some (cb, d) -> timers w !! h = Some (cb, d)) ∧
              (ws w0 = None ∨ (ws w0 = ws w ∧ status (config w) = disconnected))).
  { unfold w0. destruct (bool_decide (is_Some (ws w))) eqn:Hws; simpl.
    - destruct (bool_decide (status (config w) = disconnected)) eqn:Hst; simpl.
      + apply bool_decide_eq_true in Hst. split_and!; try done. by right.
      + destruct (close_spec w) as ((_ & _ & Hnone & _) & _ & _ & _ & Ht & Hn & Hh & _).
        split_and!; try done. by left.
    - apply bool_decide_eq_false in Hws. split_and!; try done. left.
      destruct (ws w); [|done]. destruct Hws. eauto. }
  destruct F as (F1 & F2 & F3 & F4).
  unfold setupWebSocket. simpl. by split_and!.
Qed.

Lemma setupWebSocket_spec accepts w :
  url (config w) ≠ "" ->
  let r := setupWebSocket accepts w in
  config r.2 = config w ∧ shouldReconnect r.2 = shouldReconnect w ∧
  reconnectCount r.2 = reconnectCount w ∧ pendingFetches r.2 = pendingFetches w ∧
  log r.2 = log w ∧ closed r.2 = closed w ∧ reconnectTimer r.2 = reconnectTimer w ∧
  connectTimeout r.2 = Some (nextHandle w) ∧
  timers r.2 !! nextHandle w = Some (ConnectTimeoutCb, maxConnectTimeout (config w)) ∧
  (accepts (url (config w)) = true ->
   r.1 = Normal () ∧ ws r.2 = Some (nextSocket w) ∧ nextSocket r.2 = S (nextSocket w)) ∧
  (accepts (url (config w)) = false ->
   (∃ text, r.1 = Throw (SyntaxError text)) ∧ ws r.2 = ws w ∧
   nextSocket r.2 = nextSocket w).
Proof.
  intros Hurl. cbv zeta. unfold setupWebSocket.
  destruct (String.eqb (url (config w)) "") eqn:E; [by apply String.eqb_eq in E|].
  assert (F : config (clear_connectTimeout w) = config w ∧
              shouldReconnect (clear_connectTimeout w) = shouldReconnect w ∧
              reconnectCount (clear_connectTimeout w) = reconnectCount w ∧
              pendingFetches (clear_connectTimeout w) = pendingFetches w ∧
              log (clear_connectTimeout w) = log w ∧
              closed (clear_connectTimeout w) = closed w ∧
              reconnectTimer (clear_connectTimeout w) = reconnectTimer w ∧
              nextHandle (clear_connectTimeout w) = nextHandle w ∧
              ws (clear_connectTimeout w) = ws w ∧
              nextSocket (clear_connectTimeout w) = nextSocket w).
  { unfold clear_connectTimeout. by destruct (connectTimeout w). }
  destruct F as (F1 & F2 & F3 & F4 & F5 & F6 & F7 & F8 & F9 & F10).
  set (w1 := clear_connectTimeout w) in *. clearbody w1.
  simpl. rewrite F1.
  destruct (accepts (url (config w))); simpl;
    rewrite ?F1, ?F2, ?F3, ?F4, ?F5, ?F6, ?F7, ?F8, ?F9, ?F10;
    split_and!; try done; try (by rewrite lookup_insert_eq).
  intros _. split_and!; [by eexists | done | done].
Qed.

(** X19: [connect(url)] on a client that holds a socket and is not
    [disconnected] replaces the connection.  The old socket is closed and
    every pending request rejected with ['Connection closed'], as by
    [close()]; the status is [connecting], the retry counter starts again
    from zero and the only timer the client holds is the connect timeout of
    the new attempt.  If the runtime accepts [url], a new socket is created
    for it and the call returns; if it does not, the call throws the
    [SyntaxError] of the [WebSocket] constructor and the client is left
    [connecting] without a socket, its connect timeout armed. *)
Theorem connect_replaces_connection accepts (u : string) (w : World) (sock : nat) :
  u ≠ "" ->
  ws w = Some sock ->
  status (config w) ≠ disconnected ->
  let r := connect accepts u w in
  sock ∈ closed r.2 ∧
  status (config r.2) = connecting ∧ url (config r.2) = u ∧
  shouldReconnect r.2 = true ∧ reconnectCount r.2 = 0 ∧
  pendingFetches r.2 = ∅ ∧
  (∀ f h, pendingFetches w !! f = Some h ->
          FetchRejected f (Error "Connection closed") ∈ log r.2) ∧
  reconnectTimer r.2 = None ∧
  connectTimeout r.2 = Some (nextHandle w) ∧
  timers r.2 !! nextHandle w = Some (ConnectTimeoutCb, maxConnectTimeout (config w)) ∧
  (accepts u = true ->
   r.1 = Normal () ∧ ws r.2 = Some (nextSocket w) ∧ nextSocket r.2 = S (nextSocket w)) ∧
  (accepts u = false ->
   (∃ text, r.1 = Throw (SyntaxError text)) ∧ ws r.2 = None ∧
   nextSocket r.2 = nextSocket w).
Proof.
  intros Hu Hws Hst. cbv zeta. unfold connect.
  rewrite bool_decide_eq_true_2 by (rewrite Hws; eauto).
  rewrite bool_decide_eq_false_2 by done. cbn [negb andb].
  destruct (close_spec w)
    as ((C1 & C2 & C3 & C4 & C5 & C6) & Hsock & _ & Hpending & _ & Hn & Hh & _ & _ & Hmt & _).
  specialize (Hsock sock Hws).
  assert (Hrej : ∀ f h, pendingFetches w !! f = Some h ->
                        FetchRejected f (Error "Connection closed") ∈ log (close w)).
  { intros f h Hf. by destruct (Hpending f h Hf). }
  clear Hpending. set (w0 := close w) in *. clearbody w0.
  set (w4 := set_reconnectCount 0
               (set_shouldReconnect true (set_status connecting (set_url u w0)))).
  assert (Hurl : url (config w4) ≠ "") by done.
  destruct (setupWebSocket_spec accepts w4 Hurl)
    as (S1 & S2 & S3 & S4 & S5 & S6 & S7 & S8 & S9 & Syes & Sno).
  rewrite S1, S2, S3, S4, S5, S6, S7, S8.
  split; [done|]. split; [done|]. split; [done|]. split; [done|]. split; [done|].
  split; [done|]. split; [done|]. split; [done|].
  split; [by rewrite <- Hh|].
  split; [rewrite <- Hh, <- Hmt; exact S9|].
  split.
  - intros Hacc. destruct (Syes Hacc) as (Y1 & Y2 & Y3). rewrite Y1, Y2, Y3.
    by rewrite <- Hn.
  - intros Hacc. destruct (Sno Hacc) as (N1 & N2 & N3). rewrite N2, N3.
    split; [exact N1|]. split; [exact C3 | exact Hn].
Qed.

Lemma connect_replaces_connection_witness :
  let w := established ws_scheme 5 "ws://old" in
  let r := connect ws_scheme "ws://new" w in
  let r' := connect ws_scheme "ftp://new" w in
  "ws://new" ≠ "" ∧ "ftp://new" ≠ "" ∧
  ws w = Some 0%nat ∧
  status (config w) ≠ disconnected ∧
  ws_scheme "ws://new" = true ∧ ws_scheme "ftp://new" = false ∧
  r.1 = Normal () ∧
  0%nat ∈ closed r.2 ∧
  ws r.2 = Some 1%nat ∧
  url (config r.2) = "ws://new" ∧
  (∃ text, r'.1 = Throw (SyntaxError text)) ∧
  0%nat ∈ closed r'.2 ∧
  ws r'.2 = None ∧ status (config r'.2) = connecting.
Proof.
  intros w r r'.
  assert (Hu : "ws://new" ≠ "") by discriminate.
  assert (Hu' : "ftp://new" ≠ "") by discriminate.
  assert (Hst : status (config w) ≠ disconnected) by discriminate.
  split; [exact Hu|]. split; [exact Hu'|]. split; [reflexivity|]. split; [exact Hst|].
  split; [reflexivity|]. split; [reflexivity|].
  destruct (connect_replaces_connection ws_scheme "ws://new" w 0 Hu eq_refl Hst)
    as (H1 & _ & H3 & _ & _ & _ & _ & _ & _ & _ & Hyes & _).
  destruct (Hyes eq_refl) as (Y1 & Y2 & _).
  split; [exact Y1|]. split; [exact H1|]. split; [exact Y2|]. split; [exact H3|].
  destruct (connect_replaces_connection ws_scheme "ftp://new" w 0 Hu' eq_refl Hst)
    as (H1' & H2' & _ & _ & _ & _ & _ & _ & _ & _ & _ & Hno).
  destruct (Hno eq_refl) as (N1 & N2 & _).
  split; [exact N1|]. split; [exact H1'|]. split; [exact N2 | exact H2'].
Defined.

(** ** Pending requests and the connection *)

Lemma handleReconnect_pending w :
  pendingFetches (handleReconnect w) = pendingFetches w ∧
  (∀ f r, FetchRejected f r ∈ log (handleReconnect w) -> FetchRejected f r ∈ log w).
Proof.
  unfold handleReconnect. destruct (shouldReconnect w); simpl; [|done].
  case_decide; simpl; [|done]. split; [done|].
  intros f r Hin. apply elem_of_app in Hin as [Hin | Hin]; [done|].
  by apply list_elem_of_singleton in Hin.
Qed.

Lemma clear_connectTimeout_pending w :
  pendingFetches (clear_connectTimeout w) = pendingFetches w ∧
  log (clear_connectTimeout w) = log w.
Proof. unfold clear_connectTimeout. by destruct (connectTimeout w). Qed.

Lemma deliver_pending accepts e w :
  pendingFetches (deliver accepts w e) = pendingFetches w ∧
  (∀ f r, FetchRejected f r ∈ log (deliver accepts w e) -> FetchRejected f r ∈ log w).
Proof.
  destruct e as [[]|handle]; cbn [deliver report].
  - unfold on_close.
    destruct (handleReconnect_pending (add_log OnDisconnect (set_status disconnected w)))
      as [Hp Hl]. split; [by rewrite Hp|].
    intros f r Hin. apply Hl in Hin. simpl in Hin.
    apply elem_of_app in Hin as [Hin | Hin]; [done|].
    by apply list_elem_of_singleton in Hin.
  - unfold on_error. set (w1 := add_log (ConsoleError "WebSocket error:") w).
    destruct (clear_connectTimeout_pending w1) as [Hp1 Hl1].
    destruct (handleReconnect_pending
                (add_log OnDisconnect (set_status disconnected (clear_connectTimeout w1))))
      as [Hp Hl]. split; [by rewrite Hp; simpl; rewrite Hp1|].
    intros f r Hin. apply Hl in Hin. simpl in Hin. rewrite Hl1 in Hin. simpl in Hin.
    apply elem_of_app in Hin as [Hin | Hin]; [|by apply list_elem_of_singleton in Hin].
    apply elem_of_app in Hin as [Hin | Hin]; [done|].
    by apply list_elem_of_singleton in Hin.
  - unfold fire_timer. destruct (timers w !! handle) as [[[] d]|]; [| |done].
    + cbn [run_callback]. case_decide; [|done]. cbn [snd].
      destruct (handleReconnect_pending (ws_close (clearTimeout handle w))) as [Hp Hl].
      split.
      * rewrite Hp. unfold ws_close. simpl. by destruct (ws w).
      * intros f r Hin. apply Hl in Hin. unfold ws_close in Hin. simpl in Hin.
        by destruct (ws w).
    + cbn [run_callback].
      destruct (shouldReconnect (clearTimeout handle w)
                && bool_decide (status (config (clearTimeout handle w)) = disconnected));
        [|done].
      unfold setupWebSocket.
      destruct (String.eqb (url (config (set_status connecting (clearTimeout handle w)))) "");
        [done|].
      destruct (clear_connectTimeout_pending (set_status connecting (clearTimeout handle w)))
        as [Hp Hl].
      simpl.
      match goal with |- context [accepts ?x] => destruct (accepts x) end;
        simpl; rewrite Hp, Hl; done.
Qed.

(** X20: losing the connection rejects nothing.  Neither a close or error
    report of a socket nor a retry or connect timer removes a request from
    [pendingFetches] or rejects one, whatever the state of the client and
    however many of them arrive: on the client a request in flight when the
    connection drops stays pending, and only [close()] rejects it before its
    own deadline. *)
Theorem connection_loss_rejects_nothing accepts (w : World) (es : list Event) :
  let w' := foldl (deliver accepts) w es in
  pendingFetches w' = pendingFetches w ∧
  (∀ f r, FetchRejected f r ∈ log w' -> FetchRejected f r ∈ log w).
Proof.
  cbv zeta. revert w. induction es as [|e es IH]; intros w; [done|].
  cbn [foldl]. destruct (deliver_pending accepts e w) as [Hp Hl].
  destruct (IH (deliver accepts w e)) as [Hp' Hl']. split; [congruence|].
  intros f r Hin. by apply Hl, Hl'.
Qed.
End ClientProps.

(** * Properties of the client's messaging *)

Module ClientIOProps.
Import ClientIO.

Lemma sendMessage_open m w :
  ws w = Some Server.OPEN ->
  sendMessage m w = (Normal (), set_wire (fun l => l ++ [m]) w).
Proof. unfold sendMessage. by intros ->. Qed.

Lemma sendMessage_closed m w :
  ws w ≠ Some Server.OPEN -> sendMessage m w = (Throw not_connected, w).
Proof. unfold sendMessage. by destruct (ws w) as [[]|]. Qed.

(** ** [fetch] *)

(** X21: on the client [fetch] needs a connection, and a send that fails
    leaves the request behind.  With a status other than [connected] the
    call is rejected with ['WebSocket is not connected'] and nothing
    changes.  With the status [connected] but a socket that is not open the
    call is rejected with the same error and nothing is sent; a
    fire-and-forget call changes nothing, but a call that expects a reply
    has already stored the request and armed its deadline, and they stay
    until the deadline fires, which removes the request and rejects the
    promise nobody holds. *)
Theorem fetch_without_connection fetchId event data config w :
  (status w ≠ Client.connected ->
   fetch fetchId event data config w = (Throws (Error "WebSocket is not connected"), w)) ∧
  (status w = Client.connected -> ws w ≠ Some Server.OPEN ->
   let r := fetch fetchId event data config w in
   r.1 = Throws (Error "WebSocket is not connected") ∧
   wire r.2 = wire w ∧
   (final_hasReply w config = false -> r.2 = w) ∧
   (final_hasReply w config = true ->
    pendingFetches r.2 = pendingFetches w ∪ {[fetchId]} ∧
    timers r.2 = <[fetchId := final_maxWait w config]> (timers w) ∧
    let w' := fire_timer fetchId r.2 in
    (fetchId ∉ pendingFetches w') ∧
    timers w' !! fetchId = None ∧
    settled w'
    = settled w ++ [(fetchId,
                     Rejected (Error ("Request timeout after "
                                      +:+ pretty (final_maxWait w config) +:+ "ms")))])).
Proof.
  split.
  - intros Hst. unfold fetch. by rewrite bool_decide_eq_false_2.
  - intros Hst Hws. cbv zeta. unfold fetch. rewrite bool_decide_eq_true_2 by done.
    cbn [negb]. destruct (final_hasReply w config) eqn:Hreply; cbn [negb].
    + rewrite sendMessage_closed by done. cbn [fst snd].
      split; [done|]. split; [done|]. split; [done|]. intros _.
      split; [done|]. split; [done|].
      unfold fire_timer. cbn [timers set_timers set_pendingFetches].
      rewrite lookup_insert_eq. unfold on_timeout. simpl.
      split; [set_solver|]. split; [by rewrite lookup_delete_eq | done].
    + rewrite sendMessage_closed by done. cbn [fst snd].
      split; [done|]. split; [done|]. split; [done|]. done.
Qed.

Lemma fetch_without_connection_witness :
  let r := fetch "f1" "ping" JNull None sample_client_closing in
  status sample_client_closing = Client.connected ∧
  ws sample_client_closing ≠ Some Server.OPEN ∧
  final_hasReply sample_client_closing None = true ∧
  r.1 = Throws (Error "WebSocket is not connected") ∧
  pendingFetches r.2 = pendingFetches sample_client_closing ∪ {["f1"]} ∧
  timers r.2 !! "f1" = Some 10000.
Proof.
  intros r.
  assert (Hws : ws sample_client_closing ≠ Some Server.OPEN) by discriminate.
  split; [reflexivity|]. split; [exact Hws|]. split; [reflexivity|].
  destruct (proj2 (fetch_without_connection "f1" "ping" JNull None sample_client_closing)
              eq_refl Hws) as (H1 & _ & _ & H4).
  destruct (H4 eq_refl) as (Hp & Ht & _).
  split; [exact H1|]. split; [exact Hp|]. fold r in Ht. rewrite Ht. apply lookup_insert_eq.
Defined.

Lemma first_outcome_fresh f log : f ∉ log.*1 -> Server.first_outcome f log = None.
Proof.
  induction log as [|[g o] log IH]; simpl; [done|]. intros Hnot.
  apply not_elem_of_cons in Hnot as [Hne Hnot]. rewrite decide_False by done. by apply IH.
Qed.

Lemma first_outcome_settled f o log :
  f ∉ log.*1 -> Server.first_outcome f (log ++ [(f, o)]) = Some o.
Proof.
  induction log as [|[g o'] log IH]; simpl.
  - intros _. by rewrite decide_True.
  - intros Hnot. apply not_elem_of_cons in Hnot as [Hne Hnot].
    rewrite decide_False by done. by apply IH.
Qed.

(** X22: one request of the client, from [fetch] to its settlement.  On a
    connected client with an open socket, [fetch] with a fresh id stores
    the request, arms its deadline, transmits one event frame carrying the
    id and returns a pending promise.  A reply frame with that id fulfils
    the promise with the body of the frame, and the deadline, if it fires
    first, rejects it with ['Request timeout after <maxWait>ms']; either
    way the stored requests and the timers are what they were before the
    call and nothing more is sent. *)
Theorem client_fetch_round_trip parse fetchId event data config w :
  status w = Client.connected ->
  ws w = Some Server.OPEN ->
  final_hasReply w config = true ->
  fetchId ≠ "" ->
  (fetchId ∉ pendingFetches w) -> timers w !! fetchId = None ->
  (fetchId ∉ (settled w).*1) ->
  let r := fetch fetchId event data config w in
  r.1 = ReturnPromise fetchId ∧
  result_state r.2 r.1 = None ∧
  wire r.2
  = wire w ++ [Server.event_message event (Some fetchId) (final_code w config) data
                 (final_msg w config)] ∧
  pendingFetches r.2 = pendingFetches w ∪ {[fetchId]} ∧
  timers r.2 = <[fetchId := final_maxWait w config]> (timers w) ∧
  (∀ raw message,
     parse raw = Server.parse_ok message ->
     msg_type message = type_reply ->
     msg_fetchId message = Some fetchId ->
     let r' := handleMessage parse raw r.2 in
     r'.1 = Normal () ∧
     result_state r'.2 r.1 = Some (Fulfilled (msg_body message)) ∧
     pendingFetches r'.2 = pendingFetches w ∧ timers r'.2 = timers w ∧
     wire r'.2 = wire r.2) ∧
  (let w' := fire_timer fetchId r.2 in
   result_state w' r.1
   = Some (Rejected (Error ("Request timeout after "
                            +:+ pretty (final_maxWait w config) +:+ "ms"))) ∧
   pendingFetches w' = pendingFetches w ∧ timers w' = timers w ∧ wire w' = wire r.2).
Proof.
  intros Hst Hws Hreply Hne Hfresh Htimer Hunsettled. cbv zeta. unfold fetch.
  rewrite bool_decide_eq_true_2 by done. rewrite Hreply. cbn [negb].
  rewrite sendMessage_open by done. cbn [fst snd].
  split; [done|]. split; [by apply first_outcome_fresh|]. split; [done|].
  split; [done|]. split; [done|]. split.
  - intros raw message Hparse Htype Hid. cbv zeta. unfold handleMessage.
    rewrite Hparse, Htype, Hid.
    change (default "" (Some fetchId)) with fetchId.
    rewrite (ServerProps.truthy_nonempty fetchId Hne). cbn [fst snd].
    unfold resolve_pending. cbn [pendingFetches set_wire set_pendingFetches set_timers].
    rewrite decide_True by set_solver. simpl.
    split; [done|]. split; [by apply first_outcome_settled|].
    split; [set_solver|]. split; [|done].
    rewrite delete_delete_eq. by apply delete_insert_id.
  - unfold fire_timer. cbn [timers set_wire set_pendingFetches set_timers].
    rewrite lookup_insert_eq. unfold on_timeout. simpl.
    split; [by apply first_outcome_settled|]. split; [set_solver|].
    split; [by apply delete_insert_id | done].
Qed.

Lemma client_fetch_round_trip_witness :
  let r := fetch "f1" "hello" (JNum 1) None sample_client in
  let reply := mkInternalMessage type_reply None (Some "f1") (JStr "hi") None in
  let parse := fun _ : string => Server.parse_ok reply in
  status sample_client = Client.connected ∧
  ws sample_client = Some Server.OPEN ∧
  final_hasReply sample_client None = true ∧
  "f1" ≠ "" ∧
  ("f1" ∉ pendingFetches sample_client) ∧
  timers sample_client !! "f1" = None ∧
  ("f1" ∉ (settled sample_client).*1) ∧
  r.1 = ReturnPromise "f1" ∧
  wire r.2 = [Server.event_message "hello" (Some "f1") 200 (JNum 1) "success"] ∧
  result_state (handleMessage parse "any" r.2).2 r.1 = Some (Fulfilled (JStr "hi")) ∧
  result_state (fire_timer "f1" r.2) r.1
  = Some (Rejected (Error "Request timeout after 10000ms")).
Proof.
  intros r reply parse.
  assert (Hne : "f1" ≠ "") by discriminate.
  assert (Hfresh : "f1" ∉ pendingFetches sample_client) by set_solver.
  assert (Hunsettled : "f1" ∉ (settled sample_client).*1) by apply not_elem_of_nil.
  split; [reflexivity|]. split; [reflexivity|]. split; [reflexivity|].
  split; [exact Hne|]. split; [exact Hfresh|]. split; [reflexivity|].
  split; [exact Hunsettled|].
  destruct (client_fetch_round_trip parse "f1" "hello" (JNum 1) None sample_client
              eq_refl eq_refl eq_refl Hne Hfresh eq_refl Hunsettled)
    as (H1 & _ & H3 & _ & _ & Hreply & Htimeout & _).
  split; [exact H1|]. split; [exact H3|]. split.
  - by destruct (Hreply "any" reply eq_refl eq_refl eq_refl) as (_ & Hr & _).
  - exact Htimeout.
Defined.

(** ** The pipeline of the client *)

Lemma frame_ws w w' : frame w' = frame w -> ws w' = ws w.
Proof. unfold frame. congruence. Qed.

Lemma grows_refl fetchId st : grows fetchId st st [].
Proof. split; rewrite ?app_nil_r; auto. Qed.

Lemma grows_trans fetchId st1 st2 st3 s12 s23 :
  grows fetchId st1 st2 s12 -> grows fetchId st2 st3 s23 ->
  grows fetchId st1 st3 (s12 ++ s23).
Proof.
  intros [F1 W1 M1 S1] [F2 W2 M2 S2]. split.
  - congruence.
  - by rewrite W2, W1, app_assoc.
  - intros H. destruct (M1 H) as [H2 ->]. destruct (M2 H2) as [H3 ->]. done.
  - destruct S1 as [-> | (b1 & -> & H2 & Hopen)].
    + destruct S2 as [-> | (b2 & -> & H3 & Hopen)]; [by left|].
      right. exists b2. split; [done|]. split; [done|]. by rewrite <- (frame_ws _ _ F1).
    + destruct (M2 H2) as [H3 ->]. right. exists b1. by rewrite app_nil_r.
Qed.

Lemma grows_effect fetchId st e :
  grows fetchId st (st.1, set_trace (fun t => t ++ [e]) st.2) [].
Proof. split; simpl; rewrite ?app_nil_r; auto. Qed.

Lemma reply_grows fetchId args st :
  let r := reply fetchId args st in
  (∃ sent, grows fetchId st r.2 sent) ∧
  r.2.1 = true ∧
  (ws st.2 = Some Server.OPEN -> r.1 = Normal ()) ∧
  (r.1 = Normal () ∨ r.1 = Throw not_connected).
Proof.
  cbv zeta. unfold reply. destruct st as [[] w]; cbn [fst snd].
  - split; [exists []; apply grows_refl|]. split; [done|]. split; [done | by left].
  - destruct (decide (ws w = Some Server.OPEN)) as [Hopen|Hclosed].
    + rewrite sendMessage_open by done. cbn [fst snd].
      split; [|split; [done|split; [done | by left]]].
      eexists. split; cbn [fst snd]; [done | reflexivity | done |].
      right. eexists. split; [reflexivity | done].
    + rewrite sendMessage_closed by done. cbn [fst snd].
      split; [|split; [done|split; [done | by right]]].
      exists []. split; cbn [fst snd]; rewrite ?app_nil_r; auto.
Qed.

Lemma exec_grows fetchId stage p : ∀ st,
  ∃ sent, grows fetchId st (exec fetchId stage p st).1 sent.
Proof.
  induction p as [| |args k IH|tag k IH]; intros st; cbn [exec fst].
  - exists []. apply grows_refl.
  - exists []. apply grows_refl.
  - destruct (reply_grows fetchId args st) as ((s1 & G1) & _).
    destruct (IH (reply fetchId args st).1 (reply fetchId args st).2) as (s2 & G2).
    exists (s1 ++ s2). by apply (grows_trans _ _ _ _ _ _ G1).
  - destruct (IH (st.1, set_trace (fun t => t ++ [Server.Effect stage tag]) st.2))
      as (s2 & G2).
    exists ([] ++ s2). apply (grows_trans _ _ _ _ _ _ (grows_effect fetchId st _) G2).
Qed.

Lemma invoke_grows fetchId stage handler args st :
  ∃ sent, grows fetchId st (invoke fetchId stage handler args st).1 sent.
Proof.
  unfold invoke.
  destruct (exec_grows fetchId stage (handler args)
              (st.1, set_trace (fun t => t ++ [Server.Invoked stage]) st.2)) as (s & G).
  exists ([] ++ s). apply (grows_trans _ _ _ _ _ _ (grows_effect fetchId st _) G).
Qed.

Lemma run_stages_grows mk console errorMsg fetchId args hs : ∀ i st,
  let r := run_stages mk console errorMsg fetchId args i hs st in
  (∃ sent, grows fetchId st r.2 sent) ∧
  (ws st.2 = Some Server.OPEN -> ∀ e, r.1 ≠ Thrown e) ∧
  (∀ e, r.1 = Thrown e -> e = not_connected).
Proof.
  induction hs as [|h rest IH]; intros i st; cbv zeta; cbn [run_stages].
  { split; [exists []; apply grows_refl|]. done. }
  destruct (st.1) eqn:Hst.
  { split; [exists []; apply grows_refl|]. done. }
  destruct (invoke_grows fetchId (mk i) h args st) as (s1 & G1).
  destruct (invoke fetchId (mk i) h args st) as [st1 threw]. cbn [fst snd] in *.
  destruct threw.
  - set (st2 := (st1.1, console_error console st1.2)).
    assert (G2 : grows fetchId st1 st2 []) by apply grows_effect.
    pose proof (grows_trans _ _ _ _ _ _ G1 G2) as G12.
    destruct (st1.1) eqn:H1; cbn [fst].
    + split; [by eexists|]. done.
    + destruct (reply_grows fetchId [message_value (mkMessage 500 JNull errorMsg)] st2)
        as ((s3 & G3) & _ & Hopen & Hres).
      pose proof (grows_trans _ _ _ _ _ _ G12 G3) as G.
      assert (Hws : ws st2.2 = ws st.2) by (apply frame_ws; apply (grow_frame _ _ _ _ G12)).
      destruct (reply fetchId [message_value (mkMessage 500 JNull errorMsg)] st2)
        as [[[]|e] st3]; cbn [fst snd] in *.
      * split; [by eexists|]. done.
      * split; [by eexists|]. split.
        -- intros Hws'. rewrite <- Hws in Hws'. by specialize (Hopen Hws').
        -- intros e' [= <-]. destruct Hres as [Hres | Hres]; congruence.
  - destruct (IH (S i) st1) as ((s2 & G2) & Hopen & Hthrown).
    split; [|split].
    + exists (s1 ++ s2). by apply (grows_trans _ _ _ _ _ _ G1).
    + intros Hws. apply Hopen. by rewrite (frame_ws _ _ (grow_frame _ _ _ _ G1)).
    + exact Hthrown.
Qed.

Lemma dispatch_grows event fetchId body header w :
  let r := dispatch event fetchId body header w in
  (∃ b sent, grows fetchId (false, w) (b, r.2) sent) ∧
  (ws w = Some Server.OPEN -> r.1 = Normal ()) ∧
  (r.1 = Normal () ∨ r.1 = Throw not_connected).
Proof.
  cbv zeta. unfold dispatch.
  set (args := mkArgs body fetchId header).
  destruct (run_stages_grows Server.Middleware "Middleware error:" "Middleware error"
              fetchId args (middlewares w) 0 (false, w)) as ((s1 & G1) & Hopen1 & Hth1).
  destruct (run_stages Server.Middleware "Middleware error:" "Middleware error"
              fetchId args 0 (middlewares w) (false, w)) as [exit1 [b1 w1]].
  cbn [fst snd] in *.
  destruct exit1 as [| |e1].
  - destruct b1.
    + split; [by eexists _, _|]. split; [done | by left].
    + destruct (run_stages_grows Server.Handler
                  ("Event handler error for " +:+ event +:+ ":") "Handler error"
                  fetchId args (default [] (eventHandlers w1 !! event)) 0 (false, w1))
        as ((s2 & G2) & Hopen2 & Hth2).
      destruct (run_stages Server.Handler
                  ("Event handler error for " +:+ event +:+ ":") "Handler error"
                  fetchId args 0 (default [] (eventHandlers w1 !! event)) (false, w1))
        as [exit2 [b2 w2]].
      cbn [fst snd] in *.
      pose proof (grows_trans _ _ _ _ _ _ G1 G2) as G12.
      assert (Hws1 : ws w1 = ws w) by apply (frame_ws _ _ (grow_frame _ _ _ _ G1)).
      destruct exit2 as [| |e2].
      * destruct (negb b2 && Server.truthy fetchId).
        -- destruct (reply_grows fetchId [Server.no_handler event] (b2, w2))
             as ((s3 & G3) & _ & Hopen3 & Hres3).
           pose proof (grows_trans _ _ _ _ _ _ G12 G3) as G.
           destruct (reply fetchId [Server.no_handler event] (b2, w2)) as [c3 [b3 w3]].
           cbn [fst snd] in *. split; [by eexists _, _|]. split; [|done].
           intros Hws. apply Hopen3.
           pose proof (frame_ws _ _ (grow_frame _ _ _ _ G12)) as Hws2.
           cbn [snd] in Hws2. congruence.
        -- split; [by eexists _, _|]. split; [done | by left].
      * split; [by eexists _, _|]. split; [done | by left].
      * split; [by eexists _, _|]. split.
        -- intros Hws. rewrite <- Hws1 in Hws. by destruct (Hopen2 Hws e2).
        -- right. by rewrite (Hth2 e2).
  - split; [by eexists _, _|]. split; [done | by left].
  - split; [by eexists _, _|]. split.
    + intros Hws. by destruct (Hopen1 Hws e1).
    + right. by rewrite (Hth1 e1).
Qed.

(** X23: the client answers an event at most once and never by accident.
    Whatever the middlewares and handlers do, the state of the client is
    kept and at most one frame leaves: a reply envelope with the [fetchId]
    of the event.  With an open socket [handleMessage] returns normally;
    with a socket that is not open nothing leaves at all, and the call
    either returns normally or throws ['WebSocket is not connected']. *)
Theorem client_at_most_one_reply parse raw w message event :
  parse raw = Server.parse_ok message ->
  msg_type message = type_event ->
  msg_event message = Some event ->
  Server.truthy event = true ->
  let r := handleMessage parse raw w in
  let fetchId := default "" (msg_fetchId message) in
  frame r.2 = frame w ∧
  ∃ sent,
    wire r.2 = wire w ++ sent ∧
    (length sent ≤ 1)%nat ∧
    (∀ m, m ∈ sent -> ∃ body, m = reply_envelope fetchId body) ∧
    (ws w = Some Server.OPEN -> r.1 = Normal ()) ∧
    (ws w ≠ Some Server.OPEN ->
     sent = [] ∧ (r.1 = Normal () ∨ r.1 = Throw (Error "WebSocket is not connected"))).
Proof.
  intros Hparse Htype Hevent Htruthy. cbv zeta. unfold handleMessage.
  rewrite Hparse, Htype, Hevent, Htruthy.
  destruct (dispatch_grows event (default "" (msg_fetchId message)) (msg_body message)
              (default [] (msg_header message)) w) as ((b & sent & G) & Hopen & Hres).
  split; [exact (grow_frame _ _ _ _ G)|].
  exists sent. split; [exact (grow_wire _ _ _ _ G)|].
  destruct (grow_sent _ _ _ _ G) as [-> | (body & -> & _ & Hws)].
  - split; [simpl; lia|]. split; [by intros m Hm; apply elem_of_nil in Hm|].
    split; [done|]. intros _. split; [done|]. exact Hres.
  - split; [simpl; lia|]. split.
    { intros m Hm. apply list_elem_of_singleton in Hm as ->. by exists body. }
    split; [done|]. intros Hclosed. by destruct Hclosed.
Qed.

Lemma client_at_most_one_reply_witness :
  let message := mkInternalMessage type_event (Some "ping") (Some "f9") JNull None in
  let parse := fun _ : string => Server.parse_ok message in
  let r := handleMessage parse "any" sample_client in
  parse "any" = Server.parse_ok message ∧
  Server.truthy "ping" = true ∧
  ws sample_client = Some Server.OPEN ∧
  r.1 = Normal () ∧
  wire r.2 = [reply_envelope "f9" (JStr "pong")] ∧
  (handleMessage parse "any" sample_client_closing).1 = Normal () ∧
  wire (handleMessage parse "any" sample_client_closing).2 = [].
Proof.
  intros message parse r.
  split; [reflexivity|]. split; [reflexivity|]. split; [reflexivity|].
  destruct (client_at_most_one_reply parse "any" sample_client message "ping"
              eq_refl eq_refl eq_refl eq_refl) as (_ & sent & _ & _ & _ & Hopen & _).
  split; [exact (Hopen eq_refl)|]. split; [reflexivity|]. split; reflexivity.
Defined.

(** ** Events nobody answers *)

Lemma exec_silent fetchId stage p : ∀ w,
  silent p = true ->
  ∃ w', exec fetchId stage p (false, w) = ((false, w'), false) ∧
        frame w' = frame w ∧ wire w' = wire w ∧ ∃ tr, trace w' = trace w ++ tr.
Proof.
  induction p as [| |args k IH|tag k IH]; intros w Hs; cbn [silent] in Hs; try done.
  - exists w. split_and!; try done. exists []. by rewrite app_nil_r.
  - destruct (IH (set_trace (fun t => t ++ [Server.Effect stage tag]) w) Hs)
      as (w' & He & Hf & Hw & tr & Ht).
    exists w'. cbn [exec fst snd]. split_and!; try done.
    exists ([Server.Effect stage tag] ++ tr). rewrite Ht. simpl. by rewrite <- app_assoc.
Qed.

Lemma run_stages_silent mk console errorMsg fetchId args hs : ∀ i w,
  Forall (fun h : EventHandler => silent (h args) = true) hs ->
  ∃ w', run_stages mk console errorMsg fetchId args i hs (false, w) = (Completed, (false, w')) ∧
        frame w' = frame w ∧ wire w' = wire w ∧ ∃ tr, trace w' = trace w ++ tr.
Proof.
  induction hs as [|h rest IH]; intros i w Hall.
  - exists w. split_and!; try done. exists []. by rewrite app_nil_r.
  - apply Forall_cons in Hall as [Hh Hall]. cbn [run_stages fst]. unfold invoke. cbn [fst snd].
    destruct (exec_silent fetchId (mk i) (h args)
                (set_trace (fun t => t ++ [Server.Invoked (mk i)]) w) Hh)
      as (w1 & He & Hf1 & Hw1 & tr1 & Ht1).
    rewrite He. cbn [fst snd].
    destruct (IH (S i) w1 Hall) as (w' & Hr & Hf & Hw & tr & Ht).
    exists w'. split; [done|]. split; [by rewrite Hf, Hf1|]. split; [by rewrite Hw, Hw1|].
    exists ([Server.Invoked (mk i)] ++ tr1 ++ tr). rewrite Ht, Ht1. simpl.
    by rewrite <- !app_assoc.
Qed.

(** X24: what the client does with a frame that nobody answers.  Text that
    is not JSON is reported on the console and, unlike on the server, not
    answered.  An event every middleware and handler of which returns
    without replying or throwing is answered with a reply of code 404 if it
    carries a [fetchId] and the socket is open, and not at all without a
    [fetchId]; if it carries one and the socket is not open, the reply
    cannot leave, [handleMessage] throws ['WebSocket is not connected'] and
    the listener reports it on the console. *)
Theorem client_unanswered_frames parse raw w :
  let r := handleMessage parse raw w in
  (parse raw = Server.parse_SyntaxError ->
   r.1 = Normal () ∧ frame r.2 = frame w ∧ wire r.2 = wire w ∧
   trace r.2 = trace w ++ [Server.ConsoleError "Failed to parse message:"]) ∧
  (∀ message event,
     parse raw = Server.parse_ok message ->
     msg_type message = type_event ->
     msg_event message = Some event ->
     Server.truthy event = true ->
     let fetchId := default "" (msg_fetchId message) in
     let args := mkArgs (msg_body message) fetchId (default [] (msg_header message)) in
     Forall (fun h : EventHandler => silent (h args) = true) (middlewares w) ->
     Forall (fun h : EventHandler => silent (h args) = true)
       (default [] (eventHandlers w !! event)) ->
     frame r.2 = frame w ∧
     (Server.truthy fetchId = false -> r.1 = Normal () ∧ wire r.2 = wire w) ∧
     (Server.truthy fetchId = true -> ws w = Some Server.OPEN ->
      r.1 = Normal () ∧
      wire r.2
      = wire w ++ [reply_envelope fetchId
                     (message_value
                        (mkMessage 404 JNull ("No handler for event: " +:+ event)))]) ∧
     (Server.truthy fetchId = true -> ws w ≠ Some Server.OPEN ->
      r.1 = Throw (Error "WebSocket is not connected") ∧ wire r.2 = wire w ∧
      ∃ tr, trace (on_message parse (Text raw) w)
            = trace w ++ tr ++ [Server.ConsoleError "Error handling message:"])).
Proof.
  cbv zeta. split.
  - intros Hparse. unfold handleMessage. rewrite Hparse. by split_and!.
  - intros message event Hparse Htype Hevent Htruthy Hmw Hh.
    unfold on_message, handleMessage. rewrite Hparse, Htype, Hevent, Htruthy.
    unfold dispatch.
    set (fetchId := default "" (msg_fetchId message)) in *.
    set (args := mkArgs (msg_body message) fetchId (default [] (msg_header message))) in *.
    destruct (run_stages_silent Server.Middleware "Middleware error:" "Middleware error"
                fetchId args (middlewares w) 0 w Hmw) as (w1 & -> & Hf1 & Hw1 & tr1 & Ht1).
    cbn [fst snd].
    assert (He : eventHandlers w1 = eventHandlers w) by (unfold frame in Hf1; congruence).
    rewrite He.
    destruct (run_stages_silent Server.Handler
                ("Event handler error for " +:+ event +:+ ":") "Handler error"
                fetchId args (default [] (eventHandlers w !! event)) 0 w1 Hh)
      as (w2 & -> & Hf2 & Hw2 & tr2 & Ht2).
    cbn [fst snd negb andb].
    assert (Hws : ws w2 = ws w) by (unfold frame in Hf1, Hf2; congruence).
    destruct (Server.truthy fetchId) eqn:Hid.
    + unfold reply. cbn [fst snd].
      destruct (decide (ws w = Some Server.OPEN)) as [Hopen|Hclosed].
      * rewrite sendMessage_open by congruence. cbn [fst snd].
        split; [change (frame w2 = frame w); congruence|]. split; [done|]. split; [|done].
        intros _ _. split; [done|]. simpl. by rewrite Hw2, Hw1.
      * rewrite sendMessage_closed by congruence. cbn [fst snd].
        split; [by rewrite Hf2, Hf1|]. split; [done|]. split; [done|].
        intros _ _. split; [done|]. split; [by rewrite Hw2, Hw1|].
        exists (tr1 ++ tr2). simpl. rewrite Ht2, Ht1. by rewrite <- !app_assoc.
    + cbn [fst snd]. split; [by rewrite Hf2, Hf1|]. split; [|done].
      intros _. split; [done|]. by rewrite Hw2, Hw1.
Qed.

Lemma client_unanswered_frames_witness :
  let message := mkInternalMessage type_event (Some "other") (Some "f3") JNull None in
  let parse := fun _ : string => Server.parse_ok message in
  let args := mkArgs JNull "f3" [] in
  parse "any" = Server.parse_ok message ∧
  Server.truthy "other" = true ∧
  Forall (fun h : EventHandler => silent (h args) = true) (middlewares sample_client) ∧
  Forall (fun h : EventHandler => silent (h args) = true)
    (default [] (eventHandlers sample_client !! "other")) ∧
  Server.truthy "f3" = true ∧
  ws sample_client = Some Server.OPEN ∧
  ws sample_client_closing ≠ Some Server.OPEN ∧
  wire (handleMessage parse "any" sample_client).2
  = [reply_envelope "f3"
       (message_value (mkMessage 404 JNull "No handler for event: other"))] ∧
  (handleMessage parse "any" sample_client_closing).1
  = Throw (Error "WebSocket is not connected").
Proof.
  intros message parse args.
  assert (Hclosed : ws sample_client_closing ≠ Some Server.OPEN) by discriminate.
  split; [reflexivity|]. split; [reflexivity|].
  split; [apply Forall_nil_2|]. split; [apply Forall_nil_2|].
  split; [reflexivity|]. split; [reflexivity|]. split; [exact Hclosed|]. split.
  - destruct (proj2 (client_unanswered_frames parse "any" sample_client) message "other"
                eq_refl eq_refl eq_refl eq_refl (Forall_nil_2 _) (Forall_nil_2 _))
      as (_ & _ & Hopen & _).
    by destruct (Hopen eq_refl eq_refl) as [_ Hw].
  - destruct (proj2 (client_unanswered_frames parse "any" sample_client_closing) message
                "other" eq_refl eq_refl eq_refl eq_refl (Forall_nil_2 _) (Forall_nil_2 _))
      as (_ & _ & _ & Hshut).
    by destruct (Hshut eq_refl Hclosed) as [Hthrow _].
Defined.

(** ** A reply that cannot leave *)

Lemma exec_replied fetchId stage p w :
  (exec fetchId stage p (true, w)).1.1 = true ∧
  wire (exec fetchId stage p (true, w)).1.2 = wire w ∧
  frame (exec fetchId stage p (true, w)).1.2 = frame w.
Proof.
  destruct (exec_grows fetchId stage p (true, w)) as (sent & G).
  destruct (grow_mono _ _ _ _ G eq_refl) as [Hflag ->].
  split; [done|]. split.
  - rewrite (grow_wire _ _ _ _ G). apply app_nil_r.
  - exact (grow_frame _ _ _ _ G).
Qed.

Lemma exec_replies_first fetchId stage p : ∀ w,
  replies_first p = true -> ws w ≠ Some Server.OPEN ->
  (exec fetchId stage p (false, w)).1.1 = true ∧
  wire (exec fetchId stage p (false, w)).1.2 = wire w ∧
  frame (exec fetchId stage p (false, w)).1.2 = frame w.
Proof.
  induction p as [| |args k IH|tag k IH]; intros w Hp Hws; cbn [replies_first] in Hp;
    try done.
  - cbn [exec]. unfold reply. cbn [fst snd]. rewrite sendMessage_closed by done.
    cbn [fst snd]. apply exec_replied.
  - cbn [exec fst snd].
    destruct (IH (set_trace (fun t => t ++ [Server.Effect stage tag]) w) Hp Hws)
      as (H1 & H2 & H3).
    by split_and!.
Qed.

Lemma run_stages_replied mk console errorMsg fetchId args hs i w :
  run_stages mk console errorMsg fetchId args i hs (true, w) = (Completed, (true, w)).
Proof. by destruct hs. Qed.

Lemma run_stages_lost_reply mk console errorMsg fetchId args (h : EventHandler) post pre :
  ∀ i w,
  Forall (fun h' : EventHandler => silent (h' args) = true) pre ->
  replies_first (h args) = true ->
  ws w ≠ Some Server.OPEN ->
  let r := run_stages mk console errorMsg fetchId args i (pre ++ h :: post) (false, w) in
  (r.1 = Completed ∨ r.1 = Returned) ∧ r.2.1 = true ∧
  wire r.2.2 = wire w ∧ frame r.2.2 = frame w.
Proof.
  induction pre as [|p pre IH]; intros i w Hpre Hh Hws; cbv zeta.
  - cbn [app run_stages fst]. unfold invoke. cbn [fst snd].
    destruct (exec_replies_first fetchId (mk i) (h args)
                (set_trace (fun t => t ++ [Server.Invoked (mk i)]) w) Hh Hws)
      as (Hflag & Hwire & Hframe).
    destruct (exec fetchId (mk i) (h args)
                (false, set_trace (fun t => t ++ [Server.Invoked (mk i)]) w))
      as [[b1 w1] threw].
    cbn [fst snd] in *. subst b1. destruct threw; cbn [fst snd].
    + split; [by right|]. by split_and!.
    + rewrite run_stages_replied. cbn [fst snd]. split; [by left|]. by split_and!.
  - apply Forall_cons in Hpre as [Hp Hpre]. cbn [app run_stages fst]. unfold invoke.
    cbn [fst snd].
    destruct (exec_silent fetchId (mk i) (p args)
                (set_trace (fun t => t ++ [Server.Invoked (mk i)]) w) Hp)
      as (w1 & He & Hf1 & Hw1 & _).
    rewrite He. cbn [fst snd].
    assert (Hws1 : ws w1 ≠ Some Server.OPEN).
    { rewrite (frame_ws _ _ Hf1). exact Hws. }
    destruct (IH (S i) w1 Hpre Hh Hws1) as (Hexit & Hflag & Hwire & Hframe).
    split; [done|]. split; [done|]. split; [by rewrite Hwire, Hw1 | by rewrite Hframe, Hf1].
Qed.

Lemma run_stages_lost_reply_at mk console errorMsg fetchId args hs k h i w :
  hs !! k = Some h ->
  Forall (fun h' : EventHandler => silent (h' args) = true) (take k hs) ->
  replies_first (h args) = true ->
  ws w ≠ Some Server.OPEN ->
  let r := run_stages mk console errorMsg fetchId args i hs (false, w) in
  (r.1 = Completed ∨ r.1 = Returned) ∧ r.2.1 = true ∧
  wire r.2.2 = wire w ∧ frame r.2.2 = frame w.
Proof.
  intros Hk Hpre Hh Hws.
  pose proof (run_stages_lost_reply mk console errorMsg fetchId args h (drop (S k) hs)
                (take k hs) i w Hpre Hh Hws) as Hrun.
  cbv zeta in Hrun. by rewrite (take_drop_middle hs k h Hk) in Hrun.
Qed.

(** X25: on a client whose socket is not open, a reply that a handler
    makes is lost in silence.  When the first stage that does not simply
    return starts, after effects of its own, with a call of [reply], the
    call throws inside that stage with the flag [replied] already set:
    whatever the stage does with the exception, no reply of code 500 or 404
    is tried in its place, so that nothing is transmitted, the state of the
    client is kept and [handleMessage] returns normally instead of
    throwing. *)
Theorem client_reply_is_lost parse raw w message event k h :
  parse raw = Server.parse_ok message ->
  msg_type message = type_event ->
  msg_event message = Some event ->
  Server.truthy event = true ->
  ws w ≠ Some Server.OPEN ->
  let fetchId := default "" (msg_fetchId message) in
  let args := mkArgs (msg_body message) fetchId (default [] (msg_header message)) in
  let stages := middlewares w ++ default [] (eventHandlers w !! event) in
  stages !! k = Some h ->
  (∀ j hj, (j < k)%nat -> stages !! j = Some hj -> silent (hj args) = true) ->
  replies_first (h args) = true ->
  let r := handleMessage parse raw w in
  r.1 = Normal () ∧ wire r.2 = wire w ∧ frame r.2 = frame w.
Proof.
  intros Hparse Htype Hevent Htruthy Hws fetchId args stages Hk Hbefore Hh. cbv zeta.
  unfold handleMessage. rewrite Hparse, Htype, Hevent, Htruthy. unfold dispatch.
  fold fetchId. fold args. unfold stages in Hk, Hbefore.
  apply lookup_app_Some in Hk as [Hk | [Hlen Hk]].
  - assert (Hpre : Forall (fun h' : EventHandler => silent (h' args) = true)
                     (take k (middlewares w))).
    { apply Forall_lookup. intros j hj Hj. apply lookup_take_Some in Hj as [Hj Hlt].
      apply (Hbefore j hj Hlt). by apply lookup_app_l_Some. }
    destruct (run_stages_lost_reply_at Server.Middleware "Middleware error:"
                "Middleware error" fetchId args (middlewares w) k h 0 w Hk Hpre Hh Hws)
      as (Hexit & Hflag & Hwire & Hframe).
    destruct (run_stages Server.Middleware "Middleware error:" "Middleware error"
                fetchId args 0 (middlewares w) (false, w)) as [exit1 [b1 w1]].
    cbn [fst snd] in *. subst b1. by destruct Hexit as [-> | ->].
  - assert (Hmw : Forall (fun h' : EventHandler => silent (h' args) = true) (middlewares w)).
    { apply Forall_lookup. intros j hj Hj. apply (Hbefore j hj).
      - apply lookup_lt_Some in Hj. unfold EventHandler in *. lia.
      - by apply lookup_app_l_Some. }
    destruct (run_stages_silent Server.Middleware "Middleware error:" "Middleware error"
                fetchId args (middlewares w) 0 w Hmw) as (w1 & -> & Hf1 & Hw1 & _).
    cbn [fst snd].
    assert (He : eventHandlers w1 = eventHandlers w) by (unfold frame in Hf1; congruence).
    rewrite He.
    assert (Hws1 : ws w1 ≠ Some Server.OPEN) by (by rewrite (frame_ws _ _ Hf1)).
    assert (Hpre : Forall (fun h' : EventHandler => silent (h' args) = true)
                     (take (k - length (middlewares w))
                        (default [] (eventHandlers w !! event)))).
    { apply Forall_lookup. intros j hj Hj. apply lookup_take_Some in Hj as [Hj Hlt].
      assert (Hjk : (length (middlewares w) + j < k)%nat)
        by (unfold EventHandler in *; lia).
      apply (Hbefore _ hj Hjk).
      rewrite lookup_app_r by (unfold EventHandler in *; lia).
      match goal with
      | |- _ !! ?n = _ => replace n with j by (unfold EventHandler in *; lia)
      end.
      exact Hj. }
    destruct (run_stages_lost_reply_at Server.Handler
                ("Event handler error for " +:+ event +:+ ":") "Handler error" fetchId args
                (default [] (eventHandlers w !! event)) (k - length (middlewares w)) h 0 w1
                Hk Hpre Hh Hws1)
      as (Hexit & Hflag & Hwire & Hframe).
    destruct (run_stages Server.Handler
                ("Event handler error for " +:+ event +:+ ":") "Handler error" fetchId args 0
                (default [] (eventHandlers w !! event)) (false, w1)) as [exit2 [b2 w2]].
    cbn [fst snd] in *. subst b2.
    destruct Hexit as [-> | ->]; cbn [negb andb fst snd]; split_and!; congruence.
Qed.

Lemma client_reply_is_lost_witness :
  let message := mkInternalMessage type_event (Some "ping") (Some "f9") JNull None in
  let parse := fun _ : string => Server.parse_ok message in
  let args := mkArgs JNull "f9" [] in
  let r := handleMessage parse "any" sample_client_closing in
  parse "any" = Server.parse_ok message ∧
  Server.truthy "ping" = true ∧
  ws sample_client_closing ≠ Some Server.OPEN ∧
  (middlewares sample_client_closing
   ++ default [] (eventHandlers sample_client_closing !! "ping")) !! 0%nat
  = Some (answering (JStr "pong")) ∧
  replies_first (answering (JStr "pong") args) = true ∧
  r.1 = Normal () ∧ wire r.2 = wire sample_client_closing.
Proof.
  intros message parse args r.
  assert (Hclosed : ws sample_client_closing ≠ Some Server.OPEN) by discriminate.
  split; [reflexivity|]. split; [reflexivity|]. split; [exact Hclosed|].
  split; [reflexivity|]. split; [reflexivity|].
  destruct (client_reply_is_lost parse "any" sample_client_closing message "ping" 0
              (answering (JStr "pong")) eq_refl eq_refl eq_refl eq_refl Hclosed eq_refl)
    as (H1 & H2 & _); [intros j hj Hlt; lia | reflexivity |].
  split; [exact H1 | exact H2].
Defined.

End ClientIOProps.
